(** * IsItPossibleWrittenByAI: the text scorer and the folder aggregator

    A shallow embedding of [main.py]: [analyze_text_features] (feature
    extraction, composite score, label), [read_file_content] and the data
    part of [analyze_folder] (file discovery filter, per-file loop, summary).

    Numbers are what Python and numpy compute with: IEEE binary64, here
    Rocq's primitive [float], so that [0/0] is [nan], comparisons with
    [nan] are false and every rounding is the machine's.  Strings are
    sequences of Unicode code points.  The natural-language toolkit, the
    readability library and the file system are collaborators of the
    program and enter as section variables. *)

From Stdlib Require Import ZArith NArith List Bool Lia Floats String Ascii.
Import ListNotations.

Set Warnings "-inexact-float".

(* ================================================================== *)
(** ** Python strings *)

Module Str.

(** A Python [str]: a sequence of code points. *)
Definition char := N.
Definition str := list char.

(** An ASCII literal as a [str]. *)
Definition lit (s : string) : str :=
  map N_of_ascii (list_ascii_of_string s).

Definition str_eqb (a b : str) : bool :=
  if list_eq_dec N.eq_dec a b then true else false.

(** [len(s)], of a string or a list *)
Definition len {A : Type} (s : list A) : Z := Z.of_nat (List.length s).

(** [not s], of a string or a list: it is empty. *)
Definition py_not {A : Type} (s : list A) : bool :=
  match s with
  | [] => true
  | _ :: _ => false
  end.

(** The code points [str.strip()] removes (those with [str.isspace()]). *)
Definition isspace (c : char) : bool :=
  ((9 <=? c) && (c <=? 13) || (28 <=? c) && (c <=? 32)
   || (c =? 133) || (c =? 160) || (c =? 5760)
   || (8192 <=? c) && (c <=? 8202)
   || (c =? 8232) || (c =? 8233) || (c =? 8239) || (c =? 8287)
   || (c =? 12288))%N.

Fixpoint lstrip (s : str) : str :=
  match s with
  | c :: t => if isspace c then lstrip t else s
  | [] => []
  end.

Definition rstrip (s : str) : str := rev (lstrip (rev s)).

(** [s.strip()] *)
Definition strip (s : str) : str := rstrip (lstrip s).

(** [s.startswith(p)] *)
Fixpoint startswith (s p : str) : bool :=
  match p, s with
  | [], _ => true
  | a :: p', b :: s' => (a =? b)%N && startswith s' p'
  | _ :: _, [] => false
  end.

(** [s.endswith(p)] *)
Definition endswith (s p : str) : bool := startswith (rev s) (rev p).

(** [p in s]: [p] occurs in [s] as a contiguous run. *)
Fixpoint contains (s p : str) : bool :=
  startswith s p ||
  match s with
  | [] => false
  | _ :: t => contains t p
  end.

(** [sep.join(parts)] *)
Fixpoint join (sep : str) (parts : list str) : str :=
  match parts with
  | [] => []
  | [p] => p
  | p :: rest => p ++ sep ++ join sep rest
  end.

End Str.
Import Str.

(* ================================================================== *)
(** ** The operating-system paths used by the folder walk (POSIX) *)

Module OsPath.

Definition sep : char := 47%N.

(** [os.path.join(root, name)] for a relative [name]. *)
Definition path_join (root name : str) : str :=
  match name with
  | c :: _ => if (c =? sep)%N then name else
      match rev root with
      | [] => name
      | l :: _ => if (l =? sep)%N then root ++ name else root ++ sep :: name
      end
  | [] =>
      match rev root with
      | [] => []
      | l :: _ => if (l =? sep)%N then root else root ++ [sep]
      end
  end.

(** [os.path.basename(p)]: what follows the last separator. *)
Fixpoint basename_from (acc p : str) : str :=
  match p with
  | [] => rev acc
  | c :: t => if (c =? sep)%N then basename_from [] t else basename_from (c :: acc) t
  end.

Definition basename (p : str) : str := basename_from [] p.

End OsPath.

(* ================================================================== *)
(** ** Exceptions *)

(** The two exceptions the arithmetic and indexing of the analysed
    functions can raise. *)
Inductive exn : Type :=
| ZeroDivisionError
| IndexError.

(** A computation that returns a value or raises. *)
Inductive M (A : Type) : Type :=
| Raise (e : exn)
| Return (a : A).
Arguments Raise {A} e.
Arguments Return {A} a.

Definition bind {A B : Type} (m : M A) (k : A -> M B) : M B :=
  match m with
  | Raise e => Raise e
  | Return a => k a
  end.

Notation "x <- m ;; k" := (bind m (fun x => k))
  (at level 61, m at next level, right associativity).

(** A [for] loop whose body may raise, threading the loop's state. *)
Fixpoint for_each {A S : Type} (body : S -> A -> M S) (items : list A) (s : S) : M S :=
  match items with
  | [] => Return s
  | a :: rest => s' <- body s a ;; for_each body rest s'
  end.

(* ================================================================== *)
(** ** binary64 numbers, numpy's reductions and the two [round]s *)

Module Np.

Local Open Scope float_scope.

(** An integer as the nearest binary64 number: Python's [float(n)] and
    numpy's int64 to float64 cast (exact below [2^53]). *)
Definition of_int (n : Z) : float :=
  SF2Prim (binary_normalize prec emax n 0 false).

Definition isnan (x : float) : bool := negb (x =? x).

(** The inner loop of [add.reduce] for float64, numpy's
    [DOUBLE_pairwise_sum] (loops_utils.h.src): eight running sums over
    the groups of eight elements,
    [r[0] += a[i + 0]; ...; r[7] += a[i + 7]], which are then added as
    [((r[0] + r[1]) + (r[2] + r[3])) + ((r[4] + r[5]) + (r[6] + r[7]))];
    the elements after the last full group are added one by one. *)
Fixpoint unrolled (r0 r1 r2 r3 r4 r5 r6 r7 : float) (a : list float) : float :=
  match a with
  | a0 :: a1 :: a2 :: a3 :: a4 :: a5 :: a6 :: a7 :: rest =>
      unrolled (r0 + a0) (r1 + a1) (r2 + a2) (r3 + a3)
               (r4 + a4) (r5 + a5) (r6 + a6) (r7 + a7) rest
  | _ =>
      fold_left PrimFloat.add a
        (((r0 + r1) + (r2 + r3)) + ((r4 + r5) + (r6 + r7)))
  end.

(** A block of at most 128 elements: fewer than eight are added one by
    one, starting from [-0.0]; otherwise the first eight start the eight
    running sums. *)
Definition pairwise_block (a : list float) : float :=
  match a with
  | a0 :: a1 :: a2 :: a3 :: a4 :: a5 :: a6 :: a7 :: rest =>
      unrolled a0 a1 a2 a3 a4 a5 a6 a7 rest
  | _ => fold_left PrimFloat.add a neg_zero
  end.

Definition PW_BLOCKSIZE : nat := 128.

(** [n2 = n / 2; n2 -= n2 % 8]: where a longer array is cut in two. *)
Definition half_aligned (n : nat) : nat := (n / 2 - (n / 2) mod 8)%nat.

(** More than 128 elements: the two parts are summed the same way and
    the two sums added.  The recursion is on the fuel; the length is
    fuel enough, since both parts are shorter. *)
Fixpoint pairwise_sum_fuel (fuel : nat) (a : list float) : float :=
  if (List.length a <=? PW_BLOCKSIZE)%nat then pairwise_block a
  else
    match fuel with
    | O => pairwise_block a
    | S fuel' =>
        let n2 := half_aligned (List.length a) in
        pairwise_sum_fuel fuel' (firstn n2 a) + pairwise_sum_fuel fuel' (skipn n2 a)
    end.

Definition pairwise_sum (a : list float) : float := pairwise_sum_fuel (List.length a) a.

(** [add.reduce] over an array of float64 ([ndarray.sum()]): the result
    starts as the identity 0 and the inner loop adds the pairwise sum of
    the whole array to it. *)
Definition sum (a : list float) : float := 0 + pairwise_sum a.

(** The same reduction over an array of integers with [dtype=float64]:
    the elements are cast in a buffer of 8192 ([numpy.getbufsize()]), and
    the inner loop runs once for every filling of the buffer. *)
Definition BUFSIZE : nat := (8 * 1024)%nat.

Fixpoint reduce_buffered (fuel : nat) (acc : float) (a : list float) : float :=
  match a, fuel with
  | [], _ => acc
  | _, O => acc + pairwise_sum a
  | _, S fuel' =>
      reduce_buffered fuel' (acc + pairwise_sum (firstn BUFSIZE a)) (skipn BUFSIZE a)
  end.

Definition sum_buffered (a : list float) : float := reduce_buffered (List.length a) 0 a.

(** [np.mean(a)] of a list of Python integers ([_methods._mean]): the
    sum with [dtype=float64], divided by the number of elements. *)
Definition mean (a : list Z) : float :=
  sum_buffered (map of_int a) / of_int (len a).

(** [np.var(a, ddof=ddof)] ([_methods._var]): the deviations from the
    mean, an array of float64, are squared, summed and divided by
    [max(n - ddof, 0)]. *)
Definition var_ddof (a : list Z) (ddof : Z) : float :=
  let arrmean := mean a in
  let x := map (fun v => of_int v - arrmean) a in
  let x := map (fun d => d * d) x in
  sum x / of_int (Z.max (len a - ddof) 0).

(** [np.var(a)]; [ddof] defaults to 0. *)
Definition var (a : list Z) : float := var_ddof a 0.

(** [np.std(a)] *)
Definition std (a : list Z) : float := PrimFloat.sqrt (var a).

(** The integer nearest to [num / den] ([den > 0]), ties to the even one. *)
Definition round_half_even (num den : Z) : Z :=
  let q := (num / den)%Z in
  let r := (num mod den)%Z in
  match (2 * r ?= den)%Z with
  | Lt => q
  | Gt => (q + 1)%Z
  | Eq => if Z.even q then q else (q + 1)%Z
  end.

(** The integer [q >= 0] with sign bit [s] as a float; a zero keeps the sign. *)
Definition signed_int (s : bool) (q : Z) : float :=
  if (q =? 0)%Z then (if s then PrimFloat.neg_zero else PrimFloat.zero)
  else of_int (if s then - q else q)%Z.

(** [np.rint(x)]: the nearest integer, ties to even. *)
Definition rint (x : float) : float :=
  match Prim2SF x with
  | S754_finite s m e =>
      if (0 <=? e)%Z then x
      else signed_int s (round_half_even (Z.pos m) (2 ^ (- e)))
  | _ => x
  end.

(** [round(x, decimals)] of a numpy float64, [decimals >= 0]: numpy
    multiplies by [10**decimals], rounds to an integer and divides. *)
Definition round (x : float) (decimals : Z) : float :=
  let f := of_int (10 ^ decimals) in
  rint (x * f) / f.

(** [round(x, ndigits)] of a Python float: the decimal with [ndigits]
    places nearest to the exact value of [x] (ties to even), as a float
    (exact while the scaled integer stays below [2^53]). *)
Definition py_round (x : float) (ndigits : Z) : float :=
  match Prim2SF x with
  | S754_finite s m e =>
      if (0 <=? e)%Z then x
      else signed_int s (round_half_even (Z.pos m * 10 ^ ndigits) (2 ^ (- e)))
             / of_int (10 ^ ndigits)
  | _ => x
  end.

(** A numpy boolean in arithmetic. *)
Definition of_bool (b : bool) : float := if b then 1 else 0.

End Np.

(** Python's [a / b] on integers: raises on a zero divisor, otherwise the
    correctly rounded quotient (the quotient of the two floats while both
    integers are below [2^53]). *)
Definition py_truediv (a b : Z) : M float :=
  if (b =? 0)%Z then Raise ZeroDivisionError
  else Return (Np.of_int a / Np.of_int b)%float.

(* ================================================================== *)
(** ** [set] and [collections.Counter] *)

Definition str_eq_dec : forall a b : str, {a = b} + {a <> b} :=
  list_eq_dec N.eq_dec.

(** [set(words)], as the list of its elements. *)
Definition py_set (words : list str) : list str := nodup str_eq_dec words.

(** A [Counter]: keys in first-insertion order with their counts. *)
Definition counter := list (str * Z).

Fixpoint counter_incr (c : counter) (w : str) : counter :=
  match c with
  | [] => [(w, 1%Z)]
  | (k, n) :: rest =>
      if str_eq_dec k w then (k, (n + 1)%Z) :: rest
      else (k, n) :: counter_incr rest w
  end.

(** [Counter(words)] *)
Definition Counter (words : list str) : counter :=
  fold_left counter_incr words [].

(** [max(items, key=count)]: the first entry with the largest count. *)
Fixpoint max_entry (best : str * Z) (c : counter) : str * Z :=
  match c with
  | [] => best
  | kv :: rest => max_entry (if (snd best <? snd kv)%Z then kv else best) rest
  end.

(** [c.most_common(1)] *)
Definition most_common_1 (c : counter) : list (str * Z) :=
  match c with
  | [] => []
  | kv :: rest => [max_entry kv rest]
  end.

(** [l[0]] *)
Definition item0 {A : Type} (l : list A) : M A :=
  match l with
  | [] => Raise IndexError
  | a :: _ => Return a
  end.

(* ================================================================== *)
(** ** pandas reductions over a column *)

Module Pd.

Local Open Scope float_scope.

(** The entries of a float column that are not missing ([nan]). *)
Definition dropna (col : list float) : list float :=
  filter (fun x => negb (Np.isnan x)) col.

(** The column with 0 in the place of every missing value
    ([nanops._get_values] with [fill_value=0]). *)
Definition fill_zero (col : list float) : list float :=
  map (fun x => if Np.isnan x then 0 else x) col.

(** [Series.mean()] ([nanops.nanmean], [skipna=True]): numpy's sum of
    the filled column, divided by the number of values that are not
    missing; [nan] when there is none. *)
Definition mean (col : list float) : float :=
  let count := len (dropna col) in
  let the_sum := Np.sum (fill_zero col) in
  if (0 <? count)%Z then the_sum / Np.of_int count else nan.

Definition fmax (a b : float) : float := if a <? b then b else a.
Definition fmin (a b : float) : float := if b <? a then b else a.

(** [Series.max()], missing values skipped; [nan] when nothing is left. *)
Definition max (col : list float) : float :=
  match dropna col with
  | [] => nan
  | x :: rest => fold_left fmax rest x
  end.

(** [Series.min()] *)
Definition min (col : list float) : float :=
  match dropna col with
  | [] => nan
  | x :: rest => fold_left fmin rest x
  end.

(** [sum(mask)]: how many entries of a boolean column are [True]. *)
Definition count_true (mask : list bool) : Z :=
  fold_left (fun acc (b : bool) => if b then (acc + 1)%Z else acc) mask 0%Z.

End Pd.

(* ================================================================== *)
(** ** The three labels (分析結果) *)

(** "人類撰寫" *)
Definition LABEL_HUMAN : str := [20154; 39006; 25776; 23531]%N.

(** "模糊區（混合或修飾過）" *)
Definition LABEL_AMBIGUOUS : str :=
  [27169; 31946; 21312; 65288; 28151; 21512; 25110; 20462; 39166; 36942; 65289]%N.

(** "高機率 AI 生成" *)
Definition LABEL_AI : str := [39640; 27231; 29575; 32; 65; 73; 32; 29983; 25104]%N.

(** "模糊", the fragment the summary looks for *)
Definition FRAGMENT_AMBIGUOUS : str := [27169; 31946]%N.

(* ================================================================== *)
(** ** [analyze_text_features] *)

(** The features as computed, before they are rounded for display. *)
Record FeatureVector : Type := {
  text_length : Z;
  sentence_count : Z;
  ttr : float;
  burstiness : float;
  readability : float;
  common_ratio : float;
  pseudo_perplexity : float
}.

(** The dictionary [analyze_text_features] returns, by key:
    文字長度, 句子數, 詞彙多樣性, 句長變異, 可讀性, 重複率, 困惑度代理,
    AI可能性分數, 分析結果. *)
Record Analysis : Type := {
  a_text_length : Z;
  a_sentence_count : Z;
  a_lexical_diversity : float;
  a_sentence_variation : float;
  a_readability : float;
  a_repetition : float;
  a_perplexity_proxy : float;
  a_ai_score : float;
  a_result : str
}.

Section Scorer.

Local Open Scope float_scope.

(** Lines 56-61: the weighted sum. *)
Definition composite (ttr burstiness common_ratio pseudo_perplexity : float) : float :=
  (1 - ttr) * 0.3 +
  (1 - burstiness) * 0.2 +
  common_ratio * 0.2 +
  Np.of_bool (pseudo_perplexity <? 100) * 0.3.

(** Line 62 *)
Definition ai_score_of (score : float) : float := Np.round (score * 100) 2.

(** Lines 64-69 *)
Definition label_of (ai_score : float) : str :=
  if ai_score <? 40 then LABEL_HUMAN
  else if ai_score <? 70 then LABEL_AMBIGUOUS
  else LABEL_AI.

(** Lines 56-81: score, label and the returned dictionary. *)
Definition score_features (fv : FeatureVector) : Analysis :=
  let score :=
    composite (ttr fv) (burstiness fv) (common_ratio fv) (pseudo_perplexity fv) in
  let ai_score := ai_score_of score in
  let result := label_of ai_score in
  {| a_text_length := text_length fv;
     a_sentence_count := sentence_count fv;
     a_lexical_diversity := Np.py_round (ttr fv) 3;
     a_sentence_variation := Np.round (burstiness fv) 3;
     a_readability := Np.py_round (readability fv) 2;
     a_repetition := Np.py_round (common_ratio fv) 3;
     a_perplexity_proxy := Np.round (pseudo_perplexity fv) 2;
     a_ai_score := ai_score;
     a_result := result |}.

End Scorer.

(** The count of the most frequent word, as the extractor reads it off
    the counter. *)
Definition top_count (words : list str) : Z :=
  match Counter words with
  | [] => 0%Z
  | kv :: rest => snd (max_entry kv rest)
  end.

Section Extractor.

(** nltk's [sent_tokenize] and [word_tokenize], [str.lower] and
    [textstat.flesch_reading_ease]. *)
Variable sent_tokenize : str -> list str.
Variable word_tokenize : str -> list str.
Variable lower : str -> str.
Variable flesch_reading_ease : str -> float.

(** Line 47: the word-token count of every sentence. *)
Definition sent_lengths_of (sentences : list str) : list Z :=
  map (fun s => len (word_tokenize s)) sentences.

(** Lines 36-54: the guards and the features. *)
Definition extract_features (text : str) : M (option FeatureVector) :=
  if py_not text || (len (strip text) <? 50)%Z then Return None else
  let sentences := sent_tokenize text in
  let words := word_tokenize (lower text) in
  if py_not words then Return None else
  ttr <- py_truediv (len (py_set words)) (len words) ;;
  let sent_lengths := sent_lengths_of sentences in
  let burstiness := (Np.std sent_lengths / Np.mean sent_lengths)%float in
  let readability := flesch_reading_ease text in
  top <- item0 (most_common_1 (Counter words)) ;;
  common_ratio <- py_truediv (snd top) (len words) ;;
  let pseudo_perplexity := Np.var sent_lengths in
  Return (Some {| text_length := len text;
                  sentence_count := len sentences;
                  ttr := ttr;
                  burstiness := burstiness;
                  readability := readability;
                  common_ratio := common_ratio;
                  pseudo_perplexity := pseudo_perplexity |}).

(** [analyze_text_features(text)]: [None], or the dictionary. *)
Definition analyze_text_features (text : str) : M (option Analysis) :=
  fv <- extract_features text ;;
  Return (option_map score_features fv).

(** The feature vector of a text that passes the guards. *)
Definition features_of (text : str) : FeatureVector :=
  let sentences := sent_tokenize text in
  let words := word_tokenize (lower text) in
  let sent_lengths := sent_lengths_of sentences in
  {| text_length := len text;
     sentence_count := len sentences;
     ttr := (Np.of_int (len (py_set words)) / Np.of_int (len words))%float;
     burstiness := (Np.std sent_lengths / Np.mean sent_lengths)%float;
     readability := flesch_reading_ease text;
     common_ratio := (Np.of_int (top_count words) / Np.of_int (len words))%float;
     pseudo_perplexity := Np.var sent_lengths |}.

End Extractor.

(* ================================================================== *)
(** ** [read_file_content] and [analyze_folder] *)

(** One row of the report's data frame: 檔案名稱 and the analysis. *)
Record Row : Type := {
  file_name : str;
  analysis : Analysis
}.

(** The summary sheet, by key: 分析文件總數, 平均 AI 分數, 最高分, 最低分,
    高機率 AI 數, 模糊區數, 明顯人類撰寫數. *)
Record Summary : Type := {
  total_documents : Z;
  mean_score : float;
  max_score : float;
  min_score : float;
  high_ai_count : Z;
  ambiguous_count : Z;
  human_count : Z
}.

(** What a run of [analyze_folder] shows to its caller: the warning box
    for a folder without eligible files, the information box for a folder
    without analysable content, or the report (sheet 詳細結果 and sheet 摘要). *)
Inductive FolderResult : Type :=
| NoEligibleFiles
| NoAnalyzableContent
| Report (df : list Row) (summary : Summary).

Definition EXT_TXT : str := lit ".txt".
Definition EXT_DOCX : str := lit ".docx".
Definition NEWLINE : str := [10%N].

(** Lines 128-136 *)
Definition summarize (df : list Row) : Summary :=
  let scores := map (fun r => a_ai_score (analysis r)) df in
  let results := map (fun r => a_result (analysis r)) df in
  {| total_documents := len df;
     mean_score := Np.round (Pd.mean scores) 2;
     max_score := Pd.max scores;
     min_score := Pd.min scores;
     high_ai_count := Pd.count_true (map (fun l => str_eqb l LABEL_AI) results);
     ambiguous_count :=
       Pd.count_true (map (fun l => contains l FRAGMENT_AMBIGUOUS) results);
     human_count := Pd.count_true (map (fun l => str_eqb l LABEL_HUMAN) results) |}.

Section Folder.

Variable sent_tokenize : str -> list str.
Variable word_tokenize : str -> list str.
Variable lower : str -> str.
Variable flesch_reading_ease : str -> float.

(** The file system: the text of a [.txt] file and the paragraphs of a
    [.docx] document. *)
Variable read_txt : str -> str.
Variable docx_paragraphs : str -> list str.

(** Lines 86-93 *)
Definition read_file_content (filepath : str) : str :=
  if endswith filepath EXT_TXT then read_txt filepath
  else if endswith filepath EXT_DOCX then join NEWLINE (docx_paragraphs filepath)
  else [].

(** Lines 101-104 over what [os.walk] yields: per directory, its path
    and the names of its files. *)
Definition discover (walk : list (str * list str)) : list str :=
  fold_left
    (fun files '(root, filelist) =>
       fold_left
         (fun files f =>
            if endswith f EXT_TXT || endswith f EXT_DOCX
            then files ++ [OsPath.path_join root f]
            else files)
         filelist files)
    walk [].

(** Lines 111-115: the body of the loop over the files. *)
Definition analyze_file (results : list Row) (file : str) : M (list Row) :=
  let text := read_file_content file in
  analysis <- analyze_text_features sent_tokenize word_tokenize lower
                flesch_reading_ease text ;;
  match analysis with
  | Some a =>
      Return (results ++ [{| file_name := OsPath.basename file; analysis := a |}])
  | None => Return results
  end.

(** Lines 106-136 over the discovered files. *)
Definition analyze_files (files : list str) : M FolderResult :=
  if py_not files then Return NoEligibleFiles else
  results <- for_each analyze_file files [] ;;
  if py_not results then Return NoAnalyzableContent else
  Return (Report results (summarize results)).

(** [analyze_folder], up to the rendering of the report. *)
Definition analyze_folder (walk : list (str * list str)) : M FolderResult :=
  analyze_files (discover walk).

(** The record of one file: none when its analysis is [None]. *)
Definition record_of (file : str) : list Row :=
  match analyze_text_features sent_tokenize word_tokenize lower
          flesch_reading_ease (read_file_content file) with
  | Return (Some a) => [{| file_name := OsPath.basename file; analysis := a |}]
  | _ => []
  end.

(** The file has analysable content. *)
Definition analyzable (file : str) : bool :=
  match analyze_text_features sent_tokenize word_tokenize lower
          flesch_reading_ease (read_file_content file) with
  | Return (Some _) => true
  | _ => false
  end.

End Folder.

(* ================================================================== *)
(** ** Small collaborators, to run the functions on concrete inputs *)

Module Toy.

(** ASCII lower-casing. *)
Definition lower (s : str) : str :=
  map (fun c => if (65 <=? c)%N && (c <=? 90)%N then (c + 32)%N else c) s.

Fixpoint runs_from (keep : char -> bool) (cur : str) (s : str) : list str :=
  match s with
  | [] => match cur with [] => [] | _ => [rev cur] end
  | c :: t =>
      if keep c then runs_from keep (c :: cur) t
      else match cur with
           | [] => runs_from keep [] t
           | _ => rev cur :: runs_from keep [] t
           end
  end.

(** Word tokens: the maximal runs of characters other than white space. *)
Definition words (s : str) : list str :=
  runs_from (fun c => negb (isspace c)) [] s.

(** Word tokens of a tokenizer that knows lower-case letters only. *)
Definition lowercase_words (s : str) : list str :=
  runs_from (fun c => (97 <=? c)%N && (c <=? 122)%N) [] s.

(** Sentences: the text cut at every full stop. *)
Definition sentences (s : str) : list str :=
  runs_from (fun c => negb (c =? 46)%N) [] s.

(** The whole text as one sentence. *)
Definition one_sentence (s : str) : list str := [s].

Definition no_readability (_ : str) : float := 0%float.

End Toy.

(* ================================================================== *)
(** ** Reference definitions and predicates of the properties *)

(** The reference definitions, in the words of the specification. *)
Module Reference.

(** [n] is the number of distinct word tokens. *)
Definition distinct_count (words : list str) (n : Z) : Prop :=
  exists l, NoDup l /\ (forall w, In w l <-> In w words) /\ len l = n.

(** How often [w] occurs among the word tokens. *)
Definition occurrences (words : list str) (w : str) : Z :=
  Z.of_nat (count_occ str_eq_dec words w).

(** [c] is the count of the single most frequent word token. *)
Definition most_frequent_count (words : list str) (c : Z) : Prop :=
  (exists w, In w words /\ occurrences words w = c) /\
  (forall w, (occurrences words w <= c)%Z).

(** The arithmetic mean: the sum, which in floating point is numpy's
    sum of an array, over the number of values. *)
Definition mean (xs : list float) : float :=
  (Np.sum xs / Np.of_int (len xs))%float.

(** The population variance: the mean of the squared deviations from the mean. *)
Definition population_variance (xs : list float) : float :=
  let mu := mean xs in
  mean (map (fun x => (x - mu) * (x - mu))%float xs).

(** The population standard deviation. *)
Definition population_std (xs : list float) : float :=
  PrimFloat.sqrt (population_variance xs).

End Reference.

(** The total weight of a list of items. *)
Definition weight {A : Type} (w : A -> Z) (items : list A) : Z :=
  fold_right (fun i s => (w i + s)%Z) 0%Z items.

(** The count a counter holds for a word (0 when it has no entry). *)
Fixpoint count_in (c : counter) (w : str) : Z :=
  match c with
  | [] => 0%Z
  | (k, n) :: rest => if str_eq_dec k w then n else count_in rest w
  end.

Definition counter_wf (c : counter) : Prop :=
  NoDup (map fst c) /\ forall k n, In (k, n) c -> (0 < n)%Z.

Definition in_range (ai_score : float) : Prop :=
  (0 <=? ai_score)%float = true /\ (ai_score <=? 100)%float = true.


(** The row was labelled by the scorer. *)
Definition labelled_by_scorer (r : Row) : Prop :=
  a_result (analysis r) = label_of (a_ai_score (analysis r)).


(* ================================================================== *)
(** ** Sample inputs *)

(** A text of seven three-word sentences, for the toy collaborators. *)
Definition SAMPLE_REPETITIVE : str :=
  lit "the cat sat. the cat sat. the cat sat. the cat sat. the cat sat. the cat sat. the cat sat.".

(** A text of one long sentence and eight one-word sentences, every
    word different. *)
Definition SAMPLE_BURSTY : str :=
  lit "a b c d e f g h i j k l m n o p q r s t u v w x y z aa bb cc dd ee ff gg hh ii jj kk ll mm nn oo pp qq rr ss tt uu vv ww xx yy zz ab ac ad. ae. af. ag. ah. ai. aj. ak. al.".

(** Fifty capital letters: one sentence, one word once lower-cased, and
    no word for a tokenizer that knows lower-case letters only. *)
Definition SAMPLE_CAPITALS : str := repeat 65%N 50.



(** A folder with three text files: the repetitive sample, an empty file
    and the bursty sample. *)
Definition SAMPLE_FILE_A : str := lit "corpus/A.txt".
Definition SAMPLE_FILE_B : str := lit "corpus/B.txt".
Definition SAMPLE_FILE_C : str := lit "corpus/C.txt".

Definition sample_read_txt (path : str) : str :=
  if str_eqb path SAMPLE_FILE_A then SAMPLE_REPETITIVE
  else if str_eqb path SAMPLE_FILE_C then SAMPLE_BURSTY
  else [].

Definition sample_docx_paragraphs (_ : str) : list str := [].

(** What [os.walk] yields for that folder, and for one without any
    supported file. *)
Definition SAMPLE_WALK : list (str * list str) :=
  [(lit "corpus", [lit "A.txt"; lit "B.txt"; lit "C.txt"; lit "notes.md"])].

Definition SAMPLE_WALK_OTHER : list (str * list str) :=
  [(lit "corpus", [lit "notes.md"; lit "image.png"])].

(* ================================================================== *)
(** ** The order of binary64 numbers, through keys *)

Module FloatKey.

(** A key whose lexicographic order is the order of the numbers ([nan]
    apart): class and sign first, then exponent, then mantissa. *)
Definition key (x : spec_float) : Z * Z * Z :=
  match x with
  | S754_zero _ => (0, 0, 0)
  | S754_infinity s => (if s then -2 else 2, 0, 0)
  | S754_nan => (0, 0, 0)
  | S754_finite s m e => if s then (-1, - e, - Z.pos m) else (1, e, Z.pos m)
  end%Z.

Definition lex_lt (a b : Z * Z * Z) : Prop :=
  let '(a1, a2, a3) := a in
  let '(b1, b2, b3) := b in
  (a1 < b1 \/ (a1 = b1 /\ (a2 < b2 \/ (a2 = b2 /\ a3 < b3))))%Z.

Definition lex_le (a b : Z * Z * Z) : Prop := lex_lt a b \/ a = b.

(** The order on floats, through the keys. *)
Definition not_nan (x : float) : Prop := Prim2SF x <> S754_nan.
Definition fkey (x : float) : Z * Z * Z := key (Prim2SF x).

Ltac key_cases :=
  repeat split; intros;
  try discriminate; try lia; try congruence;
  try match goal with
      | H : (_, _, _) = (_, _, _) |- _ => injection H; intros; lia
      | |- (_, _, _) = (_, _, _) => repeat f_equal; lia
      end.

End FloatKey.

(* ================================================================== *)
(** ** Round to nearest, as the format does it *)

Module Rnd.

Import FloatKey.
Local Open Scope Z_scope.

(** What a shift record says of the number [M] it was obtained from by
    [k] shifts: the quotient by [P = 2^k], and where the remainder lies
    with respect to the half of [P]. *)
Definition located (M P : Z) (mrs : shr_record) : Prop :=
  exists rem,
    M = shr_m mrs * P + rem /\ 0 <= rem < P /\ 0 <= shr_m mrs /\
    (shr_r mrs = true <-> P <= 2 * rem) /\
    (shr_s mrs = true <-> rem <> 0 /\ 2 * rem <> P).

(** The input is given with at least the precision of the format. *)
Definition input_ok (m e : Z) : Prop := e <= fexp prec emax (Zdigits2 m + e).

(** Mantissa and exponent after rounding [m * 2^e] to the format. *)
Definition rnd (m e : Z) : Z * Z :=
  let e1 := fexp prec emax (Zdigits2 m + e) in
  if e1 <=? e then (m, e)
  else
    let m1 := Np.round_half_even m (2 ^ (e1 - e)) in
    if m1 =? 2 ^ 53 then (2 ^ 52, e1 + 1) else (m1, e1).

Definition norm (m1 e1 : Z) : Z * Z :=
  if m1 =? 2 ^ 53 then (2 ^ 52, e1 + 1) else (m1, e1).

(** The float with that mantissa and exponent: a zero after underflow,
    an infinity after overflow. *)
Definition finish (s : bool) (me : Z * Z) : spec_float :=
  match fst me with
  | 0 => S754_zero s
  | Z.pos p => if snd me <=? emax - prec then S754_finite s p (snd me) else S754_infinity s
  | Z.neg _ => S754_nan
  end.

(** The order of two rounded results, as pairs. *)
Definition pair_le (a b : Z * Z) : Prop :=
  fst a = 0 \/ (snd a < snd b /\ 0 < fst b) \/ (snd a = snd b /\ fst a <= fst b).

(** The value of a float in units of [2^-1074] (0 for what is not finite). *)
Definition sval (x : spec_float) : Z :=
  match x with
  | S754_finite s m e => cond_Zopp s (Z.pos m * 2 ^ (e + 1074))
  | _ => 0
  end.

(** What [SFadd] and [SFsub] return for the exact result [V], in units
    of [2^-1074]. *)
Definition rounds_value (r : spec_float) (V : Z) : Prop :=
  (V = 0 /\ r = S754_zero false) \/
  (V < 0 /\ exists me, r = finish true me /\ 0 <= fst me) \/
  (0 < V /\ exists m' e',
     r = finish false (rnd m' e') /\ 0 < m' /\ input_ok m' e' /\
     -1074 <= e' /\ m' * 2 ^ (e' + 1074) = V).

(** A float that is finite, positive and valid. *)
Definition pos_finite (x : spec_float) : Prop :=
  exists p e, x = S754_finite false p e /\ bounded prec emax p e = true.

Definition pos_finite_float (x : float) : Prop := pos_finite (Prim2SF x).

(** A float given by a literal is finite, positive and valid. *)
Ltac pos_finite_literal :=
  unfold pos_finite_float, pos_finite;
  match goal with
  | |- exists p e, Prim2SF ?x = _ /\ _ =>
      let v := eval vm_compute in (Prim2SF x) in
      match v with
      | S754_finite false ?p ?e =>
          exists p, e; split; [vm_compute; reflexivity | vm_compute; reflexivity]
      end
  end.

End Rnd.

(** Line 103: the name ends in one of the two supported extensions. *)
Definition eligible (f : str) : bool := endswith f EXT_TXT || endswith f EXT_DOCX.

(** The name has no path separator in it, as every name [os.walk] lists. *)
Definition plain_name (f : str) : Prop := ~ In OsPath.sep f.

(* ================================================================== *)
(** ** [set_chinese_font] *)

Module Fonts.

(** A font of matplotlib's font manager ([fm.fontManager.ttflist]): its
    family name and its file. *)
Record FontEntry : Type := {
  name : str;
  fname : str
}.

(** A value of [plt.rcParams]. *)
Inductive rc_value : Type :=
| RcFamilies (families : list str)
| RcBool (b : bool)
| RcOther (repr : str).

(** [plt.rcParams]: the settings by key. *)
Definition rc_params := list (str * rc_value).

(** [rcParams[k]] *)
Fixpoint rc_get (rc : rc_params) (k : str) : option rc_value :=
  match rc with
  | [] => None
  | (k', v) :: rest => if str_eqb k' k then Some v else rc_get rest k
  end.

(** [rcParams[k] = v] *)
Fixpoint rc_set (rc : rc_params) (k : str) (v : rc_value) : rc_params :=
  match rc with
  | [] => [(k, v)]
  | (k', v') :: rest =>
      if str_eqb k' k then (k', v) :: rest else (k', v') :: rc_set rest k v
  end.

(** [x in l] for a list of strings *)
Definition py_in (x : str) (l : list str) : bool := existsb (str_eqb x) l.

Definition MICROSOFT_JHENGHEI : str := lit "Microsoft JhengHei".
Definition SIMHEI : str := lit "SimHei".
Definition ARIAL_UNICODE_MS : str := lit "Arial Unicode MS".
Definition FONT_SANS_SERIF : str := lit "font.sans-serif".
Definition AXES_UNICODE_MINUS : str := lit "axes.unicode_minus".

(** Lines 20-28 *)
Definition set_chinese_font (ttflist : list FontEntry) (rcParams : rc_params) : rc_params :=
  let font_list := map name ttflist in
  let rcParams :=
    if py_in MICROSOFT_JHENGHEI font_list then
      rc_set rcParams FONT_SANS_SERIF (RcFamilies [MICROSOFT_JHENGHEI])
    else if py_in SIMHEI font_list then
      rc_set rcParams FONT_SANS_SERIF (RcFamilies [SIMHEI])
    else
      rc_set rcParams FONT_SANS_SERIF (RcFamilies [ARIAL_UNICODE_MS]) in
  rc_set rcParams AXES_UNICODE_MINUS (RcBool false).

(** Font managers for the examples: one with both Chinese fonts, one
    with neither. *)
Definition SAMPLE_FONTS : list FontEntry :=
  [ {| name := lit "DejaVu Sans"; fname := lit "DejaVuSans.ttf" |};
    {| name := SIMHEI; fname := lit "simhei.ttf" |};
    {| name := MICROSOFT_JHENGHEI; fname := lit "msjh.ttc" |} ].

Definition SAMPLE_FONTS_LATIN : list FontEntry :=
  [ {| name := lit "DejaVu Sans"; fname := lit "DejaVuSans.ttf" |} ].

Definition SAMPLE_RC : rc_params :=
  [ (lit "font.family", RcFamilies [lit "sans-serif"]);
    (FONT_SANS_SERIF, RcFamilies [lit "DejaVu Sans"; lit "Arial"]);
    (AXES_UNICODE_MINUS, RcBool true);
    (lit "figure.dpi", RcOther (lit "100.0")) ].

End Fonts.

(* ================================================================== *)
(** ** What the program shows, writes and opens *)

Module Ui.

(** The calls of [analyze_folder] and [main_gui] into tkinter, pandas,
    matplotlib and the operating system, in the order they are made. *)
Inductive event : Type :=
| Tk_root                                   (** [Tk()] *)
| Withdraw                                  (** [root.withdraw()] *)
| Destroy                                   (** [root.destroy()] *)
| Showinfo (title message : str)            (** [messagebox.showinfo] *)
| Showwarning (title message : str)         (** [messagebox.showwarning] *)
| Askdirectory (title answer : str)         (** [filedialog.askdirectory] and its answer *)
| To_excel (path : str) (summary : Summary) (df : list Row)
                                            (** the sheets 摘要 and 詳細結果 *)
| Savefig (path : str) (names : list str) (scores : list float) (mean_line : float)
                                            (** the bar chart and its mean line *)
| Startfile (path : str)                    (** [os.startfile] *)
| Popen (argv : list str)                   (** [subprocess.Popen] *)
| Print (message : str).                    (** [print] *)

(** An exception that leaves [analyze_folder], which catches none of
    them. *)
Inductive failure : Type :=
| File_failed (file : str)    (** reading or analysing this file raised
                                  ([open], [Document], a library; lines 111-112) *)
| Analysis_failed (e : exn)   (** an arithmetic exception of line 112 *)
| Workbook_failed             (** [ExcelWriter] or [to_excel] raised (lines 143-145) *)
| Chart_failed.               (** a call of matplotlib raised (lines 150-163) *)

(** What the user and the operating system answer: the two directories
    chosen in the dialogs (empty when a dialog is cancelled), [os.name],
    the exception, if any, raised by the call that opens the output
    folder, the files on which reading or analysing raises, and whether
    writing the workbook and drawing the chart raise. *)
Record World : Type := {
  chosen_folder : str;
  chosen_output : str;
  os_name : str;
  opening_raises : option str;
  file_raises : str -> bool;
  workbook_raises : bool;
  chart_raises : bool
}.

(** A run: the calls made, in order, and the exception that ended it,
    if one did. *)
Record Run : Type := {
  calls : list event;
  raised : option failure
}.

(** 提示 *)
Definition TITLE_HINT : str :=
  [25552; 31034]%N.

(** 找不到 .txt 或 .docx 檔案 *)
Definition MSG_NO_FILES : str :=
  [25214; 19981; 21040; 32; 46; 116; 120; 116; 32; 25110; 32; 46; 100; 111;
  99; 120; 32; 27284; 26696]%N.

(** 結果 *)
Definition TITLE_RESULT : str :=
  [32080; 26524]%N.

(** 沒有可分析的內容。 *)
Definition MSG_NO_CONTENT : str :=
  [27794; 26377; 21487; 20998; 26512; 30340; 20839; 23481; 12290]%N.

(** AI文本分析報告.xlsx *)
Definition EXCEL_NAME : str :=
  [65; 73; 25991; 26412; 20998; 26512; 22577; 21578; 46; 120; 108; 115;
  120]%N.

Definition CHART_NAME : str := lit "AI_score_chart.png".

(** 完成 *)
Definition TITLE_DONE : str :=
  [23436; 25104]%N.

(** The three fixed parts of the completion message (line 178), around
    the two output paths: the head ends in 報告輸出：, the middle is
    圖表輸出： on a new line, and the tail starts with 已自動開啟輸出資料夾。 *)
Definition DONE_HEAD : str :=
  [9989; 32; 20998; 26512; 23436; 25104; 65281; 10; 10; 22577; 21578; 36664;
  20986; 65306]%N.

Definition DONE_MIDDLE : str :=
  [10; 22294; 34920; 36664; 20986; 65306]%N.

Definition DONE_TAIL : str :=
  [10; 10; 24050; 33258; 21205; 38283; 21855; 36664; 20986; 36039; 26009;
  22846; 12290; 10; 128202; 27880; 24847; 65306; 26412; 24037; 20855; 20677;
  20379; 21443; 32771; 65292; 35531; 21247; 20316; 28858; 21807; 19968;
  21028; 26039; 65; 73; 25991; 31558; 33287; 21542; 30340; 20381; 25818;
  12290; 128202; 32; 10; 10; 36664; 20986; 35299; 35712; 21443; 32771; 65306;
  10; 48; 8211; 52; 48; 65285; 32; 8594; 32; 24456; 21487; 33021; 26159;
  20154; 39006; 25776; 23531; 10; 52; 48; 8211; 55; 48; 65285; 32; 8594; 32;
  27169; 31946; 21312; 65288; 21487; 33021; 28151; 21512; 65289; 10; 55; 48;
  8211; 49; 48; 48; 65285; 32; 8594; 32; 39640; 27231; 29575; 28858; 32; 65;
  73; 32; 29983; 25104]%N.

(** ⚠️ 無法自動開啟資料夾： *)
Definition CANNOT_OPEN : str :=
  [9888; 65039; 32; 28961; 27861; 33258; 21205; 38283; 21855; 36039; 26009;
  22846; 65306]%N.

(** AI 文本自動檢測器 v1.0 *)
Definition TITLE_APP : str :=
  [65; 73; 32; 25991; 26412; 33258; 21205; 27298; 28204; 22120; 32; 118; 49;
  46; 48]%N.

(** The introduction box (line 189). *)
Definition MSG_INTRO : str :=
  [27492; 24037; 20855; 21487; 20998; 26512; 36039; 26009; 22846; 20839;
  30340; 32; 46; 116; 120; 116; 32; 33287; 32; 46; 100; 111; 99; 120; 32;
  25991; 20214; 65292; 10; 21028; 26039; 26159; 21542; 21487; 33021; 30001;
  32; 65; 73; 32; 29983; 25104; 65292; 20006; 36664; 20986; 32113; 35336;
  22577; 21578; 33287; 22294; 34920; 12290; 10; 71; 105; 116; 72; 117; 98;
  58; 32; 104; 116; 116; 112; 115; 58; 47; 47; 103; 105; 116; 104; 117; 98;
  46; 99; 111; 109; 47; 97; 100; 115; 97; 53; 54; 50; 47; 73; 115; 73; 116;
  80; 111; 115; 115; 105; 98; 108; 101; 87; 114; 105; 116; 116; 101; 110; 66;
  121; 65; 73]%N.

(** 請選擇要分析的資料夾 *)
Definition ASK_FOLDER : str :=
  [35531; 36984; 25799; 35201; 20998; 26512; 30340; 36039; 26009; 22846]%N.

(** 未選擇分析資料夾，程式結束。 *)
Definition MSG_NO_FOLDER : str :=
  [26410; 36984; 25799; 20998; 26512; 36039; 26009; 22846; 65292; 31243;
  24335; 32080; 26463; 12290]%N.

(** 請選擇報告輸出路徑 *)
Definition ASK_OUTPUT : str :=
  [35531; 36984; 25799; 22577; 21578; 36664; 20986; 36335; 24465]%N.

(** 未選擇輸出路徑，程式結束。 *)
Definition MSG_NO_OUTPUT : str :=
  [26410; 36984; 25799; 36664; 20986; 36335; 24465; 65292; 31243; 24335;
  32080; 26463; 12290]%N.

Definition is_destroy (e : event) : bool :=
  match e with Destroy => true | _ => false end.

(** The event writes a file or opens the folder. *)
Definition writes_or_opens (e : event) : bool :=
  match e with
  | To_excel _ _ _ | Savefig _ _ _ _ | Startfile _ | Popen _ => true
  | _ => false
  end.

Definition is_askdirectory (title : str) (e : event) : bool :=
  match e with
  | Askdirectory t _ => str_eqb t title
  | _ => false
  end.

(** The event is the completion box. *)
Definition is_done_box (e : event) : bool :=
  match e with
  | Showinfo t _ => str_eqb t TITLE_DONE
  | _ => false
  end.

Definition is_to_excel (e : event) : bool :=
  match e with To_excel _ _ _ => true | _ => false end.

End Ui.

Section Program.

Import Ui.

Variable sent_tokenize : str -> list str.
Variable word_tokenize : str -> list str.
Variable lower : str -> str.
Variable flesch_reading_ease : str -> float.
Variable read_txt : str -> str.
Variable docx_paragraphs : str -> list str.

(** [os.walk(folder_path)] *)
Variable os_walk : str -> list (str * list str).

(** Lines 168-174: the attempt to open the output folder; an exception
    of the call is caught and printed. *)
Definition open_output_folder (w : World) (output_path : str) : list event :=
  let caught :=
    match opening_raises w with
    | Some e => [Print (CANNOT_OPEN ++ e)]
    | None => []
    end in
  if str_eqb (os_name w) (lit "nt") then Startfile output_path :: caught
  else if str_eqb (os_name w) (lit "posix") then
    Popen [lit "xdg-open"; output_path] :: caught
  else [].

(** Line 178: the text of the completion box. *)
Definition done_message (output_excel output_chart : str) : str :=
  DONE_HEAD ++ output_excel ++ DONE_MIDDLE ++ output_chart ++ DONE_TAIL.

(** Lines 142-179: what is written, opened and shown for a report.  The
    workbook is written first; when that raises, nothing else happens,
    and when the chart raises, the workbook is already written. *)
Definition render_report (w : World) (output_path : str)
    (df : list Row) (summary : Summary) : Run :=
  let output_excel := OsPath.path_join output_path EXCEL_NAME in
  if workbook_raises w then {| calls := []; raised := Some Workbook_failed |} else
  let scores := map (fun r => a_ai_score (analysis r)) df in
  let avg_score := Pd.mean scores in
  let output_chart := OsPath.path_join output_path CHART_NAME in
  if chart_raises w then
    {| calls := [To_excel output_excel summary df]; raised := Some Chart_failed |}
  else
  {| calls :=
       [To_excel output_excel summary df;
        Savefig output_chart (map file_name df) scores avg_score]
       ++ open_output_folder w output_path
       ++ [Showinfo TITLE_DONE (done_message output_excel output_chart)];
     raised := None |}.

(** Lines 110-115 with the exceptions of the loop: the files are read
    and analysed in order, up to the first on which that raises. *)
Fixpoint read_and_analyze (w : World) (files : list str) (results : list Row)
    : list Row + failure :=
  match files with
  | [] => inl results
  | file :: rest =>
      if file_raises w file then inr (File_failed file) else
      match analyze_file sent_tokenize word_tokenize lower flesch_reading_ease
              read_txt docx_paragraphs results file with
      | Raise e => inr (Analysis_failed e)
      | Return results' => read_and_analyze w rest results'
      end
  end.

(** [analyze_folder(folder_path, output_path)], as the calls it makes. *)
Definition analyze_folder_run (w : World) (folder_path output_path : str) : Run :=
  let files := discover (os_walk folder_path) in
  if py_not files then
    {| calls := [Showwarning TITLE_HINT MSG_NO_FILES]; raised := None |}
  else
  match read_and_analyze w files [] with
  | inr f => {| calls := []; raised := Some f |}
  | inl results =>
      if py_not results then
        {| calls := [Showinfo TITLE_RESULT MSG_NO_CONTENT]; raised := None |}
      else render_report w output_path results (summarize results)
  end.

(** Lines 184-205.  Nothing catches an exception of [analyze_folder]:
    line 205 is then not reached. *)
Definition main_gui (w : World) : Run :=
  let shown := [Tk_root; Withdraw; Showinfo TITLE_APP MSG_INTRO] in
  let folder_path := chosen_folder w in
  let shown := shown ++ [Askdirectory ASK_FOLDER folder_path] in
  if py_not folder_path then
    {| calls := shown ++ [Showinfo TITLE_HINT MSG_NO_FOLDER; Destroy]; raised := None |}
  else
  let output_path := chosen_output w in
  let shown := shown ++ [Askdirectory ASK_OUTPUT output_path] in
  if py_not output_path then
    {| calls := shown ++ [Showinfo TITLE_HINT MSG_NO_OUTPUT; Destroy]; raised := None |}
  else
  let r := analyze_folder_run w folder_path output_path in
  match raised r with
  | Some f => {| calls := shown ++ calls r; raised := Some f |}
  | None => {| calls := shown ++ calls r ++ [Destroy]; raised := None |}
  end.

End Program.

(** Worlds for the examples: a Linux desktop on which the folder cannot
    be opened, a user who cancels the second dialog, and a chart that
    cannot be drawn. *)
Definition SAMPLE_WORLD : Ui.World :=
  {| Ui.chosen_folder := lit "corpus";
     Ui.chosen_output := lit "out";
     Ui.os_name := lit "posix";
     Ui.opening_raises := Some (lit "No such file or directory");
     Ui.file_raises := fun _ => false;
     Ui.workbook_raises := false;
     Ui.chart_raises := false |}.

Definition SAMPLE_WORLD_CANCEL : Ui.World :=
  {| Ui.chosen_folder := lit "corpus";
     Ui.chosen_output := [];
     Ui.os_name := lit "posix";
     Ui.opening_raises := None;
     Ui.file_raises := fun _ => false;
     Ui.workbook_raises := false;
     Ui.chart_raises := false |}.

Definition SAMPLE_WORLD_NO_CHART : Ui.World :=
  {| Ui.chosen_folder := lit "corpus";
     Ui.chosen_output := lit "out";
     Ui.os_name := lit "posix";
     Ui.opening_raises := None;
     Ui.file_raises := fun _ => false;
     Ui.workbook_raises := false;
     Ui.chart_raises := true |}.

Definition sample_os_walk (folder : str) : list (str * list str) :=
  if str_eqb folder (lit "corpus") then SAMPLE_WALK else [].

(* ================================================================== *)
(** ** Round to nearest for a quotient *)

Module RndQ.

Import FloatKey Rnd.
Local Open Scope Z_scope.

(** The quotient [N / D] is given with at least the precision of the
    format: its integer part is not to be shifted left. *)
Definition input_okq (N D e : Z) : Prop :=
  e <= fexp prec emax (Zdigits2 (N / D) + e).

(** Mantissa and exponent after rounding [(N / D) * 2^e] to the format. *)
Definition rndq (N D e : Z) : Z * Z :=
  let e1 := fexp prec emax (Zdigits2 (N / D) + e) in
  norm (Np.round_half_even N (D * 2 ^ (e1 - e))) e1.

(** The shifted dividend of [SFdiv_core_binary] and its exponent. *)
Definition div_exponent (m1 e1 m2 e2 : Z) : Z :=
  Z.min (fexp prec emax ((Zdigits2 m1 + e1) - (Zdigits2 m2 + e2))) (e1 - e2).

Definition div_dividend (m1 e1 m2 e2 : Z) : Z :=
  m1 * 2 ^ (e1 - e2 - div_exponent m1 e1 m2 e2).

End RndQ.

(** The sign bit of a float is clear, or the float is [nan]: the numbers
    that sums, quotients and square roots of counts and squares are. *)
Definition sign_clear (x : spec_float) : Prop :=
  match x with
  | S754_nan => True
  | S754_zero s | S754_infinity s | S754_finite s _ _ => s = false
  end.

Definition sign_clear_or_nan (x : float) : Prop := sign_clear (Prim2SF x).

(** The float is [nan] or at most [b] (at least [b]). *)
Definition nan_or_le (x b : float) : Prop :=
  Np.isnan x = true \/ (x <=? b)%float = true.
Definition nan_or_ge (x b : float) : Prop :=
  Np.isnan x = true \/ (b <=? x)%float = true.

(** The floats [1], [2^1023] and the least positive float. *)
Definition SF_ONE : spec_float := S754_finite false 4503599627370496 (-52).
Definition SF_HUGE : spec_float := S754_finite false 4503599627370496 971.
Definition SF_TINY : spec_float := S754_finite false 1 (-1074).

(** A float that is [+0] or finite, positive and valid. *)
Definition zero_or_pos_finite (x : spec_float) : Prop :=
  x = S754_zero false \/ Rnd.pos_finite x.

(* ================================================================== *)
(** ** Rounding, whatever the sign *)

Module Signed.

Import FloatKey Rnd.
Local Open Scope Z_scope.

(** What an operation returns for the exact result [V], in units of
    [2^-1074], of either sign. *)
Definition rounds_signed (r : spec_float) (V : Z) : Prop :=
  (V = 0 /\ exists s, r = S754_zero s) \/
  (exists s m e,
     r = finish s (rnd m e) /\ 0 < m /\ input_ok m e /\ -1074 <= e /\
     cond_Zopp s (m * 2 ^ (e + 1074)) = V).

(** The key of the opposite number. *)
Definition neg_key (k : Z * Z * Z) : Z * Z * Z :=
  let '(a, b, c) := k in (- a, - b, - c).

(** A zero or a finite float. *)
Definition is_finite (x : spec_float) : Prop :=
  match x with
  | S754_zero _ | S754_finite _ _ _ => True
  | _ => False
  end.

End Signed.

(** The labels, from human to machine. *)
Definition label_rank (l : str) : Z :=
  if str_eqb l LABEL_HUMAN then 0
  else if str_eqb l LABEL_AMBIGUOUS then 1
  else 2.

(** [np.rint] on the specification of a float. *)
Definition SFrint (x : spec_float) : spec_float :=
  match x with
  | S754_finite s m e =>
      if (0 <=? e)%Z then x
      else Prim2SF (Np.signed_int s (Np.round_half_even (Z.pos m) (2 ^ (- e))))
  | _ => x
  end.

(** The float [2^52]. *)
Definition SF_ONE_52 : spec_float := S754_finite false 4503599627370496 0.

(* ================================================================== *)
(** * Properties *)

(** ** Strings, sets and counters *)

Lemma len_nonneg {A : Type} (l : list A) : (0 <= len l)%Z.
Proof. unfold len; lia. Qed.

Lemma len_zero_iff {A : Type} (l : list A) : len l = 0%Z <-> l = [].
Proof.
  unfold len; split; intros H.
  - destruct l; [reflexivity | simpl in H; lia].
  - subst; reflexivity.
Qed.

Lemma py_not_true_iff {A : Type} (l : list A) : py_not l = true <-> l = [].
Proof. destruct l; simpl; split; congruence. Qed.

Lemma lstrip_all_space (s : str) : forallb isspace s = true -> lstrip s = [].
Proof.
  induction s as [|c t IH]; simpl; [reflexivity|].
  intros H; apply andb_prop in H as [Hc Ht]; rewrite Hc; auto.
Qed.

(** A string of white space only strips to the empty string. *)
Lemma strip_all_space (s : str) : forallb isspace s = true -> strip s = [].
Proof.
  intros H; unfold strip, rstrip; rewrite (lstrip_all_space s H); reflexivity.
Qed.

Lemma counter_incr_not_nil (c : counter) (w : str) : counter_incr c w <> [].
Proof.
  destruct c as [|[k n] rest]; simpl; [discriminate|].
  destruct (str_eq_dec k w); discriminate.
Qed.

Lemma fold_counter_incr_not_nil (ws : list str) (c : counter) :
  c <> [] -> fold_left counter_incr ws c <> [].
Proof.
  revert c; induction ws as [|w ws IH]; simpl; intros c Hc; [exact Hc|].
  apply IH, counter_incr_not_nil.
Qed.

Lemma Counter_not_nil (ws : list str) : ws <> [] -> Counter ws <> [].
Proof.
  destruct ws as [|w ws]; [congruence|]; intros _.
  unfold Counter; simpl; apply fold_counter_incr_not_nil; discriminate.
Qed.

Lemma item0_most_common (ws : list str) :
  ws <> [] -> exists top, item0 (most_common_1 (Counter ws)) = Return top.
Proof.
  intros H; apply Counter_not_nil in H.
  destruct (Counter ws) as [|kv rest]; [congruence|].
  simpl; eauto.
Qed.

Lemma py_truediv_returns (a b : Z) :
  b <> 0%Z -> py_truediv a b = Return (Np.of_int a / Np.of_int b)%float.
Proof.
  intros H; unfold py_truediv.
  destruct (Z.eqb_spec b 0); [contradiction | reflexivity].
Qed.

(* ================================================================== *)
(** ** The extractor's guards *)

Section ExtractorFacts.

Variable sent_tokenize : str -> list str.
Variable word_tokenize : str -> list str.
Variable lower : str -> str.
Variable flesch_reading_ease : str -> float.

Local Abbreviation extract :=
  (extract_features sent_tokenize word_tokenize lower flesch_reading_ease).
Local Abbreviation analyze :=
  (analyze_text_features sent_tokenize word_tokenize lower flesch_reading_ease).

Lemma extract_rejects (text : str) :
  text = [] \/ (len (strip text) < 50)%Z \/ word_tokenize (lower text) = [] ->
  extract text = Return None.
Proof.
  unfold extract_features; intros [H | [H | H]].
  - subst; reflexivity.
  - apply Z.ltb_lt in H; rewrite H, orb_true_r; reflexivity.
  - rewrite H; simpl; destruct (py_not text || _); reflexivity.
Qed.

Lemma extract_accepts (text : str) :
  text <> [] -> (50 <= len (strip text))%Z -> word_tokenize (lower text) <> [] ->
  extract text = Return (Some (features_of sent_tokenize word_tokenize lower flesch_reading_ease text)).
Proof.
  intros Ht Hl Hw; unfold extract_features, features_of, top_count.
  destruct text as [|c t]; [congruence|]; cbn [py_not orb].
  destruct (Z.ltb_spec (len (strip (c :: t))) 50); [lia|].
  destruct (word_tokenize (lower (c :: t))) as [|w ws] eqn:Ew; [congruence|].
  cbn [py_not].
  assert (Hn : len (w :: ws) <> 0%Z) by (rewrite len_zero_iff; discriminate).
  rewrite (py_truediv_returns _ _ Hn); cbn [bind].
  assert (Hc : Counter (w :: ws) <> []) by (apply Counter_not_nil; discriminate).
  destruct (Counter (w :: ws)) as [|kv rest]; [congruence|].
  cbn [most_common_1 item0 bind].
  rewrite (py_truediv_returns _ _ Hn); reflexivity.
Qed.

Lemma analyze_rejects (text : str) :
  text = [] \/ (len (strip text) < 50)%Z \/ word_tokenize (lower text) = [] ->
  analyze text = Return None.
Proof.
  intros H; unfold analyze_text_features; rewrite (extract_rejects text H); reflexivity.
Qed.

Lemma analyze_accepts (text : str) :
  text <> [] -> (50 <= len (strip text))%Z -> word_tokenize (lower text) <> [] ->
  analyze text = Return (Some (score_features (features_of sent_tokenize word_tokenize lower flesch_reading_ease text))).
Proof.
  intros Ht Hl Hw; unfold analyze_text_features.
  rewrite (extract_accepts text Ht Hl Hw); reflexivity.
Qed.

(** The guards decide: every text is rejected or accepted. *)
Lemma guards_decide (text : str) :
  (text = [] \/ (len (strip text) < 50)%Z \/ word_tokenize (lower text) = []) \/
  (text <> [] /\ (50 <= len (strip text))%Z /\ word_tokenize (lower text) <> []).
Proof.
  destruct text as [|c t]; [left; left; reflexivity|].
  destruct (Z.lt_ge_cases (len (strip (c :: t))) 50); [left; right; left; assumption|].
  destruct (word_tokenize (lower (c :: t))) eqn:E; [left; right; right; reflexivity|].
  right; repeat split; [discriminate | assumption | discriminate].
Qed.

(** The analysis never raises. *)
Lemma analyze_never_raises (text : str) :
  exists r, analyze text = Return r.
Proof.
  destruct (guards_decide text) as [H | (H1 & H2 & H3)].
  - rewrite (analyze_rejects text H); eauto.
  - rewrite (analyze_accepts text H1 H2 H3); eauto.
Qed.

(** C3: a text that is empty, white space only or shorter than 50
    characters once trimmed, and a text without word tokens, gets no
    result ([None]), not a feature vector and not an exception; every
    other text gets its feature vector, scored. *)
Theorem no_result_iff_too_little_signal (text : str) :
  (text = [] -> extract text = Return None /\ analyze text = Return None) /\
  (forallb isspace text = true ->
     extract text = Return None /\ analyze text = Return None) /\
  ((len (strip text) < 50)%Z ->
     extract text = Return None /\ analyze text = Return None) /\
  (word_tokenize (lower text) = [] ->
     extract text = Return None /\ analyze text = Return None) /\
  (text <> [] -> (50 <= len (strip text))%Z -> word_tokenize (lower text) <> [] ->
     exists fv, extract text = Return (Some fv) /\
                analyze text = Return (Some (score_features fv))).
Proof.
  repeat split; intros.
  - apply extract_rejects; auto.
  - apply analyze_rejects; auto.
  - apply extract_rejects; right; left.
    rewrite strip_all_space by assumption; reflexivity.
  - apply analyze_rejects; right; left.
    rewrite strip_all_space by assumption; reflexivity.
  - apply extract_rejects; auto.
  - apply analyze_rejects; auto.
  - apply extract_rejects; auto.
  - apply analyze_rejects; auto.
  - exists (features_of sent_tokenize word_tokenize lower flesch_reading_ease text); split.
    + apply extract_accepts; assumption.
    + apply analyze_accepts; assumption.
Qed.

End ExtractorFacts.

(** C3 on the repetitive sample, which passes the guards. *)
Lemma no_result_iff_too_little_signal_witness :
  exists fv,
    extract_features Toy.sentences Toy.words Toy.lower Toy.no_readability
      SAMPLE_REPETITIVE = Return (Some fv) /\
    analyze_text_features Toy.sentences Toy.words Toy.lower Toy.no_readability
      SAMPLE_REPETITIVE = Return (Some (score_features fv)).
Proof.
  apply (no_result_iff_too_little_signal Toy.sentences Toy.words Toy.lower
           Toy.no_readability SAMPLE_REPETITIVE).
  - discriminate.
  - vm_compute; discriminate.
  - vm_compute; discriminate.
Defined.

(* ================================================================== *)
(** ** The order of binary64 numbers *)

Module FloatOrder.

Import FloatKey.

Lemma SFcompare_key (x y : spec_float) :
  x <> S754_nan -> y <> S754_nan ->
  exists c, SFcompare x y = Some c /\
    (c = Lt <-> lex_lt (key x) (key y)) /\
    (c = Eq <-> key x = key y) /\
    (c = Gt <-> lex_lt (key y) (key x)).
Proof.
  intros Hx Hy.
  destruct x as [sx|sx| |sx mx ex], y as [sy|sy| |sy my ey]; try congruence;
    cbn [SFcompare key lex_lt]; eexists; (split; [reflexivity|]).
  all: try (destruct sx); try (destruct sy); cbn [lex_lt key];
    try (key_cases; fail).
  - change (PosDef.Pos.compare_cont Eq mx my) with (Z.pos mx ?= Z.pos my)%Z.
    destruct (Z.compare_spec ex ey), (Z.compare_spec (Z.pos mx) (Z.pos my));
      cbn [CompOpp]; key_cases.
  - change (PosDef.Pos.compare_cont Eq mx my) with (Z.pos mx ?= Z.pos my)%Z.
    destruct (Z.compare_spec ex ey), (Z.compare_spec (Z.pos mx) (Z.pos my));
      cbn [CompOpp]; key_cases.
Qed.

Lemma nan_or_not (x : spec_float) : x = S754_nan \/ x <> S754_nan.
Proof. destruct x; auto; right; discriminate. Qed.

Lemma SFcompare_nan_r (x : spec_float) : SFcompare x S754_nan = None.
Proof. destruct x; reflexivity. Qed.

Lemma SFltb_iff (x y : spec_float) :
  SFltb x y = true <->
  x <> S754_nan /\ y <> S754_nan /\ lex_lt (key x) (key y).
Proof.
  unfold SFltb.
  destruct (nan_or_not x) as [Hx | Hx].
  { subst; simpl; split; [discriminate | intros (H & _); congruence]. }
  destruct (nan_or_not y) as [Hy | Hy].
  { subst; rewrite SFcompare_nan_r; split; [discriminate | intros (_ & H & _); congruence]. }
  destruct (SFcompare_key x y Hx Hy) as (c & -> & HLt & HEq & HGt).
  destruct c; split; intros H; try discriminate; try reflexivity;
    try (destruct H as (_ & _ & H); apply HLt in H; discriminate).
  repeat split; auto; apply HLt; reflexivity.
Qed.

Lemma SFleb_iff (x y : spec_float) :
  SFleb x y = true <->
  x <> S754_nan /\ y <> S754_nan /\ lex_le (key x) (key y).
Proof.
  unfold SFleb, lex_le.
  destruct (nan_or_not x) as [Hx | Hx].
  { subst; simpl; split; [discriminate | intros (H & _); congruence]. }
  destruct (nan_or_not y) as [Hy | Hy].
  { subst; rewrite SFcompare_nan_r; split; [discriminate | intros (_ & H & _); congruence]. }
  destruct (SFcompare_key x y Hx Hy) as (c & -> & HLt & HEq & HGt).
  destruct c; split; intros H; try discriminate; try reflexivity;
    try (destruct H as (_ & _ & [H | H]); [apply HLt in H | apply HEq in H]; discriminate).
  - repeat split; auto; right; apply HEq; reflexivity.
  - repeat split; auto; left; apply HLt; reflexivity.
Qed.

Lemma ltb_iff (x y : float) :
  (x <? y)%float = true <-> not_nan x /\ not_nan y /\ lex_lt (fkey x) (fkey y).
Proof. rewrite ltb_spec; apply SFltb_iff. Qed.

Lemma leb_iff (x y : float) :
  (x <=? y)%float = true <-> not_nan x /\ not_nan y /\ lex_le (fkey x) (fkey y).
Proof. rewrite leb_spec; apply SFleb_iff. Qed.

Lemma lex_lt_irrefl (a : Z * Z * Z) : ~ lex_lt a a.
Proof. destruct a as [[a1 a2] a3]; unfold lex_lt; lia. Qed.

Lemma lex_lt_trans (a b c : Z * Z * Z) : lex_lt a b -> lex_lt b c -> lex_lt a c.
Proof.
  destruct a as [[a1 a2] a3], b as [[b1 b2] b3], c as [[c1 c2] c3];
    unfold lex_lt; lia.
Qed.

Lemma lex_le_trans (a b c : Z * Z * Z) : lex_le a b -> lex_le b c -> lex_le a c.
Proof.
  unfold lex_le; intros [H1 | ->] [H2 | ->]; auto.
  left; eapply lex_lt_trans; eauto.
Qed.

Lemma lex_lt_le_trans (a b c : Z * Z * Z) : lex_lt a b -> lex_le b c -> lex_lt a c.
Proof.
  unfold lex_le; intros H1 [H2 | ->]; auto.
  eapply lex_lt_trans; eauto.
Qed.

Lemma lex_le_lt_trans (a b c : Z * Z * Z) : lex_le a b -> lex_lt b c -> lex_lt a c.
Proof.
  unfold lex_le; intros [H1 | ->] H2; auto.
  eapply lex_lt_trans; eauto.
Qed.

Lemma lex_total (a b : Z * Z * Z) : lex_lt a b \/ lex_le b a.
Proof.
  destruct a as [[a1 a2] a3], b as [[b1 b2] b3]; unfold lex_le, lex_lt.
  destruct (Z.lt_trichotomy a1 b1) as [?|[?|?]];
  destruct (Z.lt_trichotomy a2 b2) as [?|[?|?]];
  destruct (Z.lt_trichotomy a3 b3) as [?|[?|?]]; subst;
  try (left; lia); try (right; left; lia); right; right; reflexivity.
Qed.

Lemma lex_lt_not_le (a b : Z * Z * Z) : lex_lt a b -> ~ lex_le b a.
Proof.
  intros H [H' | ->].
  - apply (lex_lt_irrefl a); eapply lex_lt_trans; eauto.
  - apply (lex_lt_irrefl a); assumption.
Qed.

Lemma ltb_leb (x y : float) : (x <? y)%float = true -> (x <=? y)%float = true.
Proof.
  rewrite ltb_iff, leb_iff; intros (? & ? & ?); repeat split; auto; left; auto.
Qed.

Lemma leb_trans (x y z : float) :
  (x <=? y)%float = true -> (y <=? z)%float = true -> (x <=? z)%float = true.
Proof.
  rewrite !leb_iff; intros (? & ? & ?) (? & ? & ?); repeat split; auto.
  eapply lex_le_trans; eauto.
Qed.

Lemma ltb_leb_trans (x y z : float) :
  (x <? y)%float = true -> (y <=? z)%float = true -> (x <? z)%float = true.
Proof.
  rewrite !ltb_iff, leb_iff; intros (? & ? & ?) (? & ? & ?); repeat split; auto.
  eapply lex_lt_le_trans; eauto.
Qed.

Lemma leb_ltb_trans (x y z : float) :
  (x <=? y)%float = true -> (y <? z)%float = true -> (x <? z)%float = true.
Proof.
  rewrite !ltb_iff, leb_iff; intros (? & ? & ?) (? & ? & ?); repeat split; auto.
  eapply lex_le_lt_trans; eauto.
Qed.

Lemma leb_not_ltb (x y : float) : (x <=? y)%float = true -> (y <? x)%float = false.
Proof.
  intros H; destruct (y <? x)%float eqn:E; [|reflexivity].
  apply leb_iff in H as (_ & _ & H); apply ltb_iff in E as (_ & _ & E).
  exfalso; exact (lex_lt_not_le _ _ E H).
Qed.

Lemma ltb_not_leb (x y : float) : (x <? y)%float = true -> (y <=? x)%float = false.
Proof.
  intros H; destruct (y <=? x)%float eqn:E; [|reflexivity].
  apply ltb_iff in H as (_ & _ & H); apply leb_iff in E as (_ & _ & E).
  exfalso; exact (lex_lt_not_le _ _ H E).
Qed.

(** Two numbers that are not [nan] compare one way or the other. *)
Lemma ltb_false_leb (x y : float) :
  not_nan x -> not_nan y -> (x <? y)%float = false -> (y <=? x)%float = true.
Proof.
  intros Hx Hy H; apply leb_iff; repeat split; auto.
  destruct (lex_total (fkey x) (fkey y)) as [L | L]; [|exact L].
  assert (E : (x <? y)%float = true) by (apply ltb_iff; auto).
  congruence.
Qed.

Lemma leb_refl (x : float) : not_nan x -> (x <=? x)%float = true.
Proof. intros H; apply leb_iff; repeat split; auto; right; reflexivity. Qed.

Lemma isnan_false_iff (x : float) : Np.isnan x = false <-> not_nan x.
Proof.
  unfold Np.isnan, not_nan; rewrite FloatAxioms.eqb_spec.
  destruct (Prim2SF x) as [s|s| |s m e]; unfold SFeqb; simpl.
  - split; [discriminate | reflexivity].
  - destruct s; simpl; (split; [discriminate | reflexivity]).
  - split; [discriminate | congruence].
  - destruct s; rewrite Z.compare_refl, Pos.compare_cont_refl; simpl;
      (split; [discriminate | reflexivity]).
Qed.

Lemma leb_not_nan_l (x y : float) : (x <=? y)%float = true -> not_nan x.
Proof. rewrite leb_iff; tauto. Qed.

Lemma leb_not_nan_r (x y : float) : (x <=? y)%float = true -> not_nan y.
Proof. rewrite leb_iff; tauto. Qed.

Lemma ltb_not_nan_l (x y : float) : (x <? y)%float = true -> not_nan x.
Proof. rewrite ltb_iff; tauto. Qed.

Lemma ltb_not_nan_r (x y : float) : (x <? y)%float = true -> not_nan y.
Proof. rewrite ltb_iff; tauto. Qed.

End FloatOrder.

(* ================================================================== *)
(** ** The scorer *)

Section ScorerFacts.

Local Open Scope float_scope.

Lemma SFmul_comm (x y : spec_float) : SF64mul x y = SF64mul y x.
Proof.
  unfold SF64mul, SFmul.
  destruct x as [sx|sx| |sx mx ex], y as [sy|sy| |sy my ey];
    try reflexivity; try (rewrite (xorb_comm sx sy); reflexivity).
  rewrite (xorb_comm sx sy), (Pos.mul_comm mx my), (Z.add_comm ex ey); reflexivity.
Qed.

(** The product of two floats does not depend on their order. *)
Lemma mul_comm (x y : float) : x * y = y * x.
Proof. apply Prim2SF_inj; rewrite !mul_spec; apply SFmul_comm. Qed.


(** The three labels are three different strings. *)
Lemma labels_distinct :
  LABEL_HUMAN <> LABEL_AMBIGUOUS /\ LABEL_AMBIGUOUS <> LABEL_AI /\ LABEL_HUMAN <> LABEL_AI.
Proof. repeat split; discriminate. Qed.

(** Every score gets one of the three labels. *)
Lemma label_of_cases (s : float) :
  label_of s = LABEL_HUMAN \/ label_of s = LABEL_AMBIGUOUS \/ label_of s = LABEL_AI.
Proof.
  unfold label_of; destruct (s <? 40); [|destruct (s <? 70)]; auto.
Qed.

(** C2: the label is a total function of the score with closed-open
    boundaries: [0, 40) is human-authored, [40, 70) ambiguous and
    [70, 100] high-probability AI; the three categories do not overlap;
    39.99 is human-authored, 40.00 ambiguous and 70.00 high-probability AI. *)
Theorem label_thresholds (s : float) :
  ((0 <=? s) = true -> (s <? 40) = true -> label_of s = LABEL_HUMAN) /\
  ((40 <=? s) = true -> (s <? 70) = true -> label_of s = LABEL_AMBIGUOUS) /\
  ((70 <=? s) = true -> (s <=? 100) = true -> label_of s = LABEL_AI) /\
  (label_of s = LABEL_HUMAN \/ label_of s = LABEL_AMBIGUOUS \/ label_of s = LABEL_AI) /\
  (LABEL_HUMAN <> LABEL_AMBIGUOUS /\ LABEL_AMBIGUOUS <> LABEL_AI /\ LABEL_HUMAN <> LABEL_AI) /\
  label_of 39.99 = LABEL_HUMAN /\
  label_of 40 = LABEL_AMBIGUOUS /\
  label_of 70 = LABEL_AI.
Proof.
  split; [|split; [|split; [|split; [|split; [|repeat split]]]]].
  - intros _ H; unfold label_of; rewrite H; reflexivity.
  - intros H1 H2; unfold label_of.
    rewrite (FloatOrder.leb_not_ltb _ _ H1), H2; reflexivity.
  - intros H1 _; unfold label_of.
    rewrite (FloatOrder.leb_not_ltb _ _ H1).
    assert (H40 : (40 <=? s) = true)
      by (apply (FloatOrder.leb_trans 40 70 s); [reflexivity | exact H1]).
    rewrite (FloatOrder.leb_not_ltb _ _ H40); reflexivity.
  - apply label_of_cases.
  - apply labels_distinct.
Qed.

(** The boundaries of C2 at work on the score 55.5. *)
Lemma label_thresholds_witness : label_of 55.5 = LABEL_AMBIGUOUS.
Proof.
  apply (proj1 (proj2 (label_thresholds 55.5))); reflexivity.
Defined.

End ScorerFacts.

(* ================================================================== *)
(** ** The features against their reference definitions *)

Section CounterFacts.

Lemma count_in_incr (c : counter) (w w' : str) :
  count_in (counter_incr c w) w' =
  (count_in c w' + if str_eq_dec w w' then 1 else 0)%Z.
Proof.
  induction c as [|[k n] rest IH]; simpl.
  - destruct (str_eq_dec w w'); reflexivity.
  - destruct (str_eq_dec k w) as [-> | Hkw]; simpl.
    + destruct (str_eq_dec w w'); lia.
    + destruct (str_eq_dec k w') as [-> | Hkw'].
      * destruct (str_eq_dec w w'); [congruence | lia].
      * apply IH.
Qed.

Lemma keys_incr (c : counter) (w k : str) :
  In k (map fst (counter_incr c w)) <-> In k (map fst c) \/ k = w.
Proof.
  induction c as [|[k' n] rest IH]; simpl.
  - intuition congruence.
  - destruct (str_eq_dec k' w) as [-> | Hne]; simpl.
    + intuition congruence.
    + rewrite IH; tauto.
Qed.

Lemma counter_wf_incr (c : counter) (w : str) :
  counter_wf c -> counter_wf (counter_incr c w).
Proof.
  intros [Hnd Hpos]; induction c as [|[k n] rest IH]; simpl.
  - split; [repeat constructor; auto | intros k n [E | []]; inversion E; lia].
  - simpl in Hnd; inversion Hnd as [|? ? Hnotin Hnd']; subst.
    assert (Hpos' : forall k0 n0, In (k0, n0) rest -> (0 < n0)%Z)
      by (intros; apply (Hpos k0); right; assumption).
    destruct (str_eq_dec k w) as [Ekw | Hne].
    + split; [exact Hnd|].
      intros k0 n0 [E | Hin]; [inversion E; subst|].
      * specialize (Hpos k0 n (or_introl eq_refl)); lia.
      * eauto.
    + destruct (IH Hnd' Hpos') as [IHnd IHpos].
      split.
      * simpl; constructor; [|exact IHnd].
        rewrite keys_incr; intros [H | H]; [contradiction | congruence].
      * intros k0 n0 [E | Hin]; [inversion E; subst|]; eauto.
        apply (Hpos k0); left; reflexivity.
Qed.

Lemma count_in_entry (c : counter) (k : str) (n : Z) :
  NoDup (map fst c) -> In (k, n) c -> count_in c k = n.
Proof.
  induction c as [|[k' n'] rest IH]; simpl; [tauto|].
  intros Hnd [E | Hin]; inversion Hnd as [|? ? Hnotin Hnd']; subst.
  - inversion E; subst; destruct (str_eq_dec k k); congruence.
  - destruct (str_eq_dec k' k) as [-> | _]; [|auto].
    exfalso; apply Hnotin; change k with (fst (k, n)); apply in_map; assumption.
Qed.

Lemma entry_of_count_in (c : counter) (k : str) :
  count_in c k <> 0%Z -> In (k, count_in c k) c.
Proof.
  induction c as [|[k' n'] rest IH]; simpl; [congruence|].
  destruct (str_eq_dec k' k) as [-> | _]; auto.
Qed.

Lemma count_in_fold (ws : list str) (c : counter) (w : str) :
  count_in (fold_left counter_incr ws c) w =
  (count_in c w + Reference.occurrences ws w)%Z.
Proof.
  unfold Reference.occurrences; revert c; induction ws as [|a ws IH]; intros c; simpl.
  - lia.
  - rewrite IH, count_in_incr.
    destruct (str_eq_dec a w); lia.
Qed.

Lemma counter_wf_fold (ws : list str) (c : counter) :
  counter_wf c -> counter_wf (fold_left counter_incr ws c).
Proof.
  revert c; induction ws as [|a ws IH]; intros c H; simpl; auto.
  apply IH, counter_wf_incr, H.
Qed.

Lemma count_in_Counter (ws : list str) (w : str) :
  count_in (Counter ws) w = Reference.occurrences ws w.
Proof. unfold Counter; rewrite count_in_fold; reflexivity. Qed.

Lemma counter_wf_Counter (ws : list str) : counter_wf (Counter ws).
Proof.
  apply counter_wf_fold; split; [constructor | intros ? ? []].
Qed.

(** [max_entry] returns an entry, and one with the largest count. *)
Lemma max_entry_spec (c : counter) (best : str * Z) :
  In (max_entry best c) (best :: c) /\
  forall kv, In kv (best :: c) -> (snd kv <= snd (max_entry best c))%Z.
Proof.
  revert best; induction c as [|kv rest IH]; intros best; simpl.
  - split; [auto | intros ? [<- | []]; lia].
  - destruct (IH (if (snd best <? snd kv)%Z then kv else best)) as [Hin Hmax].
    split.
    + destruct Hin as [E | Hin]; [|auto].
      rewrite <- E; destruct (snd best <? snd kv)%Z; auto.
    + intros kv' Hkv'.
      assert (Hb : (snd best <= snd (max_entry (if (snd best <? snd kv)%Z then kv else best) rest))%Z).
      { specialize (Hmax _ (or_introl eq_refl)).
        destruct (Z.ltb_spec (snd best) (snd kv)); lia. }
      assert (Hk : (snd kv <= snd (max_entry (if (snd best <? snd kv)%Z then kv else best) rest))%Z).
      { specialize (Hmax _ (or_introl eq_refl)).
        destruct (Z.ltb_spec (snd best) (snd kv)); lia. }
      destruct Hkv' as [<- | [<- | Hr]]; auto.
      apply Hmax; right; assumption.
Qed.

Lemma occurrences_pos_iff (ws : list str) (w : str) :
  (0 < Reference.occurrences ws w)%Z <-> In w ws.
Proof.
  unfold Reference.occurrences; rewrite (count_occ_In str_eq_dec); lia.
Qed.

(** What the extractor reads off the counter is the count of the most
    frequent word. *)
Lemma top_count_most_frequent (ws : list str) :
  ws <> [] -> Reference.most_frequent_count ws (top_count ws).
Proof.
  intros Hne; unfold top_count.
  pose proof (Counter_not_nil ws Hne) as Hc.
  pose proof (counter_wf_Counter ws) as [Hnd Hpos].
  pose proof (count_in_Counter ws) as Hcount.
  destruct (Counter ws) as [|kv rest] eqn:E; [congruence|].
  destruct (max_entry_spec rest kv) as [Hin Hmax].
  destruct (max_entry kv rest) as [k n] eqn:Em; cbn [snd] in *.
  assert (Hkn : Reference.occurrences ws k = n)
    by (rewrite <- Hcount; apply count_in_entry; assumption).
  assert (Hn : (0 < n)%Z) by (apply (Hpos k); assumption).
  split.
  - exists k; split; [|exact Hkn].
    apply occurrences_pos_iff; lia.
  - intros w.
    destruct (Z.eq_dec (Reference.occurrences ws w) 0) as [-> | Hnz]; [lia|].
    rewrite <- Hcount in Hnz |- *.
    apply (Hmax (w, count_in (kv :: rest) w)), entry_of_count_in, Hnz.
Qed.

Lemma most_frequent_count_unique (ws : list str) (c c' : Z) :
  Reference.most_frequent_count ws c -> Reference.most_frequent_count ws c' -> c = c'.
Proof.
  intros [(w & _ & Hw) Hmax] [(w' & _ & Hw') Hmax'].
  specialize (Hmax w'); specialize (Hmax' w); lia.
Qed.

Lemma py_set_distinct_count (ws : list str) :
  Reference.distinct_count ws (len (py_set ws)).
Proof.
  exists (py_set ws); repeat split.
  - apply NoDup_nodup.
  - apply nodup_In.
  - apply nodup_In.
Qed.

Lemma distinct_count_unique (ws : list str) (n n' : Z) :
  Reference.distinct_count ws n -> Reference.distinct_count ws n' -> n = n'.
Proof.
  intros (l & Hnd & Hin & <-) (l' & Hnd' & Hin' & <-); unfold len.
  assert (List.length l <= List.length l')%nat
    by (apply NoDup_incl_length; [assumption | intros w Hw; apply Hin', Hin, Hw]).
  assert (List.length l' <= List.length l)%nat
    by (apply NoDup_incl_length; [assumption | intros w Hw; apply Hin, Hin', Hw]).
  lia.
Qed.

End CounterFacts.

Section FeatureFacts.

Variable sent_tokenize : str -> list str.
Variable word_tokenize : str -> list str.
Variable lower : str -> str.
Variable flesch_reading_ease : str -> float.

Local Abbreviation extract :=
  (extract_features sent_tokenize word_tokenize lower flesch_reading_ease).

Lemma len_map {A B : Type} (f : A -> B) (l : list A) : len (map f l) = len l.
Proof. unfold len; rewrite length_map; reflexivity. Qed.

(** A feature vector is returned for accepted texts only, and is then
    [features_of]. *)
Lemma extract_some_inv (text : str) (fv : FeatureVector) :
  extract text = Return (Some fv) ->
  word_tokenize (lower text) <> [] /\
  fv = features_of sent_tokenize word_tokenize lower flesch_reading_ease text.
Proof.
  intros H.
  destruct (guards_decide word_tokenize lower text) as [Hr | (H1 & H2 & H3)].
  - rewrite (extract_rejects sent_tokenize word_tokenize lower flesch_reading_ease text Hr) in H.
    discriminate.
  - rewrite (extract_accepts sent_tokenize word_tokenize lower flesch_reading_ease
               text H1 H2 H3) in H.
    split; [assumption | congruence].
Qed.

End FeatureFacts.

(* ================================================================== *)
(** ** The range of the score *)

(** C6: the score is not within [0, 100] for every feature vector.
    Burstiness is not clamped: the sample text has burstiness above 1,
    its (1 - burstiness) term is negative and its score is below 0. *)
Theorem score_range_not_guaranteed :
  ~ (forall fv : FeatureVector, in_range (a_ai_score (score_features fv))) /\
  exists fv : FeatureVector,
    extract_features Toy.sentences Toy.words Toy.lower Toy.no_readability
      SAMPLE_BURSTY = Return (Some fv) /\
    (1 <? burstiness fv)%float = true /\
    ((1 - burstiness fv) * 0.2 <? 0)%float = true /\
    (a_ai_score (score_features fv) <? 0)%float = true /\
    ~ in_range (a_ai_score (score_features fv)).
Proof.
  assert (E : extract_features Toy.sentences Toy.words Toy.lower Toy.no_readability
                SAMPLE_BURSTY
              = Return (Some (features_of Toy.sentences Toy.words Toy.lower
                                Toy.no_readability SAMPLE_BURSTY)))
    by (vm_compute; reflexivity).
  set (fv := features_of Toy.sentences Toy.words Toy.lower Toy.no_readability
               SAMPLE_BURSTY) in *.
  assert (Hneg : (a_ai_score (score_features fv) <? 0)%float = true)
    by (vm_compute; reflexivity).
  assert (Hout : ~ in_range (a_ai_score (score_features fv))).
  { intros [H0 _]; apply FloatOrder.ltb_not_leb in Hneg; congruence. }
  split.
  - intros H; exact (Hout (H fv)).
  - exists fv; split; [exact E|].
    split; [vm_compute; reflexivity|].
    split; [vm_compute; reflexivity|].
    split; [exact Hneg | exact Hout].
Qed.

(* ================================================================== *)
(** ** The aggregator: order of the records and empty inputs *)

Section FolderFacts.

Variable sent_tokenize : str -> list str.
Variable word_tokenize : str -> list str.
Variable lower : str -> str.
Variable flesch_reading_ease : str -> float.
Variable read_txt : str -> str.
Variable docx_paragraphs : str -> list str.

Local Abbreviation analyze :=
  (analyze_text_features sent_tokenize word_tokenize lower flesch_reading_ease).
Local Abbreviation read := (read_file_content read_txt docx_paragraphs).
Local Abbreviation body :=
  (analyze_file sent_tokenize word_tokenize lower flesch_reading_ease
     read_txt docx_paragraphs).
Local Abbreviation run_files :=
  (analyze_files sent_tokenize word_tokenize lower flesch_reading_ease
     read_txt docx_paragraphs).
Local Abbreviation rec_of :=
  (record_of sent_tokenize word_tokenize lower flesch_reading_ease
     read_txt docx_paragraphs).
Local Abbreviation has_rec :=
  (analyzable sent_tokenize word_tokenize lower flesch_reading_ease
     read_txt docx_paragraphs).
Local Abbreviation run_folder :=
  (analyze_folder sent_tokenize word_tokenize lower flesch_reading_ease
     read_txt docx_paragraphs).

Lemma body_appends (results : list Row) (file : str) :
  body results file = Return (results ++ rec_of file).
Proof.
  unfold analyze_file, record_of.
  destruct (analyze_never_raises sent_tokenize word_tokenize lower
              flesch_reading_ease (read file)) as [r ->].
  destruct r; cbn [bind]; [reflexivity | rewrite app_nil_r; reflexivity].
Qed.

Lemma loop_appends (files : list str) (results : list Row) :
  for_each body files results = Return (results ++ flat_map rec_of files).
Proof.
  revert results; induction files as [|f files IH]; intros results; simpl.
  - rewrite app_nil_r; reflexivity.
  - rewrite body_appends; cbn [bind]; rewrite IH, <- app_assoc; reflexivity.
Qed.

Lemma names_of_records (files : list str) :
  map file_name (flat_map rec_of files) =
  map OsPath.basename (filter has_rec files).
Proof.
  induction files as [|f files IH]; simpl; [reflexivity|].
  rewrite map_app, IH; unfold record_of, analyzable.
  destruct (analyze (read f)) as [e | [a |]]; reflexivity.
Qed.

(** C7: the records are those of the files with a result, in the order
    the files were discovered: files without a result are left out and
    nothing is sorted.  For files A, B, C with A and C analysable and B
    not, the records are A's and C's, in that order. *)
Theorem records_in_discovery_order (files : list str) :
  for_each body files [] = Return (flat_map rec_of files) /\
  map file_name (flat_map rec_of files) =
    map OsPath.basename (filter has_rec files) /\
  (flat_map rec_of files <> [] ->
   run_files files =
     Return (Report (flat_map rec_of files) (summarize (flat_map rec_of files)))) /\
  (forall (A B C : str) (a c : Analysis),
     analyze (read A) = Return (Some a) ->
     analyze (read B) = Return None ->
     analyze (read C) = Return (Some c) ->
     for_each body [A; B; C] [] =
       Return [ {| file_name := OsPath.basename A; analysis := a |};
                {| file_name := OsPath.basename C; analysis := c |} ]).
Proof.
  split; [|split; [|split]].
  - rewrite loop_appends; reflexivity.
  - apply names_of_records.
  - intros Hne; unfold analyze_files.
    destruct files as [|f files]; [simpl in Hne; congruence|].
    cbn [py_not]; rewrite loop_appends; cbn [bind app].
    destruct (flat_map rec_of (f :: files)); [congruence | reflexivity].
  - intros A B C a c HA HB HC.
    rewrite loop_appends; simpl; unfold record_of; rewrite HA, HB, HC; reflexivity.
Qed.

Lemma inner_walk_nil (root : str) (filelist files : list str) :
  fold_left
    (fun files f =>
       if endswith f EXT_TXT || endswith f EXT_DOCX
       then files ++ [OsPath.path_join root f]
       else files) filelist files = [] <->
  files = [] /\
  forall f, In f filelist -> endswith f EXT_TXT || endswith f EXT_DOCX = false.
Proof.
  revert files; induction filelist as [|f filelist IH]; intros files; simpl.
  - intuition.
  - rewrite IH; destruct (endswith f EXT_TXT || endswith f EXT_DOCX) eqn:E.
    + split.
      * intros [H _]; destruct files; discriminate.
      * intros [_ H]; specialize (H f (or_introl eq_refl)); congruence.
    + split.
      * intros [H1 H2]; split; [assumption|]; intros g [<- | Hg]; auto.
      * intros [H1 H2]; split; [assumption|]; intros g Hg; apply H2; auto.
Qed.

Lemma walk_nil (walk : list (str * list str)) (files : list str) :
  fold_left
    (fun files '(root, filelist) =>
       fold_left
         (fun files f =>
            if endswith f EXT_TXT || endswith f EXT_DOCX
            then files ++ [OsPath.path_join root f]
            else files)
         filelist files) walk files = [] <->
  files = [] /\
  forall root filelist f, In (root, filelist) walk -> In f filelist ->
    endswith f EXT_TXT || endswith f EXT_DOCX = false.
Proof.
  revert files; induction walk as [|[root filelist] walk IH]; intros files; simpl.
  - intuition.
  - rewrite IH, inner_walk_nil; split.
    + intros [[H1 H2] H3]; split; [assumption|].
      intros r fl f [E | Hin] Hf; [inversion E; subst; auto | eauto].
    + intros [H1 H2]; split; [split; [assumption|]|]; eauto.
Qed.

(** No file is discovered exactly when no file name under the folder
    ends in [.txt] or [.docx]. *)
Lemma discover_nil_iff (walk : list (str * list str)) :
  discover walk = [] <->
  forall root filelist f, In (root, filelist) walk -> In f filelist ->
    endswith f EXT_TXT || endswith f EXT_DOCX = false.
Proof.
  unfold discover; rewrite walk_nil; intuition.
Qed.

(** C9: a folder without a file of a supported extension gives the
    no-eligible-files signal; files none of which has analysable content
    give the distinct no-analysable-content signal; neither is an
    exception, neither carries records or a summary, and a run never
    raises. *)
Theorem empty_inputs_are_signals :
  (forall walk,
     (forall root filelist f, In (root, filelist) walk -> In f filelist ->
        endswith f EXT_TXT || endswith f EXT_DOCX = false) ->
     run_folder walk = Return NoEligibleFiles) /\
  (forall files,
     files <> [] -> flat_map rec_of files = [] ->
     run_files files = Return NoAnalyzableContent) /\
  (forall files,
     files <> [] ->
     (forall f, In f files -> analyze (read f) = Return None) ->
     run_files files = Return NoAnalyzableContent) /\
  NoEligibleFiles <> NoAnalyzableContent /\
  (forall df summary,
     NoEligibleFiles <> Report df summary /\ NoAnalyzableContent <> Report df summary) /\
  (forall walk, exists r, run_folder walk = Return r).
Proof.
  assert (Hloop : forall files,
            files <> [] -> flat_map rec_of files = [] ->
            run_files files = Return NoAnalyzableContent).
  { intros files Hne Hnil; unfold analyze_files.
    destruct files as [|f files]; [congruence|].
    cbn [py_not]; rewrite loop_appends, Hnil; reflexivity. }
  split; [|split; [|split; [|split; [|split]]]].
  - intros walk H; unfold analyze_folder.
    rewrite (proj2 (discover_nil_iff walk) H); reflexivity.
  - exact Hloop.
  - intros files Hne Hnone; apply Hloop; [assumption|].
    clear Hne; induction files as [|f files IH]; [reflexivity|].
    simpl; unfold record_of at 1; rewrite (Hnone f (or_introl eq_refl)); simpl.
    apply IH; intros g Hg; apply Hnone; right; assumption.
  - discriminate.
  - intros; split; discriminate.
  - intros walk; unfold analyze_folder, analyze_files.
    destruct (discover walk) as [|f files]; [eexists; reflexivity|].
    cbn [py_not]; rewrite loop_appends; cbn [bind app].
    destruct (flat_map rec_of (f :: files)); eexists; reflexivity.
Qed.

End FolderFacts.

(** C7 on the sample folder: A and C are analysable, B is empty. *)
Lemma records_in_discovery_order_witness :
  exists a c,
    for_each
      (analyze_file Toy.sentences Toy.words Toy.lower Toy.no_readability
         sample_read_txt sample_docx_paragraphs)
      [SAMPLE_FILE_A; SAMPLE_FILE_B; SAMPLE_FILE_C] [] =
    Return [ {| file_name := lit "A.txt"; analysis := a |};
             {| file_name := lit "C.txt"; analysis := c |} ].
Proof.
  eexists; eexists.
  apply (records_in_discovery_order Toy.sentences Toy.words Toy.lower
           Toy.no_readability sample_read_txt sample_docx_paragraphs []);
    vm_compute; reflexivity.
Defined.

(** The whole run on the sample folder: [notes.md] is not discovered, the
    empty [B.txt] leaves no record, the report lists A then C. *)
Example sample_folder_report :
  exists df summary,
    analyze_folder Toy.sentences Toy.words Toy.lower Toy.no_readability
      sample_read_txt sample_docx_paragraphs SAMPLE_WALK
    = Return (Report df summary) /\
    map file_name df = [lit "A.txt"; lit "C.txt"] /\
    total_documents summary = 2%Z.
Proof.
  eexists; eexists; split; [vm_compute; reflexivity|].
  split; reflexivity.
Qed.

(** C9 on the folder without supported files, and on the empty file alone. *)
Lemma empty_inputs_are_signals_witness :
  analyze_folder Toy.sentences Toy.words Toy.lower Toy.no_readability
    sample_read_txt sample_docx_paragraphs SAMPLE_WALK_OTHER
  = Return NoEligibleFiles /\
  analyze_files Toy.sentences Toy.words Toy.lower Toy.no_readability
    sample_read_txt sample_docx_paragraphs [SAMPLE_FILE_B]
  = Return NoAnalyzableContent.
Proof.
  destruct (empty_inputs_are_signals Toy.sentences Toy.words Toy.lower
              Toy.no_readability sample_read_txt sample_docx_paragraphs)
    as (H1 & H2 & _).
  split.
  - apply H1; intros root filelist f [E | []] Hf.
    injection E as <- <-.
    destruct Hf as [<- | [<- | []]]; reflexivity.
  - apply H2; [discriminate | vm_compute; reflexivity].
Defined.

(* ================================================================== *)
(** ** The summary *)

Section SummaryFacts.

Local Open Scope float_scope.

Lemma count_true_from (mask : list bool) (acc : Z) :
  fold_left (fun acc (b : bool) => if b then (acc + 1)%Z else acc) mask acc =
  (acc + len (filter (fun b => b) mask))%Z.
Proof.
  revert acc; induction mask as [|b mask IH]; intros acc; simpl.
  - unfold len; simpl; lia.
  - rewrite IH; destruct b; unfold len; simpl; lia.
Qed.

(** Counting the [True] entries of a mask counts the rows that satisfy
    the test. *)
Lemma count_true_filter {A : Type} (f : A -> bool) (l : list A) :
  Pd.count_true (map f l) = len (filter f l).
Proof.
  unfold Pd.count_true; rewrite count_true_from, Z.add_0_l.
  unfold len; f_equal.
  induction l as [|a l IH]; simpl; [reflexivity|].
  destruct (f a); simpl; rewrite IH; reflexivity.
Qed.


Lemma fmax_cases (a b : float) :
  FloatKey.not_nan a -> FloatKey.not_nan b ->
  (Pd.fmax a b = a \/ Pd.fmax a b = b) /\
  (a <=? Pd.fmax a b) = true /\ (b <=? Pd.fmax a b) = true.
Proof.
  intros Ha Hb; unfold Pd.fmax; destruct (a <? b) eqn:E.
  - split; [auto|]; split; [apply FloatOrder.ltb_leb, E | apply FloatOrder.leb_refl, Hb].
  - split; [auto|]; split; [apply FloatOrder.leb_refl, Ha | apply FloatOrder.ltb_false_leb; assumption].
Qed.

Lemma fmin_cases (a b : float) :
  FloatKey.not_nan a -> FloatKey.not_nan b ->
  (Pd.fmin a b = a \/ Pd.fmin a b = b) /\
  (Pd.fmin a b <=? a) = true /\ (Pd.fmin a b <=? b) = true.
Proof.
  intros Ha Hb; unfold Pd.fmin; destruct (b <? a) eqn:E.
  - split; [auto|]; split; [apply FloatOrder.ltb_leb, E | apply FloatOrder.leb_refl, Hb].
  - split; [auto|]; split; [apply FloatOrder.leb_refl, Ha | apply FloatOrder.ltb_false_leb; assumption].
Qed.

Lemma fold_fmax_spec (rest : list float) (x : float) :
  FloatKey.not_nan x -> Forall FloatKey.not_nan rest ->
  In (fold_left Pd.fmax rest x) (x :: rest) /\
  forall y, In y (x :: rest) -> (y <=? fold_left Pd.fmax rest x) = true.
Proof.
  revert x; induction rest as [|z rest IH]; intros x Hx Hrest; simpl.
  - split; [auto|]; intros y [<- | []]; apply FloatOrder.leb_refl, Hx.
  - inversion Hrest as [|? ? Hz Hrest']; subst.
    destruct (fmax_cases x z Hx Hz) as (Hc & Hxm & Hzm).
    assert (Hm : FloatKey.not_nan (Pd.fmax x z)) by (destruct Hc as [-> | ->]; assumption).
    destruct (IH (Pd.fmax x z) Hm Hrest') as [Hin Hmax]; split.
    + destruct Hin as [E | Hin]; [|auto].
      rewrite <- E; destruct Hc as [-> | ->]; auto.
    + intros y [<- | [<- | Hy]].
      * eapply FloatOrder.leb_trans; [exact Hxm | apply Hmax; left; reflexivity].
      * eapply FloatOrder.leb_trans; [exact Hzm | apply Hmax; left; reflexivity].
      * apply Hmax; right; assumption.
Qed.

Lemma fold_fmin_spec (rest : list float) (x : float) :
  FloatKey.not_nan x -> Forall FloatKey.not_nan rest ->
  In (fold_left Pd.fmin rest x) (x :: rest) /\
  forall y, In y (x :: rest) -> (fold_left Pd.fmin rest x <=? y) = true.
Proof.
  revert x; induction rest as [|z rest IH]; intros x Hx Hrest; simpl.
  - split; [auto|]; intros y [<- | []]; apply FloatOrder.leb_refl, Hx.
  - inversion Hrest as [|? ? Hz Hrest']; subst.
    destruct (fmin_cases x z Hx Hz) as (Hc & Hxm & Hzm).
    assert (Hm : FloatKey.not_nan (Pd.fmin x z)) by (destruct Hc as [-> | ->]; assumption).
    destruct (IH (Pd.fmin x z) Hm Hrest') as [Hin Hmin]; split.
    + destruct Hin as [E | Hin]; [|auto].
      rewrite <- E; destruct Hc as [-> | ->]; auto.
    + intros y [<- | [<- | Hy]].
      * eapply FloatOrder.leb_trans; [apply Hmin; left; reflexivity | exact Hxm].
      * eapply FloatOrder.leb_trans; [apply Hmin; left; reflexivity | exact Hzm].
      * apply Hmin; right; assumption.
Qed.










Lemma mean_skipna (col : list float) :
  Pd.dropna col <> [] ->
  Pd.mean col = Np.sum (Pd.fill_zero col) / Np.of_int (len (Pd.dropna col)).
Proof.
  intros Hne. unfold Pd.mean.
  destruct (Z.ltb_spec 0 (len (Pd.dropna col))) as [_ | H]; [reflexivity|].
  destruct (Pd.dropna col); [congruence | unfold len in H; cbn [List.length] in H; lia].
Qed.



End SummaryFacts.


(** The rows of a report are labelled by the scorer, and its summary is
    computed from them. *)
Lemma report_rows_labelled
    (sent_tokenize word_tokenize : str -> list str) (lower : str -> str)
    (flesch_reading_ease : str -> float)
    (read_txt : str -> str) (docx_paragraphs : str -> list str)
    (files : list str) (df : list Row) (summary : Summary) :
  analyze_files sent_tokenize word_tokenize lower flesch_reading_ease
    read_txt docx_paragraphs files = Return (Report df summary) ->
  df <> [] /\ Forall labelled_by_scorer df /\ summary = summarize df.
Proof.
  unfold analyze_files; destruct files as [|f files]; [discriminate|].
  cbn [py_not]; rewrite loop_appends; cbn [bind app].
  set (rs := flat_map _ _).
  assert (Hrs : Forall labelled_by_scorer rs).
  { subst rs; apply Forall_flat_map, Forall_forall; intros g _.
    unfold record_of, analyze_text_features.
    destruct (extract_features _ _ _ _ _) as [e | [fv |]]; cbn [bind option_map];
      repeat constructor. }
  destruct rs as [|r rs']; [discriminate|].
  cbn [py_not]; intros H; inversion H; subst.
  split; [discriminate | split; [assumption | reflexivity]].
Qed.

(* ================================================================== *)
(** ** Rounding to binary64 *)

Module Rounding.

Import FloatKey Rnd.
Local Open Scope Z_scope.

Lemma fexp_eq (e : Z) : fexp prec emax e = Z.max (e - 53) (-1074).
Proof. reflexivity. Qed.

(** *** Binary digits *)

Lemma digits2_pos_bounds (p : positive) :
  2 ^ (Z.pos (digits2_pos p) - 1) <= Z.pos p < 2 ^ Z.pos (digits2_pos p).
Proof.
  induction p as [p IH | p IH |]; cbn [digits2_pos].
  - rewrite Pos2Z.inj_succ.
    replace (Z.succ (Z.pos (digits2_pos p)) - 1) with (Z.succ (Z.pos (digits2_pos p) - 1)) by lia.
    rewrite !Z.pow_succ_r by lia. lia.
  - rewrite Pos2Z.inj_succ.
    replace (Z.succ (Z.pos (digits2_pos p)) - 1) with (Z.succ (Z.pos (digits2_pos p) - 1)) by lia.
    rewrite !Z.pow_succ_r by lia. lia.
  - simpl; lia.
Qed.

Lemma Zdigits2_bounds (m : Z) :
  0 < m -> 0 < Zdigits2 m /\ 2 ^ (Zdigits2 m - 1) <= m < 2 ^ Zdigits2 m.
Proof.
  destruct m as [|p|p]; try lia; intros _; cbn [Zdigits2].
  split; [lia | apply digits2_pos_bounds].
Qed.

Lemma Zdigits2_unique (m k : Z) :
  2 ^ (k - 1) <= m < 2 ^ k -> 0 < k -> Zdigits2 m = k.
Proof.
  intros [Hlo Hhi] Hk.
  assert (Hm : 0 < m) by (pose proof (Z.pow_pos_nonneg 2 (k - 1)); lia).
  destruct (Zdigits2_bounds m Hm) as (Hd & Hdlo & Hdhi).
  destruct (Z.lt_trichotomy (Zdigits2 m) k) as [H | [H | H]]; [|assumption|].
  - assert (2 ^ Zdigits2 m <= 2 ^ (k - 1)) by (apply Z.pow_le_mono_r; lia). lia.
  - assert (2 ^ k <= 2 ^ (Zdigits2 m - 1)) by (apply Z.pow_le_mono_r; lia). lia.
Qed.

(** *** Shifting right with a round bit and a sticky bit *)

Lemma iter_pos_nat {A : Type} (f : A -> A) (p : positive) (x : A) :
  iter_pos f p x = Nat.iter (Pos.to_nat p) f x.
Proof.
  revert x; induction p as [p IH | p IH |]; intros x; cbn [iter_pos].
  - rewrite !IH, Pos2Nat.inj_xI.
    replace (S (2 * Pos.to_nat p)) with (Pos.to_nat p + (Pos.to_nat p + 1))%nat by lia.
    rewrite !Nat.iter_add; reflexivity.
  - rewrite !IH, Pos2Nat.inj_xO.
    replace (2 * Pos.to_nat p)%nat with (Pos.to_nat p + Pos.to_nat p)%nat by lia.
    rewrite Nat.iter_add; reflexivity.
  - reflexivity.
Qed.

Lemma located_start (M : Z) :
  0 <= M -> located M 1 {| shr_m := M; shr_r := false; shr_s := false |}.
Proof.
  intros H; exists 0; cbn [shr_m shr_r shr_s];
    repeat split; intros; try discriminate; try lia.
Qed.

Lemma located_shr_1 (M P : Z) (mrs : shr_record) :
  0 < P -> located M P mrs -> located M (2 * P) (shr_1 mrs).
Proof.
  intros HP (rem & HM & Hrem & Hm & Hr & Hs).
  destruct mrs as [m r s]; cbn [shr_m shr_r shr_s] in *.
  assert (Hrs : r || s = true <-> rem <> 0).
  { rewrite orb_true_iff, Hr, Hs; lia. }
  destruct m as [|[p|p|]|p]; try lia; cbn [shr_1 shr_m shr_r shr_s].
  all: [> exists rem | exists (P + rem) | exists rem | exists (P + rem)];
    cbn [shr_m shr_r shr_s]; rewrite ?Hrs;
    repeat split; intros; try discriminate; try lia.
Qed.

Lemma located_iter (M : Z) (n : nat) :
  0 <= M ->
  located M (2 ^ Z.of_nat n)
    (Nat.iter n shr_1 {| shr_m := M; shr_r := false; shr_s := false |}).
Proof.
  intros HM; induction n as [|n IH].
  - apply located_start, HM.
  - rewrite Nat2Z.inj_succ, Z.pow_succ_r by lia; cbn [Nat.iter].
    apply located_shr_1; [apply Z.pow_pos_nonneg; lia | exact IH].
Qed.

(** Rounding where the record points to is rounding the quotient to the
    nearest integer, ties to even. *)
Lemma located_round (M P : Z) (mrs : shr_record) :
  0 < P -> located M P mrs ->
  round_nearest_even (shr_m mrs) (loc_of_shr_record mrs) = Np.round_half_even M P.
Proof.
  intros HP (rem & HM & Hrem & Hm & Hr & Hs).
  unfold Np.round_half_even.
  assert (Hq : M / P = shr_m mrs) by (symmetry; apply (Z.div_unique_pos M P _ rem); lia).
  assert (Hmod : M mod P = rem) by (symmetry; apply (Z.mod_unique_pos M P (shr_m mrs) rem); lia).
  rewrite Hq, Hmod.
  destruct mrs as [m r s]; cbn [shr_m shr_r shr_s loc_of_shr_record] in *.
  destruct (Z.compare_spec (2 * rem) P) as [E | L | G];
    destruct r, s; cbn [round_nearest_even]; try reflexivity;
    try (exfalso; intuition lia; fail).
Qed.

(** *** Rounding to the nearest integer *)

Lemma rhe_cases (m P : Z) :
  0 < P ->
  Np.round_half_even m P = m / P \/ Np.round_half_even m P = m / P + 1.
Proof.
  intros HP; unfold Np.round_half_even.
  destruct (2 * (m mod P) ?= P); [destruct (Z.even (m / P))|..]; auto.
Qed.

Lemma rhe_exact (m P : Z) : 0 < P -> m mod P = 0 -> Np.round_half_even m P = m / P.
Proof.
  intros HP H; unfold Np.round_half_even; rewrite H.
  destruct (Z.compare_spec (2 * 0) P); try lia; reflexivity.
Qed.

Lemma rhe_one (m : Z) : Np.round_half_even m 1 = m.
Proof. rewrite rhe_exact by (try lia; apply Z.mod_1_r); apply Z.div_1_r. Qed.

Lemma rhe_upper (m P B : Z) : 0 < P -> m < B * P -> Np.round_half_even m P <= B.
Proof.
  intros HP H.
  assert (m / P < B) by (apply Z.div_lt_upper_bound; lia).
  destruct (rhe_cases m P HP); lia.
Qed.

Lemma rhe_upper_le (m P B : Z) : 0 < P -> m <= B * P -> Np.round_half_even m P <= B.
Proof.
  intros HP H.
  destruct (Z.eq_dec m (B * P)) as [-> | Hne].
  - rewrite rhe_exact by (try lia; apply Z.mod_mul; lia).
    rewrite Z.div_mul; lia.
  - apply rhe_upper; lia.
Qed.

Lemma rhe_lower (m P B : Z) : 0 < P -> B * P <= m -> B <= Np.round_half_even m P.
Proof.
  intros HP H.
  assert (B <= m / P) by (apply Z.div_le_lower_bound; lia).
  destruct (rhe_cases m P HP); lia.
Qed.

(** Rounding is monotone, also across denominators: [m/P <= m'/P']
    gives [round (m/P) <= round (m'/P')]. *)
Lemma rhe_mono (m P m' P' : Z) :
  0 < P -> 0 < P' -> m * P' <= m' * P ->
  Np.round_half_even m P <= Np.round_half_even m' P'.
Proof.
  intros HP HP' H; unfold Np.round_half_even.
  pose proof (Z.div_mod m P ltac:(lia)) as Em.
  pose proof (Z.div_mod m' P' ltac:(lia)) as Em'.
  pose proof (Z.mod_pos_bound m P HP) as Hr.
  pose proof (Z.mod_pos_bound m' P' HP') as Hr'.
  set (q := m / P) in *; set (r := m mod P) in *.
  set (q' := m' / P') in *; set (r' := m' mod P') in *.
  assert (Hq : q <= q').
  { destruct (Z_lt_le_dec q' q) as [Hlt | Hle]; [exfalso | exact Hle].
    assert (q' + 1 <= q) by lia.
    assert (m' < (q' + 1) * P') by lia.
    assert ((q' + 1) * P <= m) by nia.
    assert (m' * P < (q' + 1) * P' * P) by nia.
    assert ((q' + 1) * P * P' <= m * P') by nia.
    nia. }
  destruct (Z.eq_dec q q') as [Eq | Hne].
  - assert (Hrr : r * P' <= r' * P) by (subst q'; nia).
    rewrite <- Eq.
    destruct (Z.compare_spec (2 * r) P), (Z.compare_spec (2 * r') P');
      try (destruct (Z.even q)); try lia; exfalso; nia.
  - assert (q + 1 <= q') by lia.
    destruct (2 * r ?= P), (2 * r' ?= P');
      try (destruct (Z.even q)); try (destruct (Z.even q')); lia.
Qed.

(** *** The rounding of a positive number given exactly *)

Lemma shr_exact (m e n : Z) :
  0 <= m -> 0 < n ->
  exists mrs,
    shr {| shr_m := m; shr_r := false; shr_s := false |} e n = (mrs, e + n) /\
    located m (2 ^ n) mrs.
Proof.
  intros Hm Hn; destruct n as [|p|p]; try lia.
  cbn [shr]; eexists; split; [reflexivity|].
  rewrite iter_pos_nat, <- (positive_nat_Z p); apply located_iter, Hm.
Qed.

Lemma shr_none (mrs : shr_record) (e n : Z) : n <= 0 -> shr mrs e n = (mrs, e).
Proof. destruct n; try lia; reflexivity. Qed.

Lemma rhe_shift_bounds (m e : Z) :
  0 < m ->
  let e1 := fexp prec emax (Zdigits2 m + e) in
  e < e1 ->
  0 <= Np.round_half_even m (2 ^ (e1 - e)) <= 2 ^ 53.
Proof.
  intros Hm e1 He.
  assert (HP : 0 < 2 ^ (e1 - e)) by (apply Z.pow_pos_nonneg; lia).
  destruct (Zdigits2_bounds m Hm) as (Hd & _ & Hhi).
  split.
  - apply rhe_lower; lia.
  - apply rhe_upper; [exact HP|].
    rewrite <- Z.pow_add_r by lia.
    eapply Z.lt_le_trans; [exact Hhi|].
    apply Z.pow_le_mono_r; [lia|].
    subst e1; rewrite fexp_eq in *; lia.
Qed.

(** [binary_round_aux] on an exact positive number is [rnd]. *)
Theorem binary_round_aux_exact (s : bool) (m e : Z) :
  0 < m -> binary_round_aux prec emax s m e loc_Exact = finish s (rnd m e).
Proof.
  intros Hm; unfold binary_round_aux, shr_fexp, rnd.
  set (e1 := fexp prec emax (Zdigits2 m + e)).
  cbn [shr_record_of_loc].
  destruct (Z.leb_spec e1 e) as [Hle | Hlt].
  - rewrite shr_none by lia.
    cbn [shr_m loc_of_shr_record round_nearest_even shr_record_of_loc].
    fold e1; rewrite shr_none by lia; reflexivity.
  - destruct (shr_exact m e (e1 - e)) as (mrs & -> & Hloc); [lia | lia |].
    rewrite (located_round m (2 ^ (e1 - e)) mrs) by (try assumption; apply Z.pow_pos_nonneg; lia).
    pose proof (rhe_shift_bounds m e Hm Hlt) as Hb; fold e1 in Hb.
    set (m1 := Np.round_half_even m (2 ^ (e1 - e))) in *.
    replace (e + (e1 - e)) with e1 by lia.
    assert (He1 : -1074 <= e1) by (subst e1; rewrite fexp_eq; lia).
    cbn [shr_record_of_loc].
    destruct (Z.eqb_spec m1 (2 ^ 53)) as [E | Hne].
    + rewrite E.
      replace (fexp prec emax (Zdigits2 (2 ^ 53) + e1) - e1) with 1
        by (rewrite fexp_eq; change (Zdigits2 (2 ^ 53)) with 54; lia).
      reflexivity.
    + destruct (Z.eq_dec m1 0) as [E0 | Hnz].
      * rewrite E0; rewrite shr_none by (rewrite fexp_eq; cbn [Zdigits2]; lia).
        reflexivity.
      * assert (Hm1 : 0 < m1) by lia.
        destruct (Zdigits2_bounds m1 Hm1) as (Hd1 & Hlo1 & _).
        assert (Hd53 : Zdigits2 m1 <= 53).
        { destruct (Z_le_gt_dec (Zdigits2 m1) 53) as [? | Hgt]; [assumption | exfalso].
          assert (2 ^ 53 <= 2 ^ (Zdigits2 m1 - 1)) by (apply Z.pow_le_mono_r; lia).
          lia. }
        rewrite shr_none by (rewrite fexp_eq; lia).
        reflexivity.
Qed.


(** *** Monotonicity *)

Lemma rnd_norm (m e : Z) :
  0 < m -> input_ok m e ->
  let e1 := fexp prec emax (Zdigits2 m + e) in
  rnd m e = norm (Np.round_half_even m (2 ^ (e1 - e))) e1 /\
  0 <= Np.round_half_even m (2 ^ (e1 - e)) <= 2 ^ 53.
Proof.
  intros Hm Hok e1; unfold rnd, input_ok in *; fold e1 in Hok |- *.
  destruct (Z.leb_spec e1 e) as [Hle | Hlt].
  - replace (e1 - e) with 0 by lia; rewrite rhe_one.
    assert (e1 = e) by lia.
    destruct (Zdigits2_bounds m Hm) as (Hd & _ & Hhi).
    assert (m < 2 ^ 53).
    { eapply Z.lt_le_trans; [exact Hhi|]; apply Z.pow_le_mono_r; [lia|].
      subst e1; rewrite fexp_eq in *; lia. }
    unfold norm; destruct (Z.eqb_spec m (2 ^ 53)); [lia|].
    split; [congruence | lia].
  - split; [reflexivity | apply rhe_shift_bounds; assumption].
Qed.

(** A number in the normal range rounds to a full mantissa. *)
Lemma rhe_normal (m e : Z) :
  0 < m -> input_ok m e ->
  let e1 := fexp prec emax (Zdigits2 m + e) in
  -1074 < e1 -> 2 ^ 52 <= Np.round_half_even m (2 ^ (e1 - e)).
Proof.
  intros Hm Hok e1 He1; unfold input_ok in Hok; fold e1 in Hok.
  destruct (Zdigits2_bounds m Hm) as (Hd & Hlo & _).
  assert (E : e1 = Zdigits2 m + e - 53) by (subst e1; rewrite fexp_eq in *; lia).
  apply rhe_lower; [apply Z.pow_pos_nonneg; lia|].
  rewrite <- Z.pow_add_r by lia.
  replace (52 + (e1 - e)) with (Zdigits2 m - 1) by lia; exact Hlo.
Qed.

Lemma pow2_pos (k : Z) : 0 <= k -> 0 < 2 ^ k.
Proof. intros; apply Z.pow_pos_nonneg; lia. Qed.

(** Larger numbers have at least as many digits before the point. *)
Lemma magnitude_mono (m e m' e' K : Z) :
  0 < m -> 0 < m' -> 0 <= e + K -> 0 <= e' + K ->
  m * 2 ^ (e + K) <= m' * 2 ^ (e' + K) ->
  Zdigits2 m + e <= Zdigits2 m' + e'.
Proof.
  intros Hm Hm' He He' H.
  destruct (Zdigits2_bounds m Hm) as (Hd & Hlo & _).
  destruct (Zdigits2_bounds m' Hm') as (Hd' & _ & Hhi').
  assert (H1 : 2 ^ (Zdigits2 m - 1 + (e + K)) <= m * 2 ^ (e + K)).
  { rewrite (Z.pow_add_r 2 (Zdigits2 m - 1) (e + K)) by lia.
    apply Z.mul_le_mono_nonneg_r; [apply Z.lt_le_incl, pow2_pos|]; lia. }
  assert (H2 : m' * 2 ^ (e' + K) < 2 ^ (Zdigits2 m' + (e' + K))).
  { rewrite (Z.pow_add_r 2 (Zdigits2 m') (e' + K)) by lia.
    apply Z.mul_lt_mono_pos_r; [apply pow2_pos|]; lia. }
  assert (H3 : 2 ^ (Zdigits2 m - 1 + (e + K)) < 2 ^ (Zdigits2 m' + (e' + K))) by lia.
  apply Z.pow_lt_mono_r_iff in H3; lia.
Qed.

Lemma scaled_cross (m e m' e' K E : Z) :
  0 <= e + K -> 0 <= e' + K -> e <= E -> e' <= E ->
  m * 2 ^ (e + K) <= m' * 2 ^ (e' + K) ->
  m * 2 ^ (E - e') <= m' * 2 ^ (E - e).
Proof.
  intros He He' HE HE' H.
  pose proof (pow2_pos (e + K) He) as Ha.
  pose proof (pow2_pos (e' + K) He') as Ha'.
  pose proof (pow2_pos (E - e) ltac:(lia)) as HP.
  pose proof (pow2_pos (E - e') ltac:(lia)) as HP'.
  assert (T1 : 2 ^ (e + K) * 2 ^ (E - e) = 2 ^ (E + K))
    by (rewrite <- Z.pow_add_r by lia; f_equal; lia).
  assert (T2 : 2 ^ (e' + K) * 2 ^ (E - e') = 2 ^ (E + K))
    by (rewrite <- Z.pow_add_r by lia; f_equal; lia).
  set (a := 2 ^ (e + K)) in *; set (a' := 2 ^ (e' + K)) in *.
  set (P := 2 ^ (E - e)) in *; set (P' := 2 ^ (E - e')) in *.
  set (T := 2 ^ (E + K)) in *.
  destruct (Z_le_gt_dec (m * P') (m' * P)) as [? | Hgt]; [assumption | exfalso].
  assert (m' * P + 1 <= m * P') by lia.
  assert (0 < a * a') by nia.
  assert ((m' * P + 1) * (a * a') <= m * P' * (a * a')) by nia.
  assert (m * P' * (a * a') = m * a * T) by (rewrite <- T2; ring).
  assert (m' * P * (a * a') = m' * a' * T) by (rewrite <- T1; ring).
  assert (0 < T) by (subst T; apply pow2_pos; lia).
  assert (m * a * T <= m' * a' * T) by nia.
  nia.
Qed.

Theorem rnd_mono_pair (m e m' e' K : Z) :
  0 < m -> 0 < m' -> input_ok m e -> input_ok m' e' ->
  0 <= e + K -> 0 <= e' + K ->
  m * 2 ^ (e + K) <= m' * 2 ^ (e' + K) ->
  pair_le (rnd m e) (rnd m' e') /\ 0 <= fst (rnd m e) /\ 0 <= fst (rnd m' e').
Proof.
  intros Hm Hm' Hok Hok' He He' H.
  destruct (rnd_norm m e Hm Hok) as [-> Hb].
  destruct (rnd_norm m' e' Hm' Hok') as [-> Hb'].
  pose proof (magnitude_mono m e m' e' K Hm Hm' He He' H) as Hmag.
  pose proof (rhe_normal m' e' Hm' Hok') as Hnormal'.
  unfold input_ok in *.
  set (E := fexp prec emax (Zdigits2 m + e)) in *.
  set (E' := fexp prec emax (Zdigits2 m' + e')) in *.
  set (m1 := Np.round_half_even m (2 ^ (E - e))) in *.
  set (m1' := Np.round_half_even m' (2 ^ (E' - e'))) in *.
  assert (HEE : E <= E') by (subst E E'; rewrite !fexp_eq; lia).
  assert (HE : -1074 <= E) by (subst E; rewrite fexp_eq; lia).
  assert (P52 : 2 ^ 52 = 4503599627370496) by reflexivity.
  assert (P53 : 2 ^ 53 = 9007199254740992) by reflexivity.
  cbv zeta in Hnormal'.
  split.
  - destruct (Z.eq_dec E E') as [EE | NE].
    + assert (Hm1 : m1 <= m1').
      { subst m1 m1'; rewrite <- EE; apply rhe_mono; try (apply pow2_pos; lia).
        apply (scaled_cross m e m' e' K E); lia. }
      unfold norm, pair_le; rewrite <- EE.
      destruct (Z.eqb_spec m1 (2 ^ 53)), (Z.eqb_spec m1' (2 ^ 53)); cbn [fst snd]; lia.
    + assert (Hn : 2 ^ 52 <= m1') by (apply Hnormal'; lia).
      unfold norm, pair_le.
      destruct (Z.eqb_spec m1 (2 ^ 53)), (Z.eqb_spec m1' (2 ^ 53)); cbn [fst snd]; lia.
  - unfold norm.
    destruct (Z.eqb_spec m1 (2 ^ 53)), (Z.eqb_spec m1' (2 ^ 53)); cbn [fst snd]; lia.
Qed.

Import FloatOrder.

Lemma key_finish_false (me : Z * Z) :
  0 <= fst me -> lex_le (0, 0, 0) (key (finish false me)).
Proof.
  destruct me as [M Ex]; unfold finish, lex_le, lex_lt; cbn [fst snd].
  destruct M as [|p|p]; intros H; try lia; cbn [key].
  - right; reflexivity.
  - destruct (Ex <=? emax - prec); cbn [key]; left; lia.
Qed.

Lemma key_finish_true (me : Z * Z) :
  0 <= fst me -> lex_le (key (finish true me)) (0, 0, 0).
Proof.
  destruct me as [M Ex]; unfold finish, lex_le, lex_lt; cbn [fst snd].
  destruct M as [|p|p]; intros H; try lia; cbn [key].
  - right; reflexivity.
  - destruct (Ex <=? emax - prec); cbn [key]; left; lia.
Qed.

Lemma finish_not_nan (s : bool) (me : Z * Z) :
  0 <= fst me -> finish s me <> S754_nan.
Proof.
  destruct me as [M Ex]; unfold finish; cbn [fst snd].
  destruct M as [|p|p]; intros H; try lia; [discriminate|].
  destruct (Ex <=? emax - prec); discriminate.
Qed.

Lemma key_finish_mono (a b : Z * Z) :
  pair_le a b -> 0 <= fst a -> 0 <= fst b ->
  lex_le (key (finish false a)) (key (finish false b)).
Proof.
  destruct a as [M Ex], b as [M' Ex']; unfold pair_le, finish; cbn [fst snd].
  intros H HM HM'.
  destruct M as [|p|p]; try lia.
  { apply (key_finish_false (M', Ex')); exact HM'. }
  destruct M' as [|p'|p']; try lia.
  destruct (Z.leb_spec Ex (emax - prec)), (Z.leb_spec Ex' (emax - prec));
    cbn [key]; unfold lex_le, lex_lt.
  - destruct H as [H | [H | [Hs Hf]]]; [lia | left; lia |].
    destruct (Z.eq_dec (Z.pos p) (Z.pos p')) as [Ep | Np];
      [right; congruence | left; lia].
  - left; lia.
  - exfalso; lia.
  - right; reflexivity.
Qed.

(** Rounding is monotone: of two positive numbers given exactly, the
    smaller rounds to the smaller float. *)
Theorem rnd_mono (m e m' e' K : Z) :
  0 < m -> 0 < m' -> input_ok m e -> input_ok m' e' ->
  0 <= e + K -> 0 <= e' + K ->
  m * 2 ^ (e + K) <= m' * 2 ^ (e' + K) ->
  lex_le (key (finish false (rnd m e))) (key (finish false (rnd m' e'))).
Proof.
  intros Hm Hm' Hok Hok' He He' H.
  destruct (rnd_mono_pair m e m' e' K Hm Hm' Hok Hok' He He' H) as (Hp & H0 & H0').
  apply key_finish_mono; assumption.
Qed.


(** *** Validity of the rounded result *)

Lemma Zdigits2_le (m k : Z) : 0 < m -> m < 2 ^ k -> 0 <= k -> Zdigits2 m <= k.
Proof.
  intros Hm H Hk.
  destruct (Zdigits2_bounds m Hm) as (Hd & Hlo & _).
  destruct (Z_le_gt_dec (Zdigits2 m) k) as [? | Hgt]; [assumption | exfalso].
  assert (2 ^ k <= 2 ^ (Zdigits2 m - 1)) by (apply Z.pow_le_mono_r; lia).
  lia.
Qed.

Lemma Zdigits2_ge (m k : Z) : 0 < m -> 2 ^ (k - 1) <= m -> Zdigits2 m >= k.
Proof.
  intros Hm H.
  destruct (Zdigits2_bounds m Hm) as (Hd & _ & Hhi).
  destruct (Z_le_gt_dec k (Zdigits2 m)) as [? | Hgt]; [lia | exfalso].
  assert (2 ^ Zdigits2 m <= 2 ^ (k - 1)) by (apply Z.pow_le_mono_r; lia).
  lia.
Qed.

Lemma rnd_nonneg (m e : Z) : 0 < m -> input_ok m e -> 0 <= fst (rnd m e).
Proof.
  intros Hm Hok; destruct (rnd_norm m e Hm Hok) as [-> Hb]; unfold norm.
  destruct (_ =? _); cbn [fst]; lia.
Qed.

Lemma finish_rnd_valid (s : bool) (m e : Z) :
  0 < m -> input_ok m e -> valid_binary (finish s (rnd m e)) = true.
Proof.
  intros Hm Hok.
  destruct (rnd_norm m e Hm Hok) as [-> Hb].
  pose proof (rhe_normal m e Hm Hok) as Hn; cbv zeta in Hn.
  set (E := fexp prec emax (Zdigits2 m + e)) in *.
  set (m1 := Np.round_half_even m (2 ^ (E - e))) in *.
  assert (HE : -1074 <= E) by (subst E; rewrite fexp_eq; lia).
  unfold norm; destruct (Z.eqb_spec m1 (2 ^ 53)) as [E53 | N53].
  - change (2 ^ 52) with 4503599627370496; unfold finish; cbn [fst snd].
    destruct (Z.leb_spec (E + 1) (emax - prec)) as [Hle | Hgt]; [|reflexivity].
    cbn [SpecFloat.valid_binary]; unfold bounded, canonical_mantissa.
    change (Z.pos (digits2_pos 4503599627370496)) with 53.
    rewrite fexp_eq, andb_true_iff, Z.eqb_eq, Z.leb_le; lia.
  - unfold finish; cbn [fst snd].
    destruct m1 as [|p|p] eqn:Em1; [reflexivity | | lia].
    destruct (Z.leb_spec E (emax - prec)) as [Hle | Hgt]; [|reflexivity].
    cbn [SpecFloat.valid_binary]; unfold bounded, canonical_mantissa.
    change (Z.pos (digits2_pos p)) with (Zdigits2 (Z.pos p)).
    assert (P53 : 2 ^ 53 = 9007199254740992) by reflexivity.
    assert (Hle53 : Zdigits2 (Z.pos p) <= 53) by (apply Zdigits2_le; lia).
    rewrite fexp_eq, andb_true_iff, Z.eqb_eq, Z.leb_le; split; [|lia].
    destruct (Z.eq_dec E (-1074)) as [-> | NE]; [lia|].
    assert (Zdigits2 (Z.pos p) >= 53) by (apply Zdigits2_ge; [lia | apply Hn; lia]).
    lia.
Qed.

(** *** [binary_round] and [binary_normalize] *)

Lemma iter_xO (d m : positive) : Z.pos (Pos.iter xO m d) = Z.pos m * 2 ^ Z.pos d.
Proof.
  induction d as [|d IH] using Pos.peano_ind.
  - cbn [Pos.iter]; lia.
  - rewrite Pos.iter_succ, Pos2Z.inj_xO, IH, Pos2Z.inj_succ, Z.pow_succ_r by lia; ring.
Qed.

Lemma shl_align_spec (p : positive) (e e' : Z) :
  let '(mz, ez) := shl_align p e e' in
  ez = Z.min e e' /\ Z.pos mz = Z.pos p * 2 ^ (e - ez).
Proof.
  unfold shl_align; destruct (e' - e) as [|d|d] eqn:Ed.
  - split; [lia|]; replace (e - e) with 0 by lia; rewrite Z.pow_0_r; lia.
  - split; [lia|]; replace (e - e) with 0 by lia; rewrite Z.pow_0_r; lia.
  - split; [lia|]; rewrite iter_xO; do 2 f_equal; lia.
Qed.

Lemma Zdigits2_shift (m k : Z) :
  0 < m -> 0 <= k -> Zdigits2 (m * 2 ^ k) = Zdigits2 m + k.
Proof.
  intros Hm Hk.
  destruct (Zdigits2_bounds m Hm) as (Hd & Hlo & Hhi).
  pose proof (pow2_pos k Hk) as HP.
  apply Zdigits2_unique; [|lia].
  replace (Zdigits2 m + k - 1) with (Zdigits2 m - 1 + k) by lia.
  rewrite !Z.pow_add_r by lia; split.
  - apply Z.mul_le_mono_nonneg_r; lia.
  - apply Z.mul_lt_mono_pos_r; lia.
Qed.

(** [binary_round] rounds the number it is given, after alignment. *)
Lemma binary_round_eq (s : bool) (p : positive) (e : Z) :
  exists m' e',
    binary_round prec emax s p e = finish s (rnd m' e') /\
    0 < m' /\ input_ok m' e' /\
    e' = Z.min e (fexp prec emax (Zdigits2 (Z.pos p) + e)) /\
    m' = Z.pos p * 2 ^ (e - e').
Proof.
  unfold binary_round.
  pose proof (shl_align_spec p e (fexp prec emax (Z.pos (digits2_pos p) + e))) as H.
  destruct (shl_align p e _) as [mz ez]; destruct H as [Hez Hmz].
  exists (Z.pos mz), ez; split; [apply binary_round_aux_exact; lia|].
  split; [lia|]; split; [|split; [exact Hez | exact Hmz]].
  unfold input_ok; rewrite Hmz, Zdigits2_shift by lia.
  replace (Zdigits2 (Z.pos p) + (e - ez) + ez) with (Z.pos (digits2_pos p) + e)
    by (cbn [Zdigits2]; lia).
  lia.
Qed.

Lemma binary_normalize_pos (S e : Z) :
  0 < S ->
  exists m' e',
    binary_normalize prec emax S e false = finish false (rnd m' e') /\
    0 < m' /\ input_ok m' e' /\
    e' = Z.min e (fexp prec emax (Zdigits2 S + e)) /\
    m' = S * 2 ^ (e - e').
Proof.
  destruct S as [|p|p]; try lia; intros _.
  apply binary_round_eq.
Qed.

Lemma binary_normalize_neg (S e : Z) :
  S < 0 ->
  exists me, binary_normalize prec emax S e false = finish true me /\ 0 <= fst me.
Proof.
  destruct S as [|p|p]; try lia; intros _; cbn [binary_normalize].
  destruct (binary_round_eq true p e) as (m' & e' & -> & Hm & Hok & _).
  eexists; split; [reflexivity | apply rnd_nonneg; assumption].
Qed.

(** *** The sign of a rounded result, whatever the location *)

Lemma shr_1_nonneg (mrs : shr_record) : 0 <= shr_m mrs -> 0 <= shr_m (shr_1 mrs).
Proof.
  destruct mrs as [m r s]; cbn [shr_m].
  destruct m as [|[p|p|]|p]; intros H; cbn [shr_1 shr_m]; lia.
Qed.

Lemma shr_nonneg (mrs : shr_record) (e n : Z) :
  0 <= shr_m mrs -> 0 <= shr_m (fst (shr mrs e n)).
Proof.
  intros H; destruct n as [|p|p]; cbn [shr fst]; try assumption.
  rewrite iter_pos_nat; induction (Pos.to_nat p) as [|k IH]; cbn [Nat.iter];
    [assumption | apply shr_1_nonneg, IH].
Qed.

Lemma binary_round_aux_sign (s : bool) (m e : Z) (l : location) :
  0 <= m ->
  exists me, binary_round_aux prec emax s m e l = finish s me /\ 0 <= fst me.
Proof.
  intros Hm; unfold binary_round_aux, shr_fexp.
  set (n1 := fexp prec emax (Zdigits2 m + e) - e).
  pose proof (shr_nonneg (shr_record_of_loc m l) e n1) as H1.
  destruct (shr (shr_record_of_loc m l) e n1) as [mrs' e'] eqn:E1; cbn [fst] in H1.
  assert (Hm' : 0 <= shr_m mrs') by (apply H1; destruct l as [|[| |]]; exact Hm).
  set (m1 := round_nearest_even (shr_m mrs') (loc_of_shr_record mrs')).
  assert (Hm1 : 0 <= m1).
  { subst m1; destruct (loc_of_shr_record mrs') as [|[| |]]; cbn [round_nearest_even];
      try lia; destruct (Z.even _); lia. }
  set (n2 := fexp prec emax (Zdigits2 m1 + e') - e').
  pose proof (shr_nonneg (shr_record_of_loc m1 loc_Exact) e' n2 Hm1) as H2.
  destruct (shr (shr_record_of_loc m1 loc_Exact) e' n2) as [mrs'' e''] eqn:E2; cbn [fst] in H2.
  exists (shr_m mrs'', e''); split; [reflexivity | exact H2].
Qed.


(** *** Valid floats and their values *)

Lemma bounded_facts (p : positive) (e : Z) :
  bounded prec emax p e = true ->
  fexp prec emax (Zdigits2 (Z.pos p) + e) = e /\ e <= 971 /\ -1074 <= e /\
  Z.pos p < 2 ^ 53 /\ (-1074 < e -> 2 ^ 52 <= Z.pos p).
Proof.
  unfold bounded, canonical_mantissa; rewrite andb_true_iff, Z.eqb_eq, Z.leb_le.
  change (emax - prec) with 971.
  change (Z.pos (digits2_pos p)) with (Zdigits2 (Z.pos p)).
  intros [Hc He].
  destruct (Zdigits2_bounds (Z.pos p) ltac:(lia)) as (Hd & Hlo & Hhi).
  rewrite fexp_eq in Hc |- *.
  split; [exact Hc|]; split; [exact He|]; split; [lia|]; split.
  - eapply Z.lt_le_trans; [exact Hhi|]; apply Z.pow_le_mono_r; lia.
  - intros H; replace 52 with (Zdigits2 (Z.pos p) - 1) by lia; exact Hlo.
Qed.

Lemma bounded_input_ok (p : positive) (e : Z) :
  bounded prec emax p e = true -> input_ok (Z.pos p) e.
Proof.
  intros H; destruct (bounded_facts p e H) as (Hc & _); unfold input_ok; lia.
Qed.

(** A valid float rounds to itself. *)
Lemma rnd_canonical (s : bool) (p : positive) (e : Z) :
  bounded prec emax p e = true -> finish s (rnd (Z.pos p) e) = S754_finite s p e.
Proof.
  intros H; destruct (bounded_facts p e H) as (Hc & He & _).
  unfold rnd; rewrite Hc, Z.leb_refl; unfold finish; cbn [fst snd].
  change (emax - prec) with 971.
  destruct (Z.leb_spec e 971); [reflexivity | lia].
Qed.

(** On valid positive floats the order of the keys is the order of the values. *)
Lemma key_le_value (p : positive) (e : Z) (p' : positive) (e' : Z) :
  bounded prec emax p e = true -> bounded prec emax p' e' = true ->
  lex_le (1, e, Z.pos p) (1, e', Z.pos p') ->
  Z.pos p * 2 ^ (e + 1074) <= Z.pos p' * 2 ^ (e' + 1074).
Proof.
  intros Hb Hb' H.
  destruct (bounded_facts p e Hb) as (_ & _ & He & Hp & _).
  destruct (bounded_facts p' e' Hb') as (_ & _ & He' & _ & Hn').
  pose proof (pow2_pos (e + 1074) ltac:(lia)) as HP.
  destruct H as [H | H].
  - unfold lex_lt in H; destruct H as [H | [_ [H | [-> H]]]]; [lia | | nia].
    specialize (Hn' ltac:(lia)).
    assert (E : 2 ^ (e' + 1074) = 2 ^ (e' - e - 1) * (2 * 2 ^ (e + 1074))).
    { rewrite <- Z.pow_succ_r, <- Z.pow_add_r by lia; f_equal; lia. }
    pose proof (pow2_pos (e' - e - 1) ltac:(lia)) as HQ.
    assert (P52 : 2 ^ 52 = 4503599627370496) by reflexivity.
    assert (P53 : 2 ^ 53 = 9007199254740992) by reflexivity.
    rewrite E; nia.
  - injection H as -> Hpp; rewrite Hpp; lia.
Qed.

Lemma sval_le_of_key (x : spec_float) (p : positive) (e : Z) :
  valid_binary x = true -> bounded prec emax p e = true ->
  lex_le (key x) (key (S754_finite false p e)) ->
  sval x <= sval (S754_finite false p e).
Proof.
  intros Hx Hb H; cbn [sval cond_Zopp key] in *.
  destruct (bounded_facts p e Hb) as (_ & _ & He & _).
  pose proof (pow2_pos (e + 1074) ltac:(lia)) as HP.
  destruct x as [s|s| |s m ex]; cbn [sval]; try nia.
  destruct s; cbn [cond_Zopp key] in *.
  - destruct (bounded_facts m ex Hx) as (_ & _ & Hex & _).
    pose proof (pow2_pos (ex + 1074) ltac:(lia)); nia.
  - apply key_le_value; assumption.
Qed.

Lemma sval_pos (p : positive) (e : Z) :
  bounded prec emax p e = true -> 0 < sval (S754_finite false p e).
Proof.
  intros Hb; destruct (bounded_facts p e Hb) as (_ & _ & He & _).
  pose proof (pow2_pos (e + 1074) ltac:(lia)); cbn [sval cond_Zopp]; nia.
Qed.

(** *** Sums and differences of finite floats *)

Lemma binary_normalize_value (S e V : Z) :
  -1074 <= e -> S * 2 ^ (e + 1074) = V ->
  rounds_value (binary_normalize prec emax S e false) V.
Proof.
  intros He HV; pose proof (pow2_pos (e + 1074) ltac:(lia)) as HP.
  unfold rounds_value.
  destruct (Z.lt_trichotomy S 0) as [Hn | [-> | Hp]].
  - right; left; split; [nia | apply binary_normalize_neg; assumption].
  - left; split; [lia | reflexivity].
  - right; right; split; [nia|].
    destruct (binary_normalize_pos S e Hp) as (m' & e' & E & Hm & Hok & Hle & Em).
    exists m', e'; split; [exact E|]; split; [exact Hm|]; split; [exact Hok|].
    assert (He' : -1074 <= e') by (rewrite fexp_eq in Hle; lia).
    split; [exact He'|].
    rewrite Em, <- Z.mul_assoc, <- Z.pow_add_r by lia.
    replace (e - e' + (e' + 1074)) with (e + 1074) by lia; exact HV.
Qed.


Lemma aligned_value (s : bool) (m : positive) (e ez : Z) :
  ez <= e -> -1074 <= ez ->
  cond_Zopp s (Z.pos (fst (shl_align m e ez))) * 2 ^ (ez + 1074)
  = sval (S754_finite s m e).
Proof.
  intros Hle Hez; pose proof (shl_align_spec m e ez) as H.
  destruct (shl_align m e ez) as [mz ez']; destruct H as [E Hmz]; cbn [fst sval].
  assert (ez' = ez) by lia; subst ez'.
  assert (Hv : Z.pos mz * 2 ^ (ez + 1074) = Z.pos m * 2 ^ (e + 1074)).
  { rewrite Hmz, <- Z.mul_assoc, <- Z.pow_add_r by lia; do 2 f_equal; lia. }
  destruct s; cbn [cond_Zopp]; lia.
Qed.

Lemma SFadd_finite (sa : bool) (ma : positive) (ea : Z) (sb : bool) (mb : positive) (eb : Z) :
  bounded prec emax ma ea = true -> bounded prec emax mb eb = true ->
  rounds_value (SF64add (S754_finite sa ma ea) (S754_finite sb mb eb))
    (sval (S754_finite sa ma ea) + sval (S754_finite sb mb eb)).
Proof.
  intros Ha Hb.
  destruct (bounded_facts ma ea Ha) as (_ & _ & Hea & _).
  destruct (bounded_facts mb eb Hb) as (_ & _ & Heb & _).
  unfold SF64add, SFadd; apply binary_normalize_value; [lia|].
  rewrite Z.mul_add_distr_r, !aligned_value by lia; reflexivity.
Qed.

Lemma SFsub_finite (sa : bool) (ma : positive) (ea : Z) (sb : bool) (mb : positive) (eb : Z) :
  bounded prec emax ma ea = true -> bounded prec emax mb eb = true ->
  rounds_value (SF64sub (S754_finite sa ma ea) (S754_finite sb mb eb))
    (sval (S754_finite sa ma ea) - sval (S754_finite sb mb eb)).
Proof.
  intros Ha Hb.
  destruct (bounded_facts ma ea Ha) as (_ & _ & Hea & _).
  destruct (bounded_facts mb eb Hb) as (_ & _ & Heb & _).
  unfold SF64sub, SFsub; apply binary_normalize_value; [lia|].
  rewrite Z.mul_sub_distr_r, !aligned_value by lia; reflexivity.
Qed.

Lemma rounds_value_canonical (p : positive) (e : Z) :
  bounded prec emax p e = true ->
  rounds_value (S754_finite false p e) (sval (S754_finite false p e)).
Proof.
  intros Hb; right; right; split; [apply sval_pos, Hb|].
  destruct (bounded_facts p e Hb) as (_ & _ & He & _).
  exists (Z.pos p), e; split; [symmetry; apply rnd_canonical, Hb|].
  split; [lia|]; split; [apply bounded_input_ok, Hb|]; split; [lia | reflexivity].
Qed.

Lemma rounds_value_not_nan (r : spec_float) (V : Z) : rounds_value r V -> r <> S754_nan.
Proof.
  intros [[_ ->] | [[_ (me & -> & H)] | [_ (m' & e' & -> & Hm & Hok & _)]]].
  - discriminate.
  - apply finish_not_nan, H.
  - apply finish_not_nan, rnd_nonneg; assumption.
Qed.

Lemma rounds_value_key_nonneg (r : spec_float) (V : Z) :
  rounds_value r V -> 0 <= V -> lex_le (0, 0, 0) (key r).
Proof.
  intros [[_ ->] | [[Hn _] | [_ (m' & e' & -> & Hm & Hok & _)]]] HV.
  - right; reflexivity.
  - lia.
  - apply key_finish_false, rnd_nonneg; assumption.
Qed.

(** Of two exact results, the smaller rounds to the smaller float. *)
Lemma rounds_value_le (r : spec_float) (V : Z) (r' : spec_float) (V' : Z) :
  rounds_value r V -> rounds_value r' V' -> V <= V' -> 0 < V' ->
  lex_le (key r) (key r').
Proof.
  intros Hr Hr' HV HV'.
  pose proof (rounds_value_key_nonneg r' V' Hr' ltac:(lia)) as Hnn.
  destruct Hr as [[_ ->] | [[_ (me & -> & H)] | [HVp (m1 & e1 & -> & Hm1 & Hok1 & He1 & E1)]]].
  - exact Hnn.
  - eapply lex_le_trans; [apply key_finish_true, H | exact Hnn].
  - destruct Hr' as [[? _] | [[? _] | [_ (m2 & e2 & -> & Hm2 & Hok2 & He2 & E2)]]]; try lia.
    apply (rnd_mono m1 e1 m2 e2 1074); try assumption; lia.
Qed.

Lemma lex_le_refl (a : Z * Z * Z) : lex_le a a.
Proof. right; reflexivity. Qed.

Lemma neg_below_nonneg (k : Z * Z * Z) : lex_le (0, 0, 0) k -> lex_le (-2, 0, 0) k.
Proof. apply lex_le_trans; left; unfold lex_lt; lia. Qed.

(** Addition is monotone below positive finite bounds. *)
Lemma SFadd_le (a b A B : spec_float) :
  valid_binary a = true -> valid_binary b = true ->
  a <> S754_nan -> b <> S754_nan ->
  pos_finite A -> pos_finite B ->
  lex_le (key a) (key A) -> lex_le (key b) (key B) ->
  SF64add a b <> S754_nan /\ SF64add A B <> S754_nan /\
  lex_le (key (SF64add a b)) (key (SF64add A B)).
Proof.
  intros Va Vb Na Nb (pA & eA & -> & HA) (pB & eB & -> & HB) La Lb.
  pose proof (SFadd_finite false pA eA false pB eB HA HB) as HAB.
  pose proof (sval_pos pA eA HA) as HpA.
  pose proof (sval_pos pB eB HB) as HpB.
  pose proof (sval_le_of_key a pA eA Va HA La) as Sa.
  pose proof (sval_le_of_key b pB eB Vb HB Lb) as Sb.
  pose proof (rounds_value_key_nonneg _ _ HAB ltac:(lia)) as Hnn.
  split; [|split; [exact (rounds_value_not_nan _ _ HAB)|]].
  - destruct a as [sa|sa| |sa ma ea], b as [sb|sb| |sb mb eb]; try congruence;
      cbn [key] in La, Lb;
      try (destruct sa; [|exfalso; unfold lex_le, lex_lt in La; destruct La as [? | ?]; [lia | discriminate]]);
      try (destruct sb; [|exfalso; unfold lex_le, lex_lt in Lb; destruct Lb as [? | ?]; [lia | discriminate]]);
      try (cbn; discriminate);
      try (cbn; destruct sa; discriminate);
      try (cbn; destruct sb; discriminate).
    + cbn; destruct sa, sb; discriminate.
    + exact (rounds_value_not_nan _ _ (SFadd_finite sa ma ea sb mb eb Va Vb)).
  - assert (LA : lex_le (key (S754_finite false pA eA)) (key (SF64add (S754_finite false pA eA) (S754_finite false pB eB)))).
    { apply (rounds_value_le _ _ _ _ (rounds_value_canonical pA eA HA) HAB); lia. }
    assert (LB : lex_le (key (S754_finite false pB eB)) (key (SF64add (S754_finite false pA eA) (S754_finite false pB eB)))).
    { apply (rounds_value_le _ _ _ _ (rounds_value_canonical pB eB HB) HAB); lia. }
    destruct a as [sa|sa| |sa ma ea], b as [sb|sb| |sb mb eb]; try congruence;
      cbn [key] in La, Lb;
      try (destruct sa; [|exfalso; unfold lex_le, lex_lt in La; destruct La as [? | ?]; [lia | discriminate]]);
      try (destruct sb; [|exfalso; unfold lex_le, lex_lt in Lb; destruct Lb as [? | ?]; [lia | discriminate]]).
    all: try (apply neg_below_nonneg; exact Hnn).
    + destruct sa, sb; exact Hnn.
    + change (SF64add (S754_zero sa) (S754_finite sb mb eb)) with (S754_finite sb mb eb).
      eapply lex_le_trans; [exact Lb | exact LB].
    + change (SF64add (S754_finite sa ma ea) (S754_zero sb)) with (S754_finite sa ma ea).
      eapply lex_le_trans; [exact La | exact LA].
    + apply (rounds_value_le _ _ _ _ (SFadd_finite sa ma ea sb mb eb Va Vb) HAB);
        cbn [sval] in *; lia.
Qed.


(** Subtracting a non-negative number from a positive finite one does
    not exceed it. *)
Lemma SFsub_le (A y : spec_float) :
  valid_binary y = true -> y <> S754_nan -> pos_finite A ->
  lex_le (0, 0, 0) (key y) ->
  SF64sub A y <> S754_nan /\ lex_le (key (SF64sub A y)) (key A).
Proof.
  intros Vy Ny (pA & eA & -> & HA) Ly.
  pose proof (sval_pos pA eA HA) as HpA.
  destruct y as [sy|sy| |sy my ey]; try congruence; cbn [key] in Ly.
  - split; [discriminate | apply lex_le_refl].
  - destruct sy; [exfalso; unfold lex_le, lex_lt in Ly; destruct Ly as [? | ?]; [lia | discriminate]|].
    split; [discriminate | left; cbn; unfold lex_lt; lia].
  - destruct sy; [exfalso; unfold lex_le, lex_lt in Ly; destruct Ly as [? | ?]; [lia | discriminate]|].
    pose proof (SFsub_finite false pA eA false my ey HA Vy) as H.
    pose proof (sval_pos my ey Vy) as Hpy.
    split; [exact (rounds_value_not_nan _ _ H)|].
    apply (rounds_value_le _ _ _ _ H (rounds_value_canonical pA eA HA)); lia.
Qed.

(** *** Products *)

Lemma product_input_ok (mx : positive) (ex : Z) (mc : positive) (ec : Z) :
  bounded prec emax mx ex = true -> bounded prec emax mc ec = true ->
  input_ok (Z.pos (mx * mc)) (ex + ec).
Proof.
  intros Hx Hc.
  destruct (bounded_facts mx ex Hx) as (Cx & _ & Hex & _ & _).
  destruct (bounded_facts mc ec Hc) as (Cc & _ & Hec & _ & _).
  destruct (Zdigits2_bounds (Z.pos mx) ltac:(lia)) as (Hdx & Hlox & _).
  destruct (Zdigits2_bounds (Z.pos mc) ltac:(lia)) as (Hdc & Hloc & _).
  unfold input_ok; rewrite fexp_eq in *.
  assert (Hd : Zdigits2 (Z.pos (mx * mc)) >= Zdigits2 (Z.pos mx) + Zdigits2 (Z.pos mc) - 1).
  { apply Zdigits2_ge; [lia|].
    replace (Zdigits2 (Z.pos mx) + Zdigits2 (Z.pos mc) - 1 - 1)
      with ((Zdigits2 (Z.pos mx) - 1) + (Zdigits2 (Z.pos mc) - 1)) by lia.
    rewrite Z.pow_add_r, Pos2Z.inj_mul by lia.
    pose proof (pow2_pos (Zdigits2 (Z.pos mx) - 1) ltac:(lia)).
    pose proof (pow2_pos (Zdigits2 (Z.pos mc) - 1) ltac:(lia)).
    nia. }
  lia.
Qed.

Lemma SFmul_finite (sx : bool) (mx : positive) (ex : Z) (sc : bool) (mc : positive) (ec : Z) :
  SF64mul (S754_finite sx mx ex) (S754_finite sc mc ec)
  = finish (xorb sx sc) (rnd (Z.pos (mx * mc)) (ex + ec)).
Proof. unfold SF64mul, SFmul; apply binary_round_aux_exact; lia. Qed.

(** Multiplication by a positive finite number is monotone below a
    positive finite bound. *)
Lemma SFmul_le (x A c : spec_float) :
  valid_binary x = true -> x <> S754_nan -> pos_finite A -> pos_finite c ->
  lex_le (key x) (key A) ->
  SF64mul x c <> S754_nan /\ SF64mul A c <> S754_nan /\
  lex_le (key (SF64mul x c)) (key (SF64mul A c)).
Proof.
  intros Vx Nx (pA & eA & -> & HA) (pc & ec & -> & Hc) Lx.
  pose proof (product_input_ok pA eA pc ec HA Hc) as HokA.
  pose proof (rnd_nonneg (Z.pos (pA * pc)) (eA + ec) ltac:(lia) HokA) as HnnA.
  pose proof (key_finish_false _ HnnA) as HkA.
  rewrite (SFmul_finite false pA eA false pc ec); cbn [xorb].
  split; [|split; [apply finish_not_nan, HnnA|]].
  - destruct x as [sx|sx| |sx mx ex]; try congruence; try discriminate.
    rewrite SFmul_finite; apply finish_not_nan, rnd_nonneg;
      [lia | apply product_input_ok; assumption].
  - destruct x as [sx|sx| |sx mx ex]; try congruence; cbn [key] in Lx.
    + exact HkA.
    + destruct sx; [|exfalso; unfold lex_le, lex_lt in Lx; destruct Lx as [? | ?]; [lia | discriminate]].
      apply neg_below_nonneg, HkA.
    + pose proof (product_input_ok mx ex pc ec Vx Hc) as Hokx.
      rewrite SFmul_finite; destruct sx; cbn [xorb].
      * eapply lex_le_trans; [apply key_finish_true, rnd_nonneg; [lia | exact Hokx] | exact HkA].
      * destruct (bounded_facts mx ex Vx) as (_ & _ & Hex & _).
        destruct (bounded_facts pA eA HA) as (_ & _ & HeA & _).
        destruct (bounded_facts pc ec Hc) as (_ & _ & Hec & _).
        apply (rnd_mono _ _ _ _ 2148); try assumption; try lia.
        pose proof (key_le_value mx ex pA eA Vx HA Lx) as Hv.
        replace (ex + ec + 2148) with ((ex + 1074) + (ec + 1074)) by lia.
        replace (eA + ec + 2148) with ((eA + 1074) + (ec + 1074)) by lia.
        rewrite (Z.pow_add_r 2 (ex + 1074) (ec + 1074)) by lia.
        rewrite (Z.pow_add_r 2 (eA + 1074) (ec + 1074)) by lia.
        rewrite !Pos2Z.inj_mul.
        pose proof (pow2_pos (ec + 1074) ltac:(lia)) as HW.
        replace (Z.pos mx * Z.pos pc * (2 ^ (ex + 1074) * 2 ^ (ec + 1074)))
          with (Z.pos mx * 2 ^ (ex + 1074) * (Z.pos pc * 2 ^ (ec + 1074))) by ring.
        replace (Z.pos pA * Z.pos pc * (2 ^ (eA + 1074) * 2 ^ (ec + 1074)))
          with (Z.pos pA * 2 ^ (eA + 1074) * (Z.pos pc * 2 ^ (ec + 1074))) by ring.
        apply Z.mul_le_mono_nonneg_r; [nia | exact Hv].
Qed.

(** *** The same bounds on the machine's floats *)

Local Open Scope float_scope.

Lemma add_le (a b A B : float) :
  pos_finite_float A -> pos_finite_float B ->
  (a <=? A) = true -> (b <=? B) = true -> (a + b <=? A + B) = true.
Proof.
  intros HA HB Ha Hb.
  apply leb_iff in Ha as (Na & _ & La); apply leb_iff in Hb as (Nb & _ & Lb).
  apply leb_iff; unfold not_nan, fkey; rewrite !add_spec.
  apply SFadd_le; try assumption; apply Prim2SF_valid.
Qed.

Lemma mul_le (x A c : float) :
  pos_finite_float A -> pos_finite_float c ->
  (x <=? A) = true -> (x * c <=? A * c) = true.
Proof.
  intros HA Hc Hx.
  apply leb_iff in Hx as (Nx & _ & Lx).
  apply leb_iff; unfold not_nan, fkey; rewrite !mul_spec.
  apply SFmul_le; try assumption; apply Prim2SF_valid.
Qed.

Lemma sub_le (A y : float) :
  pos_finite_float A -> (0 <=? y) = true -> (A - y <=? A) = true.
Proof.
  intros HA Hy.
  apply leb_iff in Hy as (_ & Ny & Ly).
  assert (NA : not_nan A) by (destruct HA as (p & e & E & _); unfold not_nan; rewrite E; discriminate).
  apply leb_iff; unfold not_nan, fkey; rewrite !sub_spec.
  destruct (SFsub_le (Prim2SF A) (Prim2SF y) (Prim2SF_valid y) Ny HA Ly) as [H1 H2].
  repeat split; assumption.
Qed.

(** *** Integers as floats *)

Local Close Scope float_scope.

Lemma binary_normalize_valid (S e : Z) :
  valid_binary (binary_normalize prec emax S e false) = true.
Proof.
  destruct S as [|p|p]; cbn [binary_normalize]; [reflexivity | |].
  - destruct (binary_round_eq false p e) as (m' & e' & -> & Hm & Hok & _).
    apply finish_rnd_valid; assumption.
  - destruct (binary_round_eq true p e) as (m' & e' & -> & Hm & Hok & _).
    apply finish_rnd_valid; assumption.
Qed.

Lemma of_int_spec (n : Z) :
  Prim2SF (Np.of_int n) = binary_normalize prec emax n 0 false.
Proof. unfold Np.of_int; apply Prim2SF_SF2Prim, binary_normalize_valid. Qed.

Lemma rnd_normal_pos (m e : Z) :
  0 < m -> input_ok m e -> -1074 < fexp prec emax (Zdigits2 m + e) ->
  0 < fst (rnd m e).
Proof.
  intros Hm Hok HE.
  destruct (rnd_norm m e Hm Hok) as [-> _].
  pose proof (rhe_normal m e Hm Hok HE) as Hn.
  assert (P52 : 2 ^ 52 = 4503599627370496) by reflexivity.
  unfold norm; destruct (_ =? _); cbn [fst]; lia.
Qed.

(** A positive integer is a positive float (or the infinity). *)
Lemma of_int_pos (n : Z) :
  0 < n -> exists me, Prim2SF (Np.of_int n) = finish false me /\ 0 < fst me.
Proof.
  intros Hn; rewrite of_int_spec.
  destruct (binary_normalize_pos n 0 Hn) as (m' & e' & -> & Hm & Hok & He' & Em).
  eexists; split; [reflexivity|].
  apply rnd_normal_pos; try assumption.
  destruct (Zdigits2_bounds n Hn) as (Hd & _).
  rewrite fexp_eq in He' |- *.
  rewrite Em, Zdigits2_shift by lia; lia.
Qed.

Lemma of_int_neg (n : Z) :
  n < 0 -> exists me, Prim2SF (Np.of_int n) = finish true me /\ 0 <= fst me.
Proof. intros Hn; rewrite of_int_spec; apply binary_normalize_neg, Hn. Qed.

(** Zero divided by a positive integer is zero. *)
Lemma zero_div_of_int (n : Z) : 0 < n -> (0 / Np.of_int n = 0)%float.
Proof.
  intros Hn; apply Prim2SF_inj; rewrite div_spec.
  destruct (of_int_pos n Hn) as ([M Ex] & -> & HM); cbn [fst] in HM.
  unfold finish; cbn [fst snd]; destruct M as [|p|p]; try lia.
  destruct (Ex <=? emax - prec); reflexivity.
Qed.

(** *** Quotients of what is not positive *)

Lemma SFdiv_nonpos (x c : spec_float) :
  x <> S754_nan -> lex_le (key x) (0, 0, 0) -> pos_finite c ->
  SF64div x c <> S754_nan /\ lex_le (key (SF64div x c)) (0, 0, 0).
Proof.
  intros Nx Lx (pc & ec & -> & Hc).
  destruct x as [sx|sx| |sx mx ex]; try congruence; cbn [key] in Lx.
  - split; [discriminate | apply lex_le_refl].
  - destruct sx; [|exfalso; unfold lex_le, lex_lt in Lx; destruct Lx as [? | ?]; [lia | discriminate]].
    split; [discriminate | left; cbn; unfold lex_lt; lia].
  - destruct sx; [|exfalso; unfold lex_le, lex_lt in Lx; destruct Lx as [? | ?]; [lia | discriminate]].
    unfold SF64div, SFdiv, SFdiv_core_binary; cbn [xorb].
    set (m' := match _ - _ - _ with Z.pos _ => _ | 0 => _ | Z.neg _ => _ end).
    assert (Hm' : 0 <= m').
    { subst m'; destruct (_ - _ - _); [lia | apply Z.shiftl_nonneg; lia | lia]. }
    pose proof (Z_div_mod m' (Z.pos pc) ltac:(lia)) as Hdm.
    destruct (Z.div_eucl m' (Z.pos pc)) as [q r].
    assert (Hq : 0 <= q) by nia.
    destruct (binary_round_aux_sign true q
                (Z.min (fexp prec emax (Zdigits2 (Z.pos mx) + ex - (Zdigits2 (Z.pos pc) + ec)))
                   (ex - ec))
                (new_location (Z.pos pc) r) Hq) as (me & -> & Hme).
    split; [apply finish_not_nan, Hme | apply key_finish_true, Hme].
Qed.

Local Open Scope float_scope.

Lemma div_nonpos (x c B : float) :
  not_nan x -> lex_le (fkey x) (0, 0, 0)%Z -> pos_finite_float c ->
  pos_finite_float B -> (x / c <=? B) = true.
Proof.
  intros Nx Lx Hc (pB & eB & EB & _).
  apply leb_iff; unfold not_nan, fkey in *; rewrite div_spec, EB.
  destruct (SFdiv_nonpos (Prim2SF x) (Prim2SF c) Nx Lx Hc) as [H1 H2].
  split; [exact H1|]; split; [discriminate|].
  eapply lex_le_trans; [exact H2 | left; cbn; unfold lex_lt; lia].
Qed.

(** *** Rounding to two decimals below 100 *)

Lemma hundredths_up_to_100 :
  forallb (fun q => Np.of_int (Z.of_nat q) / 100 <=? 100) (seq 1 (Z.to_nat 10000)) = true.
Proof. vm_compute; reflexivity. Qed.

Lemma rint_div_le (z : float) :
  (z <=? 10000) = true -> (Np.rint z / 100 <=? 100) = true.
Proof.
  intros Hz; apply leb_iff in Hz as (Nz & _ & Lz).
  assert (H100 : pos_finite_float 100) by pos_finite_literal.
  unfold not_nan, fkey in *.
  change (key (Prim2SF 10000)) with (1, -39, 5497558138880000)%Z in Lz.
  unfold Np.rint.
  destruct (Prim2SF z) as [sz|sz| |sz mz ez] eqn:Ez; try congruence; cbn [key] in Lz.
  - apply div_nonpos; try assumption; unfold not_nan, fkey; rewrite Ez;
      [discriminate | apply lex_le_refl].
  - destruct sz; [|exfalso; unfold lex_le, lex_lt in Lz; destruct Lz as [? | ?]; [lia | discriminate]].
    apply div_nonpos; try assumption; unfold not_nan, fkey; rewrite Ez;
      [discriminate | left; cbn; unfold lex_lt; lia].
  - pose proof (Prim2SF_valid z) as Vz; rewrite Ez in Vz; cbn in Vz.
    destruct (Z.leb_spec 0 ez) as [Hez | Hez].
    + destruct sz.
      * apply div_nonpos; try assumption; unfold not_nan, fkey; rewrite Ez;
          [discriminate | left; cbn; unfold lex_lt; lia].
      * exfalso; unfold lex_le, lex_lt in Lz; destruct Lz as [? | E]; [lia | injection E; lia].
    + set (q := Np.round_half_even (Z.pos mz) (2 ^ (- ez))).
      assert (HP : (0 < 2 ^ (- ez))%Z) by (apply pow2_pos; lia).
      assert (Hq0 : (0 <= q)%Z) by (apply rhe_lower; lia).
      unfold Np.signed_int.
      destruct (Z.eqb_spec q 0) as [E0 | Hnz].
      * apply div_nonpos; try assumption; unfold not_nan, fkey;
          destruct sz; cbn; try discriminate; apply lex_le_refl.
      * destruct sz.
        -- destruct (of_int_neg (- q) ltac:(lia)) as (me & E & Hme).
           apply div_nonpos; try assumption; unfold not_nan, fkey; rewrite E;
             [apply finish_not_nan, Hme | apply key_finish_true, Hme].
        -- assert (Hq : (q <= 10000)%Z).
           { apply rhe_upper_le; [exact HP|].
             destruct (bounded_facts mz ez Vz) as (_ & _ & Hlo & _).
             assert (Hv : (Z.pos mz * 2 ^ (ez + 1074) <= 5497558138880000 * 2 ^ (-39 + 1074))%Z)
               by (apply key_le_value; [exact Vz | vm_compute; reflexivity | exact Lz]).
             assert (E1 : (5497558138880000 * 2 ^ (-39 + 1074) = 10000 * 2 ^ 1074)%Z)
               by (vm_compute; reflexivity).
             assert (E2 : (2 ^ 1074 = 2 ^ (- ez) * 2 ^ (ez + 1074))%Z)
               by (rewrite <- Z.pow_add_r by lia; f_equal; lia).
             pose proof (pow2_pos (ez + 1074) ltac:(lia)) as HQ.
             rewrite E1, E2 in Hv.
             destruct (Z_le_gt_dec (Z.pos mz) (10000 * 2 ^ (- ez))) as [? | Hgt];
               [assumption | exfalso].
             assert ((10000 * 2 ^ (- ez) + 1) * 2 ^ (ez + 1074)
                     <= Z.pos mz * 2 ^ (ez + 1074))%Z
               by (apply Z.mul_le_mono_nonneg_r; lia).
             nia. }
           pose proof hundredths_up_to_100 as Hall.
           rewrite forallb_forall in Hall.
           specialize (Hall (Z.to_nat q)).
           rewrite Z2Nat.id in Hall by lia.
           apply Hall, in_seq; lia.
Qed.

Lemma round2_le_100 (w : float) :
  (w <=? 100) = true -> (Np.round w 2 <=? 100) = true.
Proof.
  intros Hw; unfold Np.round.
  change (Np.of_int (10 ^ 2)) with 100.
  apply rint_div_le.
  change 10000 with (100 * 100).
  apply mul_le; [pos_finite_literal | pos_finite_literal | exact Hw].
Qed.

End Rounding.

(* ================================================================== *)
(** ** The upper end of the score *)

Section UpperBound.

Import Rnd Rounding.
Local Open Scope float_scope.

(** The composite of features within their ranges is at most 1. *)
Lemma composite_le_1 (ttr burstiness common_ratio pseudo_perplexity : float) :
  (0 <=? ttr) = true -> (0 <=? burstiness) = true -> (common_ratio <=? 1) = true ->
  (composite ttr burstiness common_ratio pseudo_perplexity <=? 1) = true.
Proof.
  intros Ht Hb Hc; unfold composite.
  assert (P1 : pos_finite_float 1) by pos_finite_literal.
  assert (P03 : pos_finite_float 0.3) by pos_finite_literal.
  assert (P02 : pos_finite_float 0.2) by pos_finite_literal.
  assert (T1 : ((1 - ttr) * 0.3 <=? 1 * 0.3) = true)
    by (apply mul_le; try assumption; apply sub_le; assumption).
  assert (T2 : ((1 - burstiness) * 0.2 <=? 1 * 0.2) = true)
    by (apply mul_le; try assumption; apply sub_le; assumption).
  assert (T3 : (common_ratio * 0.2 <=? 1 * 0.2) = true)
    by (apply mul_le; assumption).
  assert (T4 : (Np.of_bool (pseudo_perplexity <? 100) * 0.3 <=? 0.3) = true)
    by (destruct (pseudo_perplexity <? 100); reflexivity).
  assert (S : ((1 - ttr) * 0.3 + (1 - burstiness) * 0.2 + common_ratio * 0.2
               + Np.of_bool (pseudo_perplexity <? 100) * 0.3
               <=? 1 * 0.3 + 1 * 0.2 + 1 * 0.2 + 0.3) = true).
  { apply add_le; [pos_finite_literal | pos_finite_literal | | exact T4].
    apply add_le; [pos_finite_literal | pos_finite_literal | | exact T3].
    apply add_le; [pos_finite_literal | pos_finite_literal | exact T1 | exact T2]. }
  exact S.
Qed.

Lemma ai_score_le_100 (score : float) :
  (score <=? 1) = true -> (ai_score_of score <=? 100) = true.
Proof.
  intros H; unfold ai_score_of; apply round2_le_100.
  assert (S : (score * 100 <=? 1 * 100) = true)
    by (apply mul_le; [pos_finite_literal | pos_finite_literal | exact H]).
  exact S.
Qed.

(** C10: for features within the ranges the extractor produces (lexical
    diversity and repetition ratio in (0, 1], burstiness and perplexity
    proxy at least 0), the composite is at most 1 and the score at most
    100: the upper end of [0, 100] is never exceeded. *)
Theorem score_at_most_100 (fv : FeatureVector) :
  (0 <? ttr fv) = true -> (ttr fv <=? 1) = true ->
  (0 <? common_ratio fv) = true -> (common_ratio fv <=? 1) = true ->
  (0 <=? burstiness fv) = true ->
  (0 <=? pseudo_perplexity fv) = true ->
  (composite (ttr fv) (burstiness fv) (common_ratio fv) (pseudo_perplexity fv) <=? 1) = true /\
  (a_ai_score (score_features fv) <=? 100) = true.
Proof.
  intros Ht0 _ _ Hc1 Hb _.
  assert (H : (composite (ttr fv) (burstiness fv) (common_ratio fv) (pseudo_perplexity fv)
               <=? 1) = true)
    by (apply composite_le_1; try assumption; apply FloatOrder.ltb_leb, Ht0).
  split; [exact H|].
  unfold score_features; cbn [a_ai_score]; apply ai_score_le_100, H.
Qed.

End UpperBound.

(** C10 on the feature vector of the bursty sample, the one whose score
    leaves the range at the lower end. *)
Lemma score_at_most_100_witness :
  let fv := features_of Toy.sentences Toy.words Toy.lower Toy.no_readability
              SAMPLE_BURSTY in
  (composite (ttr fv) (burstiness fv) (common_ratio fv) (pseudo_perplexity fv) <=? 1)%float = true /\
  (a_ai_score (score_features fv) <=? 100)%float = true /\
  (a_ai_score (score_features fv) <? 0)%float = true.
Proof.
  cbv zeta.
  destruct (score_at_most_100
              (features_of Toy.sentences Toy.words Toy.lower Toy.no_readability
                 SAMPLE_BURSTY)) as [H1 H2]; try (vm_compute; reflexivity).
  split; [exact H1 | split; [exact H2 | vm_compute; reflexivity]].
Defined.

(* ================================================================== *)
(** ** Sums, whatever the order of the additions *)

Section Summation.

Local Open Scope float_scope.

(** [-0.0], with which the short loop starts, changes no number. *)
Lemma add_neg_zero_l (x : float) : neg_zero + x = x.
Proof.
  apply Prim2SF_inj. rewrite add_spec.
  change (Prim2SF neg_zero) with (S754_zero true).
  destruct (Prim2SF x) as [s|s| |s m e]; try reflexivity.
  destruct s; reflexivity.
Qed.

(** Adding to [0.0] changes nothing but the sign of [-0.0]. *)
Lemma add_zero_l (x : float) : 0 + x = x \/ (x = neg_zero /\ 0 + x = 0).
Proof.
  destruct (Prim2SF x) as [s|s| |s m e] eqn:E.
  - destruct s.
    + right. assert (Ex : x = neg_zero) by (apply Prim2SF_inj; exact E).
      split; [exact Ex | rewrite Ex; reflexivity].
    + left. apply Prim2SF_inj. rewrite add_spec, E. reflexivity.
  - left. apply Prim2SF_inj. rewrite add_spec, E. reflexivity.
  - left. apply Prim2SF_inj. rewrite add_spec, E. reflexivity.
  - left. apply Prim2SF_inj. rewrite add_spec, E. reflexivity.
Qed.

(** The short loop starts from [-0.0]; in versions of numpy where it
    starts from [0.0] the sum of the array is the same, the sign of a
    zero being settled by the 0 the reduction starts from. *)
Lemma short_loop_start (a : list float) :
  0 + fold_left PrimFloat.add a neg_zero = 0 + fold_left PrimFloat.add a 0.
Proof.
  assert (H : forall l x y, x = y \/ (x = neg_zero /\ y = 0) ->
            fold_left PrimFloat.add l x = fold_left PrimFloat.add l y \/
            (fold_left PrimFloat.add l x = neg_zero /\ fold_left PrimFloat.add l y = 0)).
  { induction l as [|z l IH]; intros x y Hxy; [exact Hxy|].
    cbn [fold_left]. apply IH. destruct Hxy as [-> | [-> ->]]; [left; reflexivity|].
    rewrite add_neg_zero_l.
    destruct (add_zero_l z) as [-> | [-> ->]]; [left; reflexivity | right; split; reflexivity]. }
  destruct (H a neg_zero 0 ltac:(right; split; reflexivity)) as [-> | [-> ->]]; reflexivity.
Qed.

Lemma nil_or_not {A : Type} (l : list A) : l = [] \/ l <> [].
Proof. destruct l; [left; reflexivity | right; discriminate]. Qed.

Lemma half_aligned_bounds (n : nat) :
  (128 < n)%nat -> (0 < Np.half_aligned n < n)%nat.
Proof.
  intros H. unfold Np.half_aligned.
  pose proof (Nat.div_mod_eq n 2) as E.
  pose proof (Nat.mod_upper_bound n 2 ltac:(lia)) as B.
  pose proof (Nat.mod_upper_bound (n / 2) 8 ltac:(lia)) as B8.
  lia.
Qed.

(** The halving never runs out of fuel: more fuel than the length
    changes nothing. *)
Lemma pairwise_sum_fuel_enough (f1 f2 : nat) (a : list float) :
  (List.length a <= f1)%nat -> (List.length a <= f2)%nat ->
  Np.pairwise_sum_fuel f1 a = Np.pairwise_sum_fuel f2 a.
Proof.
  revert f2 a. induction f1 as [|f1 IH]; intros f2 a H1 H2.
  - destruct a; [|cbn [List.length] in H1; lia].
    destruct f2; reflexivity.
  - destruct f2 as [|f2].
    { destruct a; [reflexivity | cbn [List.length] in H2; lia]. }
    cbn [Np.pairwise_sum_fuel].
    destruct (Nat.leb_spec (List.length a) Np.PW_BLOCKSIZE) as [Hs | Hl]; [reflexivity|].
    unfold Np.PW_BLOCKSIZE in Hl.
    pose proof (half_aligned_bounds (List.length a) Hl) as Hh.
    rewrite (IH f2 (firstn _ a)), (IH f2 (skipn _ a)); try reflexivity;
      rewrite ?length_firstn, ?length_skipn; lia.
Qed.

(** The sum of more than 128 numbers is the sum of the sums of its two
    parts, as the recursion of numpy's routine has it. *)
Lemma pairwise_sum_unfold (a : list float) :
  (128 < List.length a)%nat ->
  Np.pairwise_sum a =
  Np.pairwise_sum (firstn (Np.half_aligned (List.length a)) a)
  + Np.pairwise_sum (skipn (Np.half_aligned (List.length a)) a).
Proof.
  intros H. unfold Np.pairwise_sum at 1.
  pose proof (half_aligned_bounds (List.length a) H) as Hh.
  destruct (List.length a) as [|n] eqn:En; [lia|].
  cbn [Np.pairwise_sum_fuel]. rewrite En.
  destruct (Nat.leb_spec (S n) Np.PW_BLOCKSIZE) as [Hs | Hl];
    [unfold Np.PW_BLOCKSIZE in Hs; lia|].
  unfold Np.pairwise_sum. f_equal; apply pairwise_sum_fuel_enough;
    rewrite ?length_firstn, ?length_skipn; lia.
Qed.

Lemma pairwise_sum_small (a : list float) :
  (List.length a <= 128)%nat -> Np.pairwise_sum a = Np.pairwise_block a.
Proof.
  intros H. unfold Np.pairwise_sum. destruct (List.length a) as [|n] eqn:En.
  - destruct a; [reflexivity | discriminate].
  - cbn [Np.pairwise_sum_fuel]. rewrite En.
    destruct (Nat.leb_spec (S n) Np.PW_BLOCKSIZE) as [Hs | Hl]; [reflexivity|].
    unfold Np.PW_BLOCKSIZE in Hl. lia.
Qed.

(** The buffer is never filled more often than the array has elements:
    more fuel than the length changes nothing. *)
Lemma reduce_buffered_fuel_enough (f1 f2 : nat) (a : list float) (acc : float) :
  (List.length a <= f1)%nat -> (List.length a <= f2)%nat ->
  Np.reduce_buffered f1 acc a = Np.reduce_buffered f2 acc a.
Proof.
  revert f2 a acc. induction f1 as [|f1 IH]; intros f2 a acc H1 H2.
  - destruct a; [|cbn [List.length] in H1; lia]. destruct f2; reflexivity.
  - destruct a as [|x t]; [destruct f2; reflexivity|].
    destruct f2 as [|f2]; [cbn [List.length] in H2; lia|].
    change (Np.reduce_buffered (S f1) acc (x :: t))
      with (Np.reduce_buffered f1 (acc + Np.pairwise_sum (firstn Np.BUFSIZE (x :: t)))
              (skipn Np.BUFSIZE (x :: t))).
    change (Np.reduce_buffered (S f2) acc (x :: t))
      with (Np.reduce_buffered f2 (acc + Np.pairwise_sum (firstn Np.BUFSIZE (x :: t)))
              (skipn Np.BUFSIZE (x :: t))).
    assert (Hs : (List.length (skipn Np.BUFSIZE (x :: t)) < List.length (x :: t))%nat).
    { rewrite length_skipn. unfold Np.BUFSIZE. cbn [List.length]. lia. }
    apply IH; lia.
Qed.

(** An array that fits the buffer is summed in one run of the loop, as
    an array of floats is. *)
Lemma sum_buffered_small (a : list float) :
  (List.length a <= Np.BUFSIZE)%nat -> Np.sum_buffered a = Np.sum a.
Proof.
  intros H. unfold Np.sum_buffered, Np.sum.
  destruct a as [|x t]; [reflexivity|].
  change (Np.reduce_buffered (List.length (x :: t)) 0 (x :: t))
    with (Np.reduce_buffered (List.length t)
            (0 + Np.pairwise_sum (firstn Np.BUFSIZE (x :: t)))
            (skipn Np.BUFSIZE (x :: t))).
  rewrite firstn_all2, skipn_all2 by exact H.
  destruct (List.length t); reflexivity.
Qed.

(** *** What every addition preserves, the sum has

    The numbers summed are [g i] for the items [i] of a list; an item
    has a weight [w i], and [Q V x] is a property of a partial sum [x]
    of items of total weight [V].  When [Q] holds of every single item
    and of the sum of two partial sums, it holds of numpy's sum, in
    whatever order the routine adds. *)

Variable A : Type.
Variable g : A -> float.
Variable w : A -> Z.
Variable Q : Z -> float -> Prop.
Variable all : list A.

Local Abbreviation weight := (weight w).

Hypothesis Q_item : forall i, In i all -> Q (w i) (g i).
Hypothesis Q_add : forall V W a b, Q V a -> Q W b -> Q (V + W) (a + b).

Lemma weight_nil : weight [] = 0%Z.
Proof. reflexivity. Qed.

Lemma weight_cons (i : A) (l : list A) : weight (i :: l) = (w i + weight l)%Z.
Proof. reflexivity. Qed.

Local Ltac weights := rewrite ?weight_cons, ?weight_nil; lia.

Lemma weight_app (l1 l2 : list A) : weight (l1 ++ l2) = (weight l1 + weight l2)%Z.
Proof.
  induction l1 as [|i l1 IH]; cbn [app]; [weights|].
  rewrite !weight_cons, IH. lia.
Qed.

Lemma weight_split (n : nat) (l : list A) :
  weight l = (weight (firstn n l) + weight (skipn n l))%Z.
Proof. rewrite <- weight_app, firstn_skipn. reflexivity. Qed.

Lemma Q_eq (V W : Z) (x : float) : V = W -> Q V x -> Q W x.
Proof. intros ->. exact (fun H => H). Qed.

Lemma incl_firstn (n : nat) (l : list A) : incl l all -> incl (firstn n l) all.
Proof.
  intros H x Hx. apply H. rewrite <- (firstn_skipn n l). apply in_or_app. left. exact Hx.
Qed.

Lemma incl_skipn (n : nat) (l : list A) : incl l all -> incl (skipn n l) all.
Proof.
  intros H x Hx. apply H. rewrite <- (firstn_skipn n l). apply in_or_app. right. exact Hx.
Qed.

Local Ltac item H := apply Q_item, H; cbn [In]; tauto.

Lemma fold_invariant (items : list A) (acc : float) (V : Z) :
  incl items all -> Q V acc ->
  Q (V + weight items) (fold_left PrimFloat.add (map g items) acc).
Proof.
  revert acc V. induction items as [|i items IH]; intros acc V Hin H.
  - cbn [map fold_left]. apply (Q_eq V); [weights | exact H].
  - cbn [map fold_left].
    apply (Q_eq (V + w i + weight items)); [weights|].
    apply IH; [intros x Hx; apply Hin; right; exact Hx|].
    apply Q_add; [exact H | item Hin].
Qed.

Lemma unrolled_invariant (n : nat) :
  forall (items : list A) (r0 r1 r2 r3 r4 r5 r6 r7 : float)
         (V0 V1 V2 V3 V4 V5 V6 V7 : Z),
  (List.length items <= n)%nat -> incl items all ->
  Q V0 r0 -> Q V1 r1 -> Q V2 r2 -> Q V3 r3 ->
  Q V4 r4 -> Q V5 r5 -> Q V6 r6 -> Q V7 r7 ->
  Q (V0 + V1 + V2 + V3 + V4 + V5 + V6 + V7 + weight items)
    (Np.unrolled r0 r1 r2 r3 r4 r5 r6 r7 (map g items)).
Proof.
  induction n as [|n IH]; intros items r0 r1 r2 r3 r4 r5 r6 r7
    V0 V1 V2 V3 V4 V5 V6 V7 Hn Hin H0 H1 H2 H3 H4 H5 H6 H7.
  all: assert (Hfin : forall l : list A, incl l all ->
         Q (V0 + V1 + V2 + V3 + V4 + V5 + V6 + V7 + weight l)
           (fold_left PrimFloat.add (map g l)
              (((r0 + r1) + (r2 + r3)) + ((r4 + r5) + (r6 + r7)))))
    by (intros l Hl;
        apply (Q_eq (((V0 + V1) + (V2 + V3)) + ((V4 + V5) + (V6 + V7)) + weight l));
        [lia | apply fold_invariant; [exact Hl | repeat apply Q_add; assumption]]).
  - destruct items; [apply Hfin, Hin | cbn [List.length] in Hn; lia].
  - destruct items as [|i0 [|i1 [|i2 [|i3 [|i4 [|i5 [|i6 [|i7 rest]]]]]]]];
      try (apply Hfin, Hin).
    cbn [map Np.unrolled].
    apply (Q_eq ((V0 + w i0) + (V1 + w i1) + (V2 + w i2) + (V3 + w i3)
                 + (V4 + w i4) + (V5 + w i5) + (V6 + w i6) + (V7 + w i7)
                 + weight rest)); [weights|].
    apply IH; try (apply Q_add; [assumption | item Hin]).
    + cbn [List.length] in Hn. lia.
    + intros x Hx. apply Hin. cbn [In]. tauto.
Qed.

Lemma pairwise_block_invariant (items : list A) :
  items <> [] -> incl items all -> Q (weight items) (Np.pairwise_block (map g items)).
Proof.
  intros Hne Hin.
  assert (Hshort : forall i rest, incl (i :: rest) all ->
            Q (weight (i :: rest))
              (fold_left PrimFloat.add (map g (i :: rest)) neg_zero)).
  { intros i rest Hl. cbn [map fold_left].
    rewrite add_neg_zero_l, weight_cons.
    apply (fold_invariant rest (g i) (w i));
      [intros x Hx; apply Hl; right; exact Hx | item Hl]. }
  destruct items as [|i0 [|i1 [|i2 [|i3 [|i4 [|i5 [|i6 [|i7 rest]]]]]]]];
    try congruence; try (apply Hshort, Hin).
  cbn [map Np.pairwise_block].
  apply (Q_eq (w i0 + w i1 + w i2 + w i3 + w i4 + w i5 + w i6 + w i7 + weight rest));
    [weights|].
  apply (unrolled_invariant (List.length rest)); try (item Hin); [lia|].
  intros x Hx. apply Hin. cbn [In]. tauto.
Qed.

Lemma pairwise_sum_fuel_invariant (fuel : nat) (items : list A) :
  items <> [] -> incl items all ->
  Q (weight items) (Np.pairwise_sum_fuel fuel (map g items)).
Proof.
  revert items. induction fuel as [|fuel IH]; intros items Hne Hin.
  - cbn [Np.pairwise_sum_fuel].
    destruct (_ <=? _)%nat; apply pairwise_block_invariant; assumption.
  - cbn [Np.pairwise_sum_fuel]. rewrite length_map.
    destruct (Nat.leb_spec (List.length items) Np.PW_BLOCKSIZE) as [Hs | Hl];
      [apply pairwise_block_invariant; assumption|].
    unfold Np.PW_BLOCKSIZE in Hl.
    pose proof (half_aligned_bounds (List.length items) Hl) as Hh.
    rewrite firstn_map, skipn_map.
    rewrite (weight_split (Np.half_aligned (List.length items)) items).
    apply Q_add; apply IH;
      try (apply incl_firstn, Hin); try (apply incl_skipn, Hin);
      intros E; apply (f_equal (@List.length _)) in E;
      rewrite ?length_firstn, ?length_skipn in E; cbn [List.length] in E; lia.
Qed.

Lemma pairwise_sum_invariant (items : list A) :
  items <> [] -> incl items all -> Q (weight items) (Np.pairwise_sum (map g items)).
Proof. apply pairwise_sum_fuel_invariant. Qed.

Hypothesis Q_zero : Q 0 0.

Lemma reduce_buffered_invariant (fuel : nat) (items : list A) (acc : float) (V : Z) :
  incl items all -> Q V acc ->
  Q (V + weight items) (Np.reduce_buffered fuel acc (map g items)).
Proof.
  revert items acc V. induction fuel as [|fuel IH]; intros items acc V Hin H.
  - destruct items as [|i rest].
    + cbn [map Np.reduce_buffered]. apply (Q_eq V); [weights | exact H].
    + change (Np.reduce_buffered 0 acc (map g (i :: rest)))
        with (acc + Np.pairwise_sum (map g (i :: rest))).
      apply Q_add; [exact H | apply pairwise_sum_invariant; [discriminate | exact Hin]].
  - destruct items as [|i rest].
    + cbn [map Np.reduce_buffered]. apply (Q_eq V); [weights | exact H].
    + change (Np.reduce_buffered (S fuel) acc (map g (i :: rest)))
        with (Np.reduce_buffered fuel
                (acc + Np.pairwise_sum (firstn Np.BUFSIZE (map g (i :: rest))))
                (skipn Np.BUFSIZE (map g (i :: rest)))).
      rewrite firstn_map, skipn_map.
      rewrite (weight_split Np.BUFSIZE (i :: rest)), Z.add_assoc.
      apply IH; [apply incl_skipn, Hin|].
      apply Q_add; [exact H|].
      apply pairwise_sum_invariant; [|apply incl_firstn, Hin].
      unfold Np.BUFSIZE. cbn. discriminate.
Qed.

(** [numpy.add.reduce] over an array of floats, and over an array that
    is cast to floats on the way. *)
Theorem sum_invariant :
  Q (weight all) (Np.sum (map g all)) /\ Q (weight all) (Np.sum_buffered (map g all)).
Proof.
  split.
  - destruct (nil_or_not all) as [E | Hne].
    + rewrite E. exact Q_zero.
    + unfold Np.sum. apply (Q_eq (0 + weight all)); [lia|].
      apply Q_add; [exact Q_zero|].
      apply pairwise_sum_invariant; [exact Hne | apply incl_refl].
  - unfold Np.sum_buffered. apply (Q_eq (0 + weight all)); [lia|].
    apply reduce_buffered_invariant; [apply incl_refl | exact Q_zero].
Qed.

End Summation.

(* ================================================================== *)
(** ** Sentences without word tokens: the division by a zero mean *)

Section ZeroMean.

Local Open Scope float_scope.

(** Zeros sum to zero, in either reduction. *)
Lemma sums_of_zeros (n : nat) :
  Np.sum (repeat 0 n) = 0 /\ Np.sum_buffered (repeat 0 n) = 0.
Proof.
  rewrite <- (map_id (repeat 0 n)).
  apply (sum_invariant float (fun x => x) (fun _ => 0%Z) (fun _ x => x = 0)).
  - intros i Hi. exact (repeat_spec _ _ _ Hi).
  - intros V W a b -> ->. reflexivity.
  - reflexivity.
Qed.

Lemma sum_zeros (n : nat) : Np.sum (repeat 0 n) = 0.
Proof. apply sums_of_zeros. Qed.

Lemma len_repeat {A : Type} (a : A) (n : nat) : len (repeat a n) = Z.of_nat n.
Proof. unfold len; rewrite repeat_length; reflexivity. Qed.

Lemma map_repeat {A B : Type} (f : A -> B) (a : A) (n : nat) :
  map f (repeat a n) = repeat (f a) n.
Proof. induction n as [|n IH]; [reflexivity | cbn; rewrite IH; reflexivity]. Qed.

(** The mean of [n > 0] zero counts is 0. *)
Lemma mean_zeros (n : nat) : (0 < n)%nat -> Np.mean (repeat 0%Z n) = 0.
Proof.
  intros Hn; unfold Np.mean.
  rewrite map_repeat, len_repeat.
  change (Np.of_int 0) with 0; rewrite (proj2 (sums_of_zeros n)).
  apply Rounding.zero_div_of_int; lia.
Qed.

(** Their variance is 0, and so is their standard deviation. *)
Lemma var_zeros (n : nat) : (0 < n)%nat -> Np.var (repeat 0%Z n) = 0.
Proof.
  intros Hn; unfold Np.var, Np.var_ddof.
  rewrite (mean_zeros n Hn), !map_repeat, len_repeat.
  change (Np.of_int 0 - 0) with 0; change (0 * 0) with 0.
  rewrite sum_zeros.
  replace (Z.max (Z.of_nat n - 0) 0) with (Z.of_nat n) by lia.
  apply Rounding.zero_div_of_int; lia.
Qed.

Lemma std_zeros (n : nat) : (0 < n)%nat -> Np.std (repeat 0%Z n) = 0.
Proof. intros Hn; unfold Np.std; rewrite (var_zeros n Hn); reflexivity. Qed.

Lemma add_nan_r (x : float) : x + nan = nan.
Proof.
  apply Prim2SF_inj; rewrite add_spec.
  change (Prim2SF nan) with S754_nan.
  destruct (Prim2SF x); reflexivity.
Qed.

Lemma add_nan_l (x : float) : nan + x = nan.
Proof.
  apply Prim2SF_inj; rewrite add_spec.
  change (Prim2SF nan) with S754_nan; reflexivity.
Qed.

(** A [nan] burstiness makes the composite [nan]. *)
Lemma composite_nan (ttr common_ratio pseudo_perplexity : float) :
  composite ttr nan common_ratio pseudo_perplexity = nan.
Proof.
  unfold composite.
  change ((1 - nan) * 0.2) with nan.
  rewrite add_nan_r, !add_nan_l; reflexivity.
Qed.

Variable sent_tokenize : str -> list str.
Variable word_tokenize : str -> list str.
Variable lower : str -> str.
Variable flesch_reading_ease : str -> float.

Local Abbreviation extract :=
  (extract_features sent_tokenize word_tokenize lower flesch_reading_ease).
Local Abbreviation analyze :=
  (analyze_text_features sent_tokenize word_tokenize lower flesch_reading_ease).

Lemma sent_lengths_all_zero (sentences : list str) :
  Forall (fun s => word_tokenize s = []) sentences ->
  sent_lengths_of word_tokenize sentences = repeat 0%Z (List.length sentences).
Proof.
  unfold sent_lengths_of; induction 1 as [|s l Hs _ IH]; [reflexivity|].
  cbn [map List.length repeat]; rewrite Hs, IH; reflexivity.
Qed.

(** X20: line 48 divides by the mean without a guard.  For tokenizers
    that find a word token in the text but none in any of its
    sentences (nltk's find one in every sentence; the code does not
    depend on it), the mean per-sentence word count is 0 and the
    extractor raises no division error and returns a feature vector
    whose burstiness is the [nan] of 0/0; it propagates: the score is
    [nan] and the label is the high-probability-AI one. *)
Theorem zero_mean_burstiness_is_nan (text : str) :
  text <> [] -> (50 <= len (strip text))%Z -> word_tokenize (lower text) <> [] ->
  sent_tokenize text <> [] ->
  Forall (fun s => word_tokenize s = []) (sent_tokenize text) ->
  exists fv,
    extract text = Return (Some fv) /\
    analyze text = Return (Some (score_features fv)) /\
    Np.mean (sent_lengths_of word_tokenize (sent_tokenize text)) = 0 /\
    burstiness fv = nan /\
    a_ai_score (score_features fv) = nan /\
    a_result (score_features fv) = LABEL_AI.
Proof.
  intros Ht Hl Hw Hs Hall.
  exists (features_of sent_tokenize word_tokenize lower flesch_reading_ease text).
  split; [apply extract_accepts; assumption|].
  split; [apply analyze_accepts; assumption|].
  assert (Hn : (0 < List.length (sent_tokenize text))%nat)
    by (destruct (sent_tokenize text); [congruence | cbn; lia]).
  pose proof (sent_lengths_all_zero _ Hall) as E.
  assert (Hb : burstiness (features_of sent_tokenize word_tokenize lower
                             flesch_reading_ease text) = nan).
  { unfold features_of; cbn [burstiness].
    rewrite E, (std_zeros _ Hn), (mean_zeros _ Hn); reflexivity. }
  split; [rewrite E; apply mean_zeros, Hn|].
  split; [exact Hb|].
  unfold score_features; cbn [a_ai_score a_result]; rewrite Hb, composite_nan.
  split; reflexivity.
Qed.

End ZeroMean.

(** X20 on a text of capitals, for tokenizers that know lower-case
    words only and take the text as one sentence. *)
Lemma zero_mean_burstiness_is_nan_witness :
  exists fv,
    extract_features Toy.one_sentence Toy.lowercase_words Toy.lower Toy.no_readability
      SAMPLE_CAPITALS = Return (Some fv) /\
    burstiness fv = nan /\
    a_ai_score (score_features fv) = nan /\
    a_result (score_features fv) = LABEL_AI.
Proof.
  destruct (zero_mean_burstiness_is_nan Toy.one_sentence Toy.lowercase_words Toy.lower
              Toy.no_readability SAMPLE_CAPITALS)
    as (fv & H1 & _ & _ & H2 & H3 & H4).
  - discriminate.
  - vm_compute; discriminate.
  - vm_compute; discriminate.
  - discriminate.
  - repeat constructor.
  - exists fv; repeat split; assumption.
Defined.

(* ================================================================== *)
(** ** The length guard and white space *)

Section StripFacts.

Local Open Scope Z_scope.

Lemma lstrip_split (s : str) :
  exists a, s = a ++ lstrip s /\ forallb isspace a = true.
Proof.
  induction s as [|c t IH]; simpl.
  - exists []; auto.
  - destruct (isspace c) eqn:Hc.
    + destruct IH as [a [E Ha]]. exists (c :: a); simpl.
      rewrite Hc, Ha. split; [congruence | reflexivity].
    + exists []; auto.
Qed.

Lemma len_app {A : Type} (a b : list A) : len (a ++ b) = len a + len b.
Proof. unfold len. rewrite length_app. lia. Qed.

Lemma len_rev {A : Type} (a : list A) : len (rev a) = len a.
Proof. unfold len. rewrite length_rev. reflexivity. Qed.

Lemma len_lstrip_le (s : str) : len (lstrip s) <= len s.
Proof.
  destruct (lstrip_split s) as [a [E _]].
  rewrite E at 2. rewrite len_app. pose proof (len_nonneg a). lia.
Qed.

Lemma len_strip_le (s : str) : len (strip s) <= len s.
Proof.
  unfold strip, rstrip. rewrite len_rev.
  pose proof (len_lstrip_le (rev (lstrip s))). rewrite len_rev in H.
  pose proof (len_lstrip_le s). lia.
Qed.

Lemma lstrip_app_space (a s : str) :
  forallb isspace a = true -> lstrip (a ++ s) = lstrip s.
Proof.
  induction a as [|c t IH]; simpl; intros H; [reflexivity|].
  apply andb_true_iff in H. destruct H as [Hc Ht]. rewrite Hc. auto.
Qed.

Lemma lstrip_nil_all_space (s : str) : lstrip s = [] -> forallb isspace s = true.
Proof.
  induction s as [|c t IH]; simpl; intros H; [reflexivity|].
  destruct (isspace c); [auto | discriminate].
Qed.

Lemma lstrip_app_nonempty (s b : str) :
  lstrip s <> [] -> lstrip (s ++ b) = lstrip s ++ b.
Proof.
  induction s as [|c t IH]; simpl; intros H; [congruence|].
  destruct (isspace c); [auto | reflexivity].
Qed.

Lemma forallb_rev {A : Type} (f : A -> bool) (l : list A) :
  forallb f l = true -> forallb f (rev l) = true.
Proof.
  rewrite !forallb_forall. intros H x Hx. apply H, in_rev, Hx.
Qed.

Lemma rstrip_app_space (s b : str) :
  forallb isspace b = true -> rstrip (s ++ b) = rstrip s.
Proof.
  intros H. unfold rstrip. rewrite rev_app_distr.
  rewrite lstrip_app_space by (apply forallb_rev, H). reflexivity.
Qed.

Lemma strip_padding (a s b : str) :
  forallb isspace a = true -> forallb isspace b = true ->
  strip (a ++ s ++ b) = strip s.
Proof.
  intros Ha Hb. unfold strip. rewrite lstrip_app_space by exact Ha.
  destruct (lstrip s) as [|c t] eqn:E.
  - assert (Hs : forallb isspace (s ++ b) = true).
    { rewrite forallb_app, Hb, (lstrip_nil_all_space s E). reflexivity. }
    rewrite (lstrip_all_space _ Hs). reflexivity.
  - rewrite lstrip_app_nonempty by congruence. rewrite E.
    apply rstrip_app_space, Hb.
Qed.

Variable sent_tokenize : str -> list str.
Variable word_tokenize : str -> list str.
Variable lower : str -> str.
Variable flesch_reading_ease : str -> float.

Local Abbreviation analyze :=
  (analyze_text_features sent_tokenize word_tokenize lower flesch_reading_ease).

(** X1: every dictionary [analyze_text_features] returns reports the
    length of the text as it was given (not stripped) and the number of
    sentences the tokenizer found, and that length is at least 50, since
    the stripped text is never longer than the text. *)
Theorem returned_length_at_least_50 (text : str) (a : Analysis) :
  analyze text = Return (Some a) ->
  a_text_length a = len text /\
  a_sentence_count a = len (sent_tokenize text) /\
  50 <= len (strip text) <= a_text_length a.
Proof.
  intros H.
  destruct (guards_decide word_tokenize lower text) as [Hr | [H1 [H2 H3]]].
  - rewrite (analyze_rejects sent_tokenize word_tokenize lower flesch_reading_ease
               text Hr) in H. discriminate.
  - rewrite (analyze_accepts sent_tokenize word_tokenize lower flesch_reading_ease
               text H1 H2 H3) in H.
    injection H as <-. cbn.
    pose proof (len_strip_le text). repeat split; lia.
Qed.

(** X2: white space around a text does not count for the length guard:
    the stripped text is the same, so a text whose stripped form has
    fewer than 50 characters is rejected however much white space is put
    around it; in particular every text of fewer than 50 characters is
    rejected. *)
Theorem padding_does_not_rescue (a text b : str) :
  forallb isspace a = true -> forallb isspace b = true ->
  strip (a ++ text ++ b) = strip text /\
  (len (strip text) < 50 -> analyze (a ++ text ++ b) = Return None) /\
  (len (a ++ text ++ b) < 50 -> analyze (a ++ text ++ b) = Return None).
Proof.
  intros Ha Hb. pose proof (strip_padding a text b Ha Hb) as E.
  split; [exact E|]. split; intros H.
  - apply analyze_rejects. right; left. rewrite E. exact H.
  - apply analyze_rejects. right; left.
    pose proof (len_strip_le (a ++ text ++ b)). lia.
Qed.

End StripFacts.

Lemma returned_length_at_least_50_witness :
  let a := score_features
             (features_of Toy.sentences Toy.words Toy.lower Toy.no_readability
                SAMPLE_REPETITIVE) in
  a_text_length a = 90%Z /\ a_sentence_count a = 7%Z /\
  (50 <= len (strip SAMPLE_REPETITIVE) <= a_text_length a)%Z.
Proof.
  cbv zeta.
  pose proof (returned_length_at_least_50 Toy.sentences Toy.words Toy.lower
                Toy.no_readability SAMPLE_REPETITIVE
                (score_features
                   (features_of Toy.sentences Toy.words Toy.lower Toy.no_readability
                      SAMPLE_REPETITIVE))) as H.
  destruct H as [H1 [H2 H3]].
  - vm_compute. reflexivity.
  - split; [rewrite H1; vm_compute; reflexivity|].
    split; [rewrite H2; vm_compute; reflexivity|]. exact H3.
Defined.

Lemma padding_does_not_rescue_witness :
  strip (lit "   " ++ lit "too short to analyse" ++ repeat 32%N 60)
    = lit "too short to analyse" /\
  analyze_text_features Toy.sentences Toy.words Toy.lower Toy.no_readability
    (lit "   " ++ lit "too short to analyse" ++ repeat 32%N 60) = Return None.
Proof.
  destruct (padding_does_not_rescue Toy.sentences Toy.words Toy.lower
              Toy.no_readability
              (lit "   ") (lit "too short to analyse") (repeat 32%N 60)
              eq_refl eq_refl) as [E [H _]].
  split.
  - rewrite E. vm_compute. reflexivity.
  - apply H. vm_compute. reflexivity.
Defined.

(* ================================================================== *)
(** ** The two word counts behind the ratios *)

Section WordCounts.

Local Open Scope Z_scope.

Lemma remove_count_length (w : str) (l : list str) :
  List.length l = (count_occ str_eq_dec l w + List.length (remove str_eq_dec w l))%nat.
Proof.
  induction l as [|x t IH]; simpl; [reflexivity|].
  destruct (str_eq_dec x w) as [E|N]; destruct (str_eq_dec w x) as [E'|N'];
    try congruence; simpl; lia.
Qed.

Lemma count_occ_remove_le (w k : str) (l : list str) :
  (count_occ str_eq_dec (remove str_eq_dec w l) k <= count_occ str_eq_dec l k)%nat.
Proof.
  induction l as [|x t IH]; simpl; [lia|].
  destruct (str_eq_dec w x); simpl; destruct (str_eq_dec x k); lia.
Qed.

(** A list whose elements all lie among [keys], none occurring more
    than [c] times, has at most [c] elements per key. *)
Lemma length_le_keys_times_count (keys l : list str) (c : nat) :
  (forall x, In x l -> In x keys) ->
  (forall k, (count_occ str_eq_dec l k <= c)%nat) ->
  (List.length l <= List.length keys * c)%nat.
Proof.
  revert l. induction keys as [|k ks IH]; intros l Hin Hc.
  - destruct l as [|x t]; simpl; [lia|]. destruct (Hin x (or_introl eq_refl)).
  - rewrite (remove_count_length k l). simpl.
    assert (H : (List.length (remove str_eq_dec k l) <= List.length ks * c)%nat).
    { apply IH.
      - intros x Hx. apply in_remove in Hx. destruct Hx as [Hx Hne].
        destruct (Hin x Hx) as [E|E]; [congruence | exact E].
      - intros k'. pose proof (count_occ_remove_le k k' l). pose proof (Hc k'). lia. }
    pose proof (Hc k). lia.
Qed.

Lemma NoDup_count_le_1 (l : list str) (w : str) :
  NoDup l -> (count_occ str_eq_dec l w <= 1)%nat.
Proof. intros H. apply (proj1 (NoDup_count_occ str_eq_dec l) H). Qed.

Lemma nodup_same_length_NoDup (l : list str) :
  List.length (nodup str_eq_dec l) = List.length l -> NoDup l.
Proof.
  induction l as [|x t IH]; simpl; intros H; [constructor|].
  destruct (in_dec str_eq_dec x t) as [Hin|Hn].
    assert (Hle : (List.length (nodup str_eq_dec t) <= List.length t)%nat).
    { apply NoDup_incl_length; [apply NoDup_nodup|].
      intros y Hy. apply nodup_In in Hy. exact Hy. }
    lia.
  - simpl in H. constructor; [exact Hn | apply IH; lia].
Qed.

Lemma word_counts (words : list str) :
  words <> [] ->
  let n := len words in
  let d := len (py_set words) in
  let c := top_count words in
  1 <= d <= n /\ 1 <= c <= n /\ n <= d * c /\ (d = n <-> c = 1).
Proof.
  intros Hne n d c.
  destruct (top_count_most_frequent words Hne) as [[w [Hw Ew]] Hmax].
  fold c in Ew, Hmax. unfold Reference.occurrences in Ew, Hmax.
  assert (Hd_le : d <= n).
  { unfold d, n, len, py_set. apply inj_le.
    apply NoDup_incl_length; [apply NoDup_nodup|].
    intros y Hy. apply nodup_In in Hy. exact Hy. }
  assert (Hd_pos : 1 <= d).
  { unfold d, len, py_set. destruct words as [|x t]; [congruence|].
    assert (Hx : In x (nodup str_eq_dec (x :: t))) by (apply nodup_In; left; reflexivity).
    destruct (nodup str_eq_dec (x :: t)); [destruct Hx | simpl; lia]. }
  assert (Hc_pos : 1 <= c).
  { pose proof (proj2 (occurrences_pos_iff words w) Hw) as Hp.
    unfold Reference.occurrences in Hp. lia. }
  assert (Hc_le : c <= n).
  { rewrite <- Ew. unfold n, len. apply inj_le, count_occ_bound. }
  assert (Hprod : n <= d * c).
  { unfold n, d, len, py_set.
    assert (Hc_nat : c = Z.of_nat (Z.to_nat c)) by lia.
    rewrite Hc_nat, <- Nat2Z.inj_mul. apply inj_le.
    apply length_le_keys_times_count.
    - intros x Hx. apply nodup_In. exact Hx.
    - intros k. pose proof (Hmax k). lia. }
  split; [lia|]. split; [lia|]. split; [exact Hprod|]. split.
  - intros E.
    assert (Hnd : NoDup words).
    { apply nodup_same_length_NoDup. unfold d, n, len, py_set in E. lia. }
    pose proof (NoDup_count_le_1 words w Hnd). lia.
  - intros E. rewrite E in Hprod. lia.
Qed.

Variable sent_tokenize : str -> list str.
Variable word_tokenize : str -> list str.
Variable lower : str -> str.
Variable flesch_reading_ease : str -> float.

Local Abbreviation extract :=
  (extract_features sent_tokenize word_tokenize lower flesch_reading_ease).

(** X3: for every text that passes the guards, lexical diversity is
    [d / n] and the repetition ratio is [c / n], where [n] is the number
    of word tokens, [d] the number of distinct ones and [c] the count of
    the most frequent one; these integers satisfy [1 <= d <= n],
    [1 <= c <= n] and [n <= d * c], and all words are different
    ([d = n]) exactly when no word is repeated ([c = 1]). *)
Theorem ratios_are_quotients_of_counts (text : str) (fv : FeatureVector) :
  extract text = Return (Some fv) ->
  let words := word_tokenize (lower text) in
  let n := len words in
  let d := len (py_set words) in
  let c := top_count words in
  ttr fv = (Np.of_int d / Np.of_int n)%float /\
  common_ratio fv = (Np.of_int c / Np.of_int n)%float /\
  1 <= d <= n /\ 1 <= c <= n /\ n <= d * c /\ (d = n <-> c = 1).
Proof.
  intros H words n d c.
  destruct (extract_some_inv sent_tokenize word_tokenize lower flesch_reading_ease
              text fv H) as [Hne ->].
  split; [reflexivity|]. split; [reflexivity|].
  exact (word_counts words Hne).
Qed.

End WordCounts.

Lemma ratios_are_quotients_of_counts_witness :
  let fv := features_of Toy.sentences Toy.words Toy.lower Toy.no_readability
              SAMPLE_REPETITIVE in
  ttr fv = (Np.of_int 3 / Np.of_int 21)%float /\
  common_ratio fv = (Np.of_int 7 / Np.of_int 21)%float /\
  (21 <= 3 * 7)%Z.
Proof.
  cbv zeta.
  destruct (ratios_are_quotients_of_counts Toy.sentences Toy.words Toy.lower
              Toy.no_readability SAMPLE_REPETITIVE
              (features_of Toy.sentences Toy.words Toy.lower Toy.no_readability
                 SAMPLE_REPETITIVE))
    as [H1 [H2 [_ [_ [H3 _]]]]].
  - vm_compute. reflexivity.
  - split; [rewrite H1; vm_compute; reflexivity|].
    split; [rewrite H2; vm_compute; reflexivity|].
    vm_compute in H3. exact H3.
Defined.

(* ================================================================== *)
(** ** Discovery, paths and reading *)

Section DiscoveryFacts.

Local Open Scope Z_scope.

Lemma inner_walk_filter (root : str) (filelist files : list str) :
  fold_left
    (fun files f =>
       if endswith f EXT_TXT || endswith f EXT_DOCX
       then files ++ [OsPath.path_join root f]
       else files) filelist files =
  files ++ map (OsPath.path_join root) (filter eligible filelist).
Proof.
  revert files. induction filelist as [|f t IH]; intros files; simpl.
  - rewrite app_nil_r. reflexivity.
  - rewrite IH. unfold eligible at 2.
    destruct (endswith f EXT_TXT || endswith f EXT_DOCX); simpl.
    + rewrite <- app_assoc. reflexivity.
    + reflexivity.
Qed.

Lemma walk_filter (walk : list (str * list str)) (files : list str) :
  fold_left
    (fun files '(root, filelist) =>
       fold_left
         (fun files f =>
            if endswith f EXT_TXT || endswith f EXT_DOCX
            then files ++ [OsPath.path_join root f]
            else files)
         filelist files) walk files =
  files ++ flat_map (fun '(root, filelist) =>
                       map (OsPath.path_join root) (filter eligible filelist)) walk.
Proof.
  revert files. induction walk as [|[root filelist] t IH]; intros files; simpl.
  - rewrite app_nil_r. reflexivity.
  - rewrite IH, inner_walk_filter, <- app_assoc. reflexivity.
Qed.

Lemma discover_flat_map (walk : list (str * list str)) :
  discover walk =
  flat_map (fun '(root, filelist) =>
              map (OsPath.path_join root) (filter eligible filelist)) walk.
Proof. unfold discover. rewrite walk_filter. reflexivity. Qed.

Lemma in_discover (walk : list (str * list str)) (file : str) :
  In file (discover walk) <->
  exists root filelist f,
    In (root, filelist) walk /\ In f filelist /\ eligible f = true /\
    file = OsPath.path_join root f.
Proof.
  rewrite discover_flat_map, in_flat_map. split.
  - intros [[root filelist] [Hw Hf]]. apply in_map_iff in Hf.
    destruct Hf as [f [E Hf]]. apply filter_In in Hf. destruct Hf as [Hf He].
    exists root, filelist, f. auto.
  - intros [root [filelist [f [Hw [Hf [He E]]]]]].
    exists (root, filelist). split; [exact Hw|].
    apply in_map_iff. exists f. split; [auto|]. apply filter_In. auto.
Qed.

(** X4: the files are discovered directory by directory and, within a
    directory, in the order of its listing: the discovered paths are the
    names with a supported extension, each joined to its directory; so
    the walk of two parts discovers what the parts discover, one after
    the other, and a name with another extension is never discovered. *)
Theorem discovery_is_filtered_walk (walk : list (str * list str)) :
  discover walk =
    flat_map (fun '(root, filelist) =>
                map (OsPath.path_join root) (filter eligible filelist)) walk /\
  (forall walk', discover (walk ++ walk') = discover walk ++ discover walk') /\
  (forall file,
     In file (discover walk) <->
     exists root filelist f,
       In (root, filelist) walk /\ In f filelist /\ eligible f = true /\
       file = OsPath.path_join root f) /\
  len (discover walk) =
    fold_right Z.add 0 (map (fun d => len (filter eligible (snd d))) walk).
Proof.
  split; [apply discover_flat_map|]. split; [|split].
  - intros walk'. rewrite !discover_flat_map. apply flat_map_app.
  - intros file. apply in_discover.
  - rewrite discover_flat_map.
    induction walk as [|[root filelist] t IH]; [reflexivity|].
    simpl. unfold len in *. rewrite length_app, length_map, Nat2Z.inj_add, IH.
    reflexivity.
Qed.

(** *** Extensions survive the join *)

Lemma startswith_app (s t p : str) :
  startswith s p = true -> startswith (s ++ t) p = true.
Proof.
  revert s. induction p as [|a p IH]; intros s H; [destruct (s ++ t); reflexivity|].
  destruct s as [|b s]; [discriminate|]. simpl in *.
  apply andb_true_iff in H. destruct H as [H1 H2].
  rewrite H1. simpl. apply IH, H2.
Qed.

Lemma endswith_app (pre f ext : str) :
  endswith f ext = true -> endswith (pre ++ f) ext = true.
Proof.
  unfold endswith. intros H. rewrite rev_app_distr. apply startswith_app, H.
Qed.

Lemma path_join_suffix (root f : str) :
  f <> [] -> exists pre, OsPath.path_join root f = pre ++ f.
Proof.
  intros Hf. destruct f as [|c t]; [congruence|]. unfold OsPath.path_join.
  destruct (c =? OsPath.sep)%N.
  - exists []. reflexivity.
  - destruct (rev root) as [|l r].
    + exists []. reflexivity.
    + destruct (l =? OsPath.sep)%N.
      * exists root. reflexivity.
      * exists (root ++ [OsPath.sep]). rewrite <- app_assoc. reflexivity.
Qed.

Lemma endswith_nonempty (f ext : str) :
  ext <> [] -> endswith f ext = true -> f <> [].
Proof.
  intros He H ->. unfold endswith in H. simpl in H.
  destruct (rev ext) as [|a r] eqn:E; [|discriminate].
  apply (f_equal (@rev _)) in E. rewrite rev_involutive in E. simpl in E. congruence.
Qed.

Lemma endswith_path_join (root f ext : str) :
  ext <> [] -> endswith f ext = true ->
  endswith (OsPath.path_join root f) ext = true.
Proof.
  intros He H.
  destruct (path_join_suffix root f (endswith_nonempty f ext He H)) as [pre ->].
  apply endswith_app, H.
Qed.

Lemma eligible_path_join (root f : str) :
  eligible f = true -> eligible (OsPath.path_join root f) = true.
Proof.
  unfold eligible. intros H. apply orb_true_iff in H. apply orb_true_iff.
  destruct H as [H|H]; [left | right]; apply endswith_path_join; try exact H;
    discriminate.
Qed.

(** A path cannot end in both extensions. *)
Lemma txt_not_docx (f : str) :
  endswith f EXT_TXT = true -> endswith f EXT_DOCX = false.
Proof.
  unfold endswith. destruct (rev f) as [|c t]; [discriminate|].
  change (rev EXT_TXT) with [116; 120; 116; 46]%N.
  change (rev EXT_DOCX) with [120; 99; 111; 100; 46]%N.
  cbn [startswith]. intros H. apply andb_true_iff in H. destruct H as [H _].
  apply N.eqb_eq in H. subst c. reflexivity.
Qed.

Variable sent_tokenize : str -> list str.
Variable word_tokenize : str -> list str.
Variable lower : str -> str.
Variable flesch_reading_ease : str -> float.
Variable read_txt : str -> str.
Variable docx_paragraphs : str -> list str.

Local Abbreviation analyze :=
  (analyze_text_features sent_tokenize word_tokenize lower flesch_reading_ease).
Local Abbreviation read := (read_file_content read_txt docx_paragraphs).
Local Abbreviation run_files :=
  (analyze_files sent_tokenize word_tokenize lower flesch_reading_ease
     read_txt docx_paragraphs).
Local Abbreviation run_folder :=
  (analyze_folder sent_tokenize word_tokenize lower flesch_reading_ease
     read_txt docx_paragraphs).
Local Abbreviation rec_of :=
  (record_of sent_tokenize word_tokenize lower flesch_reading_ease
     read_txt docx_paragraphs).
Local Abbreviation has_rec :=
  (analyzable sent_tokenize word_tokenize lower flesch_reading_ease
     read_txt docx_paragraphs).

(** X5: joining a name to its directory keeps its extension, so every
    discovered file is read by one of the two readers, the text reader
    for [.txt] and the joined paragraphs for [.docx] (a path never has
    both endings); the empty-text fallback of [read_file_content] is
    never taken for a discovered file. *)
Theorem discovered_files_are_read (walk : list (str * list str)) (file : str) :
  In file (discover walk) ->
  (endswith file EXT_TXT = true /\ endswith file EXT_DOCX = false /\
   read file = read_txt file) \/
  (endswith file EXT_TXT = false /\ endswith file EXT_DOCX = true /\
   read file = join NEWLINE (docx_paragraphs file)).
Proof.
  intros H. apply in_discover in H.
  destruct H as [root [filelist [f [_ [_ [He ->]]]]]].
  pose proof (eligible_path_join root f He) as Hp.
  unfold eligible in Hp. unfold read_file_content.
  destruct (endswith (OsPath.path_join root f) EXT_TXT) eqn:Et.
  - left. split; [reflexivity|]. split; [apply txt_not_docx, Et | reflexivity].
  - simpl in Hp. rewrite Hp. right. auto.
Qed.

(** *** The name of a joined path *)

Lemma basename_from_plain (f acc : str) :
  plain_name f -> OsPath.basename_from acc f = rev acc ++ f.
Proof.
  revert acc. induction f as [|c t IH]; intros acc Hp; simpl.
  - rewrite app_nil_r. reflexivity.
  - destruct (c =? OsPath.sep)%N eqn:Ec.
    + apply N.eqb_eq in Ec. exfalso. apply Hp. left. auto.
    + rewrite IH.
      * simpl. rewrite <- app_assoc. reflexivity.
      * intros Hin. apply Hp. right. exact Hin.
Qed.

Lemma basename_from_sep (pre f acc : str) :
  OsPath.basename_from acc (pre ++ OsPath.sep :: f) = OsPath.basename_from [] f.
Proof.
  revert acc. induction pre as [|c t IH]; intros acc; simpl.
  - reflexivity.
  - destruct (c =? OsPath.sep)%N; apply IH.
Qed.

Lemma basename_path_join (root f : str) :
  plain_name f -> OsPath.basename (OsPath.path_join root f) = f.
Proof.
  intros Hp. unfold OsPath.basename, OsPath.path_join.
  destruct f as [|c t].
  - destruct (rev root) as [|l r] eqn:Er; [reflexivity|].
    apply (f_equal (@rev _)) in Er. rewrite rev_involutive in Er. simpl in Er.
    destruct (l =? OsPath.sep)%N eqn:El.
    + apply N.eqb_eq in El. subst l root.
      rewrite (basename_from_sep (rev r) [] []). reflexivity.
    + replace (root ++ [OsPath.sep]) with (root ++ OsPath.sep :: []) by reflexivity.
      rewrite basename_from_sep. reflexivity.
  - destruct (c =? OsPath.sep)%N eqn:Ec.
    + apply N.eqb_eq in Ec. exfalso. apply Hp. left. auto.
    + destruct (rev root) as [|l r] eqn:Er.
      * apply (basename_from_plain (c :: t) [] Hp).
      * apply (f_equal (@rev _)) in Er. rewrite rev_involutive in Er. simpl in Er.
        destruct (l =? OsPath.sep)%N eqn:El.
        -- apply N.eqb_eq in El. subst l root. rewrite <- app_assoc. simpl.
           rewrite basename_from_sep. apply (basename_from_plain (c :: t) [] Hp).
        -- rewrite basename_from_sep. apply (basename_from_plain (c :: t) [] Hp).
Qed.

Lemma basename_discover (walk : list (str * list str)) :
  (forall root filelist f, In (root, filelist) walk -> In f filelist -> plain_name f) ->
  map OsPath.basename (discover walk) =
  flat_map (fun d => filter eligible (snd d)) walk.
Proof.
  intros Hp. rewrite discover_flat_map.
  induction walk as [|[root filelist] t IH]; [reflexivity|].
  simpl. rewrite map_app, IH.
  - f_equal. rewrite map_map.
    rewrite <- (map_id (filter eligible filelist)) at 2.
    apply map_ext_in. intros f Hf. apply filter_In in Hf.
    apply basename_path_join. apply (Hp root filelist f); [left; reflexivity | tauto].
  - intros r fl f Hw Hf. apply (Hp r fl f); [right; exact Hw | exact Hf].
Qed.

Lemma file_names_from_basenames (files : list str) (r : Row) :
  In r (flat_map rec_of files) ->
  exists file, In file files /\ file_name r = OsPath.basename file.
Proof.
  intros H. apply in_flat_map in H. destruct H as [file [Hf Hr]].
  exists file. split; [exact Hf|]. unfold record_of in Hr.
  destruct (analyze (read file)) as [e|[a|]]; try destruct Hr as [<-|[]]; try destruct Hr.
  reflexivity.
Qed.

Lemma run_files_report (files : list str) (df : list Row) (summary : Summary) :
  run_files files = Return (Report df summary) ->
  df = flat_map rec_of files /\ summary = summarize df /\ df <> [] /\ files <> [].
Proof.
  unfold analyze_files. intros H.
  destruct files as [|f t] eqn:Ef; [discriminate|]. rewrite <- Ef in *.
  assert (Hne : files <> []) by congruence.
  replace (py_not files) with false in H by (rewrite Ef; reflexivity).
  rewrite (loop_appends sent_tokenize word_tokenize lower flesch_reading_ease
             read_txt docx_paragraphs files []) in H.
  simpl in H.
  destruct (flat_map rec_of files) as [|r rs] eqn:Er; [discriminate|].
  simpl in H. injection H as <- <-. repeat split; congruence.
Qed.

(** X6: when the walk lists plain names, as [os.walk] does, the name
    recorded for a file (檔案名稱) is the name under which its directory
    lists it: the base name of a joined path is the name that was
    joined.  So every row of a report is named after a listed file with
    a supported extension. *)
Theorem report_names_are_listed_names
    (walk : list (str * list str)) (df : list Row) (summary : Summary) :
  (forall root filelist f, In (root, filelist) walk -> In f filelist -> plain_name f) ->
  run_folder walk = Return (Report df summary) ->
  map OsPath.basename (discover walk) =
    flat_map (fun d => filter eligible (snd d)) walk /\
  forall r, In r df ->
    exists root filelist,
      In (root, filelist) walk /\ In (file_name r) filelist /\
      eligible (file_name r) = true.
Proof.
  intros Hp H. split; [apply basename_discover, Hp|].
  apply run_files_report in H. destruct H as [-> _].
  intros r Hr. apply file_names_from_basenames in Hr.
  destruct Hr as [file [Hf ->]]. apply in_discover in Hf.
  destruct Hf as [root [filelist [f [Hw [Hf [He ->]]]]]].
  exists root, filelist. rewrite (basename_path_join root f (Hp root filelist f Hw Hf)).
  auto.
Qed.

End DiscoveryFacts.

Lemma discovered_files_are_read_witness :
  read_file_content sample_read_txt sample_docx_paragraphs SAMPLE_FILE_A
  = SAMPLE_REPETITIVE.
Proof.
  destruct (discovered_files_are_read sample_read_txt sample_docx_paragraphs
              SAMPLE_WALK SAMPLE_FILE_A) as [[_ [_ H]] | [H _]].
  - vm_compute. left. reflexivity.
  - rewrite H. reflexivity.
  - vm_compute in H. discriminate H.
Defined.

Lemma sample_walk_plain :
  forall root filelist f, In (root, filelist) SAMPLE_WALK -> In f filelist -> plain_name f.
Proof.
  intros root filelist f [E|[]] Hf. injection E as <- <-.
  unfold plain_name.
  repeat (destruct Hf as [<-|Hf];
          [vm_compute; intros H; repeat (destruct H as [H|H]; [discriminate H|]);
           exact H|]).
  destruct Hf.
Qed.

Lemma report_names_are_listed_names_witness :
  map OsPath.basename (discover SAMPLE_WALK) = [lit "A.txt"; lit "B.txt"; lit "C.txt"].
Proof.
  destruct (sample_folder_report) as [df [summary [H _]]].
  destruct (report_names_are_listed_names Toy.sentences Toy.words Toy.lower
              Toy.no_readability sample_read_txt sample_docx_paragraphs
              SAMPLE_WALK df summary sample_walk_plain H) as [E _].
  rewrite E. vm_compute. reflexivity.
Defined.

(* ================================================================== *)
(** ** The counts of the summary *)

Section SummaryCounts.

Local Open Scope Z_scope.

Variable sent_tokenize : str -> list str.
Variable word_tokenize : str -> list str.
Variable lower : str -> str.
Variable flesch_reading_ease : str -> float.
Variable read_txt : str -> str.
Variable docx_paragraphs : str -> list str.

Local Abbreviation run_files :=
  (analyze_files sent_tokenize word_tokenize lower flesch_reading_ease
     read_txt docx_paragraphs).
Local Abbreviation rec_of :=
  (record_of sent_tokenize word_tokenize lower flesch_reading_ease
     read_txt docx_paragraphs).
Local Abbreviation has_rec :=
  (analyzable sent_tokenize word_tokenize lower flesch_reading_ease
     read_txt docx_paragraphs).

(** Each label of the scorer passes exactly one of the three tests of
    the summary. *)
Lemma one_test_per_label (s : float) :
  let l := label_of s in
  (if str_eqb l LABEL_AI then 1 else 0) +
  (if contains l FRAGMENT_AMBIGUOUS then 1 else 0) +
  (if str_eqb l LABEL_HUMAN then 1 else 0) = 1.
Proof.
  cbv zeta. destruct (label_of_cases s) as [-> | [-> | ->]]; vm_compute; reflexivity.
Qed.

Lemma len_filter_cons {A : Type} (f : A -> bool) (a : A) (l : list A) :
  len (filter f (a :: l)) = (if f a then 1 else 0) + len (filter f l).
Proof. cbn [filter]. destruct (f a); unfold len; cbn [List.length]; lia. Qed.

Lemma label_counts_add_up (df : list Row) :
  Forall labelled_by_scorer df ->
  let s := summarize df in
  high_ai_count s + ambiguous_count s + human_count s = total_documents s.
Proof.
  intros H. cbv zeta. unfold summarize. cbn.
  rewrite !count_true_filter.
  induction H as [|r df Hr Hdf IH]; [reflexivity|].
  cbn [map]. rewrite !len_filter_cons.
  unfold labelled_by_scorer in Hr. rewrite Hr.
  pose proof (one_test_per_label (a_ai_score (analysis r))) as H1. cbv zeta in H1.
  replace (len (r :: df)) with (1 + len df) by (unfold len; cbn [List.length]; lia).
  lia.
Qed.

Lemma len_records (files : list str) :
  len (flat_map rec_of files) = len (filter has_rec files).
Proof.
  pose proof (names_of_records sent_tokenize word_tokenize lower flesch_reading_ease
                read_txt docx_paragraphs files) as H.
  apply (f_equal (@List.length _)) in H. rewrite !length_map in H.
  unfold len. congruence.
Qed.

(** X7: in every report the three label counts of the summary add up to
    the number of analysed documents, which is the number of discovered
    files that have analysable content: at least one, and at most the
    number of discovered files. *)
Theorem report_counts_add_up (files : list str) (df : list Row) (summary : Summary) :
  run_files files = Return (Report df summary) ->
  high_ai_count summary + ambiguous_count summary + human_count summary
    = total_documents summary /\
  total_documents summary = len (filter has_rec files) /\
  1 <= total_documents summary <= len files.
Proof.
  intros H.
  destruct (report_rows_labelled _ _ _ _ _ _ _ _ _ H) as [Hne [Hl ->]].
  split; [apply label_counts_add_up, Hl|].
  assert (E : df = flat_map rec_of files).
  { unfold analyze_files in H.
    destruct (py_not files); [discriminate|].
    rewrite (loop_appends sent_tokenize word_tokenize lower flesch_reading_ease
               read_txt docx_paragraphs files []) in H.
    simpl in H. destruct (py_not (flat_map rec_of files)); [discriminate|].
    injection H as <- _. reflexivity. }
  assert (T : total_documents (summarize df) = len (filter has_rec files)).
  { unfold summarize. cbn. rewrite E. apply len_records. }
  split; [exact T|]. rewrite T. split.
  - rewrite <- len_records, <- E. destruct df; [congruence|].
    unfold len. cbn [List.length]. lia.
  - unfold len. apply inj_le, filter_length_le.
Qed.

End SummaryCounts.

Lemma report_counts_add_up_witness :
  let files := [SAMPLE_FILE_A; SAMPLE_FILE_B; SAMPLE_FILE_C] in
  let df :=
    flat_map (record_of Toy.sentences Toy.words Toy.lower Toy.no_readability
                sample_read_txt sample_docx_paragraphs) files in
  let summary := summarize df in
  (high_ai_count summary + ambiguous_count summary + human_count summary
   = total_documents summary)%Z /\
  total_documents summary = 2%Z.
Proof.
  cbv zeta.
  destruct (report_counts_add_up Toy.sentences Toy.words Toy.lower
              Toy.no_readability sample_read_txt sample_docx_paragraphs
              [SAMPLE_FILE_A; SAMPLE_FILE_B; SAMPLE_FILE_C]
              (flat_map (record_of Toy.sentences Toy.words Toy.lower Toy.no_readability
                           sample_read_txt sample_docx_paragraphs)
                 [SAMPLE_FILE_A; SAMPLE_FILE_B; SAMPLE_FILE_C])
              (summarize
                 (flat_map (record_of Toy.sentences Toy.words Toy.lower
                              Toy.no_readability sample_read_txt sample_docx_paragraphs)
                    [SAMPLE_FILE_A; SAMPLE_FILE_B; SAMPLE_FILE_C])))
    as [H1 [H2 _]].
  - vm_compute. reflexivity.
  - split; [exact H1|]. rewrite H2. vm_compute. reflexivity.
Defined.

(* ================================================================== *)
(** ** The font setting *)

Section FontFacts.

Import Fonts.

Lemma str_eqb_eq (a b : str) : str_eqb a b = true <-> a = b.
Proof.
  unfold str_eqb. destruct (list_eq_dec N.eq_dec a b); split; congruence.
Qed.

Lemma str_eqb_neq (a b : str) : str_eqb a b = false <-> a <> b.
Proof.
  unfold str_eqb. destruct (list_eq_dec N.eq_dec a b); split; congruence.
Qed.

Lemma py_in_iff (x : str) (l : list str) : py_in x l = true <-> In x l.
Proof.
  unfold py_in. rewrite existsb_exists. split.
  - intros [y [Hy E]]. apply str_eqb_eq in E. subst y. exact Hy.
  - intros H. exists x. split; [exact H | apply str_eqb_eq; reflexivity].
Qed.

Lemma py_in_ext (x : str) (l l' : list str) :
  (forall n, In n l <-> In n l') -> py_in x l = py_in x l'.
Proof.
  intros H. destruct (py_in x l) eqn:E, (py_in x l') eqn:E'; try reflexivity.
  - apply py_in_iff, H, py_in_iff in E. congruence.
  - apply py_in_iff, H, py_in_iff in E'. congruence.
Qed.

Lemma rc_get_set_same (rc : rc_params) (k : str) (v : rc_value) :
  rc_get (rc_set rc k v) k = Some v.
Proof.
  induction rc as [|[k' v'] rest IH]; cbn [rc_set rc_get].
  - replace (str_eqb k k) with true by (symmetry; apply str_eqb_eq; reflexivity).
    reflexivity.
  - destruct (str_eqb k' k) eqn:E; cbn [rc_get]; rewrite E; [reflexivity | exact IH].
Qed.

Lemma rc_get_set_other (rc : rc_params) (k k0 : str) (v : rc_value) :
  k0 <> k -> rc_get (rc_set rc k v) k0 = rc_get rc k0.
Proof.
  intros Hne. induction rc as [|[k' v'] rest IH]; cbn [rc_set rc_get].
  - replace (str_eqb k k0) with false
      by (symmetry; apply str_eqb_neq; congruence). reflexivity.
  - destruct (str_eqb k' k) eqn:E; cbn [rc_get].
    + apply str_eqb_eq in E. subst k'.
      replace (str_eqb k k0) with false
        by (symmetry; apply str_eqb_neq; congruence). reflexivity.
    + rewrite IH. reflexivity.
Qed.

Lemma rc_set_same (rc : rc_params) (k : str) (v : rc_value) :
  rc_get rc k = Some v -> rc_set rc k v = rc.
Proof.
  induction rc as [|[k' v'] rest IH]; cbn [rc_set rc_get]; intros H; [discriminate|].
  destruct (str_eqb k' k); [congruence | rewrite IH by exact H; reflexivity].
Qed.

(** X8: whatever fonts are installed and whatever the settings were,
    [set_chinese_font] leaves exactly one sans-serif family, the first
    installed one of Microsoft JhengHei and SimHei and otherwise Arial
    Unicode MS, which is then set without being looked for; it turns
    [axes.unicode_minus] off and changes no other setting.  The result
    depends only on which families are installed, not on their order,
    and setting twice is setting once. *)
Theorem font_setting (ttflist : list FontEntry) (rcParams : rc_params) :
  let installed := map name ttflist in
  let rc := set_chinese_font ttflist rcParams in
  (exists family,
     rc_get rc FONT_SANS_SERIF = Some (RcFamilies [family]) /\
     ((family = MICROSOFT_JHENGHEI /\ In MICROSOFT_JHENGHEI installed) \/
      (family = SIMHEI /\ ~ In MICROSOFT_JHENGHEI installed /\ In SIMHEI installed) \/
      (family = ARIAL_UNICODE_MS /\ ~ In MICROSOFT_JHENGHEI installed /\
       ~ In SIMHEI installed))) /\
  rc_get rc AXES_UNICODE_MINUS = Some (RcBool false) /\
  (forall k, k <> FONT_SANS_SERIF -> k <> AXES_UNICODE_MINUS ->
     rc_get rc k = rc_get rcParams k) /\
  (forall ttflist',
     (forall n, In n installed <-> In n (map name ttflist')) ->
     set_chinese_font ttflist' rcParams = rc) /\
  set_chinese_font ttflist rc = rc.
Proof.
  cbv zeta. unfold set_chinese_font.
  assert (Hk : FONT_SANS_SERIF <> AXES_UNICODE_MINUS) by discriminate.
  set (v := if py_in MICROSOFT_JHENGHEI (map name ttflist)
            then RcFamilies [MICROSOFT_JHENGHEI]
            else if py_in SIMHEI (map name ttflist) then RcFamilies [SIMHEI]
            else RcFamilies [ARIAL_UNICODE_MS]).
  assert (E : (if py_in MICROSOFT_JHENGHEI (map name ttflist)
               then rc_set rcParams FONT_SANS_SERIF (RcFamilies [MICROSOFT_JHENGHEI])
               else if py_in SIMHEI (map name ttflist)
                    then rc_set rcParams FONT_SANS_SERIF (RcFamilies [SIMHEI])
                    else rc_set rcParams FONT_SANS_SERIF (RcFamilies [ARIAL_UNICODE_MS]))
              = rc_set rcParams FONT_SANS_SERIF v).
  { unfold v. destruct (py_in MICROSOFT_JHENGHEI (map name ttflist));
      [|destruct (py_in SIMHEI (map name ttflist))]; reflexivity. }
  rewrite E.
  assert (G1 : rc_get (rc_set (rc_set rcParams FONT_SANS_SERIF v)
                         AXES_UNICODE_MINUS (RcBool false)) FONT_SANS_SERIF = Some v).
  { rewrite rc_get_set_other by exact Hk. apply rc_get_set_same. }
  split; [|split; [|split; [|split]]].
  - unfold v in *.
    destruct (py_in MICROSOFT_JHENGHEI (map name ttflist)) eqn:E1;
      [|destruct (py_in SIMHEI (map name ttflist)) eqn:E2].
    + exists MICROSOFT_JHENGHEI. split; [exact G1|]. left.
      split; [reflexivity | apply py_in_iff, E1].
    + exists SIMHEI. split; [exact G1|]. right; left.
      split; [reflexivity|]. split; [|apply py_in_iff, E2].
      intros H. apply py_in_iff in H. congruence.
    + exists ARIAL_UNICODE_MS. split; [exact G1|]. right; right.
      split; [reflexivity|].
      split; intros H; apply py_in_iff in H; congruence.
  - apply rc_get_set_same.
  - intros k H1 H2. rewrite !rc_get_set_other by assumption. reflexivity.
  - intros ttflist' H.
    rewrite <- (py_in_ext MICROSOFT_JHENGHEI _ _ H), <- (py_in_ext SIMHEI _ _ H).
    rewrite E. reflexivity.
  - assert (E' : (if py_in MICROSOFT_JHENGHEI (map name ttflist)
               then rc_set (rc_set (rc_set rcParams FONT_SANS_SERIF v)
                              AXES_UNICODE_MINUS (RcBool false))
                      FONT_SANS_SERIF (RcFamilies [MICROSOFT_JHENGHEI])
               else if py_in SIMHEI (map name ttflist)
                    then rc_set (rc_set (rc_set rcParams FONT_SANS_SERIF v)
                              AXES_UNICODE_MINUS (RcBool false))
                           FONT_SANS_SERIF (RcFamilies [SIMHEI])
                    else rc_set (rc_set (rc_set rcParams FONT_SANS_SERIF v)
                              AXES_UNICODE_MINUS (RcBool false))
                           FONT_SANS_SERIF (RcFamilies [ARIAL_UNICODE_MS]))
              = rc_set (rc_set (rc_set rcParams FONT_SANS_SERIF v)
                              AXES_UNICODE_MINUS (RcBool false)) FONT_SANS_SERIF v).
    { unfold v. destruct (py_in MICROSOFT_JHENGHEI (map name ttflist));
        [|destruct (py_in SIMHEI (map name ttflist))]; reflexivity. }
    rewrite E'. rewrite (rc_set_same _ FONT_SANS_SERIF v G1).
    apply rc_set_same, rc_get_set_same.
Qed.

End FontFacts.

(* ================================================================== *)
(** ** What a run shows, writes and opens *)

Section ProgramFacts.

Import Ui.

Variable sent_tokenize : str -> list str.
Variable word_tokenize : str -> list str.
Variable lower : str -> str.
Variable flesch_reading_ease : str -> float.
Variable read_txt : str -> str.
Variable docx_paragraphs : str -> list str.
Variable os_walk : str -> list (str * list str).

Local Abbreviation rec_of :=
  (record_of sent_tokenize word_tokenize lower flesch_reading_ease
     read_txt docx_paragraphs).
Local Abbreviation read_loop :=
  (read_and_analyze sent_tokenize word_tokenize lower flesch_reading_ease
     read_txt docx_paragraphs).
Local Abbreviation folder_run :=
  (analyze_folder_run sent_tokenize word_tokenize lower flesch_reading_ease
     read_txt docx_paragraphs os_walk).
Local Abbreviation gui :=
  (main_gui sent_tokenize word_tokenize lower flesch_reading_ease
     read_txt docx_paragraphs os_walk).

(** The loop over the files stops at the first file on which reading
    or analysing raises; without one it collects the records of all. *)
Lemma read_loop_cases (w : World) (files : list str) (results : list Row) :
  read_loop w files results =
  match find (file_raises w) files with
  | Some file => inr (File_failed file)
  | None => inl (results ++ flat_map rec_of files)
  end.
Proof.
  revert results. induction files as [|f files IH]; intros results.
  - cbn. rewrite app_nil_r. reflexivity.
  - cbn [read_and_analyze find]. destruct (file_raises w f); [reflexivity|].
    rewrite (body_appends sent_tokenize word_tokenize lower flesch_reading_ease
               read_txt docx_paragraphs results f).
    rewrite IH. destruct (find (file_raises w) files); [reflexivity|].
    cbn [flat_map]. rewrite app_assoc. reflexivity.
Qed.

Lemma open_output_folder_cases (w : World) (output_path : str) :
  let opened := open_output_folder w output_path in
  forallb (fun e => negb (is_destroy e)) opened = true /\
  existsb is_done_box opened = false /\
  (opened = [] <-> os_name w <> lit "nt" /\ os_name w <> lit "posix") /\
  (forall m, In (Print m) opened <->
     exists e, opening_raises w = Some e /\ m = CANNOT_OPEN ++ e /\
               (os_name w = lit "nt" \/ os_name w = lit "posix")).
Proof.
  cbv zeta. unfold open_output_folder.
  destruct (str_eqb (os_name w) (lit "nt")) eqn:E1;
    [|destruct (str_eqb (os_name w) (lit "posix")) eqn:E2].
  - apply str_eqb_eq in E1.
    destruct (opening_raises w) as [e|];
      (split; [reflexivity|]); (split; [reflexivity|]); split.
    + split; [discriminate | intros [H _]; congruence].
    + intros m. split.
      * intros [H|[H|[]]]; [discriminate|]. injection H as <-. exists e. auto.
      * intros [e' [He' [-> _]]]. injection He' as <-. right; left; reflexivity.
    + split; [discriminate | intros [H _]; congruence].
    + intros m. split.
      * intros [H|[]]. discriminate.
      * intros [e' [He' _]]. discriminate.
  - apply str_eqb_eq in E2.
    destruct (opening_raises w) as [e|];
      (split; [reflexivity|]); (split; [reflexivity|]); split.
    + split; [discriminate | intros [_ H]; congruence].
    + intros m. split.
      * intros [H|[H|[]]]; [discriminate|]. injection H as <-. exists e. auto.
      * intros [e' [He' [-> _]]]. injection He' as <-. right; left; reflexivity.
    + split; [discriminate | intros [_ H]; congruence].
    + intros m. split.
      * intros [H|[]]. discriminate.
      * intros [e' [He' _]]. discriminate.
  - apply str_eqb_neq in E1. apply str_eqb_neq in E2.
    split; [reflexivity|]. split; [reflexivity|]. split.
    + tauto.
    + intros m. split; [intros [] | intros [e [_ [_ [H|H]]]]; congruence].
Qed.

Lemma filter_destroy_none (events : list event) :
  forallb (fun e => negb (is_destroy e)) events = true -> filter is_destroy events = [].
Proof.
  induction events as [|e t IH]; cbn [forallb filter]; intros H; [reflexivity|].
  apply andb_true_iff in H. destruct H as [H1 H2].
  destruct (is_destroy e); [discriminate | auto].
Qed.

(** What rendering a report does, by what fails. *)
Lemma render_report_cases (w : World) (output_path : str)
    (df : list Row) (summary : Summary) :
  let r := render_report w output_path df summary in
  forallb (fun e => negb (is_destroy e)) (calls r) = true /\
  (raised r =
     if workbook_raises w then Some Workbook_failed
     else if chart_raises w then Some Chart_failed else None) /\
  existsb is_done_box (calls r) = negb (workbook_raises w || chart_raises w) /\
  existsb is_to_excel (calls r) = negb (workbook_raises w) /\
  existsb writes_or_opens (calls r) = negb (workbook_raises w).
Proof.
  cbv zeta. unfold render_report.
  destruct (open_output_folder_cases w output_path) as (Hd & Hb & _).
  destruct (workbook_raises w); [repeat split|].
  destruct (chart_raises w); [repeat split|].
  cbn [calls raised orb negb].
  split; [|split; [reflexivity|split; [|split]]].
  - cbn [app forallb is_destroy negb andb]. rewrite forallb_app, Hd. reflexivity.
  - cbn [app existsb is_done_box orb]. rewrite existsb_app, Hb.
    cbn [existsb is_done_box orb]. reflexivity.
  - reflexivity.
  - reflexivity.
Qed.

(** What [analyze_folder] does, by what fails and what the folder holds. *)
Lemma folder_run_cases (w : World) (folder_path output_path : str) :
  let r := folder_run w folder_path output_path in
  let files := discover (os_walk folder_path) in
  forallb (fun e => negb (is_destroy e)) (calls r) = true /\
  (raised r =
     match find (file_raises w) files with
     | Some file => Some (File_failed file)
     | None =>
         if py_not (flat_map rec_of files) then None
         else if workbook_raises w then Some Workbook_failed
         else if chart_raises w then Some Chart_failed else None
     end) /\
  (existsb is_done_box (calls r) = true <->
     raised r = None /\ flat_map rec_of files <> []) /\
  (raised r = Some Chart_failed -> existsb is_to_excel (calls r) = true) /\
  (existsb writes_or_opens (calls r) = true ->
     find (file_raises w) files = None /\ flat_map rec_of files <> []).
Proof.
  cbv zeta. unfold analyze_folder_run.
  destruct (discover (os_walk folder_path)) as [|f files] eqn:Ef.
  { cbn [py_not calls raised find flat_map].
    repeat split; try reflexivity; try discriminate;
      intros [_ H]; congruence. }
  rewrite <- Ef. replace (py_not (discover (os_walk folder_path))) with false
    by (rewrite Ef; reflexivity).
  rewrite read_loop_cases.
  destruct (find (file_raises w) (discover (os_walk folder_path))) as [file|].
  { cbn [calls raised]. repeat split; try reflexivity; try discriminate;
      intros [H _]; discriminate H. }
  cbn [app].
  destruct (flat_map rec_of (discover (os_walk folder_path))) as [|row rows] eqn:Er.
  { cbn [py_not calls raised]. repeat split; try reflexivity; try discriminate.
    intros [_ H]. congruence. }
  cbn [py_not].
  destruct (render_report_cases w output_path (row :: rows) (summarize (row :: rows)))
    as (Hd & Hr & Hb & Hx & Hw).
  split; [exact Hd|]. split; [exact Hr|]. split; [|split].
  - rewrite Hb, Hr. destruct (workbook_raises w); [|destruct (chart_raises w)];
      cbn [orb negb].
    + split; [discriminate | intros [H _]; discriminate H].
    + split; [discriminate | intros [H _]; discriminate H].
    + split; [intros _; split; [reflexivity | discriminate] | reflexivity].
  - rewrite Hr, Hx. destruct (workbook_raises w); [discriminate | reflexivity].
  - intros _. split; [reflexivity | discriminate].
Qed.

(** X10: [main_gui] destroys the Tk root exactly once, as its last
    call, in every run that returns; nothing catches an exception of
    [analyze_folder], so in a run that ends with one the root is never
    destroyed, and no completion box is shown.  Such a run needs both
    dialogs answered: it ends at the first file on which reading or
    analysing raises, or, for a folder with analysable content, at the
    workbook or at the chart, the workbook being written already when
    the chart fails.  When the first dialog is cancelled the second is
    never shown; when either is cancelled nothing is written or opened;
    the completion box is shown exactly when both are answered, the run
    returns and the folder has analysable content. *)
Theorem main_gui_flow (w : World) :
  let r := gui w in
  let files := discover (os_walk (chosen_folder w)) in
  let answered := chosen_folder w <> [] /\ chosen_output w <> [] in
  (raised r = None ->
     filter is_destroy (calls r) = [Destroy] /\ last (calls r) Tk_root = Destroy) /\
  (forall f, raised r = Some f ->
     answered /\ filter is_destroy (calls r) = [] /\
     existsb is_done_box (calls r) = false) /\
  (forall f, raised r = Some f <->
     answered /\
     match find (file_raises w) files with
     | Some file => f = File_failed file
     | None =>
         flat_map rec_of files <> [] /\
         if workbook_raises w then f = Workbook_failed
         else chart_raises w = true /\ f = Chart_failed
     end) /\
  (chosen_folder w = [] ->
     filter (is_askdirectory ASK_OUTPUT) (calls r) = [] /\
     existsb writes_or_opens (calls r) = false) /\
  (chosen_output w = [] -> existsb writes_or_opens (calls r) = false) /\
  (existsb is_done_box (calls r) = true <->
     answered /\ raised r = None /\ flat_map rec_of files <> []) /\
  (raised r = Some Chart_failed -> existsb is_to_excel (calls r) = true) /\
  (existsb writes_or_opens (calls r) = true ->
     answered /\ find (file_raises w) files = None /\ flat_map rec_of files <> []).
Proof.
  cbv zeta. unfold main_gui.
  destruct (chosen_folder w) as [|c t] eqn:Ef.
  { cbn [py_not app calls raised].
    split; [intros _; split; reflexivity|].
    split; [discriminate|].
    split; [intros f; split; [discriminate | intros [[H _] _]; congruence]|].
    split; [intros _; split; reflexivity|].
    split; [intros _; reflexivity|].
    split; [split; [discriminate | intros [[H _] _]; congruence]|].
    split; discriminate. }
  cbn [py_not]. destruct (chosen_output w) as [|c' t'] eqn:Eo.
  { cbn [py_not app calls raised].
    split; [intros _; split; reflexivity|].
    split; [discriminate|].
    split; [intros f; split; [discriminate | intros [[_ H] _]; congruence]|].
    split; [discriminate|].
    split; [intros _; reflexivity|].
    split; [split; [discriminate | intros [[_ H] _]; congruence]|].
    split; discriminate. }
  cbn [py_not].
  destruct (folder_run_cases w (c :: t) (c' :: t')) as (Hd & Hr & Hb & Hx & Hw).
  set (run := folder_run w (c :: t) (c' :: t')) in *.
  set (files := discover (os_walk (c :: t))) in *.
  assert (Hans : (c :: t) <> [] /\ (c' :: t') <> []) by (split; discriminate).
  assert (Hwhich : forall f, raised run = Some f <->
            match find (file_raises w) files with
            | Some file => f = File_failed file
            | None =>
                flat_map rec_of files <> [] /\
                if workbook_raises w then f = Workbook_failed
                else chart_raises w = true /\ f = Chart_failed
            end).
  { intros f. rewrite Hr. destruct (find (file_raises w) files) as [file|].
    - split; [intros H; injection H as <-; reflexivity | intros ->; reflexivity].
    - destruct (flat_map rec_of files) as [|row rows]; cbn [py_not].
      + split; [discriminate | intros [H _]; congruence].
      + destruct (workbook_raises w); [|destruct (chart_raises w)].
        * split; [intros H; injection H as <-; split; [discriminate | reflexivity]
                 | intros [_ ->]; reflexivity].
        * split; [intros H; injection H as <-; split; [discriminate | split; reflexivity]
                 | intros [_ [_ ->]]; reflexivity].
        * split; [discriminate | intros [_ [H _]]; discriminate]. }
  destruct (raised run) as [f0|] eqn:Erun; cbn [calls raised app].
  - split; [discriminate|].
    split; [intros f _; split; [exact Hans|]; split|].
    + cbn [filter is_destroy]. apply filter_destroy_none, Hd.
    + cbn [existsb is_done_box orb].
      destruct (existsb is_done_box (calls run)) eqn:E; [|reflexivity].
      destruct (proj1 Hb eq_refl) as [H _]. discriminate.
    + split; [intros f; rewrite <- Hwhich; tauto|].
      split; [discriminate|]. split; [discriminate|].
      split; [|split].
      * cbn [existsb is_done_box orb].
        split; [intros H; destruct (proj1 Hb H) as [H' _]; discriminate
               | intros [_ [H _]]; discriminate].
      * intros H. cbn [existsb is_to_excel orb]. apply Hx. exact H.
      * cbn [existsb writes_or_opens orb]. intros H.
        split; [exact Hans | apply Hw, H].
  - split; [intros _; split|].
    + cbn [filter is_destroy]. rewrite filter_app, (filter_destroy_none _ Hd).
      reflexivity.
    + change (last (Tk_root :: Withdraw :: Showinfo TITLE_APP MSG_INTRO
                      :: Askdirectory ASK_FOLDER (c :: t)
                      :: Askdirectory ASK_OUTPUT (c' :: t') :: calls run ++ [Destroy])
                Tk_root)
        with (last ([Tk_root; Withdraw; Showinfo TITLE_APP MSG_INTRO;
                     Askdirectory ASK_FOLDER (c :: t);
                     Askdirectory ASK_OUTPUT (c' :: t')] ++ calls run ++ [Destroy])
                Tk_root).
      rewrite app_assoc. apply last_last.
    + split; [discriminate|].
      split; [intros f; rewrite <- Hwhich; split; [discriminate | intros [_ H]; discriminate]|].
      split; [discriminate|]. split; [discriminate|].
      split; [|split].
      * cbn [existsb is_done_box orb]. rewrite existsb_app.
        cbn [existsb is_done_box orb]. rewrite orb_false_r.
        rewrite Hb. tauto.
      * discriminate.
      * cbn [existsb writes_or_opens orb]. rewrite existsb_app.
        cbn [existsb writes_or_opens orb]. rewrite orb_false_r. intros H.
        split; [exact Hans | apply Hw, H].
Qed.

End ProgramFacts.

Example sample_font_setting :
  Fonts.set_chinese_font Fonts.SAMPLE_FONTS Fonts.SAMPLE_RC =
    [ (lit "font.family", Fonts.RcFamilies [lit "sans-serif"]);
      (Fonts.FONT_SANS_SERIF, Fonts.RcFamilies [Fonts.MICROSOFT_JHENGHEI]);
      (Fonts.AXES_UNICODE_MINUS, Fonts.RcBool false);
      (lit "figure.dpi", Fonts.RcOther (lit "100.0")) ] /\
  Fonts.rc_get (Fonts.set_chinese_font Fonts.SAMPLE_FONTS_LATIN Fonts.SAMPLE_RC)
    Fonts.FONT_SANS_SERIF = Some (Fonts.RcFamilies [Fonts.ARIAL_UNICODE_MS]).
Proof. split; vm_compute; reflexivity. Qed.

Example sample_cancelled_run :
  main_gui Toy.sentences Toy.words Toy.lower Toy.no_readability
    sample_read_txt sample_docx_paragraphs sample_os_walk SAMPLE_WORLD_CANCEL =
  {| Ui.calls :=
       [Ui.Tk_root; Ui.Withdraw; Ui.Showinfo Ui.TITLE_APP Ui.MSG_INTRO;
        Ui.Askdirectory Ui.ASK_FOLDER (lit "corpus");
        Ui.Askdirectory Ui.ASK_OUTPUT [];
        Ui.Showinfo Ui.TITLE_HINT Ui.MSG_NO_OUTPUT; Ui.Destroy];
     Ui.raised := None |}.
Proof. vm_compute. reflexivity. Qed.

(** A chart that cannot be drawn: the workbook is written, the
    exception leaves [main_gui], and the root is not destroyed. *)
Example sample_failed_chart :
  let r := main_gui Toy.sentences Toy.words Toy.lower Toy.no_readability
             sample_read_txt sample_docx_paragraphs sample_os_walk
             SAMPLE_WORLD_NO_CHART in
  Ui.raised r = Some Ui.Chart_failed /\
  existsb Ui.is_to_excel (Ui.calls r) = true /\
  filter Ui.is_destroy (Ui.calls r) = [].
Proof. vm_compute. repeat split. Qed.

(** A run that returns: the folder cannot be opened, which is printed,
    and the completion box closes the report. *)
Example sample_full_run :
  let r := main_gui Toy.sentences Toy.words Toy.lower Toy.no_readability
             sample_read_txt sample_docx_paragraphs sample_os_walk SAMPLE_WORLD in
  Ui.raised r = None /\
  In (Ui.Print (Ui.CANNOT_OPEN ++ lit "No such file or directory")) (Ui.calls r) /\
  existsb Ui.is_done_box (Ui.calls r) = true /\
  last (Ui.calls r) Ui.Tk_root = Ui.Destroy.
Proof.
  vm_compute. split; [reflexivity|]. split; [|split; reflexivity].
  do 8 right. left. reflexivity.
Qed.

(* ================================================================== *)
(** ** Division, correctly rounded *)

Module Quotient.

Import FloatKey Rnd RndQ Rounding FloatOrder.
Local Open Scope Z_scope.

Lemma located_iter_from (M P : Z) (mrs : shr_record) (n : nat) :
  0 < P -> located M P mrs ->
  located M (P * 2 ^ Z.of_nat n) (Nat.iter n shr_1 mrs).
Proof.
  intros HP H; induction n as [|n IH].
  - cbn [Nat.iter]. replace (P * 2 ^ Z.of_nat 0) with P by (cbn; lia). exact H.
  - rewrite Nat2Z.inj_succ, Z.pow_succ_r by lia; cbn [Nat.iter].
    replace (P * (2 * 2 ^ Z.of_nat n)) with (2 * (P * 2 ^ Z.of_nat n)) by ring.
    apply located_shr_1; [|exact IH].
    apply Z.mul_pos_pos; [exact HP | apply pow2_pos; lia].
Qed.

Lemma shr_located (M P : Z) (mrs : shr_record) (e n : Z) :
  0 < P -> located M P mrs -> 0 < n ->
  exists mrs',
    shr mrs e n = (mrs', e + n) /\ located M (P * 2 ^ n) mrs'.
Proof.
  intros HP H Hn; destruct n as [|p|p]; try lia.
  cbn [shr]; eexists; split; [reflexivity|].
  rewrite iter_pos_nat, <- (positive_nat_Z p). apply located_iter_from; assumption.
Qed.

(** The second normalisation of [binary_round_aux] only moves a carry. *)
Lemma second_stage (s : bool) (m1 e1 : Z) :
  0 <= m1 <= 2 ^ 53 -> -1074 <= e1 ->
  (let '(mrs'', e'') := shr_fexp prec emax m1 e1 loc_Exact in
   match shr_m mrs'' with
   | 0 => S754_zero s
   | Z.pos m => if e'' <=? emax - prec then S754_finite s m e'' else S754_infinity s
   | Z.neg _ => S754_nan
   end) = finish s (norm m1 e1).
Proof.
  intros Hb He1. unfold shr_fexp, norm. cbn [shr_record_of_loc].
  destruct (Z.eqb_spec m1 (2 ^ 53)) as [E | Hne].
  - rewrite E.
    replace (fexp prec emax (Zdigits2 (2 ^ 53) + e1) - e1) with 1
      by (rewrite fexp_eq; change (Zdigits2 (2 ^ 53)) with 54; lia).
    reflexivity.
  - destruct (Z.eq_dec m1 0) as [E0 | Hnz].
    + rewrite E0; rewrite shr_none by (rewrite fexp_eq; cbn [Zdigits2]; lia).
      reflexivity.
    + assert (Hm1 : 0 < m1) by lia.
      destruct (Zdigits2_bounds m1 Hm1) as (Hd1 & Hlo1 & _).
      assert (Hd53 : Zdigits2 m1 <= 53).
      { destruct (Z_le_gt_dec (Zdigits2 m1) 53) as [? | Hgt]; [assumption | exfalso].
        assert (2 ^ 53 <= 2 ^ (Zdigits2 m1 - 1)) by (apply Z.pow_le_mono_r; lia).
        lia. }
      rewrite shr_none by (rewrite fexp_eq; lia).
      reflexivity.
Qed.

Lemma floor_bounds (N D : Z) :
  0 < D -> 0 <= N ->
  0 <= N / D /\ N / D * D <= N < (N / D + 1) * D /\ N / D + 1 <= 2 ^ Zdigits2 (N / D).
Proof.
  intros HD HN.
  pose proof (Z.div_pos N D HN HD) as Hq.
  pose proof (Z.div_mod N D ltac:(lia)) as E.
  pose proof (Z.mod_pos_bound N D HD) as Hr.
  split; [exact Hq|]. split; [nia|].
  destruct (Z.eq_dec (N / D) 0) as [-> | Hne]; [cbn; lia|].
  destruct (Zdigits2_bounds (N / D)) as (_ & _ & Hhi); lia.
Qed.

Lemma rndq_bounds (N D e : Z) :
  0 < D -> 0 <= N -> input_okq N D e ->
  let e1 := fexp prec emax (Zdigits2 (N / D) + e) in
  0 <= Np.round_half_even N (D * 2 ^ (e1 - e)) <= 2 ^ 53.
Proof.
  intros HD HN Hok e1. unfold input_okq in Hok. fold e1 in Hok.
  destruct (floor_bounds N D HD HN) as (Hq & [Hlo Hhi] & Hdig).
  assert (HP : 0 < 2 ^ (e1 - e)) by (apply pow2_pos; lia).
  assert (HDP : 0 < D * 2 ^ (e1 - e)) by (apply Z.mul_pos_pos; assumption).
  split.
  - apply rhe_lower; [exact HDP | lia].
  - apply rhe_upper; [exact HDP|].
    assert (Hdq : 0 <= Zdigits2 (N / D)).
    { destruct (Z.eq_dec (N / D) 0) as [-> | Hne]; [cbn; lia|].
      destruct (Zdigits2_bounds (N / D)); lia. }
    assert (Hpow : 2 ^ Zdigits2 (N / D) <= 2 ^ 53 * 2 ^ (e1 - e)).
    { rewrite <- Z.pow_add_r by lia. apply Z.pow_le_mono_r; [lia|].
      subst e1. rewrite fexp_eq in *. lia. }
    assert (N < 2 ^ Zdigits2 (N / D) * D) by nia.
    nia.
Qed.

(** [binary_round_aux] on a quotient given by its integer part and the
    place of its remainder is [rndq]. *)
Theorem binary_round_aux_located (s : bool) (q e : Z) (l : location) (N D : Z) :
  0 < D -> 0 <= N -> located N D (shr_record_of_loc q l) -> input_okq N D e ->
  binary_round_aux prec emax s q e l = finish s (rndq N D e).
Proof.
  intros HD HN Hloc Hok.
  assert (Eq : q = N / D).
  { destruct Hloc as (rem & HM & Hrem & Hm & _).
    replace (shr_m (shr_record_of_loc q l)) with q in * by (destruct l as [|[]]; reflexivity).
    apply (Z.div_unique_pos N D q rem); lia. }
  pose proof (rndq_bounds N D e HD HN Hok) as Hb. cbv zeta in Hb.
  unfold binary_round_aux, rndq. unfold input_okq in Hok. rewrite <- Eq in *.
  set (e1 := fexp prec emax (Zdigits2 q + e)) in *.
  assert (He1 : -1074 <= e1) by (subst e1; rewrite fexp_eq; lia).
  unfold shr_fexp at 1. fold e1.
  destruct (Z.eq_dec e1 e) as [E | Hne].
  - rewrite shr_none by lia.
    rewrite (located_round N D _ HD Hloc).
    replace (e1 - e) with 0 in * by lia.
    replace (D * 2 ^ 0) with D in * by (cbn; lia).
    rewrite E in *. apply second_stage; assumption.
  - destruct (shr_located N D _ e (e1 - e) HD Hloc ltac:(lia)) as (mrs & -> & Hloc').
    rewrite (located_round N (D * 2 ^ (e1 - e)) mrs)
      by first [assumption | apply Z.mul_pos_pos; [lia | apply pow2_pos; lia]].
    replace (e + (e1 - e)) with e1 by lia.
    apply second_stage; assumption.
Qed.

(** *** The quotient of two floats *)

Lemma new_location_located (q m2 r : Z) :
  0 < m2 -> 0 <= q -> 0 <= r < m2 ->
  located (q * m2 + r) m2 (shr_record_of_loc q (new_location m2 r)).
Proof.
  intros Hm2 Hq Hr. exists r.
  assert (Hm : shr_m (shr_record_of_loc q (new_location m2 r)) = q)
    by (destruct (new_location m2 r) as [|[]]; reflexivity).
  rewrite Hm. split; [reflexivity|]. split; [exact Hr|]. split; [exact Hq|].
  unfold new_location, new_location_even, new_location_odd.
  destruct (Z.even m2) eqn:Ev.
  - destruct (Z.eqb_spec r 0) as [-> | Hnz]; cbn [shr_record_of_loc shr_r shr_s].
    + split; split; intros; try discriminate; lia.
    + destruct (Z.compare_spec (2 * r) m2); cbn [shr_record_of_loc shr_r shr_s];
        split; split; intros; try discriminate; try lia; try reflexivity.
  - assert (Hodd : forall k, m2 <> 2 * k).
    { intros k Ek. rewrite Ek, Z.even_mul in Ev. discriminate. }
    destruct (Z.eqb_spec r 0) as [-> | Hnz]; cbn [shr_record_of_loc shr_r shr_s].
    + split; split; intros; try discriminate; lia.
    + pose proof (Hodd r).
      destruct (Z.compare_spec (2 * r + 1) m2); cbn [shr_record_of_loc shr_r shr_s];
        split; split; intros; try discriminate; try lia; try reflexivity.
Qed.

Lemma div_core_spec (m1 e1 m2 e2 : Z) :
  0 < m1 -> 0 < m2 ->
  let e' := div_exponent m1 e1 m2 e2 in
  let N := div_dividend m1 e1 m2 e2 in
  SFdiv_core_binary prec emax m1 e1 m2 e2 = (N / m2, e', new_location m2 (N mod m2)) /\
  0 < N /\ e' <= e1 - e2 /\
  located N m2 (shr_record_of_loc (N / m2) (new_location m2 (N mod m2))).
Proof.
  intros Hm1 Hm2 e' N.
  assert (He' : e' <= e1 - e2) by (subst e'; unfold div_exponent; lia).
  assert (HN : 0 < N).
  { subst N. unfold div_dividend. fold e'. apply Z.mul_pos_pos; [lia|].
    apply pow2_pos. lia. }
  split; [|split; [exact HN | split; [exact He'|]]].
  - unfold SFdiv_core_binary. fold (div_exponent m1 e1 m2 e2). fold e'.
    assert (Em : match e1 - e2 - e' with
                 | 0 => m1
                 | Z.pos _ => Z.shiftl m1 (e1 - e2 - e')
                 | Z.neg _ => 0
                 end = N).
    { subst N. unfold div_dividend. fold e'.
      destruct (e1 - e2 - e') as [|p|p] eqn:Es; try lia.
      all: rewrite Z.shiftl_mul_pow2 by lia; reflexivity. }
    rewrite Em. unfold Z.div, Z.modulo. destruct (Z.div_eucl N m2). reflexivity.
  - pose proof (Z.div_mod N m2 ltac:(lia)) as E.
    pose proof (Z.mod_pos_bound N m2 Hm2) as Hr.
    pose proof (Z.div_pos N m2 ltac:(lia) Hm2) as Hq.
    replace N with (N / m2 * m2 + N mod m2) at 1 by lia.
    apply new_location_located; assumption.
Qed.

Lemma div_input_okq (m1 e1 m2 e2 : Z) :
  0 < m1 -> 0 < m2 ->
  input_okq (div_dividend m1 e1 m2 e2) m2 (div_exponent m1 e1 m2 e2).
Proof.
  intros Hm1 Hm2. unfold input_okq.
  set (e' := div_exponent m1 e1 m2 e2). set (N := div_dividend m1 e1 m2 e2).
  assert (He' : e' <= e1 - e2) by (subst e'; unfold div_exponent; lia).
  set (x := Zdigits2 m1 + e1 - (Zdigits2 m2 + e2)).
  assert (Hx : e' <= fexp prec emax x) by (subst e' x; unfold div_exponent; lia).
  destruct (Zdigits2_bounds m1 Hm1) as (Hd1 & Hlo1 & Hhi1).
  destruct (Zdigits2_bounds m2 Hm2) as (Hd2 & Hlo2 & Hhi2).
  set (s := e1 - e2 - e') in *.
  assert (Hs : 0 <= s) by (subst s; lia).
  assert (EN : N = m1 * 2 ^ s) by reflexivity.
  assert (Hps : 0 < 2 ^ s) by (apply pow2_pos; lia).
  assert (HN : 0 < N) by (rewrite EN; apply Z.mul_pos_pos; lia).
  destruct (floor_bounds N m2 Hm2 ltac:(lia)) as (Hq & [Hlo Hhi] & Hdig).
  (* the quotient has at least [d1 + s - d2] digits *)
  assert (Hmag : N < 2 ^ (Zdigits2 (N / m2) + Zdigits2 m2)).
  { rewrite Z.pow_add_r; [|destruct (Z.eq_dec (N / m2) 0) as [-> | Hne];
      [cbn; lia | destruct (Zdigits2_bounds (N / m2)); lia] | lia].
    assert (0 < 2 ^ Zdigits2 (N / m2)) by lia. nia. }
  assert (Hlow : 2 ^ (Zdigits2 m1 - 1 + s) <= N).
  { rewrite EN, Z.pow_add_r by lia. apply Z.mul_le_mono_nonneg_r; lia. }
  assert (Hd : Zdigits2 m1 - 1 + s < Zdigits2 (N / m2) + Zdigits2 m2).
  { apply (Z.pow_lt_mono_r_iff 2); [lia| |lia].
    destruct (Z.eq_dec (N / m2) 0) as [-> | Hne];
      [cbn; lia | destruct (Zdigits2_bounds (N / m2)); lia]. }
  assert (Hxle : x <= Zdigits2 (N / m2) + e') by (subst x s; lia).
  rewrite fexp_eq in *. lia.
Qed.

Theorem SFdiv_finite (sx : bool) (mx : positive) (ex : Z)
    (sy : bool) (my : positive) (ey : Z) :
  SF64div (S754_finite sx mx ex) (S754_finite sy my ey) =
  finish (xorb sx sy)
    (rndq (div_dividend (Z.pos mx) ex (Z.pos my) ey) (Z.pos my)
       (div_exponent (Z.pos mx) ex (Z.pos my) ey)).
Proof.
  unfold SF64div, SFdiv.
  destruct (div_core_spec (Z.pos mx) ex (Z.pos my) ey) as (-> & HN & He & Hloc);
    try lia.
  apply binary_round_aux_located; try lia; try assumption.
  apply div_input_okq; lia.
Qed.

(** *** Monotonicity *)

Lemma rndq_of_rnd (m e : Z) :
  0 < m -> input_ok m e -> rnd m e = rndq m 1 e /\ input_okq m 1 e.
Proof.
  intros Hm Hok. destruct (rnd_norm m e Hm Hok) as [-> _].
  unfold rndq, input_okq. rewrite Z.div_1_r, Z.mul_1_l. split; [reflexivity | exact Hok].
Qed.

Lemma Zdigits2_nonneg (q : Z) : 0 <= q -> 0 <= Zdigits2 q.
Proof.
  intros H. destruct (Z.eq_dec q 0) as [-> | Hne]; [cbn; lia|].
  destruct (Zdigits2_bounds q); lia.
Qed.

(** The exponent at which a quotient is rounded grows with the quotient. *)
Lemma rounding_exponent_mono (N D e N' D' e' K : Z) :
  0 < D -> 0 < D' -> 0 < N -> 0 < N' ->
  input_okq N D e -> input_okq N' D' e' ->
  0 <= e + K -> 0 <= e' + K ->
  N * D' * 2 ^ (e + K) <= N' * D * 2 ^ (e' + K) ->
  fexp prec emax (Zdigits2 (N / D) + e) <= fexp prec emax (Zdigits2 (N' / D') + e').
Proof.
  intros HD HD' HN HN' Hok Hok' He He' H. unfold input_okq in *.
  destruct (floor_bounds N D HD ltac:(lia)) as (Hq & [Hlo Hhi] & Hdig).
  destruct (floor_bounds N' D' HD' ltac:(lia)) as (Hq' & [Hlo' Hhi'] & Hdig').
  pose proof (Zdigits2_nonneg _ Hq) as Hdq.
  pose proof (Zdigits2_nonneg _ Hq') as Hdq'.
  pose proof (pow2_pos (e + K) He) as Ha.
  pose proof (pow2_pos (e' + K) He') as Ha'.
  destruct (Z.eq_dec (N / D) 0) as [E0 | Hne].
  - rewrite E0 in *. cbn [Zdigits2] in *. rewrite !fexp_eq in *. lia.
  - destruct (Zdigits2_bounds (N / D) ltac:(lia)) as (Hdpos & Hl & _).
    (* q * 2^(e+K) < 2^dq' * 2^(e'+K) *)
    assert (H1 : N / D * 2 ^ (e + K) < 2 ^ Zdigits2 (N' / D') * 2 ^ (e' + K)).
    { assert (N / D * D * D' * 2 ^ (e + K) <= N * D' * 2 ^ (e + K)).
      { apply Z.mul_le_mono_nonneg_r; [lia|]. apply Z.mul_le_mono_nonneg_r; lia. }
      assert (N' * D * 2 ^ (e' + K) < 2 ^ Zdigits2 (N' / D') * D' * D * 2 ^ (e' + K)).
      { apply Z.mul_lt_mono_pos_r; [lia|]. apply Z.mul_lt_mono_pos_r; [lia|]. nia. }
      assert (HDD : 0 < D * D') by nia.
      assert (N / D * 2 ^ (e + K) * (D * D') < 2 ^ Zdigits2 (N' / D') * 2 ^ (e' + K) * (D * D')).
      { replace (N / D * 2 ^ (e + K) * (D * D')) with (N / D * D * D' * 2 ^ (e + K)) by ring.
        replace (2 ^ Zdigits2 (N' / D') * 2 ^ (e' + K) * (D * D'))
          with (2 ^ Zdigits2 (N' / D') * D' * D * 2 ^ (e' + K)) by ring.
        lia. }
      apply (Z.mul_lt_mono_pos_r (D * D')); assumption. }
    assert (H2 : 2 ^ (Zdigits2 (N / D) - 1 + (e + K)) < 2 ^ (Zdigits2 (N' / D') + (e' + K))).
    { rewrite (Z.pow_add_r 2 (Zdigits2 (N / D) - 1) (e + K)) by lia.
      rewrite (Z.pow_add_r 2 (Zdigits2 (N' / D')) (e' + K)) by lia.
      assert (2 ^ (Zdigits2 (N / D) - 1) * 2 ^ (e + K) <= N / D * 2 ^ (e + K))
        by (apply Z.mul_le_mono_nonneg_r; lia).
      lia. }
    apply Z.pow_lt_mono_r_iff in H2; [|lia|lia].
    rewrite !fexp_eq. lia.
Qed.

Lemma rndq_normal (N D e : Z) :
  0 < D -> 0 < N -> input_okq N D e ->
  let e1 := fexp prec emax (Zdigits2 (N / D) + e) in
  -1074 < e1 -> 2 ^ 52 <= Np.round_half_even N (D * 2 ^ (e1 - e)).
Proof.
  intros HD HN Hok e1 He1. unfold input_okq in Hok. fold e1 in Hok.
  destruct (floor_bounds N D HD ltac:(lia)) as (Hq & [Hlo Hhi] & Hdig).
  assert (Hne : N / D <> 0).
  { intros E0. subst e1. rewrite E0 in *. cbn [Zdigits2] in *. rewrite fexp_eq in *. lia. }
  destruct (Zdigits2_bounds (N / D) ltac:(lia)) as (Hd & Hl & _).
  assert (E : e1 = Zdigits2 (N / D) + e - 53) by (subst e1; rewrite fexp_eq in *; lia).
  assert (HP : 0 < 2 ^ (e1 - e)) by (apply pow2_pos; lia).
  apply rhe_lower; [apply Z.mul_pos_pos; lia|].
  replace (2 ^ 52 * (D * 2 ^ (e1 - e))) with (2 ^ 52 * 2 ^ (e1 - e) * D) by ring.
  rewrite <- Z.pow_add_r by lia.
  replace (52 + (e1 - e)) with (Zdigits2 (N / D) - 1) by lia. nia.
Qed.

Theorem rndq_mono_pair (N D e N' D' e' K : Z) :
  0 < D -> 0 < D' -> 0 < N -> 0 < N' ->
  input_okq N D e -> input_okq N' D' e' ->
  0 <= e + K -> 0 <= e' + K ->
  N * D' * 2 ^ (e + K) <= N' * D * 2 ^ (e' + K) ->
  pair_le (rndq N D e) (rndq N' D' e') /\
  0 <= fst (rndq N D e) /\ 0 <= fst (rndq N' D' e').
Proof.
  intros HD HD' HN HN' Hok Hok' He He' H.
  pose proof (rounding_exponent_mono N D e N' D' e' K HD HD' HN HN' Hok Hok' He He' H) as HEE.
  pose proof (rndq_bounds N D e HD ltac:(lia) Hok) as Hb.
  pose proof (rndq_bounds N' D' e' HD' ltac:(lia) Hok') as Hb'.
  pose proof (rndq_normal N' D' e' HD' HN' Hok') as Hnormal'.
  unfold rndq. unfold input_okq in *. cbv zeta in *.
  set (E := fexp prec emax (Zdigits2 (N / D) + e)) in *.
  set (E' := fexp prec emax (Zdigits2 (N' / D') + e')) in *.
  set (m1 := Np.round_half_even N (D * 2 ^ (E - e))) in *.
  set (m1' := Np.round_half_even N' (D' * 2 ^ (E' - e'))) in *.
  assert (HE : -1074 <= E) by (subst E; rewrite fexp_eq; lia).
  assert (P52 : 2 ^ 52 = 4503599627370496) by reflexivity.
  assert (P53 : 2 ^ 53 = 9007199254740992) by reflexivity.
  split.
  - destruct (Z.eq_dec E E') as [EE | NE].
    + assert (Hm1 : m1 <= m1').
      { subst m1 m1'; rewrite <- EE.
        assert (HP : 0 < 2 ^ (E - e)) by (apply pow2_pos; lia).
        assert (HP' : 0 < 2 ^ (E - e')) by (apply pow2_pos; lia).
        apply rhe_mono; try (apply Z.mul_pos_pos; lia).
        pose proof (scaled_cross (N * D') e (N' * D) e' K E He He' ltac:(lia) ltac:(lia) H).
        replace (N * (D' * 2 ^ (E - e'))) with (N * D' * 2 ^ (E - e')) by ring.
        replace (N' * (D * 2 ^ (E - e))) with (N' * D * 2 ^ (E - e)) by ring.
        assumption. }
      unfold norm, pair_le; rewrite <- EE.
      destruct (Z.eqb_spec m1 (2 ^ 53)), (Z.eqb_spec m1' (2 ^ 53)); cbn [fst snd]; lia.
    + assert (Hn : 2 ^ 52 <= m1') by (apply Hnormal'; lia).
      unfold norm, pair_le.
      destruct (Z.eqb_spec m1 (2 ^ 53)), (Z.eqb_spec m1' (2 ^ 53)); cbn [fst snd]; lia.
  - unfold norm.
    destruct (Z.eqb_spec m1 (2 ^ 53)), (Z.eqb_spec m1' (2 ^ 53)); cbn [fst snd]; lia.
Qed.

(** Rounding is monotone on quotients. *)
Theorem rndq_mono (N D e N' D' e' K : Z) :
  0 < D -> 0 < D' -> 0 < N -> 0 < N' ->
  input_okq N D e -> input_okq N' D' e' ->
  0 <= e + K -> 0 <= e' + K ->
  N * D' * 2 ^ (e + K) <= N' * D * 2 ^ (e' + K) ->
  lex_le (key (finish false (rndq N D e))) (key (finish false (rndq N' D' e'))).
Proof.
  intros HD HD' HN HN' Hok Hok' He He' H.
  destruct (rndq_mono_pair N D e N' D' e' K HD HD' HN HN' Hok Hok' He He' H)
    as (Hp & H0 & H0').
  apply key_finish_mono; assumption.
Qed.

Lemma rndq_nonneg (N D e : Z) :
  0 < D -> 0 < N -> input_okq N D e -> 0 <= fst (rndq N D e).
Proof.
  intros HD HN Hok.
  pose proof (rndq_bounds N D e HD ltac:(lia) Hok) as Hb. cbv zeta in Hb.
  unfold rndq, norm.
  destruct (Z.eqb_spec (Np.round_half_even N
              (D * 2 ^ (fexp prec emax (Zdigits2 (N / D) + e) - e))) (2 ^ 53));
    cbn [fst]; lia.
Qed.

End Quotient.

(* ================================================================== *)
(** ** The order of quotients *)

Module Division.

Import FloatKey Rnd RndQ Rounding FloatOrder Quotient.
Local Open Scope Z_scope.

Lemma div_exponent_bounds (mx : positive) (ex : Z) (my : positive) (ey : Z) :
  bounded prec emax mx ex = true -> bounded prec emax my ey = true ->
  let e' := div_exponent (Z.pos mx) ex (Z.pos my) ey in
  -2045 <= e' <= ex - ey.
Proof.
  intros Hx Hy e'.
  destruct (bounded_facts mx ex Hx) as (_ & Hex & Hex' & _).
  destruct (bounded_facts my ey Hy) as (_ & Hey & Hey' & _).
  subst e'. unfold div_exponent. rewrite fexp_eq. lia.
Qed.

Lemma dividend_scaled (mx : positive) (ex : Z) (my : positive) (ey : Z) :
  bounded prec emax mx ex = true -> bounded prec emax my ey = true ->
  div_dividend (Z.pos mx) ex (Z.pos my) ey
    * 2 ^ (div_exponent (Z.pos mx) ex (Z.pos my) ey + 2045)
  = Z.pos mx * 2 ^ (ex + 1074) * 2 ^ (971 - ey).
Proof.
  intros Hx Hy.
  pose proof (div_exponent_bounds mx ex my ey Hx Hy) as He. cbv zeta in He.
  destruct (bounded_facts mx ex Hx) as (_ & Hex & Hex' & _).
  destruct (bounded_facts my ey Hy) as (_ & Hey & Hey' & _).
  unfold div_dividend.
  set (e' := div_exponent (Z.pos mx) ex (Z.pos my) ey) in *.
  rewrite <- !Z.mul_assoc, <- !Z.pow_add_r by lia.
  do 2 f_equal. lia.
Qed.

Lemma unit_2045 (e : Z) :
  -1074 <= e <= 971 -> 2 ^ (e + 1074) * 2 ^ (971 - e) = 2 ^ 2045.
Proof. intros H. rewrite <- Z.pow_add_r by lia. f_equal. lia. Qed.

(** The quotient of positive finite floats grows with the numerator and
    falls with the denominator: [x / y <= x' / y'] when
    [x * y' <= x' * y]. *)
Theorem SFdiv_mono (mx : positive) (ex : Z) (my : positive) (ey : Z)
    (mx' : positive) (ex' : Z) (my' : positive) (ey' : Z) :
  bounded prec emax mx ex = true -> bounded prec emax my ey = true ->
  bounded prec emax mx' ex' = true -> bounded prec emax my' ey' = true ->
  Z.pos mx * 2 ^ (ex + 1074) * (Z.pos my' * 2 ^ (ey' + 1074)) <=
  Z.pos mx' * 2 ^ (ex' + 1074) * (Z.pos my * 2 ^ (ey + 1074)) ->
  lex_le (key (SF64div (S754_finite false mx ex) (S754_finite false my ey)))
         (key (SF64div (S754_finite false mx' ex') (S754_finite false my' ey'))).
Proof.
  intros Hx Hy Hx' Hy' H. rewrite !SFdiv_finite. cbn [xorb].
  pose proof (div_exponent_bounds mx ex my ey Hx Hy) as He. cbv zeta in He.
  pose proof (div_exponent_bounds mx' ex' my' ey' Hx' Hy') as He'. cbv zeta in He'.
  destruct (div_core_spec (Z.pos mx) ex (Z.pos my) ey) as (_ & HN & _); try lia.
  destruct (div_core_spec (Z.pos mx') ex' (Z.pos my') ey') as (_ & HN' & _); try lia.
  apply (rndq_mono _ _ _ _ _ _ 2045); try lia; try (apply div_input_okq; lia).
  destruct (bounded_facts my ey Hy) as (_ & Hey & Hey' & _).
  destruct (bounded_facts my' ey' Hy') as (_ & Hey2 & Hey2' & _).
  destruct (bounded_facts mx ex Hx) as (_ & Hex & Hex' & _).
  destruct (bounded_facts mx' ex' Hx') as (_ & Hex2 & Hex2' & _).
  set (N := div_dividend (Z.pos mx) ex (Z.pos my) ey) in *.
  set (N' := div_dividend (Z.pos mx') ex' (Z.pos my') ey') in *.
  replace (N * Z.pos my' * 2 ^ (div_exponent (Z.pos mx) ex (Z.pos my) ey + 2045))
    with (N * 2 ^ (div_exponent (Z.pos mx) ex (Z.pos my) ey + 2045) * Z.pos my') by ring.
  replace (N' * Z.pos my * 2 ^ (div_exponent (Z.pos mx') ex' (Z.pos my') ey' + 2045))
    with (N' * 2 ^ (div_exponent (Z.pos mx') ex' (Z.pos my') ey' + 2045) * Z.pos my) by ring.
  subst N N'. rewrite !dividend_scaled by assumption.
  pose proof (unit_2045 ey ltac:(lia)) as Ty.
  pose proof (unit_2045 ey' ltac:(lia)) as Ty'.
  pose proof (pow2_pos (ex + 1074) ltac:(lia)) as Px.
  pose proof (pow2_pos (ex' + 1074) ltac:(lia)) as Px'.
  pose proof (pow2_pos (ey + 1074) ltac:(lia)) as Py.
  pose proof (pow2_pos (ey' + 1074) ltac:(lia)) as Py'.
  pose proof (pow2_pos (971 - ey) ltac:(lia)) as Qy.
  pose proof (pow2_pos (971 - ey') ltac:(lia)) as Qy'.
  assert (HT : 0 < 2 ^ 2045) by (apply pow2_pos; lia).
  set (px := 2 ^ (ex + 1074)) in *. set (px' := 2 ^ (ex' + 1074)) in *.
  set (py := 2 ^ (ey + 1074)) in *. set (py' := 2 ^ (ey' + 1074)) in *.
  set (qy := 2 ^ (971 - ey)) in *. set (qy' := 2 ^ (971 - ey')) in *.
  set (T := 2 ^ 2045) in *.
  apply (Z.mul_le_mono_pos_r _ _ (py * py')); [nia|].
  replace (Z.pos mx * px * qy * Z.pos my' * (py * py'))
    with (Z.pos mx * px * (Z.pos my' * py') * (py * qy)) by ring.
  replace (Z.pos mx' * px' * qy' * Z.pos my * (py * py'))
    with (Z.pos mx' * px' * (Z.pos my * py) * (py' * qy')) by ring.
  rewrite Ty, Ty'. apply Z.mul_le_mono_nonneg_r; lia.
Qed.

Lemma pair_le_antisym (a b : Z * Z) :
  pair_le a b -> pair_le b a -> 0 <= fst a -> 0 <= fst b ->
  finish false a = finish false b.
Proof.
  destruct a as [m e], b as [m' e']. unfold pair_le, finish. cbn [fst snd].
  intros H H' Hm Hm'.
  destruct (Z.eq_dec m 0) as [-> | Hne].
  - assert (m' = 0) by lia. subst m'. reflexivity.
  - assert (m = m' /\ e = e') as [-> ->] by lia. reflexivity.
Qed.

(** A quotient that is a float is computed exactly: [x / y = z] when
    [x = z * y]. *)
Theorem SFdiv_exact (mx : positive) (ex : Z) (my : positive) (ey : Z)
    (mz : positive) (ez : Z) :
  bounded prec emax mx ex = true -> bounded prec emax my ey = true ->
  bounded prec emax mz ez = true ->
  Z.pos mx * 2 ^ (ex + 1074) * 2 ^ 1074 =
  Z.pos mz * 2 ^ (ez + 1074) * (Z.pos my * 2 ^ (ey + 1074)) ->
  SF64div (S754_finite false mx ex) (S754_finite false my ey) = S754_finite false mz ez.
Proof.
  intros Hx Hy Hz H. rewrite SFdiv_finite. cbn [xorb].
  rewrite <- (rnd_canonical false mz ez Hz).
  destruct (rndq_of_rnd (Z.pos mz) ez ltac:(lia) (bounded_input_ok mz ez Hz)) as [-> Hokz].
  pose proof (div_exponent_bounds mx ex my ey Hx Hy) as He. cbv zeta in He.
  destruct (div_core_spec (Z.pos mx) ex (Z.pos my) ey) as (_ & HN & _); try lia.
  destruct (bounded_facts my ey Hy) as (_ & Hey & Hey' & _).
  destruct (bounded_facts mx ex Hx) as (_ & Hex & Hex' & _).
  destruct (bounded_facts mz ez Hz) as (_ & Hez & Hez' & _).
  assert (E : div_dividend (Z.pos mx) ex (Z.pos my) ey * 1
                * 2 ^ (div_exponent (Z.pos mx) ex (Z.pos my) ey + 2045)
              = Z.pos mz * Z.pos my * 2 ^ (ez + 2045)).
  { rewrite Z.mul_1_r, dividend_scaled by assumption.
    pose proof (unit_2045 ey ltac:(lia)) as Ty.
    pose proof (pow2_pos (ey + 1074) ltac:(lia)) as Py.
    replace (2 ^ (ez + 2045)) with (2 ^ (ez + 1074) * 2 ^ 971)
      by (rewrite <- Z.pow_add_r by lia; f_equal; lia).
    assert (T : 2 ^ 2045 = 2 ^ 1074 * 2 ^ 971) by reflexivity.
    set (px := 2 ^ (ex + 1074)) in *. set (py := 2 ^ (ey + 1074)) in *.
    set (pz := 2 ^ (ez + 1074)) in *. set (qy := 2 ^ (971 - ey)) in *.
    apply (Z.mul_reg_r _ _ py); [lia|].
    replace (Z.pos mx * px * qy * py) with (Z.pos mx * px * (py * qy)) by ring.
    rewrite Ty, T.
    replace (Z.pos mx * px * (2 ^ 1074 * 2 ^ 971))
      with (Z.pos mx * px * 2 ^ 1074 * 2 ^ 971) by ring.
    rewrite H. ring. }
  set (N := div_dividend (Z.pos mx) ex (Z.pos my) ey) in *.
  set (e' := div_exponent (Z.pos mx) ex (Z.pos my) ey) in *.
  pose proof (div_input_okq (Z.pos mx) ex (Z.pos my) ey ltac:(lia) ltac:(lia)) as Hokq.
  fold N e' in Hokq.
  assert (E1 : N * 1 * 2 ^ (e' + 2045) <= Z.pos mz * Z.pos my * 2 ^ (ez + 2045)) by lia.
  assert (E2 : Z.pos mz * Z.pos my * 2 ^ (ez + 2045) <= N * 1 * 2 ^ (e' + 2045)) by lia.
  destruct (rndq_mono_pair N (Z.pos my) e' (Z.pos mz) 1 ez 2045) as (H1 & Ha & Hb);
    try assumption; try lia.
  destruct (rndq_mono_pair (Z.pos mz) 1 ez N (Z.pos my) e' 2045) as (H2 & _ & _);
    try assumption; try lia.
  apply pair_le_antisym; assumption.
Qed.

Lemma SFdiv_not_nan (sx : bool) (mx : positive) (ex : Z)
    (sy : bool) (my : positive) (ey : Z) :
  SF64div (S754_finite sx mx ex) (S754_finite sy my ey) <> S754_nan /\
  exists me, SF64div (S754_finite sx mx ex) (S754_finite sy my ey)
               = finish (xorb sx sy) me /\ 0 <= fst me.
Proof.
  rewrite SFdiv_finite.
  destruct (div_core_spec (Z.pos mx) ex (Z.pos my) ey) as (_ & HN & _); try lia.
  pose proof (rndq_nonneg (div_dividend (Z.pos mx) ex (Z.pos my) ey) (Z.pos my)
                (div_exponent (Z.pos mx) ex (Z.pos my) ey) ltac:(lia) HN
                (div_input_okq (Z.pos mx) ex (Z.pos my) ey ltac:(lia) ltac:(lia))) as H.
  split; [apply finish_not_nan, H | eexists; split; [reflexivity | exact H]].
Qed.

End Division.

(* ================================================================== *)
(** ** The signs and ranges of the features *)

Module Signs.

Import FloatKey Rnd RndQ Rounding FloatOrder Quotient Division.
Local Open Scope Z_scope.

Lemma sign_clear_finish (me : Z * Z) : 0 <= fst me -> sign_clear (finish false me).
Proof.
  destruct me as [m e]. unfold finish. cbn [fst snd]. intros H.
  destruct m as [|p|p]; try lia; cbn [sign_clear]; [reflexivity|].
  destruct (e <=? emax - prec); reflexivity.
Qed.

Lemma sign_clear_key (x : spec_float) :
  sign_clear x -> x <> S754_nan -> lex_le (0, 0, 0) (key x).
Proof.
  destruct x as [s|s| |s m e]; cbn [sign_clear key]; intros H N; try congruence;
    subst; unfold lex_le, lex_lt; try (right; reflexivity); left; lia.
Qed.

Lemma SFadd_sign_clear (x y : spec_float) :
  valid_binary x = true -> valid_binary y = true ->
  sign_clear x -> sign_clear y -> sign_clear (SF64add x y).
Proof.
  intros Vx Vy Hx Hy.
  destruct x as [sx|sx| |sx mx ex], y as [sy|sy| |sy my ey];
    cbn [sign_clear] in *; subst; try exact I; try reflexivity.
  pose proof (SFadd_finite false mx ex false my ey Vx Vy) as H.
  pose proof (sval_pos mx ex Vx) as Px. pose proof (sval_pos my ey Vy) as Py.
  destruct H as [[Hz _] | [[Hz _] | (_ & m' & e' & -> & Hm & Hok & _)]]; try lia.
  apply sign_clear_finish, rnd_nonneg; assumption.
Qed.

Lemma SFmul_self_sign_clear (x : spec_float) :
  valid_binary x = true -> sign_clear (SF64mul x x).
Proof.
  intros Vx. destruct x as [s|s| |s m e]; cbn [SF64mul SFmul sign_clear];
    try (destruct s; reflexivity); try exact I.
  change (binary_round_aux prec emax (xorb s s) (Z.pos (m * m)) (e + e) loc_Exact)
    with (SF64mul (S754_finite s m e) (S754_finite s m e)).
  rewrite SFmul_finite. replace (xorb s s) with false by (destruct s; reflexivity).
  apply sign_clear_finish, rnd_nonneg; [lia | apply product_input_ok; assumption].
Qed.

Lemma SFdiv_sign_clear (x y : spec_float) :
  sign_clear x -> sign_clear y -> sign_clear (SF64div x y).
Proof.
  intros Hx Hy.
  destruct x as [sx|sx| |sx mx ex], y as [sy|sy| |sy my ey];
    cbn [sign_clear] in *; subst; try exact I; try reflexivity.
  destruct (SFdiv_not_nan false mx ex false my ey) as (_ & me & -> & Hme).
  apply sign_clear_finish, Hme.
Qed.

Lemma SFsqrt_sign_clear (x : spec_float) : sign_clear x -> sign_clear (SF64sqrt x).
Proof.
  intros Hx. destruct x as [s|s| |s m e]; cbn [sign_clear] in *; subst;
    try exact I; try reflexivity.
  unfold SF64sqrt, SFsqrt.
  destruct (SFsqrt_core_binary prec emax (Z.pos m) e) as [[mz ez] lz] eqn:E.
  assert (Hmz : 0 <= mz).
  { unfold SFsqrt_core_binary in E.
    destruct (Z.sqrtrem _) as [q r] eqn:Eq in E. injection E as <- _ _.
    change q with (fst (q, r)). rewrite <- Eq, Z.sqrtrem_sqrt. apply Z.sqrt_nonneg. }
  destruct (binary_round_aux_sign false mz ez lz Hmz) as (me & -> & Hme).
  apply sign_clear_finish, Hme.
Qed.

Local Open Scope float_scope.

Lemma isnan_true_eq (x : float) : Np.isnan x = true -> x = nan.
Proof.
  intros H. apply Prim2SF_inj. change (Prim2SF nan) with S754_nan.
  destruct (nan_or_not (Prim2SF x)) as [E | N]; [exact E|].
  apply isnan_false_iff in N. congruence.
Qed.

Lemma isnan_cases (x : float) : x = nan \/ not_nan x.
Proof.
  destruct (Np.isnan x) eqn:E; [left; apply isnan_true_eq, E | right].
  apply isnan_false_iff, E.
Qed.

Lemma sign_clear_nonneg (x : float) :
  sign_clear_or_nan x -> nan_or_ge x 0.
Proof.
  intros H. unfold nan_or_ge.
  destruct (isnan_cases x) as [-> | N]; [left; reflexivity | right].
  apply leb_iff. split; [|split; [exact N|]].
  - unfold not_nan. change (Prim2SF 0) with (S754_zero false). discriminate.
  - unfold fkey. change (key (Prim2SF 0)) with (0, 0, 0)%Z.
    apply sign_clear_key; assumption.
Qed.

Lemma sign_clear_of_int (n : Z) : (0 <= n)%Z -> sign_clear_or_nan (Np.of_int n).
Proof.
  intros H. unfold sign_clear_or_nan.
  destruct (Z.eq_dec n 0) as [-> | Hne]; [reflexivity|].
  destruct (of_int_pos n ltac:(lia)) as (me & -> & Hme).
  apply sign_clear_finish. lia.
Qed.

Lemma sign_clear_add (x y : float) :
  sign_clear_or_nan x -> sign_clear_or_nan y -> sign_clear_or_nan (x + y).
Proof.
  unfold sign_clear_or_nan. rewrite add_spec.
  apply SFadd_sign_clear; apply Prim2SF_valid.
Qed.

Lemma sign_clear_square (d : float) : sign_clear_or_nan (d * d).
Proof.
  unfold sign_clear_or_nan. rewrite mul_spec.
  apply SFmul_self_sign_clear, Prim2SF_valid.
Qed.

Lemma sign_clear_div (x y : float) :
  sign_clear_or_nan x -> sign_clear_or_nan y -> sign_clear_or_nan (x / y).
Proof. unfold sign_clear_or_nan. rewrite div_spec. apply SFdiv_sign_clear. Qed.

Lemma sign_clear_sqrt (x : float) :
  sign_clear_or_nan x -> sign_clear_or_nan (PrimFloat.sqrt x).
Proof. unfold sign_clear_or_nan. rewrite sqrt_spec. apply SFsqrt_sign_clear. Qed.

(** Sums of numbers whose sign is clear, in whatever order they are
    added *)
Lemma sign_clear_sums (l : list float) :
  Forall sign_clear_or_nan l ->
  sign_clear_or_nan (Np.sum l) /\ sign_clear_or_nan (Np.sum_buffered l).
Proof.
  intros H. rewrite <- (map_id l).
  apply (sum_invariant float (fun x => x) (fun _ => 0%Z) (fun _ x => sign_clear_or_nan x)).
  - intros i Hi. rewrite Forall_forall in H. apply H, Hi.
  - intros _ _ a b. apply sign_clear_add.
  - reflexivity.
Qed.

Lemma sign_clear_sum (l : list float) :
  Forall sign_clear_or_nan l -> sign_clear_or_nan (Np.sum l).
Proof. apply sign_clear_sums. Qed.

Lemma sign_clear_mean (a : list Z) :
  Forall (fun v => (0 <= v)%Z) a -> sign_clear_or_nan (Np.mean a).
Proof.
  intros H. unfold Np.mean. apply sign_clear_div.
  - apply sign_clear_sums. apply Forall_map.
    eapply Forall_impl; [|exact H]. intros v Hv. apply sign_clear_of_int, Hv.
  - apply sign_clear_of_int, len_nonneg.
Qed.

Lemma sign_clear_var (a : list Z) : sign_clear_or_nan (Np.var a).
Proof.
  unfold Np.var, Np.var_ddof. cbv zeta. apply sign_clear_div.
  - apply sign_clear_sum. rewrite Forall_map. apply Forall_forall.
    intros d _. apply sign_clear_square.
  - apply sign_clear_of_int. lia.
Qed.

Lemma sign_clear_std (a : list Z) : sign_clear_or_nan (Np.std a).
Proof. apply sign_clear_sqrt, sign_clear_var. Qed.

End Signs.

(* ================================================================== *)
(** ** The ratios of counts *)

Module Ratios.

Import FloatKey Rnd RndQ Rounding FloatOrder Quotient Division Signs.
Local Open Scope Z_scope.

Lemma of_int_le (a b : Z) :
  0 < a <= b -> lex_le (fkey (Np.of_int a)) (fkey (Np.of_int b)).
Proof.
  intros H. unfold fkey. rewrite !of_int_spec.
  destruct (binary_normalize_pos a 0 ltac:(lia)) as (m & e & -> & Hm & Hok & He & Em).
  destruct (binary_normalize_pos b 0 ltac:(lia)) as (m' & e' & -> & Hm' & Hok' & He' & Em').
  rewrite fexp_eq in He, He'.
  apply (rnd_mono m e m' e' 1074); try assumption; try lia.
  rewrite Em, Em', <- !Z.mul_assoc, <- !Z.pow_add_r by lia.
  replace (0 - e + (e + 1074)) with 1074 by lia.
  replace (0 - e' + (e' + 1074)) with 1074 by lia.
  apply Z.mul_le_mono_nonneg_r; lia.
Qed.

Lemma of_int_cases (n : Z) :
  0 < n ->
  pos_finite_float (Np.of_int n) \/ Prim2SF (Np.of_int n) = S754_infinity false.
Proof.
  intros Hn. pose proof (Prim2SF_valid (Np.of_int n)) as V.
  destruct (of_int_pos n Hn) as ([m e] & E & Hme). cbn [fst] in Hme.
  unfold pos_finite_float, pos_finite. rewrite E in *. unfold finish in *.
  cbn [fst snd] in *. destruct m as [|p|p]; try lia.
  destruct (e <=? emax - prec); [left | right; reflexivity].
  exists p, e. split; [reflexivity | exact V].
Qed.

(** Integers from 1 to [2^1023] are finite floats between [1] and
    [2^1023]. *)
Lemma of_int_bounds (n : Z) :
  1 <= n <= 2 ^ 1023 ->
  exists p e,
    Prim2SF (Np.of_int n) = S754_finite false p e /\ bounded prec emax p e = true /\
    2 ^ 1074 <= Z.pos p * 2 ^ (e + 1074) <= 2 ^ 2097.
Proof.
  intros Hn.
  pose proof (of_int_le 1 n ltac:(lia)) as L1.
  pose proof (of_int_le n (2 ^ 1023) ltac:(lia)) as L2.
  unfold fkey in L1, L2.
  assert (E1 : Prim2SF (Np.of_int 1) = SF_ONE) by (vm_compute; reflexivity).
  assert (E2 : Prim2SF (Np.of_int (2 ^ 1023)) = SF_HUGE) by (vm_compute; reflexivity).
  rewrite E1 in L1. rewrite E2 in L2.
  destruct (of_int_cases n ltac:(lia)) as [(p & e & E & Hb) | E]; rewrite E in *.
  - exists p, e. split; [reflexivity|]. split; [exact Hb|].
    assert (B1 : bounded prec emax 4503599627370496 (-52) = true) by reflexivity.
    assert (B2 : bounded prec emax 4503599627370496 971 = true) by reflexivity.
    pose proof (key_le_value _ _ _ _ B1 Hb L1) as V1.
    pose proof (key_le_value _ _ _ _ Hb B2 L2) as V2.
    replace (2 ^ 1074) with (4503599627370496 * 2 ^ (-52 + 1074)) by reflexivity.
    replace (2 ^ 2097) with (4503599627370496 * 2 ^ (971 + 1074)) by reflexivity.
    split; assumption.
  - exfalso. cbn [key SF_HUGE] in L2. unfold lex_le, lex_lt in L2.
    destruct L2 as [L2 | L2]; [lia | discriminate].
Qed.

Local Open Scope float_scope.

(** A quotient of positive finite floats is at most [1] when the
    numerator is at most the denominator. *)
Lemma div_le_1 (x y : float) :
  pos_finite_float x -> pos_finite_float y ->
  (x <=? y) = true -> (x / y <=? 1) = true.
Proof.
  intros (mx & ex & Ex & Bx) (my & ey & Ey & By) H.
  apply leb_iff in H as (_ & _ & L). unfold fkey in L. rewrite Ex, Ey in L.
  apply leb_iff. unfold not_nan, fkey. rewrite div_spec, Ex, Ey.
  split; [apply SFdiv_not_nan|]. split; [vm_compute; discriminate|].
  replace (key (Prim2SF 1)) with (key (SF64div SF_ONE SF_ONE)) by (vm_compute; reflexivity).
  apply SFdiv_mono; try assumption; try reflexivity.
  pose proof (key_le_value _ _ _ _ Bx By L) as V.
  set (u := (4503599627370496 * 2 ^ (-52 + 1074))%Z).
  assert (0 < u)%Z by (vm_compute; reflexivity).
  nia.
Qed.

(** It is positive when the denominator is less than [2^1074] times the
    numerator. *)
Lemma div_pos (x y : float) :
  pos_finite_float x -> pos_finite_float y ->
  (sval (Prim2SF y) <= sval (Prim2SF x) * 2 ^ 1074)%Z ->
  (0 <? x / y) = true.
Proof.
  intros (mx & ex & Ex & Bx) (my & ey & Ey & By) H.
  rewrite Ex, Ey in H. cbn [sval cond_Zopp] in H.
  apply ltb_iff. unfold not_nan, fkey. rewrite div_spec, Ex, Ey.
  split; [vm_compute; discriminate|]. split; [apply SFdiv_not_nan|].
  assert (L : lex_le (key (SF64div SF_TINY SF_ONE))
                (key (SF64div (S754_finite false mx ex) (S754_finite false my ey)))).
  { apply SFdiv_mono; try assumption; try reflexivity.
    replace (1 * 2 ^ (-1074 + 1074))%Z with 1%Z by reflexivity.
    replace (4503599627370496 * 2 ^ (-52 + 1074))%Z with (2 ^ 1074)%Z by reflexivity.
    lia. }
  replace (key (SF64div SF_TINY SF_ONE)) with (1, -1074, 1)%Z in L
    by (vm_compute; reflexivity).
  change (key (Prim2SF 0)) with (0, 0, 0)%Z.
  eapply lex_lt_le_trans; [|exact L]. unfold lex_lt. lia.
Qed.

(** The ratio of two counts [1 <= c <= n]: at most 1, or [nan] when both
    counts are beyond the range of the floats. *)
Lemma ratio_le_1 (c n : Z) :
  (1 <= c <= n)%Z -> nan_or_le (Np.of_int c / Np.of_int n) 1.
Proof.
  intros H. unfold nan_or_le.
  pose proof (of_int_le c n ltac:(lia)) as L.
  destruct (of_int_cases n ltac:(lia)) as [Fn | Infn].
  - destruct (of_int_cases c ltac:(lia)) as [Fc | Ic].
    + right. apply div_le_1; try assumption.
      apply leb_iff. split; [|split; [|exact L]].
      * destruct Fc as (p & e & E & _). unfold not_nan. rewrite E. discriminate.
      * destruct Fn as (p & e & E & _). unfold not_nan. rewrite E. discriminate.
    + exfalso. destruct Fn as (p & e & E & _). unfold fkey in L. rewrite Ic, E in L.
      cbn [key] in L. unfold lex_le, lex_lt in L.
      destruct L as [L | L]; [lia | discriminate].
  - destruct (of_int_cases c ltac:(lia)) as [(p & e & E & _) | Ic].
    + right. apply leb_iff. unfold not_nan, fkey. rewrite div_spec, E, Infn.
      cbn [SF64div SFdiv xorb]. split; [discriminate|].
      split; [vm_compute; discriminate|].
      replace (key (Prim2SF 1)) with (1, -52, 4503599627370496)%Z by reflexivity.
      cbn [key]. left. unfold lex_lt. lia.
    + left. unfold Np.isnan.
      rewrite FloatAxioms.eqb_spec, div_spec, Ic, Infn. reflexivity.
Qed.

Lemma ratio_in_unit_interval (c n : Z) :
  (1 <= c <= n)%Z -> (n <= 2 ^ 1023)%Z ->
  (0 <? Np.of_int c / Np.of_int n) = true /\ (Np.of_int c / Np.of_int n <=? 1) = true.
Proof.
  intros H Hn.
  destruct (of_int_bounds c ltac:(lia)) as (pc & ec & Ec & Bc & Vc).
  destruct (of_int_bounds n ltac:(lia)) as (pn & en & En & Bn & Vn).
  assert (Fc : pos_finite_float (Np.of_int c)) by (exists pc, ec; auto).
  assert (Fn : pos_finite_float (Np.of_int n)) by (exists pn, en; auto).
  split.
  - apply div_pos; try assumption. rewrite Ec, En. cbn [sval cond_Zopp].
    assert (T : (2 ^ 2097 <= 2 ^ 1074 * 2 ^ 1074)%Z) by (vm_compute; discriminate).
    assert (0 < 2 ^ 1074)%Z by (apply pow2_pos; lia).
    nia.
  - apply div_le_1; try assumption.
    apply leb_iff. unfold not_nan. rewrite Ec, En.
    split; [discriminate|]. split; [discriminate|].
    pose proof (of_int_le c n ltac:(lia)) as L. exact L.
Qed.

End Ratios.

(* ================================================================== *)
(** ** Every score is at most 100 *)

Section ScoreBound.

Import FloatKey FloatOrder Signs Ratios.
Local Open Scope float_scope.

Lemma nan_or_ge_cases (x b : float) :
  nan_or_ge x b -> x = nan \/ (b <=? x) = true.
Proof. intros [H | H]; [left; apply isnan_true_eq, H | right; exact H]. Qed.

Lemma nan_or_le_cases (x b : float) :
  nan_or_le x b -> x = nan \/ (x <=? b) = true.
Proof. intros [H | H]; [left; apply isnan_true_eq, H | right; exact H]. Qed.

Lemma composite_nan_ttr (burstiness common_ratio pseudo_perplexity : float) :
  composite nan burstiness common_ratio pseudo_perplexity = nan.
Proof.
  unfold composite. change ((1 - nan) * 0.3) with nan.
  rewrite !add_nan_l. reflexivity.
Qed.

Lemma composite_nan_ratio (ttr burstiness pseudo_perplexity : float) :
  composite ttr burstiness nan pseudo_perplexity = nan.
Proof.
  unfold composite. change (nan * 0.2) with nan.
  rewrite add_nan_r, add_nan_l. reflexivity.
Qed.

Lemma ai_score_of_nan : ai_score_of nan = nan.
Proof. vm_compute. reflexivity. Qed.

(** The composite of features of the kind the extractor produces is at
    most 1, unless one of them is [nan], and then it is [nan]. *)
Lemma score_nan_or_le_100 (ttr burstiness common_ratio pseudo_perplexity : float) :
  nan_or_ge ttr 0 -> nan_or_ge burstiness 0 -> nan_or_le common_ratio 1 ->
  nan_or_le (ai_score_of (composite ttr burstiness common_ratio pseudo_perplexity)) 100.
Proof.
  intros Ht Hb Hc. unfold nan_or_le.
  destruct (nan_or_ge_cases _ _ Ht) as [-> | Ht'].
  { left. rewrite composite_nan_ttr, ai_score_of_nan. reflexivity. }
  destruct (nan_or_ge_cases _ _ Hb) as [-> | Hb'].
  { left. rewrite composite_nan, ai_score_of_nan. reflexivity. }
  destruct (nan_or_le_cases _ _ Hc) as [-> | Hc'].
  { left. rewrite composite_nan_ratio, ai_score_of_nan. reflexivity. }
  right. apply ai_score_le_100, composite_le_1; assumption.
Qed.

Variable sent_tokenize : str -> list str.
Variable word_tokenize : str -> list str.
Variable lower : str -> str.
Variable flesch_reading_ease : str -> float.

Local Abbreviation extract :=
  (extract_features sent_tokenize word_tokenize lower flesch_reading_ease).
Local Abbreviation analyze :=
  (analyze_text_features sent_tokenize word_tokenize lower flesch_reading_ease).

Lemma sent_lengths_nonneg (sentences : list str) :
  Forall (fun v => (0 <= v)%Z) (sent_lengths_of word_tokenize sentences).
Proof.
  unfold sent_lengths_of. apply Forall_map, Forall_forall.
  intros s _. apply len_nonneg.
Qed.

Lemma feature_signs (text : str) :
  word_tokenize (lower text) <> [] ->
  let fv := features_of sent_tokenize word_tokenize lower flesch_reading_ease text in
  nan_or_ge (burstiness fv) 0 /\ nan_or_ge (pseudo_perplexity fv) 0 /\
  nan_or_ge (ttr fv) 0 /\ nan_or_ge (common_ratio fv) 0.
Proof.
  intros Hne fv.
  destruct (word_counts (word_tokenize (lower text)) Hne) as (Hd & Hc & _).
  subst fv. cbn [burstiness pseudo_perplexity ttr common_ratio features_of].
  split; [|split; [|split]]; apply sign_clear_nonneg.
  - apply sign_clear_div; [apply sign_clear_std|].
    apply sign_clear_mean, sent_lengths_nonneg.
  - apply sign_clear_var.
  - apply sign_clear_div; apply sign_clear_of_int; lia.
  - apply sign_clear_div; apply sign_clear_of_int; lia.
Qed.

(** X11: the two features computed from the sentence lengths are never
    negative, whatever the tokenizers return: burstiness (a standard
    deviation over a mean of counts) and the perplexity proxy (a
    variance) are each [nan] or at least 0; and so are the two ratios. *)
Theorem variation_never_negative (text : str) (fv : FeatureVector) :
  extract text = Return (Some fv) ->
  nan_or_ge (burstiness fv) 0 /\ nan_or_ge (pseudo_perplexity fv) 0 /\
  nan_or_ge (ttr fv) 0 /\ nan_or_ge (common_ratio fv) 0.
Proof.
  intros H.
  destruct (extract_some_inv sent_tokenize word_tokenize lower flesch_reading_ease
              text fv H) as [Hne ->].
  exact (feature_signs text Hne).
Qed.

(** X12: for a text of at most [2^1023] word tokens that passes the
    guards, lexical diversity and the repetition ratio, as the floats
    the program computes, lie in (0, 1]. *)
Theorem ratios_within_unit_interval (text : str) (fv : FeatureVector) :
  extract text = Return (Some fv) ->
  (len (word_tokenize (lower text)) <= 2 ^ 1023)%Z ->
  (0 <? ttr fv) = true /\ (ttr fv <=? 1) = true /\
  (0 <? common_ratio fv) = true /\ (common_ratio fv <=? 1) = true.
Proof.
  intros H Hn.
  destruct (extract_some_inv sent_tokenize word_tokenize lower flesch_reading_ease
              text fv H) as [Hne ->].
  destruct (word_counts (word_tokenize (lower text)) Hne) as (Hd & Hc & _).
  cbn [ttr common_ratio features_of].
  destruct (ratio_in_unit_interval _ _ Hd Hn) as [T1 T2].
  destruct (ratio_in_unit_interval _ _ Hc Hn) as [C1 C2].
  auto.
Qed.

Lemma analyze_some_inv (text : str) (a : Analysis) :
  analyze text = Return (Some a) ->
  word_tokenize (lower text) <> [] /\
  a = score_features
        (features_of sent_tokenize word_tokenize lower flesch_reading_ease text).
Proof.
  intros H.
  destruct (guards_decide word_tokenize lower text) as [Hr | [H1 [H2 H3]]].
  { rewrite (analyze_rejects sent_tokenize word_tokenize lower flesch_reading_ease
               text Hr) in H. discriminate. }
  rewrite (analyze_accepts sent_tokenize word_tokenize lower flesch_reading_ease
             text H1 H2 H3) in H.
  injection H as <-. split; [exact H3 | reflexivity].
Qed.

Lemma accepted_score_bound (text : str) :
  word_tokenize (lower text) <> [] ->
  nan_or_le
    (a_ai_score
       (score_features
          (features_of sent_tokenize word_tokenize lower flesch_reading_ease text)))
    100.
Proof.
  intros H3.
  destruct (feature_signs text H3) as (Hb & _ & Ht & _).
  destruct (word_counts (word_tokenize (lower text)) H3) as (_ & Hc & _).
  cbn [a_ai_score score_features].
  apply score_nan_or_le_100; try assumption.
  cbn [common_ratio features_of]. apply ratio_le_1, Hc.
Qed.

(** X13: no analysis has a score above 100: the score of every
    dictionary [analyze_text_features] returns is at most 100, or it is
    [nan]; whatever the text and whatever the tokenizers and the
    readability library return. *)
Theorem returned_score_at_most_100 (text : str) (a : Analysis) :
  analyze text = Return (Some a) ->
  nan_or_le (a_ai_score a) 100.
Proof.
  intros H. destruct (analyze_some_inv text a H) as [Hne ->].
  apply accepted_score_bound, Hne.
Qed.

End ScoreBound.
Lemma variation_never_negative_witness :
  let fv := features_of Toy.sentences Toy.words Toy.lower Toy.no_readability
              SAMPLE_BURSTY in
  nan_or_ge (burstiness fv) 0 /\ nan_or_ge (pseudo_perplexity fv) 0 /\
  nan_or_ge (ttr fv) 0 /\ nan_or_ge (common_ratio fv) 0.
Proof.
  cbv zeta.
  apply (variation_never_negative Toy.sentences Toy.words Toy.lower Toy.no_readability
           SAMPLE_BURSTY).
  vm_compute. reflexivity.
Defined.

Lemma ratios_within_unit_interval_witness :
  let fv := features_of Toy.sentences Toy.words Toy.lower Toy.no_readability
              SAMPLE_REPETITIVE in
  (0 <? ttr fv)%float = true /\ (ttr fv <=? 1)%float = true /\
  (0 <? common_ratio fv)%float = true /\ (common_ratio fv <=? 1)%float = true.
Proof.
  cbv zeta.
  apply (ratios_within_unit_interval Toy.sentences Toy.words Toy.lower
           Toy.no_readability SAMPLE_REPETITIVE).
  - vm_compute. reflexivity.
  - apply Z.leb_le. vm_compute. reflexivity.
Defined.

Lemma returned_score_at_most_100_witness :
  nan_or_le
    (a_ai_score
       (score_features
          (features_of Toy.sentences Toy.words Toy.lower Toy.no_readability
             SAMPLE_BURSTY))) 100.
Proof.
  apply (returned_score_at_most_100 Toy.sentences Toy.words Toy.lower
           Toy.no_readability SAMPLE_BURSTY).
  vm_compute. reflexivity.
Defined.

(* ================================================================== *)
(** ** Exact arithmetic on small counts *)

Module Exact.

Import FloatKey Rnd RndQ Rounding FloatOrder Quotient Division Signs Ratios.
Local Open Scope Z_scope.

(** What rounds a given positive value is one float. *)
Lemma rounds_value_unique (r r' : spec_float) (V : Z) :
  rounds_value r V -> rounds_value r' V -> 0 < V -> r = r'.
Proof.
  intros [[? _] | [[? _] | [_ (m & e & -> & Hm & Hok & He & E)]]]
         [[? _] | [[? _] | [_ (m' & e' & -> & Hm' & Hok' & He' & E')]]] HV; try lia.
  destruct (rnd_mono_pair m e m' e' 1074) as (H1 & Ha & Hb); try assumption; try lia.
  destruct (rnd_mono_pair m' e' m e 1074) as (H2 & _ & _); try assumption; try lia.
  apply pair_le_antisym; assumption.
Qed.

(** An integer below [2^53] is a float, exactly. *)
Lemma of_int_exact (n : Z) :
  0 < n < 2 ^ 53 ->
  exists p e,
    Prim2SF (Np.of_int n) = S754_finite false p e /\ bounded prec emax p e = true /\
    Z.pos p * 2 ^ (e + 1074) = n * 2 ^ 1074.
Proof.
  intros Hn.
  assert (H1023 : 2 ^ 53 <= 2 ^ 1023) by (apply Z.pow_le_mono_r; lia).
  destruct (of_int_bounds n ltac:(lia)) as (p & e & E & Hb & _).
  exists p, e. split; [exact E|]. split; [exact Hb|].
  pose proof (binary_normalize_value n 0 (n * 2 ^ 1074) ltac:(lia) ltac:(reflexivity)) as R.
  rewrite <- of_int_spec, E in R.
  assert (Hpos : 0 < n * 2 ^ 1074) by (apply Z.mul_pos_pos; [lia | apply pow2_pos; lia]).
  (* the canonical float of the value *)
  destruct (Zdigits2_bounds n ltac:(lia)) as (Hd & Hlo & Hhi).
  set (d := Zdigits2 n) in *.
  assert (Hd53 : d <= 53).
  { destruct (Z_le_gt_dec d 53) as [? | Hgt]; [assumption | exfalso].
    assert (2 ^ 53 <= 2 ^ (d - 1)) by (apply Z.pow_le_mono_r; lia). lia. }
  assert (Hm : 0 < n * 2 ^ (53 - d)) by (apply Z.mul_pos_pos; [lia | apply pow2_pos; lia]).
  destruct (n * 2 ^ (53 - d)) as [|q|q] eqn:Eq; try lia.
  assert (Bq : bounded prec emax q (d - 53) = true).
  { unfold bounded, canonical_mantissa.
    change (Z.pos (digits2_pos q)) with (Zdigits2 (Z.pos q)).
    rewrite <- Eq, Zdigits2_shift by lia. fold d.
    replace (d + (53 - d) + (d - 53)) with d by lia.
    rewrite fexp_eq.
    apply andb_true_iff. change (emax - prec) with 971.
    split; [apply Z.eqb_eq | apply Z.leb_le]; lia. }
  pose proof (rounds_value_canonical q (d - 53) Bq) as Rq.
  assert (Vq : sval (S754_finite false q (d - 53)) = n * 2 ^ 1074).
  { cbn [sval cond_Zopp]. rewrite <- Eq, <- Z.mul_assoc, <- Z.pow_add_r by lia.
    do 2 f_equal. lia. }
  rewrite Vq in Rq.
  pose proof (rounds_value_unique _ _ _ R Rq Hpos) as EE.
  injection EE as -> ->. exact Vq.
Qed.

Local Open Scope float_scope.

Lemma of_int_zero : Np.of_int 0 = 0.
Proof. reflexivity. Qed.

(** Counts add without rounding. *)
Lemma add_of_int (a b : Z) :
  (0 <= a)%Z -> (0 <= b)%Z -> (a + b < 2 ^ 53)%Z ->
  Np.of_int a + Np.of_int b = Np.of_int (a + b).
Proof.
  intros Ha Hb Hab. apply Prim2SF_inj. rewrite add_spec.
  destruct (Z.eq_dec a 0) as [-> | Na].
  { change (Prim2SF (Np.of_int 0)) with (S754_zero false). rewrite Z.add_0_l.
    destruct (Z.eq_dec b 0) as [-> | Nb]; [reflexivity|].
    destruct (of_int_exact b ltac:(lia)) as (p & e & -> & _). reflexivity. }
  destruct (Z.eq_dec b 0) as [-> | Nb].
  { change (Prim2SF (Np.of_int 0)) with (S754_zero false). rewrite Z.add_0_r.
    destruct (of_int_exact a ltac:(lia)) as (p & e & -> & _). reflexivity. }
  destruct (of_int_exact a ltac:(lia)) as (pa & ea & -> & Ba & Va).
  destruct (of_int_exact b ltac:(lia)) as (pb & eb & -> & Bb & Vb).
  pose proof (SFadd_finite false pa ea false pb eb Ba Bb) as R.
  cbn [sval cond_Zopp] in R. rewrite Va, Vb in R.
  pose proof (binary_normalize_value (a + b) 0 ((a + b) * 2 ^ 1074)
                ltac:(lia) ltac:(reflexivity)) as R'.
  rewrite <- of_int_spec in R'.
  replace (a * 2 ^ 1074 + b * 2 ^ 1074)%Z with ((a + b) * 2 ^ 1074)%Z in R by ring.
  apply (rounds_value_unique _ _ _ R R').
  apply Z.mul_pos_pos; [lia | apply pow2_pos; lia].
Qed.

(** The quotient of a multiple by its factor is exact. *)
Lemma div_of_int_exact (k n : Z) :
  (0 < k)%Z -> (0 < n)%Z -> (n * k < 2 ^ 53)%Z ->
  Np.of_int (n * k) / Np.of_int n = Np.of_int k.
Proof.
  intros Hk Hn Hnk. apply Prim2SF_inj. rewrite div_spec.
  assert (n < 2 ^ 53)%Z by nia. assert (k < 2 ^ 53)%Z by nia.
  destruct (of_int_exact (n * k) ltac:(nia)) as (px & ex & -> & Bx & Vx).
  destruct (of_int_exact n ltac:(lia)) as (py & ey & -> & By & Vy).
  destruct (of_int_exact k ltac:(lia)) as (pz & ez & -> & Bz & Vz).
  apply SFdiv_exact; try assumption.
  rewrite Vx, Vy, Vz. ring.
Qed.

(** A count minus itself is zero. *)
Lemma sub_of_int_self (k : Z) :
  (0 <= k < 2 ^ 53)%Z -> Np.of_int k - Np.of_int k = 0.
Proof.
  intros Hk. apply Prim2SF_inj. rewrite sub_spec.
  destruct (Z.eq_dec k 0) as [-> | Nk]; [reflexivity|].
  destruct (of_int_exact k ltac:(lia)) as (p & e & -> & B & V).
  pose proof (SFsub_finite false p e false p e B B) as R.
  rewrite Z.sub_diag in R.
  destruct R as [[_ ->] | [[? _] | [? _]]]; [reflexivity | lia | lia].
Qed.

(** Counts whose total is below [2^53] sum to the float of their total,
    without rounding and so in whatever order they are added. *)
Lemma sums_of_counts (a : list Z) :
  Forall (fun v => (0 <= v)%Z) a -> (weight (fun v => v) a < 2 ^ 53)%Z ->
  Np.sum (map Np.of_int a) = Np.of_int (weight (fun v => v) a) /\
  Np.sum_buffered (map Np.of_int a) = Np.of_int (weight (fun v => v) a).
Proof.
  intros Hpos Hsize.
  pose proof (sum_invariant Z Np.of_int (fun v => v)
                (fun V x => (0 <= V)%Z /\ ((V < 2 ^ 53)%Z -> x = Np.of_int V)) a) as H.
  destruct H as [[_ H1] [_ H2]].
  - intros v Hv. rewrite Forall_forall in Hpos. split; [apply Hpos, Hv | reflexivity].
  - intros V W x y [HV Hx] [HW Hy]. split; [lia|]. intros Hlt.
    rewrite Hx, Hy by lia. apply add_of_int; lia.
  - split; [lia | reflexivity].
  - split; [apply H1 | apply H2]; exact Hsize.
Qed.

Lemma weight_repeat (k : Z) (n : nat) :
  weight (fun v => v) (repeat k n) = (Z.of_nat n * k)%Z.
Proof.
  induction n as [|n IH]; [reflexivity|].
  cbn [repeat]. change (weight (fun v => v) (k :: repeat k n))
    with (k + weight (fun v => v) (repeat k n))%Z.
  rewrite IH. lia.
Qed.

Lemma sums_repeat (k : Z) (n : nat) :
  (0 <= k)%Z -> (Z.of_nat n * k < 2 ^ 53)%Z ->
  Np.sum (repeat (Np.of_int k) n) = Np.of_int (Z.of_nat n * k) /\
  Np.sum_buffered (repeat (Np.of_int k) n) = Np.of_int (Z.of_nat n * k).
Proof.
  intros Hk H. rewrite <- map_repeat, <- weight_repeat.
  apply sums_of_counts.
  - apply Forall_forall. intros v Hv. rewrite (repeat_spec _ _ _ Hv). exact Hk.
  - rewrite weight_repeat. exact H.
Qed.

Lemma sum_repeat (k : Z) (n : nat) :
  (0 <= k)%Z -> (Z.of_nat n * k < 2 ^ 53)%Z ->
  Np.sum (repeat (Np.of_int k) n) = Np.of_int (Z.of_nat n * k).
Proof. apply sums_repeat. Qed.

(** Sentences of one length: the mean is that length, and nothing
    varies. *)
Lemma mean_uniform (k : Z) (n : nat) :
  (0 < k)%Z -> (0 < n)%nat -> (Z.of_nat n * k < 2 ^ 53)%Z ->
  Np.mean (repeat k n) = Np.of_int k.
Proof.
  intros Hk Hn H. unfold Np.mean.
  rewrite map_repeat, (proj2 (sums_repeat k n ltac:(lia) H)), len_repeat.
  apply div_of_int_exact; lia.
Qed.

Lemma var_uniform (k : Z) (n : nat) :
  (0 < k)%Z -> (0 < n)%nat -> (Z.of_nat n * k < 2 ^ 53)%Z ->
  Np.var (repeat k n) = 0.
Proof.
  intros Hk Hn H. unfold Np.var, Np.var_ddof. cbv zeta.
  rewrite mean_uniform by assumption.
  rewrite !map_repeat, len_repeat.
  rewrite sub_of_int_self by nia.
  change (0 * 0) with 0. rewrite sum_zeros.
  replace (Z.max (Z.of_nat n - 0) 0) with (Z.of_nat n) by lia.
  apply zero_div_of_int. lia.
Qed.

Lemma std_uniform (k : Z) (n : nat) :
  (0 < k)%Z -> (0 < n)%nat -> (Z.of_nat n * k < 2 ^ 53)%Z ->
  Np.std (repeat k n) = 0.
Proof. intros Hk Hn H. unfold Np.std. rewrite var_uniform by assumption. reflexivity. Qed.

Lemma burstiness_uniform (k : Z) (n : nat) :
  (0 < k)%Z -> (0 < n)%nat -> (Z.of_nat n * k < 2 ^ 53)%Z ->
  Np.std (repeat k n) / Np.mean (repeat k n) = 0.
Proof.
  intros Hk Hn H. rewrite std_uniform, mean_uniform by assumption.
  apply zero_div_of_int, Hk.
Qed.

End Exact.

(* ================================================================== *)
(** ** The features against their reference definitions *)

Section ReferenceFeatures.

Import Exact.
Local Open Scope float_scope.

Variable sent_tokenize : str -> list str.
Variable word_tokenize : str -> list str.
Variable lower : str -> str.
Variable flesch_reading_ease : str -> float.

Local Abbreviation extract :=
  (extract_features sent_tokenize word_tokenize lower flesch_reading_ease).

(** The mean of counts whose total is below [2^53] is their arithmetic
    mean: their total over their number, with the one rounding of the
    division. *)
Lemma mean_is_reference (a : list Z) :
  Forall (fun v => (0 <= v)%Z) a -> (weight (fun v => v) a < 2 ^ 53)%Z ->
  Np.mean a = Reference.mean (map Np.of_int a) /\
  Np.mean a = Np.of_int (weight (fun v => v) a) / Np.of_int (len a).
Proof.
  intros Hpos Hsize. destruct (sums_of_counts a Hpos Hsize) as [H1 H2].
  unfold Np.mean, Reference.mean. rewrite len_map, H1, H2. split; reflexivity.
Qed.

(** numpy's variance with its default [ddof] is the population variance. *)
Lemma var_is_population_variance (a : list Z) :
  Forall (fun v => (0 <= v)%Z) a -> (weight (fun v => v) a < 2 ^ 53)%Z ->
  Np.var a = Reference.population_variance (map Np.of_int a).
Proof.
  intros Hpos Hsize.
  unfold Np.var, Np.var_ddof, Reference.population_variance.
  rewrite <- (proj1 (mean_is_reference a Hpos Hsize)); unfold Reference.mean.
  rewrite !map_map, !len_map.
  replace (Z.max (len a - 0) 0) with (len a) by (pose proof (len_nonneg a); lia).
  reflexivity.
Qed.

Lemma std_is_population_std (a : list Z) :
  Forall (fun v => (0 <= v)%Z) a -> (weight (fun v => v) a < 2 ^ 53)%Z ->
  Np.std a = Reference.population_std (map Np.of_int a).
Proof.
  intros Hpos Hsize. unfold Np.std, Reference.population_std.
  rewrite var_is_population_variance by assumption. reflexivity.
Qed.

Lemma sent_lengths_counts (sentences : list str) :
  Forall (fun v => (0 <= v)%Z) (map (fun s => len (word_tokenize s)) sentences).
Proof. apply Forall_map, Forall_forall. intros s _. apply len_nonneg. Qed.

(** C4: for a text that passes the guards, with the tokenizer's output
    as given, lexical diversity is the number of distinct word tokens
    over the number of word tokens, burstiness is the population standard
    deviation of the per-sentence word counts over their mean, the
    repetition ratio is the count of the most frequent word token over
    the number of word tokens, and the perplexity proxy is the population
    variance of the per-sentence word counts.  The sums are those of
    numpy, which adds an array pairwise; the sentences hold fewer than
    [2^53] word tokens in all, so that the sum of the counts is exact:
    their mean is the total over the number of sentences. *)
Theorem features_match_reference (text : str) (fv : FeatureVector) :
  extract text = Return (Some fv) ->
  let words := word_tokenize (lower text) in
  let lengths := map (fun s => len (word_tokenize s)) (sent_tokenize text) in
  let counts := map Np.of_int lengths in
  (weight (fun v => v) lengths < 2 ^ 53)%Z ->
  (exists d c, Reference.distinct_count words d /\ Reference.most_frequent_count words c) /\
  (forall d, Reference.distinct_count words d ->
     ttr fv = (Np.of_int d / Np.of_int (len words))%float) /\
  burstiness fv = (Reference.population_std counts / Reference.mean counts)%float /\
  (forall c, Reference.most_frequent_count words c ->
     common_ratio fv = (Np.of_int c / Np.of_int (len words))%float) /\
  pseudo_perplexity fv = Reference.population_variance counts /\
  Reference.mean counts
    = (Np.of_int (weight (fun v => v) lengths) / Np.of_int (len lengths))%float.
Proof.
  intros H; cbv zeta; intros Hsize.
  apply extract_some_inv in H as [Hw ->].
  unfold features_of; cbn [ttr burstiness common_ratio pseudo_perplexity].
  pose proof (py_set_distinct_count (word_tokenize (lower text))) as Hd.
  pose proof (top_count_most_frequent _ Hw) as Hc.
  pose proof (sent_lengths_counts (sent_tokenize text)) as Hpos.
  destruct (mean_is_reference _ Hpos Hsize) as [Hm Hm'].
  split; [eauto | split; [| split; [| split; [| split]]]].
  - intros d Hd'; rewrite (distinct_count_unique _ _ _ Hd' Hd); reflexivity.
  - unfold sent_lengths_of.
    rewrite std_is_population_std, Hm by assumption; reflexivity.
  - intros c Hc'; rewrite (most_frequent_count_unique _ _ _ Hc' Hc); reflexivity.
  - unfold sent_lengths_of; apply var_is_population_variance; assumption.
  - rewrite <- Hm. exact Hm'.
Qed.

End ReferenceFeatures.

(** C4 at work on the sample, whose seven sentences have three word
    tokens each. *)
Lemma features_match_reference_witness :
  exists fv,
    extract_features Toy.sentences Toy.words Toy.lower Toy.no_readability
      SAMPLE_REPETITIVE = Return (Some fv) /\
    burstiness fv =
      (Reference.population_std (map Np.of_int [3; 3; 3; 3; 3; 3; 3]%Z)
       / Reference.mean (map Np.of_int [3; 3; 3; 3; 3; 3; 3]%Z))%float /\
    pseudo_perplexity fv =
      Reference.population_variance (map Np.of_int [3; 3; 3; 3; 3; 3; 3]%Z).
Proof.
  assert (E : extract_features Toy.sentences Toy.words Toy.lower Toy.no_readability
                SAMPLE_REPETITIVE
              = Return (Some (features_of Toy.sentences Toy.words Toy.lower
                                Toy.no_readability SAMPLE_REPETITIVE)))
    by (vm_compute; reflexivity).
  eexists; split; [exact E|].
  destruct (features_match_reference Toy.sentences Toy.words Toy.lower
              Toy.no_readability SAMPLE_REPETITIVE
              (features_of Toy.sentences Toy.words Toy.lower
                 Toy.no_readability SAMPLE_REPETITIVE) E)
    as (_ & _ & Hb & _ & Hp & _).
  - vm_compute. reflexivity.
  - split; [exact Hb | exact Hp].
Defined.

(** Nine sentences, more than the eight running sums of numpy's loop:
    the variance of their word counts is exactly 100, which adding the
    squares from left to right would miss by one unit in the last
    place. *)
Example variance_of_nine_counts :
  Np.var [39; 23; 21; 34; 22; 9; 12; 8; 18]%Z = 100%float /\
  (fold_left PrimFloat.add
     (map (fun v => let d := (Np.of_int v - Np.mean [39; 23; 21; 34; 22; 9; 12; 8; 18]%Z)%float
                    in (d * d)%float)
        [39; 23; 21; 34; 22; 9; 12; 8; 18]%Z) 0%float / 9 <? 100)%float = true.
Proof. split; vm_compute; reflexivity. Qed.

(* ================================================================== *)
(** ** Bounds from below *)

Module Lower.

Import FloatKey Rnd RndQ Rounding FloatOrder Quotient Division Signs Ratios Exact.
Local Open Scope Z_scope.

Lemma value_le_key (p : positive) (e : Z) (p' : positive) (e' : Z) :
  bounded prec emax p e = true -> bounded prec emax p' e' = true ->
  Z.pos p * 2 ^ (e + 1074) <= Z.pos p' * 2 ^ (e' + 1074) ->
  lex_le (key (S754_finite false p e)) (key (S754_finite false p' e')).
Proof.
  intros B B' H.
  apply (rounds_value_le _ _ _ _ (rounds_value_canonical p e B)
           (rounds_value_canonical p' e' B')).
  - exact H.
  - apply sval_pos, B'.
Qed.

Lemma key_nonneg_cases (x : spec_float) :
  x <> S754_nan -> lex_le (0, 0, 0) (key x) ->
  (exists s, x = S754_zero s) \/ x = S754_infinity false \/
  (exists p e, x = S754_finite false p e).
Proof.
  intros N L. destruct x as [s|s| |s p e]; try congruence; cbn [key] in L.
  - left. eauto.
  - destruct s; [|right; left; reflexivity].
    exfalso. unfold lex_le, lex_lt in L. destruct L as [L | L]; [lia | discriminate].
  - destruct s; [|right; right; eauto].
    exfalso. unfold lex_le, lex_lt in L. destruct L as [L | L]; [lia | discriminate].
Qed.

Lemma zero_or_pos_finite_key (A : spec_float) :
  zero_or_pos_finite A -> A <> S754_nan /\ lex_le (0, 0, 0) (key A) /\ 0 <= sval A /\
  valid_binary A = true.
Proof.
  intros [-> | (p & e & -> & B)].
  - split; [discriminate|]. split; [right; reflexivity|]. split; [cbn; lia | reflexivity].
  - split; [discriminate|]. split; [left; cbn; unfold lex_lt; lia|].
    split; [pose proof (sval_pos p e B); lia | exact B].
Qed.

(** What is at least a bound has at least its value (an infinity
    apart). *)
Lemma sval_ge_of_key (A x : spec_float) :
  zero_or_pos_finite A -> valid_binary x = true -> x <> S754_nan ->
  lex_le (key A) (key x) ->
  x = S754_infinity false \/
  (((exists s, x = S754_zero s) \/ (exists p e, x = S754_finite false p e)) /\
   sval A <= sval x).
Proof.
  intros HA Vx Nx L.
  destruct (zero_or_pos_finite_key A HA) as (_ & LA & SA & _).
  destruct (key_nonneg_cases x Nx (lex_le_trans _ _ _ LA L)) as [(s & ->) | [-> | (p & e & ->)]].
  - right. split; [left; eauto|]. cbn [sval].
    destruct HA as [-> | (pA & eA & -> & BA)]; [cbn; lia|].
    exfalso. cbn [key] in L. unfold lex_le, lex_lt in L.
    destruct L as [L | L]; [lia | discriminate].
  - left. reflexivity.
  - right. split; [right; eauto|].
    destruct HA as [-> | (pA & eA & -> & BA)].
    + cbn [sval cond_Zopp]. pose proof (sval_pos p e Vx). cbn [sval cond_Zopp] in *. lia.
    + cbn [sval cond_Zopp]. apply key_le_value; assumption.
Qed.

(** A sum is at least any float that is at most the sum of two lower
    bounds of its terms. *)
Lemma SFadd_ge (a b A B C : spec_float) :
  valid_binary a = true -> valid_binary b = true ->
  a <> S754_nan -> b <> S754_nan ->
  zero_or_pos_finite A -> zero_or_pos_finite B -> pos_finite C ->
  lex_le (key A) (key a) -> lex_le (key B) (key b) ->
  sval C <= sval A + sval B ->
  SF64add a b <> S754_nan /\ lex_le (key C) (key (SF64add a b)).
Proof.
  intros Va Vb Na Nb HA HB (pC & eC & -> & BC) La Lb HC.
  pose proof (sval_pos pC eC BC) as PC.
  destruct (sval_ge_of_key A a HA Va Na La) as [-> | [Ca Sa]];
    destruct (sval_ge_of_key B b HB Vb Nb Lb) as [-> | [Cb Sb]].
  - split; [discriminate | left; cbn; unfold lex_lt; lia].
  - destruct Cb as [(s & ->) | (p & e & ->)];
      (split; [discriminate | left; cbn; unfold lex_lt; lia]).
  - destruct Ca as [(s & ->) | (p & e & ->)];
      (split; [discriminate | left; cbn; unfold lex_lt; lia]).
  - destruct Ca as [(sa & ->) | (pa & ea & ->)], Cb as [(sb & ->) | (pb & eb & ->)].
    + exfalso. cbn [sval] in *. lia.
    + change (SF64add (S754_zero sa) (S754_finite false pb eb))
        with (S754_finite false pb eb).
      split; [discriminate|]. apply value_le_key; try assumption.
      cbn [sval cond_Zopp] in *. lia.
    + change (SF64add (S754_finite false pa ea) (S754_zero sb))
        with (S754_finite false pa ea).
      split; [discriminate|]. apply value_le_key; try assumption.
      cbn [sval cond_Zopp] in *. lia.
    + pose proof (SFadd_finite false pa ea false pb eb Va Vb) as R.
      split; [exact (rounds_value_not_nan _ _ R)|].
      apply (rounds_value_le _ _ _ _ (rounds_value_canonical pC eC BC) R); lia.
Qed.

Lemma key_finish_le_inf (me : Z * Z) :
  0 <= fst me -> lex_le (key (finish false me)) (2, 0, 0).
Proof.
  destruct me as [m e]. unfold finish. cbn [fst snd]. intros H.
  destruct m as [|p|p]; try lia; cbn [key].
  - left. unfold lex_lt. lia.
  - destruct (e <=? emax - prec); cbn [key]; [left; unfold lex_lt; lia | right; reflexivity].
Qed.

(** A product with a positive finite factor grows with the other
    factor. *)
Lemma SFmul_ge (x A c : spec_float) :
  valid_binary x = true -> x <> S754_nan -> pos_finite A -> pos_finite c ->
  lex_le (key A) (key x) ->
  SF64mul x c <> S754_nan /\ lex_le (key (SF64mul A c)) (key (SF64mul x c)).
Proof.
  intros Vx Nx (pA & eA & -> & HA) (pc & ec & -> & Hc) Lx.
  pose proof (product_input_ok pA eA pc ec HA Hc) as HokA.
  pose proof (rnd_nonneg (Z.pos (pA * pc)) (eA + ec) ltac:(lia) HokA) as HnnA.
  rewrite (SFmul_finite false pA eA false pc ec). cbn [xorb].
  destruct x as [sx|sx| |sx mx ex]; try congruence; cbn [key] in Lx.
  - exfalso. unfold lex_le, lex_lt in Lx. destruct Lx as [L | L]; [lia | discriminate].
  - destruct sx;
      [exfalso; unfold lex_le, lex_lt in Lx; destruct Lx as [L | L]; [lia | discriminate]|].
    cbn [SF64mul SFmul xorb]. split; [discriminate|]. apply key_finish_le_inf, HnnA.
  - destruct sx;
      [exfalso; unfold lex_le, lex_lt in Lx; destruct Lx as [L | L]; [lia | discriminate]|].
    pose proof (product_input_ok mx ex pc ec Vx Hc) as Hokx.
    rewrite SFmul_finite. cbn [xorb].
    split; [apply finish_not_nan, rnd_nonneg; [lia | exact Hokx]|].
    destruct (bounded_facts mx ex Vx) as (_ & _ & Hex & _).
    destruct (bounded_facts pA eA HA) as (_ & _ & HeA & _).
    destruct (bounded_facts pc ec Hc) as (_ & _ & Hec & _).
    apply (rnd_mono _ _ _ _ 2148); try assumption; try lia.
    pose proof (key_le_value pA eA mx ex HA Vx Lx) as Hv.
    replace (ex + ec + 2148) with ((ex + 1074) + (ec + 1074)) by lia.
    replace (eA + ec + 2148) with ((eA + 1074) + (ec + 1074)) by lia.
    rewrite (Z.pow_add_r 2 (ex + 1074) (ec + 1074)) by lia.
    rewrite (Z.pow_add_r 2 (eA + 1074) (ec + 1074)) by lia.
    rewrite !Pos2Z.inj_mul.
    pose proof (pow2_pos (ec + 1074) ltac:(lia)) as HW.
    replace (Z.pos mx * Z.pos pc * (2 ^ (ex + 1074) * 2 ^ (ec + 1074)))
      with (Z.pos mx * 2 ^ (ex + 1074) * (Z.pos pc * 2 ^ (ec + 1074))) by ring.
    replace (Z.pos pA * Z.pos pc * (2 ^ (eA + 1074) * 2 ^ (ec + 1074)))
      with (Z.pos pA * 2 ^ (eA + 1074) * (Z.pos pc * 2 ^ (ec + 1074))) by ring.
    apply Z.mul_le_mono_nonneg_r; [nia | exact Hv].
Qed.

(** A product of a non-negative number and a positive finite one is not
    negative. *)
Lemma SFmul_nonneg (x c : spec_float) :
  valid_binary x = true -> x <> S754_nan -> pos_finite c ->
  lex_le (0, 0, 0) (key x) ->
  SF64mul x c <> S754_nan /\ lex_le (0, 0, 0) (key (SF64mul x c)).
Proof.
  intros Vx Nx (pc & ec & -> & Hc) Lx.
  destruct (key_nonneg_cases x Nx Lx) as [(s & ->) | [-> | (p & e & ->)]].
  - cbn [SF64mul SFmul]. split; [discriminate | right; reflexivity].
  - cbn [SF64mul SFmul xorb]. split; [discriminate | left; cbn; unfold lex_lt; lia].
  - rewrite SFmul_finite. cbn [xorb].
    pose proof (rnd_nonneg (Z.pos (p * pc)) (e + ec) ltac:(lia)
                  (product_input_ok p e pc ec Vx Hc)) as H.
    split; [apply finish_not_nan, H | apply key_finish_false, H].
Qed.

(** What is left of a positive finite number after a part of it is
    taken away is not negative. *)
Lemma SFsub_nonneg (A y : spec_float) :
  valid_binary y = true -> y <> S754_nan -> pos_finite A ->
  lex_le (0, 0, 0) (key y) -> lex_le (key y) (key A) ->
  SF64sub A y <> S754_nan /\ lex_le (0, 0, 0) (key (SF64sub A y)).
Proof.
  intros Vy Ny (pA & eA & -> & HA) L0 LA.
  destruct (key_nonneg_cases y Ny L0) as [(s & ->) | [-> | (p & e & ->)]].
  - cbn [SF64sub SFsub]. split; [discriminate | left; cbn; unfold lex_lt; lia].
  - exfalso. cbn [key] in LA. unfold lex_le, lex_lt in LA.
    destruct LA as [L | L]; [lia | discriminate].
  - pose proof (SFsub_finite false pA eA false p e HA Vy) as R.
    pose proof (key_le_value p e pA eA Vy HA LA) as V.
    split; [exact (rounds_value_not_nan _ _ R)|].
    apply (rounds_value_key_nonneg _ _ R). cbn [sval cond_Zopp]. lia.
Qed.

(** A quotient by a positive finite number grows with the numerator. *)
Lemma SFdiv_ge (x A c : spec_float) :
  valid_binary x = true -> x <> S754_nan -> pos_finite A -> pos_finite c ->
  lex_le (key A) (key x) ->
  SF64div x c <> S754_nan /\ lex_le (key (SF64div A c)) (key (SF64div x c)).
Proof.
  intros Vx Nx (pA & eA & -> & HA) (pc & ec & -> & Hc) Lx.
  destruct x as [sx|sx| |sx mx ex]; try congruence; cbn [key] in Lx.
  - exfalso. unfold lex_le, lex_lt in Lx. destruct Lx as [L | L]; [lia | discriminate].
  - destruct sx;
      [exfalso; unfold lex_le, lex_lt in Lx; destruct Lx as [L | L]; [lia | discriminate]|].
    destruct (SFdiv_not_nan false pA eA false pc ec) as (_ & me & E & Hme).
    rewrite E. cbn [SF64div SFdiv xorb]. split; [discriminate|].
    apply key_finish_le_inf, Hme.
  - destruct sx;
      [exfalso; unfold lex_le, lex_lt in Lx; destruct Lx as [L | L]; [lia | discriminate]|].
    split; [apply SFdiv_not_nan|].
    apply SFdiv_mono; try assumption.
    pose proof (key_le_value pA eA mx ex HA Vx Lx) as Hv.
    destruct (bounded_facts pc ec Hc) as (_ & _ & Hec & _).
    pose proof (pow2_pos (ec + 1074) ltac:(lia)) as HW.
    apply Z.mul_le_mono_nonneg_r; [nia | exact Hv].
Qed.

End Lower.

(* ================================================================== *)
(** ** Sentences of one length *)

Section UniformSentences.

Import FloatKey Rnd Rounding FloatOrder Signs Ratios Exact Lower.
Local Open Scope float_scope.

Lemma leb_parts (x y : float) :
  (x <=? y) = true ->
  Prim2SF x <> S754_nan /\ Prim2SF y <> S754_nan /\
  lex_le (key (Prim2SF x)) (key (Prim2SF y)).
Proof. intros H. apply leb_iff in H. exact H. Qed.

Lemma add_ge (a b A B C : float) :
  zero_or_pos_finite (Prim2SF A) -> zero_or_pos_finite (Prim2SF B) ->
  pos_finite_float C ->
  (sval (Prim2SF C) <= sval (Prim2SF A) + sval (Prim2SF B))%Z ->
  (A <=? a) = true -> (B <=? b) = true -> (C <=? a + b) = true.
Proof.
  intros HA HB HC HV Ha Hb.
  apply leb_parts in Ha as (_ & Na & La). apply leb_parts in Hb as (_ & Nb & Lb).
  apply leb_iff. unfold not_nan, fkey. rewrite add_spec.
  destruct (SFadd_ge (Prim2SF a) (Prim2SF b) (Prim2SF A) (Prim2SF B) (Prim2SF C)
              (Prim2SF_valid a) (Prim2SF_valid b) Na Nb HA HB HC La Lb HV) as [N L].
  split; [|split; assumption].
  destruct HC as (p & e & E & _). rewrite E. discriminate.
Qed.

Lemma mul_ge (x A c : float) :
  pos_finite_float A -> pos_finite_float c ->
  (A <=? x) = true -> (A * c <=? x * c) = true.
Proof.
  intros HA Hc Hx. apply leb_parts in Hx as (_ & Nx & Lx).
  apply leb_iff. unfold not_nan, fkey. rewrite !mul_spec.
  destruct (SFmul_ge (Prim2SF x) (Prim2SF A) (Prim2SF c) (Prim2SF_valid x) Nx HA Hc Lx)
    as [N L].
  split; [|split; assumption].
  destruct HA as (pA & eA & EA & BA), Hc as (pc & ec & Ec & Bc). rewrite EA, Ec.
  rewrite SFmul_finite. apply finish_not_nan, rnd_nonneg; [lia|].
  apply product_input_ok; assumption.
Qed.

Lemma mul_nonneg (x c : float) :
  pos_finite_float c -> (0 <=? x) = true -> (0 <=? x * c) = true.
Proof.
  intros Hc Hx. apply leb_parts in Hx as (_ & Nx & Lx).
  change (key (Prim2SF 0)) with (0, 0, 0)%Z in Lx.
  apply leb_iff. unfold not_nan, fkey. rewrite mul_spec.
  destruct (SFmul_nonneg (Prim2SF x) (Prim2SF c) (Prim2SF_valid x) Nx Hc Lx) as [N L].
  split; [vm_compute; discriminate | split; assumption].
Qed.

Lemma sub_nonneg (A y : float) :
  pos_finite_float A -> (0 <=? y) = true -> (y <=? A) = true -> (0 <=? A - y) = true.
Proof.
  intros HA H0 Hy. apply leb_parts in H0 as (_ & Ny & L0).
  apply leb_parts in Hy as (_ & _ & Ly).
  change (key (Prim2SF 0)) with (0, 0, 0)%Z in L0.
  apply leb_iff. unfold not_nan, fkey. rewrite sub_spec.
  destruct (SFsub_nonneg (Prim2SF A) (Prim2SF y) (Prim2SF_valid y) Ny HA L0 Ly) as [N L].
  split; [vm_compute; discriminate | split; assumption].
Qed.

Lemma div_ge (x A c : float) :
  pos_finite_float A -> pos_finite_float c ->
  (A <=? x) = true -> (A / c <=? x / c) = true.
Proof.
  intros HA Hc Hx. apply leb_parts in Hx as (_ & Nx & Lx).
  apply leb_iff. unfold not_nan, fkey. rewrite !div_spec.
  destruct (SFdiv_ge (Prim2SF x) (Prim2SF A) (Prim2SF c) (Prim2SF_valid x) Nx HA Hc Lx)
    as [N L].
  split; [|split; assumption].
  destruct HA as (pA & eA & EA & BA), Hc as (pc & ec & Ec & Bc). rewrite EA, Ec.
  apply Division.SFdiv_not_nan.
Qed.

(** Rounding to an integer does not go below an integer that the
    number is not below. *)
Lemma rint_ge (n : Z) (z : float) :
  (0 < n < 2 ^ 53)%Z -> (Np.of_int n <=? z) = true -> (Np.of_int n <=? Np.rint z) = true.
Proof.
  intros Hn Hz. pose proof Hz as Hz0. apply leb_parts in Hz as (Nn & Nz & Lz).
  destruct (of_int_exact n Hn) as (pn & en & En & Bn & Vn).
  rewrite En in Lz. unfold Np.rint.
  destruct (Prim2SF z) as [sz|sz| |sz mz ez] eqn:Ez; try exact Hz0.
  destruct (Z.leb_spec 0 ez) as [Hez | Hez]; [exact Hz0|].
  cbn [key] in Lz.
  destruct sz;
    [exfalso; unfold lex_le, lex_lt in Lz; destruct Lz as [L | L]; [lia | discriminate]|].
  pose proof (Prim2SF_valid z) as Vz. rewrite Ez in Vz. cbn [valid_binary] in Vz.
  pose proof (key_le_value pn en mz ez Bn Vz Lz) as Hv. rewrite Vn in Hv.
  destruct (bounded_facts mz ez Vz) as (_ & _ & Hlo & _).
  assert (HP : (0 < 2 ^ (- ez))%Z) by (apply pow2_pos; lia).
  assert (E2 : (2 ^ 1074 = 2 ^ (- ez) * 2 ^ (ez + 1074))%Z)
    by (rewrite <- Z.pow_add_r by lia; f_equal; lia).
  pose proof (pow2_pos (ez + 1074) ltac:(lia)) as HQ.
  assert (Hq : (n <= Np.round_half_even (Z.pos mz) (2 ^ (- ez)))%Z).
  { apply rhe_lower; [exact HP|].
    rewrite E2 in Hv.
    destruct (Z_le_gt_dec (n * 2 ^ (- ez)) (Z.pos mz)) as [? | Hgt]; [assumption | exfalso].
    assert ((Z.pos mz + 1) * 2 ^ (ez + 1074) <= n * 2 ^ (- ez) * 2 ^ (ez + 1074))%Z
      by (apply Z.mul_le_mono_nonneg_r; lia).
    nia. }
  unfold Np.signed_int.
  destruct (Z.eqb_spec (Np.round_half_even (Z.pos mz) (2 ^ (- ez))) 0) as [E0 | _]; [lia|].
  apply leb_iff. unfold not_nan.
  pose proof (of_int_le n (Np.round_half_even (Z.pos mz) (2 ^ (- ez))) ltac:(lia)) as L.
  split; [rewrite En; discriminate|]. split; [|exact L].
  destruct (of_int_pos (Np.round_half_even (Z.pos mz) (2 ^ (- ez))) ltac:(lia))
    as (me & -> & Hme).
  apply finish_not_nan. lia.
Qed.

(** The score of a composite of at least one half is at least 50. *)
Lemma ai_score_ge_50 (score : float) :
  (0.5 <=? score) = true -> (50 <=? ai_score_of score) = true.
Proof.
  intros H. unfold ai_score_of, Np.round.
  change (Np.of_int (10 ^ 2)) with 100.
  assert (S1 : (0.5 * 100 <=? score * 100) = true)
    by (apply mul_ge; [pos_finite_literal | pos_finite_literal | exact H]).
  assert (S2 : (0.5 * 100 * 100 <=? score * 100 * 100) = true)
    by (apply mul_ge; [pos_finite_literal | pos_finite_literal | exact S1]).
  change (0.5 * 100 * 100) with (Np.of_int 5000) in S2.
  apply (rint_ge 5000) in S2; [|split; [lia | reflexivity]].
  change (Np.of_int 5000) with 5000 in S2.
  change 50 with (5000 / 100).
  apply div_ge; [pos_finite_literal | pos_finite_literal | exact S2].
Qed.

(** Without variation between the sentences the composite is at least
    one half: the burstiness term and the indicator are at their
    largest. *)
Lemma composite_ge_half (ttr common_ratio : float) :
  (0 <=? ttr) = true -> (ttr <=? 1) = true -> (0 <=? common_ratio) = true ->
  (0.5 <=? composite ttr 0 common_ratio 0) = true.
Proof.
  intros Ht0 Ht1 Hc. unfold composite.
  change ((1 - 0) * 0.2) with 0.2.
  change (Np.of_bool (0 <? 100) * 0.3) with 0.3.
  assert (T1 : (0 <=? (1 - ttr) * 0.3) = true).
  { apply mul_nonneg; [pos_finite_literal|].
    apply sub_nonneg; [pos_finite_literal | assumption | assumption]. }
  assert (T3 : (0 <=? common_ratio * 0.2) = true)
    by (apply mul_nonneg; [pos_finite_literal | assumption]).
  assert (B02 : (0.2 <=? 0.2) = true) by reflexivity.
  assert (B03 : (0.3 <=? 0.3) = true) by reflexivity.
  assert (P02 : pos_finite (Prim2SF 0.2)) by pos_finite_literal.
  assert (P03 : pos_finite (Prim2SF 0.3)) by pos_finite_literal.
  assert (Z0 : zero_or_pos_finite (Prim2SF 0)) by (left; reflexivity).
  assert (S1 : (0.2 <=? (1 - ttr) * 0.3 + 0.2) = true).
  { apply (add_ge _ _ 0 0.2 0.2); try assumption; try (right; assumption).
    vm_compute. discriminate. }
  assert (S2 : (0.2 <=? (1 - ttr) * 0.3 + 0.2 + common_ratio * 0.2) = true).
  { apply (add_ge _ _ 0.2 0 0.2); try assumption; try (right; assumption).
    vm_compute. discriminate. }
  apply (add_ge _ _ 0.2 0.3 0.5); try assumption; try (right; assumption).
  - pos_finite_literal.
  - vm_compute. discriminate.
Qed.

Lemma not_below_40 (s : float) : (50 <=? s) = true -> label_of s <> LABEL_HUMAN.
Proof.
  intros H.
  assert (H40 : (40 <=? s) = true) by (apply (leb_trans 40 50 s); [reflexivity | exact H]).
  apply leb_not_ltb in H40. unfold label_of. rewrite H40.
  destruct labels_distinct as (D1 & D2 & D3).
  destruct (s <? 70); congruence.
Qed.

Lemma uniform_lengths (word_tokenize : str -> list str) (sentences : list str) (k : Z) :
  Forall (fun s => len (word_tokenize s) = k) sentences ->
  sent_lengths_of word_tokenize sentences = repeat k (List.length sentences).
Proof.
  intros H. unfold sent_lengths_of. induction H as [|s t Hs Ht IH]; [reflexivity|].
  cbn [map List.length repeat]. rewrite Hs, IH. reflexivity.
Qed.

Variable sent_tokenize : str -> list str.
Variable word_tokenize : str -> list str.
Variable lower : str -> str.
Variable flesch_reading_ease : str -> float.

Local Abbreviation extract :=
  (extract_features sent_tokenize word_tokenize lower flesch_reading_ease).

(** X14: when every sentence of a text has the same number [k >= 1] of
    word tokens (fewer than [2^53] tokens in all), nothing varies: the
    burstiness and the perplexity proxy are exactly 0.  The score is then
    at least 50 (or [nan]), so such a text is never labelled as written
    by a human, whatever its words. *)
Theorem uniform_sentences_never_human (text : str) (fv : FeatureVector) (k : Z) :
  extract text = Return (Some fv) ->
  sent_tokenize text <> [] -> (0 < k)%Z ->
  Forall (fun s => len (word_tokenize s) = k) (sent_tokenize text) ->
  (len (sent_tokenize text) * k < 2 ^ 53)%Z ->
  burstiness fv = 0 /\ pseudo_perplexity fv = 0 /\
  nan_or_ge (a_ai_score (score_features fv)) 50 /\
  a_result (score_features fv) <> LABEL_HUMAN.
Proof.
  intros H Hs Hk Hall Hsize.
  destruct (extract_some_inv sent_tokenize word_tokenize lower flesch_reading_ease
              text fv H) as [Hne ->].
  assert (Hn : (0 < List.length (sent_tokenize text))%nat)
    by (destruct (sent_tokenize text); [congruence | cbn; lia]).
  assert (Eb : burstiness (features_of sent_tokenize word_tokenize lower
                             flesch_reading_ease text) = 0).
  { cbn [burstiness features_of]. rewrite (uniform_lengths _ _ k Hall).
    apply burstiness_uniform; assumption. }
  assert (Ep : pseudo_perplexity (features_of sent_tokenize word_tokenize lower
                                    flesch_reading_ease text) = 0).
  { cbn [pseudo_perplexity features_of]. rewrite (uniform_lengths _ _ k Hall).
    apply var_uniform; assumption. }
  split; [exact Eb|]. split; [exact Ep|].
  cbn [a_ai_score a_result score_features]. rewrite Eb, Ep.
  destruct (word_counts (word_tokenize (lower text)) Hne) as (Hd & Hc & _).
  cbn [ttr common_ratio features_of].
  set (t := Np.of_int (len (py_set (word_tokenize (lower text))))
            / Np.of_int (len (word_tokenize (lower text)))).
  set (c := Np.of_int (top_count (word_tokenize (lower text)))
            / Np.of_int (len (word_tokenize (lower text)))).
  assert (Ht0 : nan_or_ge t 0)
    by (apply sign_clear_nonneg, sign_clear_div; apply sign_clear_of_int; lia).
  assert (Hc0 : nan_or_ge c 0)
    by (apply sign_clear_nonneg, sign_clear_div; apply sign_clear_of_int; lia).
  assert (Ht1 : nan_or_le t 1) by (apply ratio_le_1, Hd).
  assert (Lnan : label_of nan <> LABEL_HUMAN) by (vm_compute; discriminate).
  destruct Ht0 as [Nt | Ht0].
  { apply isnan_true_eq in Nt. rewrite Nt, composite_nan_ttr, ai_score_of_nan.
    split; [left; reflexivity | exact Lnan]. }
  destruct Hc0 as [Nc | Hc0].
  { apply isnan_true_eq in Nc. rewrite Nc, composite_nan_ratio, ai_score_of_nan.
    split; [left; reflexivity | exact Lnan]. }
  destruct Ht1 as [Nt | Ht1].
  { apply leb_not_nan_r in Ht0. apply isnan_false_iff in Ht0. congruence. }
  pose proof (ai_score_ge_50 _ (composite_ge_half t c Ht0 Ht1 Hc0)) as S.
  split; [right; exact S | apply not_below_40, S].
Qed.

End UniformSentences.

Lemma uniform_sentences_never_human_witness :
  let fv := features_of Toy.sentences Toy.words Toy.lower Toy.no_readability
              SAMPLE_REPETITIVE in
  burstiness fv = 0%float /\ pseudo_perplexity fv = 0%float /\
  nan_or_ge (a_ai_score (score_features fv)) 50 /\
  a_result (score_features fv) <> LABEL_HUMAN.
Proof.
  cbv zeta.
  apply (uniform_sentences_never_human Toy.sentences Toy.words Toy.lower
           Toy.no_readability SAMPLE_REPETITIVE _ 3).
  - vm_compute. reflexivity.
  - vm_compute. discriminate.
  - lia.
  - vm_compute. repeat constructor.
  - vm_compute. reflexivity.
Defined.

(* ================================================================== *)
(** ** Sums and differences are monotone *)

Module Monotone.

Import FloatKey Rnd RndQ Rounding FloatOrder Quotient Division Signs Ratios Exact Lower.
Import Signed.
Local Open Scope Z_scope.

Lemma key_finish_neg (me : Z * Z) :
  0 <= fst me -> key (finish true me) = neg_key (key (finish false me)).
Proof.
  destruct me as [m e]. unfold finish. cbn [fst snd]. intros H.
  destruct m as [|p|p]; try lia; [reflexivity|].
  destruct (e <=? emax - prec); reflexivity.
Qed.

Lemma lex_le_neg (a b : Z * Z * Z) : lex_le a b -> lex_le (neg_key b) (neg_key a).
Proof.
  destruct a as [[a1 a2] a3], b as [[b1 b2] b3]. unfold lex_le, lex_lt, neg_key.
  intros [H | H]; [left; lia | right; injection H as -> -> ->; reflexivity].
Qed.

Lemma neg_key_involutive (k : Z * Z * Z) : neg_key (neg_key k) = k.
Proof. destruct k as [[a b] c]. unfold neg_key. repeat f_equal; lia. Qed.

Lemma key_opp (x : spec_float) : key (SFopp x) = neg_key (key x).
Proof.
  destruct x as [s|s| |s m e]; try destruct s; cbn [SFopp key negb neg_key];
    try reflexivity; repeat f_equal; lia.
Qed.

Lemma opp_finish (s : bool) (me : Z * Z) :
  0 <= fst me -> SFopp (finish s me) = finish (negb s) me.
Proof.
  destruct me as [m e]. unfold finish. cbn [fst snd]. intros H.
  destruct m as [|p|p]; try lia; [reflexivity|].
  destruct (e <=? emax - prec); reflexivity.
Qed.

Lemma key_ge_ninf (x : spec_float) : lex_le (-2, 0, 0) (key x).
Proof.
  destruct x as [s|s| |s m e]; cbn [key]; try destruct s; unfold lex_le, lex_lt;
    try (left; lia); right; reflexivity.
Qed.

Lemma key_le_pinf (x : spec_float) : lex_le (key x) (2, 0, 0).
Proof.
  destruct x as [s|s| |s m e]; cbn [key]; try destruct s; unfold lex_le, lex_lt;
    try (left; lia); right; reflexivity.
Qed.

Lemma rounds_signed_mono (r : spec_float) (V : Z) (r' : spec_float) (V' : Z) :
  rounds_signed r V -> rounds_signed r' V' -> V <= V' -> lex_le (key r) (key r').
Proof.
  intros [[E0 (s & ->)] | (s & m & e & -> & Hm & Hok & He & E)]
         [[E0' (s' & ->)] | (s' & m' & e' & -> & Hm' & Hok' & He' & E')] HV.
  - right. reflexivity.
  - pose proof (pow2_pos (e' + 1074) ltac:(lia)).
    destruct s'; cbn [cond_Zopp] in E'; [nia|].
    apply (key_finish_false (rnd m' e')), rnd_nonneg; assumption.
  - pose proof (pow2_pos (e + 1074) ltac:(lia)).
    destruct s; cbn [cond_Zopp] in E; [|nia].
    apply (key_finish_true (rnd m e)), rnd_nonneg; assumption.
  - pose proof (pow2_pos (e + 1074) ltac:(lia)) as P.
    pose proof (pow2_pos (e' + 1074) ltac:(lia)) as P'.
    pose proof (rnd_nonneg m e Hm Hok) as N.
    pose proof (rnd_nonneg m' e' Hm' Hok') as N'.
    destruct s, s'; cbn [cond_Zopp] in E, E'.
    + rewrite !key_finish_neg by assumption. apply lex_le_neg.
      apply (rnd_mono m' e' m e 1074); try assumption; lia.
    + eapply lex_le_trans; [apply key_finish_true | apply key_finish_false]; assumption.
    + nia.
    + apply (rnd_mono m e m' e' 1074); try assumption; lia.
Qed.

Lemma rounds_signed_not_nan (r : spec_float) (V : Z) : rounds_signed r V -> r <> S754_nan.
Proof.
  intros [[_ (s & ->)] | (s & m & e & -> & Hm & Hok & _)]; [discriminate|].
  apply finish_not_nan, rnd_nonneg; assumption.
Qed.

Lemma binary_normalize_signed (S e V : Z) :
  -1074 <= e -> S * 2 ^ (e + 1074) = V ->
  rounds_signed (binary_normalize prec emax S e false) V.
Proof.
  intros He HV. pose proof (pow2_pos (e + 1074) ltac:(lia)) as HP.
  destruct S as [|p|p]; cbn [binary_normalize].
  - left. split; [lia | eauto].
  - right. destruct (binary_round_eq false p e) as (m' & e' & -> & Hm & Hok & Hle & Em).
    assert (He' : -1074 <= e') by (rewrite fexp_eq in Hle; lia).
    exists false, m', e'. split; [reflexivity|]. split; [exact Hm|].
    split; [exact Hok|]. split; [exact He'|]. cbn [cond_Zopp].
    rewrite Em, <- Z.mul_assoc, <- Z.pow_add_r by lia.
    replace (e - e' + (e' + 1074)) with (e + 1074) by lia. exact HV.
  - right. destruct (binary_round_eq true p e) as (m' & e' & -> & Hm & Hok & Hle & Em).
    assert (He' : -1074 <= e') by (rewrite fexp_eq in Hle; lia).
    exists true, m', e'. split; [reflexivity|]. split; [exact Hm|].
    split; [exact Hok|]. split; [exact He'|]. cbn [cond_Zopp].
    rewrite Em, <- Z.mul_assoc, <- Z.pow_add_r by lia.
    replace (e - e' + (e' + 1074)) with (e + 1074) by lia. lia.
Qed.

Lemma rounds_signed_canonical (x : spec_float) :
  valid_binary x = true -> is_finite x -> rounds_signed x (sval x).
Proof.
  intros V F. destruct x as [s|s| |s m e]; cbn [is_finite] in F; try contradiction.
  - left. split; [reflexivity | eauto].
  - right. cbn [valid_binary] in V.
    destruct (bounded_facts m e V) as (_ & _ & He & _).
    exists s, (Z.pos m), e. split; [symmetry; apply rnd_canonical, V|].
    split; [lia|]. split; [apply bounded_input_ok, V|]. split; [lia | reflexivity].
Qed.

Lemma SFadd_rounds (x y : spec_float) :
  valid_binary x = true -> valid_binary y = true -> is_finite x -> is_finite y ->
  rounds_signed (SF64add x y) (sval x + sval y).
Proof.
  intros Vx Vy Fx Fy.
  destruct x as [sx|sx| |sx mx ex], y as [sy|sy| |sy my ey];
    cbn [is_finite] in Fx, Fy; try contradiction.
  - left. split; [reflexivity|]. destruct sx, sy; cbn; eauto.
  - change (SF64add (S754_zero sx) (S754_finite sy my ey)) with (S754_finite sy my ey).
    cbn [sval]. rewrite Z.add_0_l.
    apply (rounds_signed_canonical (S754_finite sy my ey)); [exact Vy | exact I].
  - change (SF64add (S754_finite sx mx ex) (S754_zero sy)) with (S754_finite sx mx ex).
    cbn [sval]. rewrite Z.add_0_r.
    apply (rounds_signed_canonical (S754_finite sx mx ex)); [exact Vx | exact I].
  - cbn [valid_binary] in Vx, Vy.
    destruct (bounded_facts mx ex Vx) as (_ & _ & Hea & _).
    destruct (bounded_facts my ey Vy) as (_ & _ & Heb & _).
    unfold SF64add, SFadd. apply binary_normalize_signed; [lia|].
    rewrite Z.mul_add_distr_r, !aligned_value by lia. reflexivity.
Qed.

Lemma sval_mono (x x' : spec_float) :
  valid_binary x = true -> valid_binary x' = true -> is_finite x -> is_finite x' ->
  lex_le (key x) (key x') -> sval x <= sval x'.
Proof.
  intros V V' F F' L.
  destruct x as [s|s| |s m e], x' as [s'|s'| |s' m' e'];
    cbn [is_finite] in F, F'; try contradiction; cbn [valid_binary] in V, V'.
  - cbn. lia.
  - destruct s'.
    + exfalso. cbn [key] in L. unfold lex_le, lex_lt in L.
      destruct L as [L | L]; [lia | discriminate].
    + pose proof (sval_pos m' e' V'). cbn [sval] in *. lia.
  - destruct s.
    + destruct (bounded_facts m e V) as (_ & _ & He & _).
      pose proof (pow2_pos (e + 1074) ltac:(lia)). cbn [sval cond_Zopp]. nia.
    + exfalso. cbn [key] in L. unfold lex_le, lex_lt in L.
      destruct L as [L | L]; [lia | discriminate].
  - destruct (bounded_facts m e V) as (_ & _ & He & _).
    destruct (bounded_facts m' e' V') as (_ & _ & He' & _).
    pose proof (pow2_pos (e + 1074) ltac:(lia)).
    pose proof (pow2_pos (e' + 1074) ltac:(lia)).
    destruct s, s'; cbn [sval cond_Zopp key] in *.
    + assert (L' : lex_le (1, e', Z.pos m') (1, e, Z.pos m)).
      { apply lex_le_neg in L. unfold neg_key in L.
        replace (- -1, - - e, - - Z.pos m) with (1, e, Z.pos m) in L by (repeat f_equal; lia).
        replace (- -1, - - e', - - Z.pos m') with (1, e', Z.pos m') in L by (repeat f_equal; lia).
        exact L. }
      pose proof (key_le_value m' e' m e V' V L'). lia.
    + nia.
    + exfalso. unfold lex_le, lex_lt in L. destruct L as [L | L]; [lia | discriminate].
    + apply key_le_value; assumption.
Qed.

Lemma not_inf_is_finite (x : spec_float) :
  x <> S754_nan -> x <> S754_infinity true -> x <> S754_infinity false -> is_finite x.
Proof.
  destruct x as [s|s| |s m e]; try destruct s; cbn [is_finite]; intros N I1 I2;
    try exact I; congruence.
Qed.

Lemma spec_float_eq_dec_inf (x : spec_float) (s : bool) :
  x = S754_infinity s \/ x <> S754_infinity s.
Proof.
  destruct x as [s0|s0| |s0 m e]; try (right; discriminate).
  destruct s0, s; try (left; reflexivity); right; discriminate.
Qed.

(** Addition is monotone in both terms, where it is defined. *)
Theorem SFadd_mono (a b a' b' : spec_float) :
  valid_binary a = true -> valid_binary b = true ->
  valid_binary a' = true -> valid_binary b' = true ->
  a <> S754_nan -> b <> S754_nan -> a' <> S754_nan -> b' <> S754_nan ->
  lex_le (key a) (key a') -> lex_le (key b) (key b') ->
  SF64add a b <> S754_nan -> SF64add a' b' <> S754_nan ->
  lex_le (key (SF64add a b)) (key (SF64add a' b')).
Proof.
  intros Va Vb Va' Vb' Na Nb Na' Nb' La Lb Ns Ns'.
  destruct (spec_float_eq_dec_inf a true) as [-> | Ia].
  { replace (SF64add (S754_infinity true) b) with (S754_infinity true)
      by (destruct b as [s|[|]| |s m e]; try reflexivity; try congruence;
          exfalso; apply Ns; reflexivity).
    apply key_ge_ninf. }
  destruct (spec_float_eq_dec_inf b true) as [-> | Ib].
  { replace (SF64add a (S754_infinity true)) with (S754_infinity true)
      by (destruct a as [s|[|]| |s m e]; try reflexivity; try congruence;
          exfalso; apply Ns; reflexivity).
    apply key_ge_ninf. }
  destruct (spec_float_eq_dec_inf a' false) as [-> | Ia'].
  { replace (SF64add (S754_infinity false) b') with (S754_infinity false)
      by (destruct b' as [s|[|]| |s m e]; try reflexivity; try congruence;
          exfalso; apply Ns'; reflexivity).
    apply key_le_pinf. }
  destruct (spec_float_eq_dec_inf b' false) as [-> | Ib'].
  { replace (SF64add a' (S754_infinity false)) with (S754_infinity false)
      by (destruct a' as [s|[|]| |s m e]; try reflexivity; try congruence;
          exfalso; apply Ns'; reflexivity).
    apply key_le_pinf. }
  assert (Fa : is_finite a).
  { apply not_inf_is_finite; try assumption. intros ->.
    destruct a' as [s|[|]| |s m e]; try congruence; cbn [key] in La;
      unfold lex_le, lex_lt in La; destruct La as [L | L]; try lia; try discriminate;
      destruct s; try lia; discriminate. }
  assert (Fb : is_finite b).
  { apply not_inf_is_finite; try assumption. intros ->.
    destruct b' as [s|[|]| |s m e]; try congruence; cbn [key] in Lb;
      unfold lex_le, lex_lt in Lb; destruct Lb as [L | L]; try lia; try discriminate;
      destruct s; try lia; discriminate. }
  assert (Fa' : is_finite a').
  { apply not_inf_is_finite; try assumption. intros ->.
    destruct a as [s|[|]| |s m e]; try congruence; cbn [key] in La;
      unfold lex_le, lex_lt in La; destruct La as [L | L]; try lia; try discriminate;
      destruct s; try lia; discriminate. }
  assert (Fb' : is_finite b').
  { apply not_inf_is_finite; try assumption. intros ->.
    destruct b as [s|[|]| |s m e]; try congruence; cbn [key] in Lb;
      unfold lex_le, lex_lt in Lb; destruct Lb as [L | L]; try lia; try discriminate;
      destruct s; try lia; discriminate. }
  apply (rounds_signed_mono _ _ _ _ (SFadd_rounds a b Va Vb Fa Fb)
           (SFadd_rounds a' b' Va' Vb' Fa' Fb')).
  pose proof (sval_mono a a' Va Va' Fa Fa' La).
  pose proof (sval_mono b b' Vb Vb' Fb Fb' Lb). lia.
Qed.

End Monotone.

(* ================================================================== *)
(** ** Scaling and rounding are monotone *)

Module Scaling.

Import FloatKey Rnd RndQ Rounding FloatOrder Quotient Division Signs Ratios Exact Lower.
Import Signed Monotone.
Local Open Scope Z_scope.

Lemma valid_opp (x : spec_float) : valid_binary (SFopp x) = valid_binary x.
Proof. destruct x; reflexivity. Qed.

Lemma opp_not_nan (x : spec_float) : x <> S754_nan -> SFopp x <> S754_nan.
Proof. destruct x; cbn; congruence. Qed.

Lemma opp_involutive (x : spec_float) : SFopp (SFopp x) = x.
Proof. destruct x as [s|s| |s m e]; cbn; try rewrite negb_involutive; reflexivity. Qed.

Lemma SFsub_as_add (x y : spec_float) : SF64sub x y = SF64add x (SFopp y).
Proof.
  destruct x as [sx|sx| |sx mx ex], y as [sy|sy| |sy my ey];
    try reflexivity; destruct sx, sy; reflexivity.
Qed.

(** Subtraction falls as what is subtracted grows. *)
Lemma SFsub_antitone (A y y' : spec_float) :
  valid_binary A = true -> valid_binary y = true -> valid_binary y' = true ->
  A <> S754_nan -> y <> S754_nan -> y' <> S754_nan ->
  lex_le (key y) (key y') ->
  SF64sub A y <> S754_nan -> SF64sub A y' <> S754_nan ->
  lex_le (key (SF64sub A y')) (key (SF64sub A y)).
Proof.
  intros VA Vy Vy' NA Ny Ny' L N N'. rewrite !SFsub_as_add in *.
  apply SFadd_mono; try assumption; try (rewrite valid_opp; assumption);
    try (apply opp_not_nan; assumption).
  - apply lex_le_refl.
  - rewrite !key_opp. apply lex_le_neg, L.
Qed.

(** *** Operations that commute with the sign *)

Section OddOperation.

Variable F : spec_float -> spec_float.

Hypothesis F_opp : forall x, valid_binary x = true -> F (SFopp x) = SFopp (F x).
Hypothesis F_nonneg :
  forall x, valid_binary x = true -> x <> S754_nan -> lex_le (0, 0, 0) (key x) ->
            F x <> S754_nan /\ lex_le (0, 0, 0) (key (F x)).
Hypothesis F_ge :
  forall A x, valid_binary x = true -> x <> S754_nan -> pos_finite A ->
              lex_le (key A) (key x) -> lex_le (key (F A)) (key (F x)).

Lemma odd_nonpos (x : spec_float) :
  valid_binary x = true -> x <> S754_nan -> lex_le (key x) (0, 0, 0) ->
  F x <> S754_nan /\ lex_le (key (F x)) (0, 0, 0).
Proof.
  intros V N L.
  destruct (F_nonneg (SFopp x)) as [N' L'].
  - rewrite valid_opp. exact V.
  - apply opp_not_nan, N.
  - rewrite key_opp. apply lex_le_neg in L. exact L.
  - rewrite F_opp in N', L' by exact V. split.
    + intros E. rewrite E in N'. apply N'. reflexivity.
    + rewrite key_opp in L'. apply lex_le_neg in L'.
      rewrite neg_key_involutive in L'. exact L'.
Qed.

Lemma odd_monotone_pos (x x' : spec_float) :
  valid_binary x = true -> valid_binary x' = true ->
  x <> S754_nan -> x' <> S754_nan ->
  lex_lt (0, 0, 0) (key x) -> lex_le (key x) (key x') ->
  lex_le (key (F x)) (key (F x')).
Proof.
  intros V V' N N' P L.
  destruct x as [s|s| |s m e]; try congruence; cbn [key] in P.
  - exfalso. unfold lex_lt in P. lia.
  - destruct s; [exfalso; unfold lex_lt in P; lia|].
    destruct x' as [s'|s'| |s' m' e']; try congruence; cbn [key] in L;
      try (exfalso; unfold lex_le, lex_lt in L; destruct L as [L | L];
           [try destruct s'; lia | try destruct s'; discriminate]).
    destruct s'; [exfalso; unfold lex_le, lex_lt in L; destruct L as [L | L];
                  [lia | discriminate]|].
    apply lex_le_refl.
  - destruct s; [exfalso; unfold lex_lt in P; lia|].
    apply F_ge; try assumption. exists m, e. split; [reflexivity | exact V].
Qed.

Theorem odd_monotone (x x' : spec_float) :
  valid_binary x = true -> valid_binary x' = true ->
  x <> S754_nan -> x' <> S754_nan ->
  lex_le (key x) (key x') ->
  F x <> S754_nan /\ F x' <> S754_nan /\ lex_le (key (F x)) (key (F x')).
Proof.
  intros V V' N N' L.
  assert (NF : forall y, valid_binary y = true -> y <> S754_nan -> F y <> S754_nan).
  { intros y Vy Ny. destruct (lex_total (key y) (0, 0, 0)) as [Hlt | Hge].
    - apply odd_nonpos; try assumption. left. exact Hlt.
    - apply F_nonneg; assumption. }
  split; [apply NF; assumption|]. split; [apply NF; assumption|].
  destruct (lex_total (0, 0, 0) (key x)) as [Hpos | Hnp].
  - apply odd_monotone_pos; assumption.
  - destruct (lex_total (key x') (0, 0, 0)) as [Hneg' | Hnn'].
    + (* both negative: mirror *)
      assert (M : lex_le (key (F (SFopp x'))) (key (F (SFopp x)))).
      { apply odd_monotone_pos; try (rewrite valid_opp; assumption);
          try (apply opp_not_nan; assumption).
        - rewrite key_opp. destruct (key x') as [[a b] c].
          unfold neg_key, lex_lt in *. lia.
        - rewrite !key_opp. apply lex_le_neg, L. }
      rewrite !F_opp, !key_opp in M by assumption.
      apply lex_le_neg in M. rewrite !neg_key_involutive in M. exact M.
    + eapply lex_le_trans.
      * apply odd_nonpos; assumption.
      * apply F_nonneg; assumption.
Qed.

End OddOperation.

(** *** Multiplication and division by a positive finite number *)

Lemma SFmul_opp_l (x c : spec_float) :
  valid_binary x = true -> pos_finite c ->
  SF64mul (SFopp x) c = SFopp (SF64mul x c).
Proof.
  intros V (pc & ec & -> & Hc).
  destruct x as [s|s| |s m e]; try (destruct s; reflexivity); try reflexivity.
  cbn [SFopp]. rewrite !SFmul_finite. rewrite opp_finish.
  - destruct s; reflexivity.
  - apply rnd_nonneg; [lia | apply product_input_ok; assumption].
Qed.

Theorem SFmul_mono (x x' c : spec_float) :
  valid_binary x = true -> valid_binary x' = true ->
  x <> S754_nan -> x' <> S754_nan -> pos_finite c ->
  lex_le (key x) (key x') ->
  SF64mul x c <> S754_nan /\ SF64mul x' c <> S754_nan /\
  lex_le (key (SF64mul x c)) (key (SF64mul x' c)).
Proof.
  intros V V' N N' Hc L.
  apply (odd_monotone (fun y => SF64mul y c)); try assumption.
  - intros y Vy. apply SFmul_opp_l; assumption.
  - intros y Vy Ny Ly. apply SFmul_nonneg; assumption.
  - intros A y Vy Ny HA LA. apply SFmul_ge; assumption.
Qed.

Lemma SFdiv_opp_l (x c : spec_float) :
  valid_binary x = true -> pos_finite c ->
  SF64div (SFopp x) c = SFopp (SF64div x c).
Proof.
  intros V (pc & ec & -> & Hc).
  destruct x as [s|s| |s m e]; try (destruct s; reflexivity); try reflexivity.
  cbn [SFopp]. rewrite !SFdiv_finite. rewrite opp_finish.
  - destruct s; reflexivity.
  - destruct (div_core_spec (Z.pos m) e (Z.pos pc) ec) as (_ & HN & _); try lia.
    apply rndq_nonneg; [lia | exact HN | apply div_input_okq; lia].
Qed.

Lemma SFdiv_nonneg (x c : spec_float) :
  valid_binary x = true -> x <> S754_nan -> pos_finite c ->
  lex_le (0, 0, 0) (key x) ->
  SF64div x c <> S754_nan /\ lex_le (0, 0, 0) (key (SF64div x c)).
Proof.
  intros Vx Nx (pc & ec & -> & Hc) Lx.
  destruct (key_nonneg_cases x Nx Lx) as [(s & ->) | [-> | (p & e & ->)]].
  - cbn [SF64div SFdiv]. split; [discriminate | right; reflexivity].
  - cbn [SF64div SFdiv xorb]. split; [discriminate | left; cbn; unfold lex_lt; lia].
  - destruct (SFdiv_not_nan false p e false pc ec) as (N & me & E & Hme).
    split; [exact N|]. rewrite E. apply key_finish_false, Hme.
Qed.

Theorem SFdiv_mono_num (x x' c : spec_float) :
  valid_binary x = true -> valid_binary x' = true ->
  x <> S754_nan -> x' <> S754_nan -> pos_finite c ->
  lex_le (key x) (key x') ->
  SF64div x c <> S754_nan /\ SF64div x' c <> S754_nan /\
  lex_le (key (SF64div x c)) (key (SF64div x' c)).
Proof.
  intros V V' N N' Hc L.
  apply (odd_monotone (fun y => SF64div y c)); try assumption.
  - intros y Vy. apply SFdiv_opp_l; assumption.
  - intros y Vy Ny Ly. apply SFdiv_nonneg; assumption.
  - intros A y Vy Ny HA LA. apply SFdiv_ge; assumption.
Qed.

End Scaling.

(* ================================================================== *)
(** ** Rounding to an integer is monotone *)

Module Rint.

Import FloatKey Rnd RndQ Rounding FloatOrder Quotient Division Signs Ratios Exact Lower.
Import Signed Monotone Scaling.
Local Open Scope Z_scope.

Lemma rint_spec (z : float) : Prim2SF (Np.rint z) = SFrint (Prim2SF z).
Proof.
  unfold Np.rint, SFrint.
  destruct (Prim2SF z) as [s|s| |s m e] eqn:E; try exact E.
  destruct (0 <=? e); [exact E | reflexivity].
Qed.

Lemma of_int_opp (q : Z) :
  0 < q -> Prim2SF (Np.of_int (- q)) = SFopp (Prim2SF (Np.of_int q)).
Proof.
  intros Hq. rewrite !of_int_spec.
  destruct q as [|p|p]; try lia. cbn [Z.opp binary_normalize].
  destruct (binary_round_eq true p 0) as (m' & e' & E1 & Hm & Hok & He & Em).
  destruct (binary_round_eq false p 0) as (m2 & e2 & E2 & _ & _ & He2 & Em2).
  assert (Ee : e2 = e') by congruence.
  assert (Emm : m2 = m') by (rewrite Em, Em2, Ee; reflexivity).
  rewrite E1, E2, Ee, Emm.
  rewrite opp_finish by (apply rnd_nonneg; assumption). reflexivity.
Qed.

Lemma signed_int_opp (s : bool) (q : Z) :
  0 <= q ->
  Prim2SF (Np.signed_int (negb s) q) = SFopp (Prim2SF (Np.signed_int s q)).
Proof.
  intros Hq. unfold Np.signed_int.
  destruct (Z.eqb_spec q 0) as [-> | Hne]; [destruct s; reflexivity|].
  destruct s; cbn [negb].
  - rewrite of_int_opp by lia. rewrite opp_involutive. reflexivity.
  - apply of_int_opp. lia.
Qed.

Lemma SFrint_opp (x : spec_float) : SFrint (SFopp x) = SFopp (SFrint x).
Proof.
  destruct x as [s|s| |s m e]; try reflexivity. cbn [SFopp SFrint].
  destruct (Z.leb_spec 0 e); [reflexivity|].
  apply signed_int_opp, rhe_lower; [apply pow2_pos|]; lia.
Qed.

Lemma signed_int_nonneg (q : Z) :
  0 <= q ->
  Prim2SF (Np.signed_int false q) <> S754_nan /\
  lex_le (0, 0, 0) (key (Prim2SF (Np.signed_int false q))).
Proof.
  intros Hq. unfold Np.signed_int.
  destruct (Z.eqb_spec q 0) as [-> | Hne].
  - split; [discriminate | right; reflexivity].
  - destruct (of_int_pos q ltac:(lia)) as (me & -> & Hme).
    split; [apply finish_not_nan; lia | apply key_finish_false; lia].
Qed.

Lemma SFrint_nonneg (x : spec_float) :
  x <> S754_nan -> lex_le (0, 0, 0) (key x) ->
  SFrint x <> S754_nan /\ lex_le (0, 0, 0) (key (SFrint x)).
Proof.
  intros N L.
  destruct (key_nonneg_cases x N L) as [(s & ->) | [-> | (p & e & ->)]];
    cbn [SFrint]; try (split; assumption).
  destruct (Z.leb_spec 0 e); [split; assumption|].
  apply signed_int_nonneg, rhe_lower; [apply pow2_pos|]; lia.
Qed.

(** A finite float with a negative exponent is below [2^52]; one with
    another exponent is an integer of at least [2^52]. *)
Lemma fraction_below (m : positive) (e : Z) :
  bounded prec emax m e = true -> e < 0 ->
  Np.round_half_even (Z.pos m) (2 ^ (- e)) <= 2 ^ 52.
Proof.
  intros B He. destruct (bounded_facts m e B) as (_ & _ & _ & Hm & _).
  apply rhe_upper_le; [apply pow2_pos; lia|].
  assert (2 * 2 ^ 52 <= 2 ^ 52 * 2 ^ (- e)).
  { rewrite (Z.mul_comm 2). apply Z.mul_le_mono_nonneg_l; [lia|].
    change 2 with (2 ^ 1) at 1. apply Z.pow_le_mono_r; lia. }
  change (2 ^ 53) with (2 * 2 ^ 52) in Hm. lia.
Qed.

Lemma integer_above (m : positive) (e : Z) :
  bounded prec emax m e = true -> 0 <= e ->
  lex_le (key SF_ONE) (key (S754_finite false m e)) /\
  2 ^ 52 * 2 ^ 1074 <= Z.pos m * 2 ^ (e + 1074).
Proof.
  intros B He. destruct (bounded_facts m e B) as (_ & _ & _ & _ & Hn).
  specialize (Hn ltac:(lia)). split.
  - cbn [key SF_ONE]. left. unfold lex_lt. lia.
  - rewrite (Z.pow_add_r 2 e 1074) by lia.
    pose proof (pow2_pos e He). pose proof (pow2_pos 1074 ltac:(lia)). nia.
Qed.

Lemma signed_int_le (q q' : Z) :
  0 <= q <= q' ->
  lex_le (key (Prim2SF (Np.signed_int false q))) (key (Prim2SF (Np.signed_int false q'))).
Proof.
  intros H. unfold Np.signed_int.
  destruct (Z.eqb_spec q 0) as [-> | Hne].
  - apply (signed_int_nonneg q'). lia.
  - destruct (Z.eqb_spec q' 0) as [-> | Hne']; [lia|].
    apply of_int_le. lia.
Qed.

Lemma SFrint_ge (A x : spec_float) :
  valid_binary x = true -> x <> S754_nan -> pos_finite A ->
  lex_le (key A) (key x) -> lex_le (key (SFrint A)) (key (SFrint x)).
Proof.
  intros Vx Nx (pA & eA & -> & BA) L.
  assert (L0 : lex_le (0, 0, 0) (key x)).
  { eapply lex_le_trans; [|exact L]. left. cbn. unfold lex_lt. lia. }
  destruct (key_nonneg_cases x Nx L0) as [(s & ->) | [-> | (p & e & ->)]].
  - exfalso. cbn [key] in L. unfold lex_le, lex_lt in L.
    destruct L as [L | L]; [lia | discriminate].
  - cbn [SFrint]. apply key_le_pinf.
  - cbn [valid_binary] in Vx.
    pose proof (key_le_value pA eA p e BA Vx L) as Hv.
    destruct (bounded_facts pA eA BA) as (_ & _ & HeA & _).
    destruct (bounded_facts p e Vx) as (_ & _ & Hep & _).
    cbn [SFrint].
    destruct (Z.leb_spec 0 eA) as [HA | HA], (Z.leb_spec 0 e) as [Hx | Hx].
    + exact L.
    + (* an integer of at least 2^52 below a number below 2^52 *)
      exfalso.
      destruct (integer_above pA eA BA HA) as [_ HvA].
      destruct (bounded_facts p e Vx) as (_ & _ & _ & Hm & _).
      assert (Z.pos p * 2 ^ (e + 1074) < 2 ^ 52 * 2 ^ 1074).
      { assert (E : 2 ^ 1074 = 2 ^ (- e) * 2 ^ (e + 1074))
          by (rewrite <- Z.pow_add_r by lia; f_equal; lia).
        pose proof (pow2_pos (e + 1074) ltac:(lia)).
        assert (2 <= 2 ^ (- e)).
        { change 2 with (2 ^ 1) at 1. apply Z.pow_le_mono_r; lia. }
        change (2 ^ 53) with (2 * 2 ^ 52) in Hm.
        rewrite E. nia. }
      lia.
    + (* a rounded fraction is at most 2^52 *)
      pose proof (fraction_below pA eA BA HA) as Hq.
      assert (H0 : 0 <= Np.round_half_even (Z.pos pA) (2 ^ (- eA)))
        by (apply rhe_lower; [apply pow2_pos|]; lia).
      eapply lex_le_trans; [apply (signed_int_le _ (2 ^ 52)); lia|].
      replace (key (Prim2SF (Np.signed_int false (2 ^ 52)))) with (key SF_ONE_52).
      * apply value_le_key; try assumption; [reflexivity|].
        destruct (integer_above p e Vx Hx) as [_ Hi].
        change (4503599627370496 * 2 ^ (0 + 1074)) with (2 ^ 52 * 2 ^ 1074). exact Hi.
      * vm_compute. reflexivity.
    + apply signed_int_le. split; [apply rhe_lower; [apply pow2_pos|]; lia|].
      apply rhe_mono; try (apply pow2_pos; lia).
      apply (scaled_cross (Z.pos pA) eA (Z.pos p) e 1074 0); try lia.
Qed.

Theorem SFrint_mono (x x' : spec_float) :
  valid_binary x = true -> valid_binary x' = true ->
  x <> S754_nan -> x' <> S754_nan ->
  lex_le (key x) (key x') ->
  SFrint x <> S754_nan /\ SFrint x' <> S754_nan /\
  lex_le (key (SFrint x)) (key (SFrint x')).
Proof.
  intros V V' N N' L.
  apply (odd_monotone SFrint); try assumption.
  - intros y _. apply SFrint_opp.
  - intros y _ Ny Ly. apply SFrint_nonneg; assumption.
  - intros A y Vy Ny HA LA. apply SFrint_ge; assumption.
Qed.

End Rint.

(* ================================================================== *)
(** ** The score follows the features *)

Section ScoreMonotone.

Import FloatKey Rnd Rounding FloatOrder Signs Ratios Exact Lower.
Import Signed Monotone Scaling Rint.
Local Open Scope float_scope.

Lemma add_mono (a b a' b' : float) :
  (a <=? a') = true -> (b <=? b') = true ->
  not_nan (a + b) -> not_nan (a' + b') -> (a + b <=? a' + b') = true.
Proof.
  intros Ha Hb N N'.
  apply leb_parts in Ha as (Na & Na' & La). apply leb_parts in Hb as (Nb & Nb' & Lb).
  apply leb_iff. split; [exact N|]. split; [exact N'|].
  unfold not_nan, fkey in *. rewrite !add_spec in *.
  apply SFadd_mono; try assumption; apply Prim2SF_valid.
Qed.

Lemma sub_antitone (A y y' : float) :
  pos_finite_float A -> (y <=? y') = true -> (A - y' <=? A - y) = true.
Proof.
  intros (pA & eA & EA & BA) Hy. apply leb_parts in Hy as (Ny & Ny' & Ly).
  assert (NS : forall z, Prim2SF z <> S754_nan -> Prim2SF (A - z) <> S754_nan).
  { intros z Nz. rewrite sub_spec, EA, SFsub_as_add.
    destruct (Prim2SF z) as [s|s| |s m e] eqn:Ez; try congruence; try discriminate.
    pose proof (Prim2SF_valid z) as Vz. rewrite Ez in Vz.
    apply (rounds_signed_not_nan _ _
             (SFadd_rounds (S754_finite false pA eA) (SFopp (S754_finite s m e))
                BA Vz I I)). }
  apply leb_iff. unfold not_nan, fkey.
  split; [apply NS, Ny'|]. split; [apply NS, Ny|].
  pose proof (NS y Ny) as N1. pose proof (NS y' Ny') as N2.
  rewrite !sub_spec in *.
  apply SFsub_antitone; try assumption; try apply Prim2SF_valid.
  rewrite EA. discriminate.
Qed.

Lemma mul_mono (x x' c : float) :
  pos_finite_float c -> (x <=? x') = true -> (x * c <=? x' * c) = true.
Proof.
  intros Hc Hx. apply leb_parts in Hx as (N & N' & L).
  apply leb_iff. unfold not_nan, fkey. rewrite !mul_spec.
  apply SFmul_mono; try assumption; apply Prim2SF_valid.
Qed.

Lemma div_mono (x x' c : float) :
  pos_finite_float c -> (x <=? x') = true -> (x / c <=? x' / c) = true.
Proof.
  intros Hc Hx. apply leb_parts in Hx as (N & N' & L).
  apply leb_iff. unfold not_nan, fkey. rewrite !div_spec.
  apply SFdiv_mono_num; try assumption; apply Prim2SF_valid.
Qed.

Lemma rint_mono (z z' : float) :
  (z <=? z') = true -> (Np.rint z <=? Np.rint z') = true.
Proof.
  intros Hz. apply leb_parts in Hz as (N & N' & L).
  apply leb_iff. unfold not_nan, fkey. rewrite !rint_spec.
  apply SFrint_mono; try assumption; apply Prim2SF_valid.
Qed.

(** The score grows with the composite. *)
Lemma ai_score_mono (s s' : float) :
  (s <=? s') = true -> (ai_score_of s <=? ai_score_of s') = true.
Proof.
  intros H. unfold ai_score_of, Np.round.
  change (Np.of_int (10 ^ 2)) with 100.
  apply div_mono; [pos_finite_literal|].
  apply rint_mono.
  apply mul_mono; [pos_finite_literal|].
  apply mul_mono; [pos_finite_literal | exact H].
Qed.

(** The label follows the score. *)
Lemma label_rank_mono (s s' : float) :
  (s <=? s') = true -> (label_rank (label_of s) <= label_rank (label_of s'))%Z.
Proof.
  intros H. unfold label_of.
  destruct (s' <? 40) eqn:E40'.
  - rewrite (leb_ltb_trans s s' 40 H E40'). reflexivity.
  - destruct (s' <? 70) eqn:E70'.
    + rewrite (leb_ltb_trans s s' 70 H E70').
      destruct (s <? 40); vm_compute; discriminate.
    + destruct (s <? 40); [|destruct (s <? 70)]; vm_compute; discriminate.
Qed.

(** A sum with a term between 0 and a finite bound is a number. *)
Lemma add_bounded_not_nan_l (a b A : float) :
  pos_finite_float A -> (0 <=? a) = true -> (a <=? A) = true -> not_nan b ->
  not_nan (a + b).
Proof.
  intros (pA & eA & EA & BA) H0 HA Nb.
  apply leb_parts in H0 as (_ & Na & L0). apply leb_parts in HA as (_ & _ & LA).
  change (key (Prim2SF 0)) with (0, 0, 0)%Z in L0. rewrite EA in LA.
  unfold not_nan in *. rewrite add_spec.
  pose proof (Prim2SF_valid a) as Va. pose proof (Prim2SF_valid b) as Vb.
  destruct (key_nonneg_cases _ Na L0) as [(s & Ea) | [Ea | (p & e & Ea)]];
    rewrite Ea in *.
  - destruct (Prim2SF b) as [sb|sb| |sb mb eb]; try congruence; try discriminate.
    destruct s, sb; discriminate.
  - exfalso. cbn [key] in LA. unfold lex_le, lex_lt in LA.
    destruct LA as [L | L]; [lia | discriminate].
  - destruct (Prim2SF b) as [sb|sb| |sb mb eb] eqn:Eb; try congruence; try discriminate.
    apply (rounds_signed_not_nan _ _
             (SFadd_rounds (S754_finite false p e) (S754_finite sb mb eb) Va Vb I I)).
Qed.

Lemma add_bounded_not_nan_r (a b B : float) :
  pos_finite_float B -> (0 <=? b) = true -> (b <=? B) = true -> not_nan a ->
  not_nan (a + b).
Proof.
  intros (pB & eB & EB & BB) H0 HB Na.
  apply leb_parts in H0 as (_ & Nb & L0). apply leb_parts in HB as (_ & _ & LB).
  change (key (Prim2SF 0)) with (0, 0, 0)%Z in L0. rewrite EB in LB.
  unfold not_nan in *. rewrite add_spec.
  pose proof (Prim2SF_valid a) as Va. pose proof (Prim2SF_valid b) as Vb.
  destruct (key_nonneg_cases _ Nb L0) as [(s & Eb) | [Eb | (p & e & Eb)]];
    rewrite Eb in *.
  - destruct (Prim2SF a) as [sa|sa| |sa ma ea]; try congruence; try discriminate.
    destruct s, sa; discriminate.
  - exfalso. cbn [key] in LB. unfold lex_le, lex_lt in LB.
    destruct LB as [L | L]; [lia | discriminate].
  - destruct (Prim2SF a) as [sa|sa| |sa ma ea] eqn:Ea; try congruence; try discriminate.
    apply (rounds_signed_not_nan _ _
             (SFadd_rounds (S754_finite sa ma ea) (S754_finite false p e) Va Vb I I)).
Qed.

(** The term of a ratio in [0, 1] with a positive weight. *)
Lemma weighted_between (x w : float) :
  pos_finite_float w -> (0 <=? x) = true -> (x <=? 1) = true ->
  (0 <=? x * w) = true /\ (x * w <=? 1 * w) = true.
Proof.
  intros Hw H0 H1. split.
  - apply mul_nonneg; assumption.
  - apply mul_le; [pos_finite_literal | exact Hw | exact H1].
Qed.

Lemma composite_mono (t t' b b' c c' p p' : float) :
  (0 <=? t') = true -> (t' <=? t) = true -> (t <=? 1) = true ->
  (0 <=? b') = true -> (b' <=? b) = true ->
  (0 <=? c) = true -> (c <=? c') = true -> (c' <=? 1) = true ->
  ((p <? 100) = true -> (p' <? 100) = true) ->
  (composite t b c p <=? composite t' b' c' p') = true.
Proof.
  intros Ht0 Htt Ht1 Hb0 Hbb Hc0 Hcc Hc1 Hp. unfold composite.
  assert (P1 : pos_finite_float 1) by pos_finite_literal.
  assert (P03 : pos_finite_float 0.3) by pos_finite_literal.
  assert (P02 : pos_finite_float 0.2) by pos_finite_literal.
  assert (Ht0' : (0 <=? t) = true) by (apply (leb_trans 0 t' t); assumption).
  assert (Ht1' : (t' <=? 1) = true) by (apply (leb_trans t' t 1); assumption).
  assert (Hc0' : (0 <=? c') = true) by (apply (leb_trans 0 c c'); assumption).
  assert (Hc1' : (c <=? 1) = true) by (apply (leb_trans c c' 1); assumption).
  (* the four terms *)
  assert (T1 : ((1 - t) * 0.3 <=? (1 - t') * 0.3) = true)
    by (apply mul_mono; [exact P03|]; apply sub_antitone; assumption).
  assert (T2 : ((1 - b) * 0.2 <=? (1 - b') * 0.2) = true)
    by (apply mul_mono; [exact P02|]; apply sub_antitone; assumption).
  assert (T3 : (c * 0.2 <=? c' * 0.2) = true) by (apply mul_mono; assumption).
  assert (T4 : (Np.of_bool (p <? 100) * 0.3 <=? Np.of_bool (p' <? 100) * 0.3) = true).
  { destruct (p <? 100); [rewrite (Hp eq_refl); reflexivity|].
    destruct (p' <? 100); reflexivity. }
  (* the first term lies between 0 and 0.3 *)
  assert (B1 : forall x, (0 <=? x) = true -> (x <=? 1) = true ->
                 (0 <=? (1 - x) * 0.3) = true /\ ((1 - x) * 0.3 <=? 1 * 0.3) = true).
  { intros x H0 H1. apply weighted_between; [exact P03 | |].
    - apply sub_nonneg; assumption.
    - apply sub_le; assumption. }
  destruct (B1 t Ht0' Ht1) as [B1a B1b]. destruct (B1 t' Ht0 Ht1') as [B1a' B1b'].
  destruct (weighted_between c 0.2 P02 Hc0 Hc1') as [B3a B3b].
  destruct (weighted_between c' 0.2 P02 Hc0' Hc1) as [B3a' B3b'].
  assert (B4 : forall q, (0 <=? Np.of_bool (q <? 100) * 0.3) = true /\
                         (Np.of_bool (q <? 100) * 0.3 <=? 0.3) = true)
    by (intros q; destruct (q <? 100); split; reflexivity).
  assert (PW3 : pos_finite_float (1 * 0.3)) by pos_finite_literal.
  assert (PW2 : pos_finite_float (1 * 0.2)) by pos_finite_literal.
  (* the sums, left to right *)
  assert (S1 : ((1 - t) * 0.3 + (1 - b) * 0.2 <=? (1 - t') * 0.3 + (1 - b') * 0.2) = true).
  { apply add_mono; try assumption.
    - apply (add_bounded_not_nan_l _ _ (1 * 0.3)); try assumption.
      apply leb_not_nan_l in T2. exact T2.
    - apply (add_bounded_not_nan_l _ _ (1 * 0.3)); try assumption.
      apply leb_not_nan_r in T2. exact T2. }
  assert (S2 : ((1 - t) * 0.3 + (1 - b) * 0.2 + c * 0.2
                <=? (1 - t') * 0.3 + (1 - b') * 0.2 + c' * 0.2) = true).
  { apply add_mono; try assumption.
    - apply (add_bounded_not_nan_r _ _ (1 * 0.2)); try assumption.
      apply leb_not_nan_l in S1. exact S1.
    - apply (add_bounded_not_nan_r _ _ (1 * 0.2)); try assumption.
      apply leb_not_nan_r in S1. exact S1. }
  apply add_mono; try assumption.
  - apply (add_bounded_not_nan_r _ _ 0.3); try apply B4; try assumption.
    apply leb_not_nan_l in S2. exact S2.
  - apply (add_bounded_not_nan_r _ _ 0.3); try apply B4; try assumption.
    apply leb_not_nan_r in S2. exact S2.
Qed.

(** X15: the score follows the features in the direction the program's
    comments give: with diversity and burstiness not higher, repetition
    not lower and the perplexity indicator not lost (all within the
    ranges of the extractor), the composite, the score and the label
    are not lower. *)
Theorem score_follows_features (t t' b b' c c' p p' : float) :
  (0 <=? t') = true -> (t' <=? t) = true -> (t <=? 1) = true ->
  (0 <=? b') = true -> (b' <=? b) = true ->
  (0 <=? c) = true -> (c <=? c') = true -> (c' <=? 1) = true ->
  ((p <? 100) = true -> (p' <? 100) = true) ->
  let s := ai_score_of (composite t b c p) in
  let s' := ai_score_of (composite t' b' c' p') in
  (composite t b c p <=? composite t' b' c' p') = true /\
  (s <=? s') = true /\
  (label_rank (label_of s) <= label_rank (label_of s'))%Z.
Proof.
  intros Ht0 Htt Ht1 Hb0 Hbb Hc0 Hcc Hc1 Hp s s'.
  pose proof (composite_mono t t' b b' c c' p p' Ht0 Htt Ht1 Hb0 Hbb Hc0 Hcc Hc1 Hp) as C.
  pose proof (ai_score_mono _ _ C) as S.
  split; [exact C|]. split; [exact S | apply label_rank_mono, S].
Qed.

Variable sent_tokenize : str -> list str.
Variable word_tokenize : str -> list str.
Variable lower : str -> str.
Variable flesch_reading_ease : str -> float.

Local Abbreviation extract :=
  (extract_features sent_tokenize word_tokenize lower flesch_reading_ease).

(** X16: a score leaves the range from 0 to 100 only through a
    burstiness above 1 (or a [nan]): for a text of at most [2^1023]
    word tokens whose burstiness is at most 1, the score is in range. *)
Theorem score_in_range_when_burstiness_at_most_1 (text : str) (fv : FeatureVector) :
  extract text = Return (Some fv) ->
  (len (word_tokenize (lower text)) <= 2 ^ 1023)%Z ->
  (burstiness fv <=? 1) = true ->
  in_range (a_ai_score (score_features fv)).
Proof.
  intros H Hn Hb.
  destruct (extract_some_inv sent_tokenize word_tokenize lower flesch_reading_ease
              text fv H) as [Hne E].
  destruct (word_counts (word_tokenize (lower text)) Hne) as (Hd & Hc & _).
  destruct (ratio_in_unit_interval _ _ Hd Hn) as [T0 T1].
  destruct (ratio_in_unit_interval _ _ Hc Hn) as [C0 C1].
  destruct (feature_signs sent_tokenize word_tokenize lower flesch_reading_ease
              text Hne) as (Hb0 & _).
  rewrite <- E in Hb0.
  assert (Et : ttr fv = Np.of_int (len (py_set (word_tokenize (lower text))))
                        / Np.of_int (len (word_tokenize (lower text))))
    by (rewrite E; reflexivity).
  assert (Ec : common_ratio fv = Np.of_int (top_count (word_tokenize (lower text)))
                                 / Np.of_int (len (word_tokenize (lower text))))
    by (rewrite E; reflexivity).
  rewrite <- Et in T0, T1. rewrite <- Ec in C0, C1.
  apply ltb_leb in T0. apply ltb_leb in C0.
  assert (Hb0' : (0 <=? burstiness fv) = true).
  { destruct Hb0 as [Nb | Hb0]; [|exact Hb0].
    apply leb_not_nan_l, isnan_false_iff in Hb. congruence. }
  cbn [a_ai_score score_features]. split.
  - assert (M : (composite 1 1 0 100
                 <=? composite (ttr fv) (burstiness fv) (common_ratio fv)
                       (pseudo_perplexity fv)) = true).
    { apply composite_mono; try assumption; try reflexivity. discriminate. }
    apply ai_score_mono in M. exact M.
  - apply ai_score_le_100, composite_le_1; assumption.
Qed.

End ScoreMonotone.

Lemma score_follows_features_witness :
  (composite 0.9 0.8 0.1 150 <=? composite 0.5 0.2 0.4 20)%float = true /\
  (ai_score_of (composite 0.9 0.8 0.1 150)
   <=? ai_score_of (composite 0.5 0.2 0.4 20))%float = true /\
  (label_rank (label_of (ai_score_of (composite 0.9 0.8 0.1 150)))
   <= label_rank (label_of (ai_score_of (composite 0.5 0.2 0.4 20))))%Z.
Proof.
  apply (score_follows_features 0.9 0.5 0.8 0.2 0.1 0.4 150 20);
    try reflexivity.
Defined.

Lemma score_in_range_when_burstiness_at_most_1_witness :
  in_range
    (a_ai_score
       (score_features
          (features_of Toy.sentences Toy.words Toy.lower Toy.no_readability
             SAMPLE_REPETITIVE))).
Proof.
  apply (score_in_range_when_burstiness_at_most_1 Toy.sentences Toy.words Toy.lower
           Toy.no_readability SAMPLE_REPETITIVE).
  - vm_compute. reflexivity.
  - apply Z.leb_le. vm_compute. reflexivity.
  - vm_compute. reflexivity.
Defined.

(* ================================================================== *)
(** ** The summary stays within the bounds of the scores *)

Section SummaryBounds.

Import FloatKey Rnd Rounding FloatOrder Signs Ratios Exact Lower.
Import Signed Monotone Scaling Rint.
Local Open Scope float_scope.

(** What is at most a finite number is not [+inf]. *)
Lemma below_finite (a A : float) :
  (a <=? A) = true -> Prim2SF A <> S754_infinity false ->
  Prim2SF a <> S754_nan /\ Prim2SF a <> S754_infinity false.
Proof.
  intros Ha HA. apply leb_parts in Ha as (Na & NA & La).
  split; [exact Na|]. intros E. rewrite E in La.
  destruct (Prim2SF A) as [s|s| |s m e]; try congruence;
    cbn [key] in La; unfold lex_le, lex_lt in La.
  - destruct La as [L | L]; [lia | discriminate].
  - destruct s; [|congruence]. destruct La as [L | L]; [lia | discriminate].
  - destruct s; (destruct La as [L | L]; [lia | discriminate]).
Qed.

(** A sum of two numbers that are not [+inf] is a number. *)
Lemma add_not_nan_of_upper (a b A B : float) :
  Prim2SF A <> S754_infinity false -> Prim2SF B <> S754_infinity false ->
  (a <=? A) = true -> (b <=? B) = true -> not_nan (a + b).
Proof.
  intros HA HB Ha Hb.
  destruct (below_finite a A Ha HA) as [Na Ia].
  destruct (below_finite b B Hb HB) as [Nb Ib].
  unfold not_nan. rewrite add_spec.
  pose proof (Prim2SF_valid a) as Va. pose proof (Prim2SF_valid b) as Vb.
  destruct (Prim2SF a) as [sa|sa| |sa ma ea], (Prim2SF b) as [sb|sb| |sb mb eb];
    try congruence; try discriminate;
    try (destruct sa; [|congruence]); try (destruct sb; [|congruence]);
    try discriminate.
  - destruct sa, sb; discriminate.
  - apply (rounds_signed_not_nan _ _
             (SFadd_rounds (S754_finite sa ma ea) (S754_finite sb mb eb) Va Vb I I)).
Qed.

Lemma of_int_pos_finite (n : Z) :
  (1 <= n <= 2 ^ 1023)%Z -> pos_finite_float (Np.of_int n).
Proof.
  intros H. destruct (of_int_bounds n H) as (p & e & E & B & _).
  exists p, e. auto.
Qed.

Lemma of_int_number (n : Z) :
  (0 <= n < 2 ^ 53)%Z ->
  Prim2SF (Np.of_int n) <> S754_nan /\ Prim2SF (Np.of_int n) <> S754_infinity false.
Proof.
  intros H. destruct (Z.eq_dec n 0) as [-> | Hn].
  - split; discriminate.
  - destruct (of_int_exact n ltac:(lia)) as (p & e & -> & _). split; discriminate.
Qed.

(** The weight of a score in the bound of the sum: 100 for a number,
    nothing for a missing value. *)
Lemma weight_of_numbers (col : list float) :
  weight (fun x => if Np.isnan x then 0 else 100)%Z col = (100 * len (Pd.dropna col))%Z.
Proof.
  unfold Pd.dropna. induction col as [|x col IH]; [reflexivity|].
  change (weight (fun x => if Np.isnan x then 0 else 100)%Z (x :: col))
    with ((if Np.isnan x then 0 else 100)
          + weight (fun x => if Np.isnan x then 0 else 100)%Z col)%Z.
  rewrite IH. cbn [filter]. destruct (Np.isnan x); cbn [negb]; [lia|].
  unfold len. cbn [List.length]. lia.
Qed.

(** Scores of at most 100 sum to at most 100 times their number, in
    whatever order they are added. *)
Lemma sum_le_hundreds (col : list float) :
  Forall (fun x => nan_or_le x 100) col ->
  (100 * len (Pd.dropna col) < 2 ^ 53)%Z ->
  (Np.sum (Pd.fill_zero col) <=? Np.of_int (100 * len (Pd.dropna col))) = true.
Proof.
  intros Hall Hsize. rewrite <- weight_of_numbers in *.
  pose proof (sum_invariant float (fun x => if Np.isnan x then 0 else x)
                (fun x => if Np.isnan x then 0 else 100)%Z
                (fun V x => (0 <= V)%Z /\ ((V < 2 ^ 53)%Z -> (x <=? Np.of_int V) = true))
                col) as H.
  destruct H as [[_ H] _].
  - intros x Hx. rewrite Forall_forall in Hall. specialize (Hall x Hx).
    destruct (Np.isnan x) eqn:E; (split; [lia | intros _]).
    + reflexivity.
    + destruct Hall as [Hn | Hle]; [congruence | exact Hle].
  - intros V W a b [HV Ha] [HW Hb]. split; [lia|]. intros Hlt.
    specialize (Ha ltac:(lia)). specialize (Hb ltac:(lia)).
    rewrite <- (add_of_int V W) by lia.
    destruct (of_int_number V ltac:(lia)) as [_ IV].
    destruct (of_int_number W ltac:(lia)) as [_ IW].
    apply add_mono; try assumption.
    + apply (add_not_nan_of_upper a b (Np.of_int V) (Np.of_int W)); assumption.
    + unfold not_nan. rewrite add_of_int by lia. apply of_int_number. lia.
  - split; [lia | intros _; reflexivity].
  - apply H, Hsize.
Qed.

Lemma len_dropna_le (col : list float) : (len (Pd.dropna col) <= len col)%Z.
Proof. unfold len, Pd.dropna. apply inj_le, filter_length_le. Qed.

Lemma kept_le_100 (col : list float) :
  Forall (fun x => nan_or_le x 100) col ->
  Forall (fun x => (x <=? 100) = true) (Pd.dropna col).
Proof.
  unfold Pd.dropna. induction 1 as [|x col Hx _ IH]; cbn [filter]; [constructor|].
  destruct (Np.isnan x) eqn:E; cbn [negb]; [exact IH|].
  constructor; [|exact IH]. destruct Hx as [Hx | Hx]; [congruence | exact Hx].
Qed.

(** The mean of a column of scores of at most 100 is at most 100; it is
    [nan] when every score is missing. *)
Lemma mean_le_100 (col : list float) :
  Forall (fun x => nan_or_le x 100) col -> (100 * len col < 2 ^ 53)%Z ->
  nan_or_le (Pd.mean col) 100.
Proof.
  intros Hall Hsize. pose proof (len_dropna_le col) as Hl.
  destruct (nil_or_not (Pd.dropna col)) as [E | Hne].
  { left. unfold Pd.mean. rewrite E. reflexivity. }
  right. rewrite (mean_skipna col Hne).
  assert (Hn : (1 <= len (Pd.dropna col))%Z)
    by (destruct (Pd.dropna col); [congruence | unfold len; cbn [List.length]; lia]).
  pose proof (sum_le_hundreds col Hall ltac:(lia)) as Hs.
  assert (Pn : pos_finite_float (Np.of_int (len (Pd.dropna col)))).
  { apply of_int_pos_finite. split; [lia|].
    assert (2 ^ 53 <= 2 ^ 1023)%Z by (apply Z.pow_le_mono_r; lia). lia. }
  pose proof (div_mono _ _ _ Pn Hs) as Hd.
  replace (100 * len (Pd.dropna col))%Z with (len (Pd.dropna col) * 100)%Z in Hd by lia.
  rewrite div_of_int_exact in Hd by lia.
  exact Hd.
Qed.

Lemma kept_not_nan (l : list float) :
  Forall (fun x => (x <=? 100) = true) l -> Forall not_nan l.
Proof.
  intros H. eapply Forall_impl; [|exact H].
  intros x Hx. apply leb_parts in Hx as (N & _). exact N.
Qed.

Lemma round2_nan_or_le_100 (w : float) :
  nan_or_le w 100 -> nan_or_le (Np.round w 2) 100.
Proof.
  intros [H | H].
  - apply isnan_true_eq in H. subst w. left. vm_compute. reflexivity.
  - right. apply round2_le_100, H.
Qed.

Lemma max_le_100 (col : list float) :
  Forall (fun x => nan_or_le x 100) col -> nan_or_le (Pd.max col) 100.
Proof.
  intros Hall. unfold Pd.max. pose proof (kept_le_100 col Hall) as Hk.
  destruct (Pd.dropna col) as [|x t]; [left; reflexivity|]. right.
  pose proof (kept_not_nan _ Hk) as Hn. inversion Hn as [|? ? Nx Nt]; subst.
  destruct (fold_fmax_spec t x Nx Nt) as [Hin _].
  rewrite Forall_forall in Hk. apply Hk, Hin.
Qed.

Lemma min_le_100 (col : list float) :
  Forall (fun x => nan_or_le x 100) col -> nan_or_le (Pd.min col) 100.
Proof.
  intros Hall. unfold Pd.min. pose proof (kept_le_100 col Hall) as Hk.
  destruct (Pd.dropna col) as [|x t]; [left; reflexivity|]. right.
  pose proof (kept_not_nan _ Hk) as Hn. inversion Hn as [|? ? Nx Nt]; subst.
  destruct (fold_fmin_spec t x Nx Nt) as [Hin _].
  rewrite Forall_forall in Hk. apply Hk, Hin.
Qed.

Variable sent_tokenize : str -> list str.
Variable word_tokenize : str -> list str.
Variable lower : str -> str.
Variable flesch_reading_ease : str -> float.
Variable read_txt : str -> str.
Variable docx_paragraphs : str -> list str.

Local Abbreviation run_files :=
  (analyze_files sent_tokenize word_tokenize lower flesch_reading_ease
     read_txt docx_paragraphs).
Local Abbreviation rec_of :=
  (record_of sent_tokenize word_tokenize lower flesch_reading_ease
     read_txt docx_paragraphs).

(** Every row of the detail sheet carries a score of at most 100. *)
Lemma row_scores_le_100 (files : list str) :
  Forall (fun x => nan_or_le x 100)
    (map (fun r => a_ai_score (analysis r)) (flat_map rec_of files)).
Proof.
  apply Forall_forall. intros x Hx.
  apply in_map_iff in Hx as (r & <- & Hr).
  apply in_flat_map in Hr as (f & _ & Hr).
  unfold record_of in Hr.
  destruct (analyze_text_features sent_tokenize word_tokenize lower
              flesch_reading_ease (read_file_content read_txt docx_paragraphs f))
    as [e|[a|]] eqn:E; try contradiction.
  destruct Hr as [<- | []]. cbn [analysis].
  destruct (analyze_some_inv sent_tokenize word_tokenize lower flesch_reading_ease
              _ a E) as [Hne ->].
  apply accepted_score_bound, Hne.
Qed.

(** X17: the three score statistics of the summary sheet (the average,
    the highest and the lowest score) of every report the program writes
    are at most 100 (or [nan]), for any folder of fewer than [2^46]
    eligible files.  The sum behind the average never exceeds 100 times
    the number of rows, so that the rounding of the additions cannot
    carry the average above the largest possible score. *)
Theorem summary_scores_at_most_100
    (files : list str) (df : list Row) (summary : Summary) :
  run_files files = Return (Report df summary) ->
  (len files < 2 ^ 46)%Z ->
  nan_or_le (mean_score summary) 100 /\
  nan_or_le (max_score summary) 100 /\
  nan_or_le (min_score summary) 100.
Proof.
  intros H Hsize.
  destruct (run_files_report sent_tokenize word_tokenize lower flesch_reading_ease
              read_txt docx_paragraphs files df summary H) as (-> & -> & _ & _).
  pose proof (row_scores_le_100 files) as Hrows.
  cbn [mean_score max_score min_score summarize].
  split; [|split].
  - apply round2_nan_or_le_100, mean_le_100; [exact Hrows|].
    unfold len in *. rewrite length_map.
    pose proof (len_records sent_tokenize word_tokenize lower flesch_reading_ease
                  read_txt docx_paragraphs files) as E.
    unfold len in E. rewrite E.
    pose proof (filter_length_le
                  (analyzable sent_tokenize word_tokenize lower flesch_reading_ease
                     read_txt docx_paragraphs) files) as L.
    change (2 ^ 53)%Z with (128 * 2 ^ 46)%Z. lia.
  - apply max_le_100, Hrows.
  - apply min_le_100, Hrows.
Qed.

End SummaryBounds.

(** X17 on the sample corpus. *)
Lemma summary_scores_at_most_100_witness :
  let files := [SAMPLE_FILE_A; SAMPLE_FILE_B; SAMPLE_FILE_C] in
  let df :=
    flat_map (record_of Toy.sentences Toy.words Toy.lower Toy.no_readability
                sample_read_txt sample_docx_paragraphs) files in
  let summary := summarize df in
  nan_or_le (mean_score summary) 100 /\
  nan_or_le (max_score summary) 100 /\
  nan_or_le (min_score summary) 100.
Proof.
  cbv zeta.
  apply (summary_scores_at_most_100 Toy.sentences Toy.words Toy.lower
           Toy.no_readability sample_read_txt sample_docx_paragraphs
           [SAMPLE_FILE_A; SAMPLE_FILE_B; SAMPLE_FILE_C]
           (flat_map (record_of Toy.sentences Toy.words Toy.lower Toy.no_readability
                        sample_read_txt sample_docx_paragraphs)
              [SAMPLE_FILE_A; SAMPLE_FILE_B; SAMPLE_FILE_C])
           (summarize
              (flat_map (record_of Toy.sentences Toy.words Toy.lower
                           Toy.no_readability sample_read_txt sample_docx_paragraphs)
                 [SAMPLE_FILE_A; SAMPLE_FILE_B; SAMPLE_FILE_C]))).
  - vm_compute. reflexivity.
  - vm_compute. reflexivity.
Defined.

(* ================================================================== *)
(** ** The features as the report shows them *)

Section DisplayedRatios.

Import FloatKey Rnd Rounding FloatOrder Signs Ratios Exact Lower Scaling Rint.
Local Open Scope float_scope.

(** Rounding a number of [0, 1] to three decimals stays within [0, 1]. *)
Lemma py_round3_unit (x : float) :
  (0 <=? x) = true -> (x <=? 1) = true ->
  (0 <=? Np.py_round x 3) = true /\ (Np.py_round x 3 <=? 1) = true.
Proof.
  intros H0 H1. unfold Np.py_round.
  pose proof (Prim2SF_valid x) as V.
  apply leb_parts in H0 as P0. destruct P0 as (_ & _ & L0).
  apply leb_parts in H1 as P1. destruct P1 as (_ & _ & L1).
  destruct (Prim2SF x) as [s|s| |s m e] eqn:Ex; try (split; assumption).
  destruct (Z.leb_spec 0 e) as [He | He]; [split; assumption|].
  destruct s.
  { exfalso. change (Prim2SF 0) with (S754_zero false) in L0. cbn [key] in L0.
    unfold lex_le, lex_lt in L0. destruct L0 as [L | L]; [lia | discriminate]. }
  cbn [valid_binary] in V.
  change (Prim2SF 1) with (S754_finite false 4503599627370496 (-52)) in L1.
  cbn [key] in L1.
  assert (B1 : bounded prec emax 4503599627370496 (-52) = true)
    by (vm_compute; reflexivity).
  pose proof (key_le_value m e _ _ V B1 L1) as Hv.
  destruct (bounded_facts m e V) as (_ & _ & Hlo & _ & _).
  assert (Hm : (Z.pos m <= 2 ^ (- e))%Z).
  { assert (E : (2 ^ (- e) * 2 ^ (e + 1074) = 2 ^ 1074)%Z)
      by (rewrite <- Z.pow_add_r by lia; f_equal; lia).
    change (Z.pos 4503599627370496 * 2 ^ (-52 + 1074))%Z with (2 ^ 1074)%Z in Hv.
    rewrite <- E in Hv.
    apply Z.mul_le_mono_pos_r in Hv; [exact Hv | apply pow2_pos; lia]. }
  pose proof (pow2_pos (- e) ltac:(lia)) as HP.
  change (10 ^ 3)%Z with 1000%Z.
  set (q := Np.round_half_even (Z.pos m * 1000) (2 ^ (- e))).
  assert (Hq0 : (0 <= q)%Z) by (apply rhe_lower; lia).
  assert (Hq1 : (q <= 1000)%Z) by (apply rhe_upper_le; lia).
  unfold Np.signed_int. destruct (Z.eqb_spec q 0) as [Eq | Nq].
  - rewrite zero_div_of_int by lia. split; reflexivity.
  - destruct (ratio_in_unit_interval q 1000 ltac:(lia)) as [R0 R1].
    { assert (2 ^ 10 <= 2 ^ 1023)%Z by (apply Z.pow_le_mono_r; lia).
      change (2 ^ 10)%Z with 1024%Z in *. lia. }
    split; [apply ltb_leb, R0 | exact R1].
Qed.

(** [np.round] keeps what is not negative not negative. *)
Lemma round_nonneg (x : float) (decimals : Z) :
  pos_finite_float (Np.of_int (10 ^ decimals)) ->
  nan_or_ge x 0 -> nan_or_ge (Np.round x decimals) 0.
Proof.
  intros Pf H. unfold Np.round.
  destruct (nan_or_ge_cases x 0 H) as [-> | Hx].
  { left. unfold Np.isnan. rewrite FloatAxioms.eqb_spec, div_spec.
    replace (Prim2SF (Np.rint (nan * Np.of_int (10 ^ decimals)))) with S754_nan.
    - reflexivity.
    - rewrite rint_spec, mul_spec. reflexivity. }
  right.
  pose proof (mul_nonneg x _ Pf Hx) as Hm.
  apply leb_parts in Hm as (_ & Nm & Lm).
  change (key (Prim2SF 0)) with (0, 0, 0)%Z in Lm.
  destruct (SFrint_nonneg _ Nm Lm) as [Nr Lr].
  rewrite <- rint_spec in Nr, Lr.
  destruct (SFdiv_nonneg _ _ (Prim2SF_valid _) Nr Pf Lr) as [Nd Ld].
  apply leb_iff. unfold not_nan, fkey. rewrite div_spec.
  split; [vm_compute; discriminate | split; assumption].
Qed.

Variable sent_tokenize : str -> list str.
Variable word_tokenize : str -> list str.
Variable lower : str -> str.
Variable flesch_reading_ease : str -> float.

Local Abbreviation analyze :=
  (analyze_text_features sent_tokenize word_tokenize lower flesch_reading_ease).

(** X18: the two ratios as the report shows them, lexical diversity
    (詞彙多樣性) and the repetition ratio (重複率) rounded to three
    decimals, lie between 0 and 1 in every returned dictionary, for a
    text of at most [2^1023] word tokens.  A ratio may be shown as 0.0,
    although the ratio itself is positive. *)
Theorem displayed_ratios_within_unit_interval (text : str) (a : Analysis) :
  analyze text = Return (Some a) ->
  (len (word_tokenize (lower text)) <= 2 ^ 1023)%Z ->
  (0 <=? a_lexical_diversity a) = true /\ (a_lexical_diversity a <=? 1) = true /\
  (0 <=? a_repetition a) = true /\ (a_repetition a <=? 1) = true.
Proof.
  intros H Hn.
  destruct (analyze_some_inv sent_tokenize word_tokenize lower flesch_reading_ease
              text a H) as [Hne ->].
  destruct (word_counts (word_tokenize (lower text)) Hne) as (Hd & Hc & _).
  cbn [a_lexical_diversity a_repetition score_features ttr common_ratio features_of].
  destruct (ratio_in_unit_interval _ _ Hd Hn) as [T0 T1].
  destruct (ratio_in_unit_interval _ _ Hc Hn) as [C0 C1].
  destruct (py_round3_unit _ (ltb_leb _ _ T0) T1) as [A0 A1].
  destruct (py_round3_unit _ (ltb_leb _ _ C0) C1) as [B0 B1].
  auto.
Qed.

(** X19: the two features computed from the sentence lengths are never
    shown as negative numbers: in every returned dictionary the sentence
    variation (句長變異, three decimals) and the perplexity proxy
    (困惑度代理, two decimals) are each [nan] or at least 0. *)
Theorem displayed_variation_never_negative (text : str) (a : Analysis) :
  analyze text = Return (Some a) ->
  nan_or_ge (a_sentence_variation a) 0 /\ nan_or_ge (a_perplexity_proxy a) 0.
Proof.
  intros H.
  destruct (analyze_some_inv sent_tokenize word_tokenize lower flesch_reading_ease
              text a H) as [Hne ->].
  destruct (feature_signs sent_tokenize word_tokenize lower flesch_reading_ease
              text Hne) as (Hb & Hp & _).
  cbn [a_sentence_variation a_perplexity_proxy score_features].
  split; apply round_nonneg; try assumption; pos_finite_literal.
Qed.

End DisplayedRatios.

(** X18 on the repetitive sample. *)
Lemma displayed_ratios_within_unit_interval_witness :
  let a := score_features
             (features_of Toy.sentences Toy.words Toy.lower Toy.no_readability
                SAMPLE_REPETITIVE) in
  (0 <=? a_lexical_diversity a)%float = true /\
  (a_lexical_diversity a <=? 1)%float = true /\
  (0 <=? a_repetition a)%float = true /\ (a_repetition a <=? 1)%float = true.
Proof.
  cbv zeta.
  apply (displayed_ratios_within_unit_interval Toy.sentences Toy.words Toy.lower
           Toy.no_readability SAMPLE_REPETITIVE).
  - vm_compute. reflexivity.
  - vm_compute. discriminate.
Defined.

(** X19 on the bursty sample. *)
Lemma displayed_variation_never_negative_witness :
  let a := score_features
             (features_of Toy.sentences Toy.words Toy.lower Toy.no_readability
                SAMPLE_BURSTY) in
  nan_or_ge (a_sentence_variation a) 0 /\ nan_or_ge (a_perplexity_proxy a) 0.
Proof.
  cbv zeta.
  apply (displayed_variation_never_negative Toy.sentences Toy.words Toy.lower
           Toy.no_readability SAMPLE_BURSTY).
  vm_compute. reflexivity.
Defined.

(* ================================================================== *)
(** ** Sentences with word tokens: the division of line 48 is defined *)

Section DefinedBurstiness.

Import FloatKey Rnd Rounding FloatOrder Division Signs Ratios Exact Lower.
Import Signed Monotone Scaling Rint.
Local Open Scope float_scope.

(** *** Operations that give a number *)

Lemma SFadd_number (x y : spec_float) :
  valid_binary x = true -> valid_binary y = true ->
  sign_clear x -> sign_clear y -> x <> S754_nan -> y <> S754_nan ->
  SF64add x y <> S754_nan.
Proof.
  intros Vx Vy Sx Sy Nx Ny.
  destruct x as [sx|sx| |sx mx ex], y as [sy|sy| |sy my ey];
    cbn [sign_clear] in Sx, Sy; subst; try congruence; try discriminate.
  apply (rounds_signed_not_nan _ _
           (SFadd_rounds (S754_finite false mx ex) (S754_finite false my ey) Vx Vy I I)).
Qed.

Lemma SFmul_self_number (x : spec_float) :
  valid_binary x = true -> x <> S754_nan -> SF64mul x x <> S754_nan.
Proof.
  intros Vx Nx. destruct x as [s|s| |s m e]; try congruence; try discriminate.
  rewrite SFmul_finite. apply finish_not_nan, rnd_nonneg; [lia|].
  apply product_input_ok; exact Vx.
Qed.

Lemma SFsub_number (sa : bool) (ma : positive) (ea : Z) (sb : bool) (mb : positive) (eb : Z) :
  bounded prec emax ma ea = true -> bounded prec emax mb eb = true ->
  SF64sub (S754_finite sa ma ea) (S754_finite sb mb eb) <> S754_nan.
Proof. intros Ha Hb. apply (rounds_value_not_nan _ _ (SFsub_finite sa ma ea sb mb eb Ha Hb)). Qed.

Lemma SFdiv_number (x c : spec_float) :
  sign_clear x -> x <> S754_nan -> pos_finite c -> SF64div x c <> S754_nan.
Proof.
  intros Sx Nx (pc & ec & -> & Bc).
  destruct x as [s|s| |s m e]; cbn [sign_clear] in Sx; subst; try congruence;
    try discriminate.
  apply SFdiv_not_nan.
Qed.

Lemma SFsqrt_number (x : spec_float) :
  sign_clear x -> x <> S754_nan -> SF64sqrt x <> S754_nan.
Proof.
  intros Sx Nx. destruct x as [s|s| |s m e]; cbn [sign_clear] in Sx; subst;
    try congruence; try discriminate.
  unfold SF64sqrt, SFsqrt.
  destruct (SFsqrt_core_binary prec emax (Z.pos m) e) as [[mz ez] lz] eqn:E.
  assert (Hmz : (0 <= mz)%Z).
  { unfold SFsqrt_core_binary in E.
    destruct (Z.sqrtrem _) as [q r] eqn:Eq in E. injection E as <- _ _.
    change q with (fst (q, r)). rewrite <- Eq, Z.sqrtrem_sqrt. apply Z.sqrt_nonneg. }
  destruct (binary_round_aux_sign false mz ez lz Hmz) as (me & -> & Hme).
  apply finish_not_nan, Hme.
Qed.

(** A number whose sign is clear: zero, positive or [+inf]. *)
Lemma number_nonneg (x : float) :
  sign_clear_or_nan x -> not_nan x -> Np.isnan x = false /\ (0 <=? x) = true.
Proof.
  intros S N. split; [apply isnan_false_iff, N|].
  destruct (sign_clear_nonneg x S) as [H | H]; [|exact H].
  apply isnan_false_iff in N. congruence.
Qed.

(** Sums of such numbers are such numbers. *)
Lemma sum_of_numbers (l : list float) :
  Forall (fun x => sign_clear_or_nan x /\ not_nan x) l ->
  sign_clear_or_nan (Np.sum l) /\ not_nan (Np.sum l).
Proof.
  intros H. rewrite <- (map_id l).
  apply (sum_invariant float (fun x => x) (fun _ => 0%Z)
           (fun _ x => sign_clear_or_nan x /\ not_nan x)).
  - intros i Hi. rewrite Forall_forall in H. apply H, Hi.
  - intros _ _ a b [Sa Na] [Sb Nb]. split; [apply sign_clear_add; assumption|].
    unfold not_nan. rewrite add_spec.
    apply SFadd_number; try apply Prim2SF_valid; assumption.
  - split; [reflexivity | discriminate].
Qed.

(** *** The mean of counts that are at least 1 *)

Lemma weight_map {A B : Type} (w : B -> Z) (f : A -> B) (l : list A) :
  weight w (map f l) = weight (fun x => w (f x)) l.
Proof.
  induction l as [|x l IH]; [reflexivity|].
  cbn [map]. unfold weight in *. cbn [fold_right]. rewrite IH. reflexivity.
Qed.

Lemma weight_at_least_len (a : list Z) :
  Forall (fun v => (1 <= v)%Z) a -> (len a <= weight (fun v => v) a)%Z.
Proof.
  induction 1 as [|v a Hv _ IH]; [reflexivity|].
  change (weight (fun v => v) (v :: a)) with (v + weight (fun v => v) a)%Z.
  unfold len in *. cbn [List.length]. lia.
Qed.

Lemma mean_of_positive_counts (a : list Z) :
  a <> [] -> Forall (fun v => (1 <= v)%Z) a -> (weight (fun v => v) a < 2 ^ 53)%Z ->
  pos_finite_float (Np.mean a) /\ (1 <=? Np.mean a) = true.
Proof.
  intros Hne Hpos Hsize.
  assert (Hnn : Forall (fun v => (0 <= v)%Z) a)
    by (eapply Forall_impl; [|exact Hpos]; cbv beta; intros; lia).
  destruct (sums_of_counts a Hnn Hsize) as [_ Hsum].
  unfold Np.mean. rewrite Hsum.
  pose proof (weight_at_least_len a Hpos) as Hw.
  assert (Hn : (1 <= len a)%Z)
    by (destruct a; [congruence | unfold len; cbn [List.length]; lia]).
  set (n := len a) in *. set (S := weight (fun v => v) a) in *.
  assert (H1023 : (2 ^ 53 <= 2 ^ 1023)%Z) by (apply Z.pow_le_mono_r; lia).
  destruct (of_int_exact S ltac:(lia)) as (pS & eS & ES & BS & VS).
  destruct (of_int_exact n ltac:(lia)) as (pn & en & En & Bn & Vn).
  assert (B1 : bounded prec emax 4503599627370496 (-52) = true) by (vm_compute; reflexivity).
  assert (P : (0 < 2 ^ 1074)%Z) by (apply pow2_pos; lia).
  (* between n / n = 1 and S / 1 = S *)
  assert (Lo : lex_le (key (SF64div (S754_finite false pn en) (S754_finite false pn en)))
                 (key (SF64div (S754_finite false pS eS) (S754_finite false pn en))))
    by (apply SFdiv_mono; try assumption; rewrite VS, Vn; nia).
  assert (Hi : lex_le (key (SF64div (S754_finite false pS eS) (S754_finite false pn en)))
                 (key (SF64div (S754_finite false pS eS) SF_ONE)))
    by (apply SFdiv_mono; try assumption; rewrite VS, Vn;
        change (Z.pos 4503599627370496 * 2 ^ (-52 + 1074))%Z with (2 ^ 1074)%Z; nia).
  assert (E1 : SF64div (S754_finite false pn en) (S754_finite false pn en) = SF_ONE).
  { rewrite <- En, <- div_spec.
    replace (Np.of_int n) with (Np.of_int (n * 1)) at 1 by (f_equal; lia).
    rewrite div_of_int_exact by lia. reflexivity. }
  assert (E2 : SF64div (S754_finite false pS eS) SF_ONE = S754_finite false pS eS).
  { change SF_ONE with (Prim2SF (Np.of_int 1)). rewrite <- ES, <- div_spec.
    replace (Np.of_int S) with (Np.of_int (1 * S)) at 1 by (f_equal; lia).
    rewrite div_of_int_exact by lia. reflexivity. }
  rewrite E1 in Lo. rewrite E2 in Hi.
  pose proof (Prim2SF_valid (Np.of_int S / Np.of_int n)) as V.
  pose proof (SFdiv_not_nan false pS eS false pn en) as [N _].
  assert (Ed : Prim2SF (Np.of_int S / Np.of_int n)
               = SF64div (S754_finite false pS eS) (S754_finite false pn en))
    by (rewrite div_spec, ES, En; reflexivity).
  rewrite <- Ed in Lo, Hi, N.
  split.
  - unfold pos_finite_float, pos_finite.
    destruct (Prim2SF (Np.of_int S / Np.of_int n)) as [s|s| |s m e]; try congruence;
      cbn [key SF_ONE] in Lo, Hi; unfold lex_le, lex_lt in Lo, Hi.
    + destruct Lo as [L | L]; [lia | discriminate].
    + destruct s; [destruct Lo as [L | L]; [lia | discriminate]
                  | destruct Hi as [L | L]; [lia | discriminate]].
    + destruct s; [destruct Lo as [L | L]; [lia | discriminate]|].
      exists m, e. split; [reflexivity | exact V].
  - apply leb_iff. split; [vm_compute; discriminate|]. split; [exact N|].
    exact Lo.
Qed.

Variable sent_tokenize : str -> list str.
Variable word_tokenize : str -> list str.
Variable lower : str -> str.
Variable flesch_reading_ease : str -> float.

Local Abbreviation extract :=
  (extract_features sent_tokenize word_tokenize lower flesch_reading_ease).

(** X21: when every sentence of an accepted text has a word token, as
    with nltk's tokenizers, and the sentences hold fewer than [2^53]
    word tokens in all, the division of line 48 needs no guard: the mean
    sentence length is at least 1, and burstiness and the perplexity
    proxy are numbers, not [nan], and not negative. *)
Theorem burstiness_is_a_number (text : str) (fv : FeatureVector) :
  extract text = Return (Some fv) ->
  sent_tokenize text <> [] ->
  Forall (fun s => word_tokenize s <> []) (sent_tokenize text) ->
  (weight (fun s => len (word_tokenize s)) (sent_tokenize text) < 2 ^ 53)%Z ->
  (1 <=? Np.mean (sent_lengths_of word_tokenize (sent_tokenize text))) = true /\
  Np.isnan (burstiness fv) = false /\ (0 <=? burstiness fv) = true /\
  Np.isnan (pseudo_perplexity fv) = false /\ (0 <=? pseudo_perplexity fv) = true.
Proof.
  intros H Hs Hall Hsize.
  apply (extract_some_inv sent_tokenize word_tokenize lower flesch_reading_ease)
    in H as [_ ->].
  cbn [burstiness pseudo_perplexity features_of].
  set (a := sent_lengths_of word_tokenize (sent_tokenize text)).
  assert (Ha : a <> []).
  { subst a. unfold sent_lengths_of.
    destruct (sent_tokenize text) eqn:E; [congruence | discriminate]. }
  assert (Hpos : Forall (fun v => (1 <= v)%Z) a).
  { subst a. unfold sent_lengths_of. apply Forall_map.
    eapply Forall_impl; [|exact Hall]. intros s Hne. cbv beta.
    destruct (word_tokenize s) eqn:E; [congruence | unfold len; cbn [List.length]; lia]. }
  assert (Hw : weight (fun v => v) a
               = weight (fun s => len (word_tokenize s)) (sent_tokenize text)).
  { subst a. unfold sent_lengths_of.
    exact (weight_map (fun v => v) (fun s => len (word_tokenize s)) (sent_tokenize text)). }
  rewrite <- Hw in Hsize.
  destruct (mean_of_positive_counts a Ha Hpos Hsize) as [Pm Hm].
  split; [exact Hm|].
  (* the variance is a number *)
  assert (Hv : sign_clear_or_nan (Np.var a) /\ not_nan (Np.var a)).
  { split; [apply sign_clear_var|].
    unfold Np.var, Np.var_ddof. cbv zeta. unfold not_nan. rewrite div_spec.
    assert (Hn : (1 <= len a)%Z)
      by (destruct a; [congruence | unfold len; cbn [List.length]; lia]).
    assert (H1023 : (2 ^ 53 <= 2 ^ 1023)%Z) by (apply Z.pow_le_mono_r; lia).
    pose proof (weight_at_least_len a Hpos) as Hwl.
    apply SFdiv_number.
    - apply sign_clear_sum. rewrite Forall_map. apply Forall_forall.
      intros d _. apply sign_clear_square.
    - apply sum_of_numbers. rewrite Forall_map, Forall_map. apply Forall_forall.
      intros v Hv. split; [apply sign_clear_square|].
      unfold not_nan. rewrite mul_spec.
      apply SFmul_self_number; [apply Prim2SF_valid|].
      rewrite sub_spec.
      destruct Pm as (pm & em & Em & Bm). rewrite Em.
      assert (Hv1 : (1 <= v)%Z) by (rewrite Forall_forall in Hpos; apply Hpos, Hv).
      assert (Hvle : (v <= weight (fun v => v) a)%Z).
      { clear - Hv Hpos. induction a as [|u a IH]; [destruct Hv|].
        inversion Hpos as [|? ? Hu Ht]; subst.
        change (weight (fun v => v) (u :: a)) with (u + weight (fun v => v) a)%Z.
        pose proof (weight_at_least_len a Ht) as Hl. pose proof (len_nonneg a).
        destruct Hv as [-> | Hv]; [lia | specialize (IH Ht Hv); lia]. }
      destruct (of_int_exact v ltac:(lia)) as (pv & ev & -> & Bv & _).
      apply SFsub_number; assumption.
    - replace (Z.max (len a - 0) 0) with (len a) by lia.
      apply of_int_pos_finite. lia. }
  assert (Hstd : sign_clear_or_nan (Np.std a) /\ not_nan (Np.std a)).
  { split; [apply sign_clear_std|]. unfold Np.std, not_nan. rewrite sqrt_spec.
    apply SFsqrt_number; apply Hv. }
  assert (Hb : sign_clear_or_nan (Np.std a / Np.mean a) /\ not_nan (Np.std a / Np.mean a)).
  { split.
    - apply sign_clear_div; [apply Hstd|].
      destruct Pm as (pm & em & Em & _). unfold sign_clear_or_nan. rewrite Em. reflexivity.
    - unfold not_nan. rewrite div_spec. apply SFdiv_number; [apply Hstd | apply Hstd | exact Pm]. }
  destruct (number_nonneg _ (proj1 Hb) (proj2 Hb)) as [B1 B2].
  destruct (number_nonneg _ (proj1 Hv) (proj2 Hv)) as [V1 V2].
  auto.
Qed.

End DefinedBurstiness.

(** X21 on the bursty sample. *)
Lemma burstiness_is_a_number_witness :
  let fv := features_of Toy.sentences Toy.words Toy.lower Toy.no_readability
              SAMPLE_BURSTY in
  Np.isnan (burstiness fv) = false /\ (0 <=? burstiness fv)%float = true.
Proof.
  cbv zeta.
  destruct (burstiness_is_a_number Toy.sentences Toy.words Toy.lower Toy.no_readability
              SAMPLE_BURSTY
              (features_of Toy.sentences Toy.words Toy.lower Toy.no_readability
                 SAMPLE_BURSTY)) as (_ & H1 & H2 & _).
  - vm_compute. reflexivity.
  - vm_compute. discriminate.
  - vm_compute. repeat constructor; discriminate.
  - vm_compute. reflexivity.
  - split; assumption.
Defined.
